(** * Nexus-Agentic-AI: the response formatter, the markdown renderer and the
      copy controls, as a shallow embedding of the JavaScript sources.

    - [src/response-template.js]: [formatResponse], [convertMarkdownToHTML],
      [processResponse], [copyCodeBlock];
    - [src/public/response-formatter.js]: [formatResponse], the citation step;
    - the copy-button script: [copyCodeBlock], [showCopySuccess],
      [addCopyButtons];
    - [server.js]: the upload filter, the choice of a branch and the CSV
      prompt of the upload route, the last route.

    A JavaScript string is a sequence of 16-bit code units; it is modelled as
    a [list Z].  Regular expressions are kept as syntax trees and run by a
    backtracking matcher that follows the ECMAScript matching rules. *)

From Stdlib Require Import String Ascii ZArith Lia Arith Bool List DecimalString.
Import ListNotations.
Open Scope Z_scope.

Set Implicit Arguments.

(* ================================================================== *)
(** * Part I: definitions *)
(* ================================================================== *)

(** ** JavaScript strings *)

Definition jsstring := list Z.

(** An ASCII literal of the source, as code units. *)
Definition str (s : string) : jsstring :=
  map (fun a => Z.of_N (N_of_ascii a)) (list_ascii_of_string s).

Definition dq : jsstring := [34].       (* the double quote *)
Definition nl : Z := 10.                (* line feed *)

Fixpoint eqs (a b : jsstring) : bool :=
  match a, b with
  | [], [] => true
  | x :: a', y :: b' => (x =? y) && eqs a' b'
  | _, _ => false
  end.

(** [s.startsWith(p)], and the remainder after [p]. *)
Fixpoint strip_prefix (p s : jsstring) : option jsstring :=
  match p with
  | [] => Some s
  | x :: p' =>
      match s with
      | y :: s' => if x =? y then strip_prefix p' s' else None
      | [] => None
      end
  end.

Definition startsWith (p s : jsstring) : bool :=
  match strip_prefix p s with Some _ => true | None => false end.

Definition endsWith (p s : jsstring) : bool := startsWith (rev p) (rev s).

(** [s.indexOf(p) >= 0], as a test for an occurrence of [p] in [s]. *)
Fixpoint includes (p s : jsstring) : bool :=
  startsWith p s || match s with [] => false | _ :: s' => includes p s' end.

(** Number of (possibly overlapping) occurrences of [p] in [s]. *)
Fixpoint occurrences (p s : jsstring) : nat :=
  ((if startsWith p s then 1 else 0) +
   match s with [] => 0 | _ :: s' => occurrences p s' end)%nat.

(** ECMAScript WhiteSpace and LineTerminator code points: the characters
    removed by [String.prototype.trim] and matched by [\s]. *)
Definition is_ws (c : Z) : bool :=
  ((9 <=? c) && (c <=? 13)) || (c =? 32) || (c =? 160) || (c =? 5760)
  || ((8192 <=? c) && (c <=? 8202)) || (c =? 8232) || (c =? 8233)
  || (c =? 8239) || (c =? 8287) || (c =? 12288) || (c =? 65279).

(** LineTerminator: what [.] refuses and what [^] and [$] look at under [m]. *)
Definition is_lt (c : Z) : bool :=
  (c =? 10) || (c =? 13) || (c =? 8232) || (c =? 8233).

Definition is_digit (c : Z) : bool := (48 <=? c) && (c <=? 57).
Definition is_upper (c : Z) : bool := (65 <=? c) && (c <=? 90).
Definition is_lower (c : Z) : bool := (97 <=? c) && (c <=? 122).
Definition is_alpha (c : Z) : bool := is_upper c || is_lower c.
(** [\w] *)
Definition is_word (c : Z) : bool := is_alpha c || is_digit c || (c =? 95).

Fixpoint trimStart (s : jsstring) : jsstring :=
  match s with
  | c :: s' => if is_ws c then trimStart s' else s
  | [] => []
  end.

Definition trimEnd (s : jsstring) : jsstring := rev (trimStart (rev s)).

Definition trim (s : jsstring) : jsstring := trimEnd (trimStart s).

(** [toLowerCase] on the characters that can take part in a comparison with
    an ASCII language name: A-Z, and U+212A KELVIN SIGN, the one code unit
    outside ASCII whose lower case is a single ASCII letter. *)
Definition lower_char (c : Z) : Z :=
  if is_upper c then c + 32 else if c =? 8490 then 107 else c.

Definition toLowerCase (s : jsstring) : jsstring := map lower_char s.

(** [s.indexOf(c)] for a single character. *)
Fixpoint indexOf (c : Z) (s : jsstring) : option nat :=
  match s with
  | [] => None
  | x :: s' => if x =? c then Some O else option_map S (indexOf c s')
  end.

(** ** Regular expressions *)

Inductive regex : Type :=
| Empty                               (* the empty pattern *)
| Char (c : Z)                        (* a literal character *)
| Class (p : Z -> bool)               (* a class, an escape such as \s, or . *)
| Seq (r1 r2 : regex)
| Alt (r1 r2 : regex)                 (* r1|r2 *)
| Star (r : regex)                    (* r*  (greedy) *)
| LazyStar (r : regex)                (* r*? *)
| Group (i : nat) (r : regex)         (* the i-th capturing group *)
| Backref (i : nat)                   (* \i *)
| Ahead (r : regex)                   (* (?=r) *)
| NotAhead (r : regex)                (* (?!r) *)
| LineStart (multiline : bool)        (* ^ *)
| LineEnd (multiline : bool)          (* $ *)
| WordBoundary.                       (* \b *)

Definition Plus (r : regex) : regex := Seq r (Star r).     (* r+ *)
Definition Opt (r : regex) : regex := Alt r Empty.         (* r? *)
Definition Dot : regex := Class (fun c => negb (is_lt c)). (* . *)
Definition Any : regex := Class (fun _ => true).           (* [\s\S] *)
Definition Ws : regex := Class is_ws.                      (* \s *)
Definition Digit : regex := Class is_digit.                (* \d *)
Definition Not (c : Z) : regex := Class (fun x => negb (x =? c)).

Fixpoint Lit (s : jsstring) : regex :=
  match s with
  | [] => Empty
  | [c] => Char c
  | c :: s' => Seq (Char c) (Lit s')
  end.

Fixpoint AltL (rs : list regex) : regex :=
  match rs with
  | [] => NotAhead Empty
  | [r] => r
  | r :: rs' => Alt r (AltL rs')
  end.

Definition captures := list (nat * jsstring).

Fixpoint capture (i : nat) (cs : captures) : jsstring :=
  match cs with
  | [] => []                      (* an unset group reads as the empty string *)
  | (j, v) :: cs' => if Nat.eqb i j then v else capture i cs'
  end.

(** The matcher's position: the character before it (none at the start of the
    input), the input still to read, and the captures made so far. *)
Record mstate : Type := MState {
  before : option Z;
  rest : jsstring;
  caps : captures
}.

Definition cont := mstate -> option mstate.

Definition orElse (a : option mstate) (b : unit -> option mstate) : option mstate :=
  match a with Some x => Some x | None => b tt end.

Definition step_char (p : Z -> bool) (st : mstate) (k : cont) : option mstate :=
  match rest st with
  | c :: t => if p c then k (MState (Some c) t (caps st)) else None
  | [] => None
  end.

Definition word_before (st : mstate) : bool :=
  match before st with Some c => is_word c | None => false end.

Definition word_after (st : mstate) : bool :=
  match rest st with c :: _ => is_word c | [] => false end.

(** RepeatMatcher for [r*] and [r*?]: an iteration that consumes nothing is
    refused, so [fuel] above the length of the remaining input is never used
    up. *)
Fixpoint star_loop (body : mstate -> cont -> option mstate) (greedy : bool)
         (fuel : nat) (st : mstate) (k : cont) : option mstate :=
  match fuel with
  | O => k st
  | S fuel' =>
      let again (_ : unit) :=
        body st (fun st' =>
          if Nat.ltb (length (rest st')) (length (rest st))
          then star_loop body greedy fuel' st' k
          else None) in
      if greedy then orElse (again tt) (fun _ => k st)
      else orElse (k st) again
  end.

Fixpoint follow_backref (v : jsstring) (st : mstate) : option mstate :=
  match v with
  | [] => Some st
  | x :: v' =>
      match rest st with
      | c :: t => if c =? x then follow_backref v' (MState (Some c) t (caps st)) else None
      | [] => None
      end
  end.

Fixpoint rmatch (r : regex) (st : mstate) (k : cont) {struct r} : option mstate :=
  match r with
  | Empty => k st
  | Char c => step_char (Z.eqb c) st k
  | Class p => step_char p st k
  | Seq r1 r2 => rmatch r1 st (fun st1 => rmatch r2 st1 k)
  | Alt r1 r2 => orElse (rmatch r1 st k) (fun _ => rmatch r2 st k)
  | Star r1 => star_loop (rmatch r1) true (S (length (rest st))) st k
  | LazyStar r1 => star_loop (rmatch r1) false (S (length (rest st))) st k
  | Group i r1 =>
      rmatch r1 st (fun st1 =>
        k (MState (before st1) (rest st1)
             ((i, firstn (length (rest st) - length (rest st1)) (rest st)) :: caps st1)))
  | Backref i =>
      match follow_backref (capture i (caps st)) st with
      | Some st1 => k st1
      | None => None
      end
  | Ahead r1 =>
      match rmatch r1 st (fun st1 => Some st1) with
      | Some st1 => k (MState (before st) (rest st) (caps st1))
      | None => None
      end
  | NotAhead r1 =>
      match rmatch r1 st (fun st1 => Some st1) with
      | Some _ => None
      | None => k st
      end
  | LineStart m =>
      match before st with
      | None => k st
      | Some c => if m && is_lt c then k st else None
      end
  | LineEnd m =>
      match rest st with
      | [] => k st
      | c :: _ => if m && is_lt c then k st else None
      end
  | WordBoundary => if xorb (word_before st) (word_after st) then k st else None
  end.

(** One attempt at one position: the matched text and the captures. *)
Definition exec (r : regex) (prev : option Z) (s : jsstring)
  : option (jsstring * captures * jsstring) :=
  match rmatch r (MState prev s []) (fun st => Some st) with
  | Some st => Some (firstn (length s - length (rest st)) s, caps st, rest st)
  | None => None
  end.

(** The pieces a global search cuts its input into. *)
Inductive seg : Type :=
| Keep (c : Z)
| Hit (m : jsstring) (cs : captures).

(** The search of [String.prototype.replace] with a [g] regex: leftmost
    matches, each search resuming where the previous match ended, one
    character further after an empty match. *)
Fixpoint scan (r : regex) (fuel : nat) (prev : option Z) (s : jsstring) : list seg :=
  match fuel with
  | O => map Keep s
  | S fuel' =>
      match exec r prev s with
      | Some (m, cs, s') =>
          match m with
          | [] =>
              match s with
              | [] => [Hit [] cs]
              | c :: t => Hit [] cs :: Keep c :: scan r fuel' (Some c) t
              end
          | _ :: _ => Hit m cs :: scan r fuel' (Some (last m 0)) s'
          end
      | None =>
          match s with
          | [] => []
          | c :: t => Keep c :: scan r fuel' (Some c) t
          end
      end
  end.

(** The search without [g]: the leftmost match only. *)
Fixpoint scan_first (r : regex) (prev : option Z) (s : jsstring) : list seg :=
  match exec r prev s with
  | Some (m, cs, s') => Hit m cs :: map Keep s'
  | None =>
      match s with
      | [] => []
      | c :: t => Keep c :: scan_first r (Some c) t
      end
  end.

Definition replacer := jsstring -> captures -> jsstring.

Definition render (f : replacer) (g : seg) : jsstring :=
  match g with
  | Keep c => [c]
  | Hit m cs => f m cs
  end.

Definition replace_all (r : regex) (f : replacer) (s : jsstring) : jsstring :=
  flat_map (render f) (scan r (S (length s)) None s).

Definition replace_first (r : regex) (f : replacer) (s : jsstring) : jsstring :=
  flat_map (render f) (scan_first r None s).

(** ** Replacement patterns (GetSubstitution) *)

Definition dollar : Z := 36.

(** A replacement template of a regex with [m] capturing groups (at most 9):
    [$$], [$&] and [$1]..[$m]; any other [$] stands for itself.  None of the
    regex replacements of the sources uses the two positional patterns. *)
Fixpoint expand (m : nat) (t : jsstring) (matched : jsstring) (cs : captures) : jsstring :=
  match t with
  | [] => []
  | c :: t1 =>
      if c =? dollar then
        match t1 with
        | d :: t2 =>
            if d =? dollar then dollar :: expand m t2 matched cs
            else if d =? 38 then matched ++ expand m t2 matched cs
            else if (49 <=? d) && (d <=? 57) && Nat.leb (Z.to_nat (d - 48)) m
                 then capture (Z.to_nat (d - 48)) cs ++ expand m t2 matched cs
            else dollar :: expand m t1 matched cs
        | [] => [dollar]
        end
      else c :: expand m t1 matched cs
  end.

Definition template (m : nat) (t : jsstring) : replacer := expand m t.

(** The replacement patterns of a string pattern: no capture exists, so the
    patterns are [$$], [$&], [$`] and [$']. *)
Fixpoint expand_str (t matched pre post : jsstring) : jsstring :=
  match t with
  | [] => []
  | c :: t1 =>
      if c =? dollar then
        match t1 with
        | d :: t2 =>
            if d =? dollar then dollar :: expand_str t2 matched pre post
            else if d =? 38 then matched ++ expand_str t2 matched pre post
            else if d =? 96 then pre ++ expand_str t2 matched pre post
            else if d =? 39 then post ++ expand_str t2 matched pre post
            else dollar :: expand_str t1 matched pre post
        | [] => [dollar]
        end
      else c :: expand_str t1 matched pre post
  end.

(** [s.replace(pat, t)] with a string pattern: the first occurrence only. *)
Fixpoint replace_str_from (pat t pre_rev s : jsstring) : jsstring :=
  match strip_prefix pat s with
  | Some post => rev pre_rev ++ expand_str t pat (rev pre_rev) post ++ post
  | None =>
      match s with
      | [] => rev pre_rev
      | c :: s' => replace_str_from pat t (c :: pre_rev) s'
      end
  end.

Definition replace_str (pat t s : jsstring) : jsstring :=
  replace_str_from pat t [] s.

(** ** Helpers for writing the patterns of the sources *)

Definition ch (s : string) : Z := hd 0 (str s).

(** A double-quoted attribute value. *)
Definition q (s : string) : jsstring := dq ++ str s ++ dq.

Definition one_of (s : string) (c : Z) : bool := existsb (Z.eqb c) (str s).
Definition none_of (s : string) (c : Z) : bool := negb (one_of s c).

Fixpoint SeqL (rs : list regex) : regex :=
  match rs with
  | [] => Empty
  | [r] => r
  | r :: rs' => Seq r (SeqL rs')
  end.


(** ** [formatResponse] (both formatter files have the same text) *)

Module Formatter.

Definition format : jsstring := str "# {title}" ++ [nl; nl] ++ str "{answer}".

Definition formatResponse (question answer : jsstring) : jsstring :=
  let title := if endsWith (str "?") question then question
               else question ++ str "?" in
  replace_str (str "{answer}") answer
    (replace_str (str "{title}") title format).

End Formatter.
(** ** The encoding that keeps the original code

    [convertMarkdownToHTML] stores [btoa(unescape(encodeURIComponent(c)))];
    [copyCodeBlock] reads it back with [decodeURIComponent(escape(atob(e)))].
    The six built-ins follow ECMAScript (the two URI functions, [escape] and
    [unescape]) and the HTML standard ([btoa], and [atob] with its forgiving
    base64 decoding).  A thrown exception is [None]. *)

Module Codec.

Definition hex_digit (d : Z) : Z := if d <? 10 then 48 + d else 55 + d.

Definition hex_val (c : Z) : option Z :=
  if is_digit c then Some (c - 48)
  else if (65 <=? c) && (c <=? 70) then Some (c - 55)
  else if (97 <=? c) && (c <=? 102) then Some (c - 87)
  else None.

(** A percent sign and the two upper-case hexadecimal digits of an octet. *)
Definition pct (b : Z) : jsstring := [37; hex_digit (b / 16); hex_digit (b mod 16)].

Definition is_high (c : Z) : bool := (55296 <=? c) && (c <=? 56319).
Definition is_low (c : Z) : bool := (56320 <=? c) && (c <=? 57343).

(** The code point of a surrogate pair. *)
Definition pair_point (hi lo : Z) : Z := 65536 + (hi - 55296) * 1024 + (lo - 56320).

(** The UTF-8 octets of a code point. *)
Definition utf8 (cp : Z) : list Z :=
  if cp <? 128 then [cp]
  else if cp <? 2048 then [192 + cp / 64; 128 + cp mod 64]
  else if cp <? 65536 then
    [224 + cp / 4096; 128 + (cp / 64) mod 64; 128 + cp mod 64]
  else
    [240 + cp / 262144; 128 + (cp / 4096) mod 64; 128 + (cp / 64) mod 64;
     128 + cp mod 64].

(** The code units of a code point. *)
Definition utf16 (cp : Z) : jsstring :=
  if cp <? 65536 then [cp]
  else [55296 + (cp - 65536) / 1024; 56320 + (cp - 65536) mod 1024].

Definition uri_unreserved (c : Z) : bool :=
  is_alpha c || is_digit c || one_of "-_.!~*'()" c.

(** [encodeURIComponent]: an unreserved character stands for itself; any
    other code point becomes the escaped octets of its UTF-8 form; an
    unpaired surrogate throws a URIError. *)
Fixpoint encodeURIComponent (s : jsstring) : option jsstring :=
  match s with
  | [] => Some []
  | c :: t =>
      if uri_unreserved c then option_map (cons c) (encodeURIComponent t)
      else if is_low c then None
      else if is_high c then
        match t with
        | d :: t' =>
            if is_low d
            then option_map (app (flat_map pct (utf8 (pair_point c d))))
                            (encodeURIComponent t')
            else None
        | [] => None
        end
      else option_map (app (flat_map pct (utf8 c))) (encodeURIComponent t)
  end.

Definition hex_octet (t : jsstring) : option Z :=
  match t with
  | a :: b :: _ =>
      match hex_val a, hex_val b with
      | Some x, Some y => Some (16 * x + y)
      | _, _ => None
      end
  | _ => None
  end.

(** What follows a percent sign in [unescape]: [uXXXX] or [XX], with the
    number of characters it takes. *)
Definition unescape_at (t : jsstring) : option (Z * nat) :=
  match t with
  | u :: t' =>
      match (if u =? 117 then hex_octet t' else None),
            (if u =? 117 then hex_octet (skipn 2 t') else None) with
      | Some hi, Some lo => Some (256 * hi + lo, 5%nat)
      | _, _ =>
          match hex_octet t with
          | Some b => Some (b, 2%nat)
          | None => None
          end
      end
  | [] => None
  end.

(** [unescape]; [skip] counts the characters of an escape still to pass. *)
Fixpoint unescape_loop (skip : nat) (s : jsstring) : jsstring :=
  match s with
  | [] => []
  | c :: t =>
      match skip with
      | S n => unescape_loop n t
      | O =>
          if c =? 37 then
            match unescape_at t with
            | Some (v, n) => v :: unescape_loop n t
            | None => c :: unescape_loop 0 t
            end
          else c :: unescape_loop 0 t
      end
  end.

Definition unescape (s : jsstring) : jsstring := unescape_loop 0 s.

(** *** [btoa] and [atob] *)

Definition b64_char (v : Z) : Z :=
  if v <? 26 then 65 + v
  else if v <? 52 then 71 + v
  else if v <? 62 then v - 4
  else if v =? 62 then 43
  else 47.

Definition b64_val (c : Z) : option Z :=
  if is_upper c then Some (c - 65)
  else if is_lower c then Some (c - 71)
  else if is_digit c then Some (c + 4)
  else if c =? 43 then Some 62
  else if c =? 47 then Some 63
  else None.

Fixpoint b64_encode (bs : list Z) : jsstring :=
  match bs with
  | [] => []
  | [a] => [b64_char (a / 4); b64_char ((a mod 4) * 16); 61; 61]
  | [a; b] =>
      [b64_char (a / 4); b64_char ((a mod 4) * 16 + b / 16);
       b64_char ((b mod 16) * 4); 61]
  | a :: b :: c :: t =>
      b64_char (a / 4) :: b64_char ((a mod 4) * 16 + b / 16)
      :: b64_char ((b mod 16) * 4 + c / 64) :: b64_char (c mod 64)
      :: b64_encode t
  end.

(** [btoa] throws on a character above U+00FF. *)
Definition btoa (s : jsstring) : option jsstring :=
  if forallb (fun c => (0 <=? c) && (c <=? 255)) s
  then Some (b64_encode s) else None.

Definition is_ascii_ws (c : Z) : bool :=
  (c =? 9) || (c =? 10) || (c =? 12) || (c =? 13) || (c =? 32).

(** At most two trailing [=], taken off the reversed text. *)
Definition strip_padding_rev (r : jsstring) : jsstring :=
  match r with
  | a :: r1 =>
      if a =? 61 then
        match r1 with
        | b :: r2 => if b =? 61 then r2 else r1
        | [] => r1
        end
      else r
  | [] => r
  end.

Fixpoint sextets (d : jsstring) : option (list Z) :=
  match d with
  | [] => Some []
  | c :: d' =>
      match b64_val c, sextets d' with
      | Some v, Some vs => Some (v :: vs)
      | _, _ => None
      end
  end.

Fixpoint b64_decode (v : list Z) : list Z :=
  match v with
  | a :: b :: c :: d :: t =>
      (a * 4 + b / 16) :: ((b mod 16) * 16 + c / 4) :: ((c mod 4) * 64 + d)
      :: b64_decode t
  | [a; b; c] => [a * 4 + b / 16; (b mod 16) * 16 + c / 4]
  | [a; b] => [a * 4 + b / 16]
  | _ => []
  end.

(** [atob]: forgiving-base64 decode. *)
Definition atob (data : jsstring) : option jsstring :=
  let d1 := filter (fun c => negb (is_ascii_ws c)) data in
  let d2 := if Nat.eqb (length d1 mod 4) 0
            then rev (strip_padding_rev (rev d1)) else d1 in
  if Nat.eqb (length d2 mod 4) 1 then None
  else option_map b64_decode (sextets d2).

(** *** [escape] and [decodeURIComponent] *)

Definition escape_unreserved (c : Z) : bool :=
  is_alpha c || is_digit c || one_of "@*_+-./" c.

Definition escape_char (c : Z) : jsstring :=
  if escape_unreserved c then [c]
  else if c <? 256 then pct c
  else [37; 117; hex_digit (c / 4096); hex_digit ((c / 256) mod 16);
        hex_digit ((c / 16) mod 16); hex_digit (c mod 16)].

Definition escape (s : jsstring) : jsstring := flat_map escape_char s.

(** An escaped continuation octet (top bits 10) at the head of [t]: its six
    payload bits. *)
Definition cont_octet (t : jsstring) : option Z :=
  match t with
  | p :: t' =>
      if p =? 37 then
        match hex_octet t' with
        | Some b => if (128 <=? b) && (b <? 192) then Some (b - 128) else None
        | None => None
        end
      else None
  | [] => None
  end.

(** What follows a percent sign in [decodeURIComponent]: the octet, the
    continuation octets its leading bits ask for, and the check that they are
    the UTF-8 form of a code point (shortest form, no surrogate, at most
    U+10FFFF).  The result is the decoded code units and the number of
    characters taken; [None] is a URIError. *)
Definition decode_at (t : jsstring) : option (jsstring * nat) :=
  match hex_octet t with
  | None => None
  | Some b =>
      if b <? 128 then Some ([b], 2%nat)
      else if b <? 192 then None
      else if b <? 224 then
        match cont_octet (skipn 2 t) with
        | Some c1 =>
            let cp := (b - 192) * 64 + c1 in
            if 128 <=? cp then Some (utf16 cp, 5%nat) else None
        | None => None
        end
      else if b <? 240 then
        match cont_octet (skipn 2 t), cont_octet (skipn 5 t) with
        | Some c1, Some c2 =>
            let cp := ((b - 224) * 64 + c1) * 64 + c2 in
            if (2048 <=? cp) && negb ((55296 <=? cp) && (cp <=? 57343))
            then Some (utf16 cp, 8%nat) else None
        | _, _ => None
        end
      else if b <? 248 then
        match cont_octet (skipn 2 t), cont_octet (skipn 5 t),
              cont_octet (skipn 8 t) with
        | Some c1, Some c2, Some c3 =>
            let cp := (((b - 240) * 64 + c1) * 64 + c2) * 64 + c3 in
            if (65536 <=? cp) && (cp <=? 1114111)
            then Some (utf16 cp, 11%nat) else None
        | _, _, _ => None
        end
      else None
  end.

Fixpoint decode_loop (skip : nat) (s : jsstring) : option jsstring :=
  match s with
  | [] => Some []
  | c :: t =>
      match skip with
      | S n => decode_loop n t
      | O =>
          if c =? 37 then
            match decode_at t with
            | Some (u, n) => option_map (app u) (decode_loop n t)
            | None => None
            end
          else option_map (cons c) (decode_loop 0 t)
      end
  end.

Definition decodeURIComponent (s : jsstring) : option jsstring := decode_loop 0 s.

(** *** The two directions as the sources compose them *)

(** [btoa(unescape(encodeURIComponent(originalCode)))] *)
Definition store_encode (originalCode : jsstring) : option jsstring :=
  match encodeURIComponent originalCode with
  | Some e => btoa (unescape e)
  | None => None
  end.

(** [decodeURIComponent(escape(atob(encodedCode)))] *)
Definition copy_decode (encodedCode : jsstring) : option jsstring :=
  match atob encodedCode with
  | Some b => decodeURIComponent (escape b)
  | None => None
  end.

(** Well-formed UTF-16: code units below [2^16], every surrogate paired. *)
Fixpoint well_formed (s : jsstring) : bool :=
  match s with
  | [] => true
  | c :: t =>
      if (0 <=? c) && (c <=? 65535) then
        if is_high c then
          match t with
          | d :: t' => is_low d && well_formed t'
          | [] => false
          end
        else negb (is_low c) && well_formed t
      else false
  end.

End Codec.

(** ** The hand-rolled renderer of [src/response-template.js] *)

Module Template.

Definition words (ws : list string) : regex := AltL (map (fun w => Lit (str w)) ws).

(** *** Stage 1: [markdown.trim().replace(/\n\s*\n\s*\n/g, '\n\n')] *)

Definition re_blank_lines : regex :=
  SeqL [Char nl; Star Ws; Char nl; Star Ws; Char nl].

Definition normalize (markdown : jsstring) : jsstring :=
  replace_all re_blank_lines (template 0 [nl; nl]) (trim markdown).

(** *** The escapes and the highlighters of the fence callback *)

Definition escape_html (code : jsstring) : jsstring :=
  replace_all (Char (ch "'")) (template 0 (str "&#039;"))
    (replace_all (Char 34) (template 0 (str "&quot;"))
       (replace_all (Char (ch ">")) (template 0 (str "&gt;"))
          (replace_all (Char (ch "<")) (template 0 (str "&lt;"))
             (replace_all (Char (ch "&")) (template 0 (str "&amp;")) code)))).

Definition span (cls : string) (body : string) : jsstring :=
  str "<span class=" ++ q cls ++ str ">" ++ str body ++ str "</span>".

Definition ident_start (dollar_ok : bool) (c : Z) : bool :=
  is_alpha c || (c =? 95) || (dollar_ok && (c =? 36)).
Definition ident_part (dollar_ok : bool) (c : Z) : bool :=
  is_alpha c || is_digit c || (c =? 95) || (dollar_ok && (c =? 36)).

(** [/\b(kw1|kw2|...)\b/g] *)
Definition re_keywords (kws : list string) : regex :=
  SeqL [WordBoundary; Group 1 (words kws); WordBoundary].

(** A word boundary, an identifier as group 1 (a letter, [_] or [$], then
    letters, digits, [_] or [$]), optional white space, and a lookahead for
    an opening parenthesis; the Python rule has no [$]. *)
Definition re_function (dollar_ok : bool) : regex :=
  SeqL [WordBoundary;
        Group 1 (Seq (Class (ident_start dollar_ok)) (Star (Class (ident_part dollar_ok))));
        Star Ws; Ahead (Char (ch "("))].

(** [/(\/\/.*$)/gm] and [/(#.*$)/gm] *)
Definition re_line_comment (opener : string) : regex :=
  Group 1 (SeqL [Lit (str opener); Star Dot; LineEnd true]).

(** A block comment as group 1: slash star, lazily anything, star slash. *)
Definition re_block_comment : regex :=
  Group 1 (SeqL [Lit (str "/*"); LazyStar Any; Lit (str "*/")]).

(** The string rule: a quote character (single, double or backtick) as
    group 1; as group 2, lazily repeated, either a backslash and any
    character, or a character that is not a backslash where group 1 does not
    follow; then group 1 again.  The replacement uses the whole match. *)
Definition is_quote (c : Z) : bool := (c =? 39) || (c =? 34) || (c =? 96).
Definition re_string : regex :=
  SeqL [Group 1 (Class is_quote);
        Group 2 (LazyStar (Alt (Seq (Char 92) Dot)
                               (Seq (NotAhead (Backref 1)) (Not 92))));
        Backref 1].

(** [/\b(\d+(?:\.\d+)?)\b/g] *)
Definition re_number : regex :=
  SeqL [WordBoundary;
        Group 1 (Seq (Plus Digit) (Opt (Seq (Char (ch ".")) (Plus Digit))));
        WordBoundary].

Definition js_keywords : list string :=
  ["let"; "const"; "var"; "function"; "return"; "if"; "else"; "for"; "while";
   "switch"; "case"; "break"; "continue"; "new"; "this"; "class"; "import";
   "export"; "from"; "try"; "catch"; "throw"; "async"; "await"; "typeof";
   "instanceof"]%string.

Definition highlight_js (code : jsstring) : jsstring :=
  let s1 := replace_all (re_keywords js_keywords) (template 1 (span "js-keyword" "$1")) code in
  let s2 := replace_all (re_function true) (template 1 (span "js-function" "$1")) s1 in
  let s3 := replace_all (re_line_comment "//") (template 1 (span "js-comment" "$1")) s2 in
  let s4 := replace_all re_block_comment (template 1 (span "js-comment" "$1")) s3 in
  let s5 := replace_all re_string (template 2 (span "js-string" "$&")) s4 in
  replace_all re_number (template 1 (span "js-number" "$1")) s5.

Definition py_keywords : list string :=
  ["def"; "class"; "if"; "elif"; "else"; "for"; "while"; "try"; "except";
   "finally"; "with"; "import"; "from"; "as"; "return"; "yield"; "break";
   "continue"; "pass"; "lambda"; "and"; "or"; "not"; "in"; "is"; "True";
   "False"; "None"; "async"; "await"]%string.

(** The docstring rule: three double quotes, lazily anything, three double
    quotes; or the same with single quotes. *)
Definition re_docstring : regex :=
  Group 1 (Alt (SeqL [Lit [34; 34; 34]; LazyStar Any; Lit [34; 34; 34]])
               (SeqL [Lit [39; 39; 39]; LazyStar Any; Lit [39; 39; 39]])).

Definition highlight_py (code : jsstring) : jsstring :=
  let s1 := replace_all (re_keywords py_keywords) (template 1 (span "py-keyword" "$1")) code in
  let s2 := replace_all (re_function false) (template 1 (span "py-function" "$1")) s1 in
  let s3 := replace_all (re_line_comment "#") (template 1 (span "py-comment" "$1")) s2 in
  let s4 := replace_all re_docstring (template 1 (span "py-docstring" "$1")) s3 in
  let s5 := replace_all re_string (template 2 (span "py-string" "$&")) s4 in
  replace_all re_number (template 1 (span "py-number" "$1")) s5.

(** [/(&lt;\/?[a-zA-Z][^&gt;]*&gt;)/g], [/\b([a-zA-Z-]+)(?==)/g] and the
    value rule: [=], a quote character, non-quote characters, a quote
    character. *)
Definition re_html_tag : regex :=
  Group 1 (SeqL [Lit (str "&lt;"); Opt (Char (ch "/")); Class is_alpha;
                 Star (Class (none_of "&gt;")); Lit (str "&gt;")]).
Definition re_html_attribute : regex :=
  SeqL [WordBoundary; Group 1 (Plus (Class (fun c => is_alpha c || (c =? 45))));
        Ahead (Char (ch "="))].
Definition re_html_value : regex :=
  Group 1 (SeqL [Char (ch "="); Class is_quote;
                 Star (Class (fun c => negb (is_quote c))); Class is_quote]).

Definition highlight_html (code : jsstring) : jsstring :=
  let s1 := replace_all re_html_tag (template 1 (span "html-tag" "$1")) code in
  let s2 := replace_all re_html_attribute (template 1 (span "html-attribute" "$1")) s1 in
  replace_all re_html_value (template 1 (span "html-value" "$1")) s2.

(** The selector rule (an optional [.] or [#], a letter, then letters,
    digits, [-] or [_], as group 1, optional white space, an opening brace),
    the property rule [/([a-zA-Z-]+)\s*:/g] and the value rule
    [/(:)(\s*[^;]+)(;)/g]. *)
Definition re_css_selector : regex :=
  SeqL [Group 1 (SeqL [Opt (Class (one_of ".#")); Class is_alpha;
                       Star (Class (fun c => is_alpha c || is_digit c
                                             || (c =? 45) || (c =? 95)))]);
        Star Ws; Char (ch "{")].
Definition re_css_property : regex :=
  SeqL [Group 1 (Plus (Class (fun c => is_alpha c || (c =? 45))));
        Star Ws; Char (ch ":")].
Definition re_css_value : regex :=
  SeqL [Group 1 (Char (ch ":"));
        Group 2 (Seq (Star Ws) (Plus (Not (ch ";"))));
        Group 3 (Char (ch ";"))].

Definition highlight_css (code : jsstring) : jsstring :=
  let s1 := replace_all re_css_selector (template 1 (span "css-selector" "$1" ++ str " {")) code in
  let s2 := replace_all re_css_property (template 1 (span "css-property" "$1" ++ str ":")) s1 in
  let s3 := replace_all re_block_comment (template 1 (span "css-comment" "$1")) s2 in
  replace_all re_css_value
    (template 3 (str "$1<span class=" ++ q "css-value" ++ str ">$2</span>$3")) s3.

Definition is_lang (language : jsstring) (names : list string) : bool :=
  existsb (fun n => eqs (toLowerCase language) (str n)) names.

Definition highlight (language formatted : jsstring) : jsstring :=
  let f1 := if is_lang language ["javascript"; "js"]%string
            then highlight_js formatted else formatted in
  let f2 := if is_lang language ["python"; "py"]%string
            then highlight_py f1 else f1 in
  let f3 := if is_lang language ["html"; "xml"]%string
            then highlight_html f2 else f2 in
  if is_lang language ["css"]%string then highlight_css f3 else f3.


(** *** Stage 2: the fence callback *)

(** [/^\n+/] and [/\n+$/], both without flags. *)
Definition re_leading_newlines : regex := SeqL [LineStart false; Plus (Char nl)].
Definition re_trailing_newlines : regex := SeqL [Plus (Char nl); LineEnd false].

Definition empty_template : replacer := template 0 [].

(** The language tag and the code content of the text between two fences. *)
Definition split_fence (code : jsstring) : jsstring * jsstring :=
  let parts :=
    match indexOf nl code with
    | Some (S n) => (trim (firstn (S n) code), skipn (S (S n)) code)
    | _ => ([], code)
    end in
  (fst parts,
   replace_first re_trailing_newlines empty_template
     (replace_first re_leading_newlines empty_template (snd parts))).

Definition line (n : nat) (s : jsstring) : jsstring := nl :: repeat 32 n ++ s.

(** The template literal returned by the callback. *)
Definition code_block_html (language codeBlockId encodedOriginalCode formattedCode : jsstring)
  : jsstring :=
  line 12 (str "<div class=" ++ q "code-block-container" ++ str ">")
  ++ line 16 (str "<div class=" ++ q "code-block-header" ++ str ">")
  ++ line 20 (str "<span class=" ++ q "code-language" ++ str ">"
              ++ (match language with [] => str "code" | _ => language end)
              ++ str "</span>")
  ++ line 20 (str "<button class=" ++ q "copy-code-button"
              ++ str " onclick=" ++ dq ++ str "copyCodeBlock('" ++ codeBlockId
              ++ str "')" ++ dq ++ str " data-tooltip=" ++ q "Copy code" ++ str ">")
  ++ line 24 (str "<svg xmlns=" ++ q "http://www.w3.org/2000/svg"
              ++ str " width=" ++ q "16" ++ str " height=" ++ q "16"
              ++ str " viewBox=" ++ q "0 0 24 24" ++ str " fill=" ++ q "none"
              ++ str " stroke=" ++ q "currentColor" ++ str " stroke-width=" ++ q "2"
              ++ str " stroke-linecap=" ++ q "round"
              ++ str " stroke-linejoin=" ++ q "round" ++ str ">")
  ++ line 28 (str "<rect x=" ++ q "9" ++ str " y=" ++ q "9" ++ str " width=" ++ q "13"
              ++ str " height=" ++ q "13" ++ str " rx=" ++ q "2" ++ str " ry=" ++ q "2"
              ++ str "></rect>")
  ++ line 28 (str "<path d="
              ++ q "M5 15H4a2 2 0 0 1-2-2V4a2 2 0 0 1 2-2h9a2 2 0 0 1 2 2v1"
              ++ str "></path>")
  ++ line 24 (str "</svg>")
  ++ line 24 (str "Copy")
  ++ line 20 (str "</button>")
  ++ line 16 (str "</div>")
  ++ line 16 (str "<pre><code id=" ++ dq ++ codeBlockId ++ dq
              ++ str " class=" ++ dq ++ str "language-" ++ language ++ dq
              ++ str " data-original-code=" ++ dq ++ encodedOriginalCode ++ dq
              ++ str ">" ++ formattedCode ++ str "</code></pre>")
  ++ line 12 (str "</div>")
  ++ line 8 [].

(** The callback on the text [code] between two fences; [random] stands for
    [Math.random().toString(36).substring(2, 9)].  The encoding of the
    original code can throw. *)
Definition code_block (random : jsstring) (code : jsstring) : option jsstring :=
  let (language, codeContent) := split_fence code in
  let codeBlockId := str "code-block-" ++ random in
  let originalCode := codeContent in
  let formattedCode := highlight language (escape_html codeContent) in
  match Codec.store_encode originalCode with
  | Some encodedOriginalCode =>
      Some (code_block_html language codeBlockId encodedOriginalCode formattedCode)
  | None => None
  end.

(** Three backticks, lazily anything as group 1, three backticks. *)
Definition re_fence : regex :=
  SeqL [Lit [96; 96; 96]; Group 1 (LazyStar Any); Lit [96; 96; 96]].

(** The replacement of the fences, the [n]-th block taking the [n]-th random
    identifier; the first callback that throws ends the rendering. *)
Fixpoint render_blocks (random : nat -> jsstring) (n : nat) (segs : list seg)
  : option jsstring :=
  match segs with
  | [] => Some []
  | Keep c :: t => option_map (cons c) (render_blocks random n t)
  | Hit _ cs :: t =>
      match code_block (random n) (capture 1 cs) with
      | Some b => option_map (app b) (render_blocks random (S n) t)
      | None => None
      end
  end.

Definition fences (random : nat -> jsstring) (markdown : jsstring) : option jsstring :=
  render_blocks random 0 (scan re_fence (S (length markdown)) None markdown).

(** *** Stage 3: inline code: a backtick, one or more characters that are not
    backticks as group 1, a backtick. *)

Definition re_inline_code : regex :=
  SeqL [Char 96; Group 1 (Plus (Not 96)); Char 96].

Definition inline_code (html : jsstring) : jsstring :=
  replace_all re_inline_code
    (template 1 (str "<code class=" ++ q "inline-code" ++ str ">$1</code>")) html.

(** *** Stage 4: the other markdown elements *)

(** [/^# (.*$)/gm] with one, two or three [#]. *)
Definition re_header (marks : string) : regex :=
  SeqL [LineStart true; Lit (str marks); Char 32; Group 1 (Seq (Star Dot) (LineEnd true))].

(** Two stars, lazily any characters of the line as group 1, two stars; and
    the same with one star. *)
Definition re_bold : regex :=
  SeqL [Lit (str "**"); Group 1 (LazyStar Dot); Lit (str "**")].
Definition re_italic : regex :=
  SeqL [Char (ch "*"); Group 1 (LazyStar Dot); Char (ch "*")].

(** [/\[([^\]]+)\]\(([^)]+)\)/g] *)
Definition re_link : regex :=
  SeqL [Char (ch "["); Group 1 (Plus (Not (ch "]"))); Char (ch "]");
        Char (ch "("); Group 2 (Plus (Not (ch ")"))); Char (ch ")")].

Definition link_template : jsstring :=
  str "<a href=" ++ q "$2" ++ str " target=" ++ q "_blank"
  ++ str " rel=" ++ q "noopener noreferrer" ++ str ">$1</a>".

(** [/\n\n+/g], [/\n/g], and the whole text when it is a single line: the
    start, any characters of a line as group 1, the end (no flag). *)
Definition re_paragraph_break : regex := Seq (Char nl) (Plus (Char nl)).
Definition re_whole : regex := SeqL [LineStart false; Group 1 (Star Dot); LineEnd false].

(** [/<p><\/p>/g], [/<p>(<h[1-6]>.*?<\/h[1-6]>)<\/p>/g] and
    [/<p>(<div.*?<\/div>)<\/p>/g] *)
Definition re_empty_paragraph : regex := Lit (str "<p></p>").
Definition is_1_6 (c : Z) : bool := (49 <=? c) && (c <=? 54).
Definition re_header_in_paragraph : regex :=
  SeqL [Lit (str "<p>");
        Group 1 (SeqL [Lit (str "<h"); Class is_1_6; Char (ch ">"); LazyStar Dot;
                       Lit (str "</h"); Class is_1_6; Char (ch ">")]);
        Lit (str "</p>")].
Definition re_div_in_paragraph : regex :=
  SeqL [Lit (str "<p>");
        Group 1 (SeqL [Lit (str "<div"); LazyStar Dot; Lit (str "</div>")]);
        Lit (str "</p>")].

Definition markdown_elements (html : jsstring) : jsstring :=
  let s1 := replace_all (re_header "#") (template 1 (str "<h1>$1</h1>")) html in
  let s2 := replace_all (re_header "##") (template 1 (str "<h2>$1</h2>")) s1 in
  let s3 := replace_all (re_header "###") (template 1 (str "<h3>$1</h3>")) s2 in
  let s4 := replace_all re_bold (template 1 (str "<strong>$1</strong>")) s3 in
  let s5 := replace_all re_italic (template 1 (str "<em>$1</em>")) s4 in
  let s6 := replace_all re_link (template 2 link_template) s5 in
  let s7 := replace_all re_paragraph_break (template 0 (str "</p><p>")) s6 in
  let s8 := replace_all (Char nl) (template 0 (str "<br>")) s7 in
  let s9 := replace_first re_whole (template 1 (str "<p>$1</p>")) s8 in
  let s10 := replace_all re_empty_paragraph empty_template s9 in
  let s11 := replace_all re_header_in_paragraph (template 1 (str "$1")) s10 in
  let s12 := replace_all re_div_in_paragraph (template 1 (str "$1")) s11 in
  trim s12.

Definition convertMarkdownToHTML (random : nat -> jsstring) (markdown : jsstring)
  : option jsstring :=
  match fences random (normalize markdown) with
  | Some html => Some (markdown_elements (inline_code html))
  | None => None
  end.

(** *** [processResponse] *)

(** [htmlResponse.trim().replace(/\s+/g, ' ').replace(/>\s+</g, '><')] *)
Definition re_between_tags : regex := SeqL [Char (ch ">"); Plus Ws; Char (ch "<")].

Definition final_cleanup (htmlResponse : jsstring) : jsstring :=
  replace_all re_between_tags (template 0 (str "><"))
    (replace_all (Plus Ws) (template 0 [32]) (trim htmlResponse)).

Definition processResponse (random : nat -> jsstring) (query answer : jsstring)
  : option jsstring :=
  option_map final_cleanup
    (convertMarkdownToHTML random (Formatter.formatResponse query answer)).

End Template.

(** ** The citation step of [src/public/response-formatter.js] *)

Module Library.

(** [escapeHtml]: the object [map] and the lookup [map[m]] of the callback;
    a key that is not in the object gives [undefined], which [replace] turns
    into a string. *)
Definition escape_map : list (Z * jsstring) :=
  [(38, str "&amp;"); (60, str "&lt;"); (62, str "&gt;"); (34, str "&quot;");
   (39, str "&#039;")].

Fixpoint lookup (m : jsstring) (table : list (Z * jsstring)) : jsstring :=
  match table with
  | [] => str "undefined"
  | (key, v) :: table' => if eqs m [key] then v else lookup m table'
  end.

(** The class of the five characters: ampersand, the two angle brackets and
    the two quotes. *)
Definition is_html_special (c : Z) : bool :=
  (c =? 38) || (c =? 60) || (c =? 62) || (c =? 34) || (c =? 39).

Definition escapeHtml (text : jsstring) : jsstring :=
  replace_all (Class is_html_special) (fun m _ => lookup m escape_map) text.

(** [/\[\[(\d+)\]\((.*?)\)\]/g] *)
Definition re_citation : regex :=
  SeqL [Lit (str "[["); Group 1 (Plus Digit); Lit (str "](");
        Group 2 (LazyStar Dot); Lit (str ")]")].

(** The callback [(match, sourceIndex, url) => ...]. *)
Definition citation_anchor : replacer := fun _ cs =>
  str "<a href=" ++ dq ++ capture 2 cs ++ dq ++ str " target=" ++ q "_blank"
  ++ str " rel=" ++ q "noopener noreferrer" ++ str " class=" ++ q "inline-citation"
  ++ str ">[" ++ capture 1 cs ++ str "]</a>".

Definition citations (html : jsstring) : jsstring :=
  replace_all re_citation citation_anchor html.

Section Renderer.

(** [md.render] of the markdown-it library, and the pass that takes the
    background styles out in dark mode, are not code of this repository. *)
Variable md_render : jsstring -> jsstring.
Variable strip_dark_styles : jsstring -> jsstring.

Definition convertMarkdownToHTML (markdown : jsstring) : jsstring :=
  trim (citations (strip_dark_styles (md_render markdown))).

End Renderer.

End Library.

(** ** The document and [addCopyButtons] *)

Module Dom.

(** An element has an identity, a tag name, its class list, its other
    attributes and its children. *)
#[warnings="-register-all"] Inductive node : Type :=
| Text (s : jsstring)
| Elem (id : nat) (tag : string) (classes : list string)
       (attrs : list (string * string)) (children : list node).

Definition has_class (c : string) (classes : list string) : bool :=
  existsb (String.eqb c) classes.

Definition container_class : string := "code-block-container".

Definition first_some (l : list (option bool)) : option bool :=
  fold_right (fun o acc => match o with Some b => Some b | None => acc end) None l.

(** [document.querySelectorAll('pre code')]: the [code] elements below a
    [pre] element, in document order; the list is static. *)
Fixpoint select (in_pre : bool) (n : node) : list nat :=
  match n with
  | Text _ => []
  | Elem i tag _ _ kids =>
      (if in_pre && String.eqb tag "code" then [i] else [])
      ++ flat_map (select (in_pre || String.eqb tag "pre")) kids
  end.

(** [codeBlock.closest('.code-block-container')] is not null: the element
    [x] or one of its ancestors has the class.  [above] tells whether an
    element with the class has been passed on the way down; the result is
    [None] when [x] is not in the tree. *)
Fixpoint closest (above : bool) (n : node) (x : nat) : option bool :=
  match n with
  | Text _ => None
  | Elem i _ classes _ kids =>
      let here := above || has_class container_class classes in
      if Nat.eqb i x then Some here
      else first_some (map (fun k => closest here k x) kids)
  end.

(** The button made for a block: class, type, and the image its [innerHTML]
    parses to.  The click listener is not part of the tree. *)
Definition copy_button (fresh : nat) : node :=
  Elem (S fresh) "button" ["copy-code-button"%string] [("type", "button")%string]
    [Elem (S (S fresh)) "img" ["copy-icon"%string]
       [("src", "/assets/copy.svg"); ("alt", "Copy")]%string []].

(** The four calls on a block: a new container is put before the block in
    its parent, the block is moved into the container, and the new button is
    put before the block there.  The block's place in its parent is then
    taken by the container, whose children are the button and the block. *)
Fixpoint wrap (fresh : nat) (x : nat) (n : node) : node :=
  match n with
  | Text s => Text s
  | Elem i tag classes attrs kids =>
      if Nat.eqb i x
      then Elem fresh "div" [container_class] [] [copy_button fresh; n]
      else Elem i tag classes attrs (map (wrap fresh x) kids)
  end.

(** The document, and the next identity to give to a created element. *)
Definition page : Type := node * nat.

(** The body of the [forEach]. *)
Definition visit (p : page) (codeBlock : nat) : page :=
  match closest false (fst p) codeBlock with
  | Some false => (wrap (snd p) codeBlock (fst p), (snd p + 3)%nat)
  | _ => p
  end.

Definition addCopyButtons (p : page) : page :=
  fold_left visit (select false (fst p)) p.

(** Every identity in the tree is below [bound]. *)
Fixpoint ids_below (bound : nat) (n : node) : bool :=
  match n with
  | Text _ => true
  | Elem i _ _ _ kids => Nat.ltb i bound && forallb (ids_below bound) kids
  end.

(** A copy control: a [button] element with the class [copy-code-button]. *)
Definition is_control (n : node) : bool :=
  match n with
  | Elem _ tag classes _ _ =>
      String.eqb tag "button" && has_class "copy-code-button" classes
  | Text _ => false
  end.

End Dom.

(** ** The acknowledgement shown after a copy *)

Module Feedback.

(** What the user sees of a control: the serialisation of its content, which
    is what reading [innerHTML] gives, and whether it carries the
    acknowledgement styling (the class [copied] in [showCopySuccess], the
    two colours in [copyCodeBlock]). *)
Record face : Type := Face { innerHTML : jsstring; styled : bool }.

(** A pending [setTimeout] callback: the time from which it may run and the
    text it saved. *)
Record timer : Type := Timer { due : Z; originalText : jsstring }.

Record control : Type := Control { shown : face; pending : list timer }.

(** What [innerHTML] reads after [showCopySuccess] has assigned
    ['&#10003; Copied!'] to it: the assignment parses the text, and the
    content reads back with the character reference resolved, the check mark
    U+2713 followed by [ Copied!]. *)
Definition acknowledgement : jsstring := 10003 :: str " Copied!".

(** The steps that [showCopySuccess] and the success branch of
    [copyCodeBlock] share, run at time [now]: the present [innerHTML] is read
    and saved, the acknowledgement is assigned and the styling set, and a
    callback that assigns the saved text and takes the styling away is
    scheduled [delay] later.  [text] is what [innerHTML] reads once the
    acknowledgement has been assigned.  Nothing cancels a callback scheduled
    before. *)
Definition acknowledge (text : jsstring) (delay now : Z) (c : control) : control :=
  Control (Face text true)
          (pending c ++ [Timer (now + delay) (innerHTML (shown c))]).

(** [showCopySuccess(button)] run at time [now]. *)
Definition showCopySuccess (now : Z) (c : control) : control :=
  acknowledge acknowledgement 1200 now c.

(** The callback of a timer.  The text it assigns was read from [innerHTML]
    before, and reads back as it is. *)
Definition restore (t : timer) (c : face) : face := Face (originalText t) false.

(** What happens to a control: it is activated and the copy succeeds, or
    the oldest pending callback runs. *)
Inductive event : Type :=
| Activate (now : Z)
| Callback (now : Z).

(** One event, [show] being what an activation runs.  [setTimeout] promises
    a minimum delay only: a callback runs at the time it is due or later,
    never before; callbacks with one delay run in the order in which they
    were scheduled.  [None]: the event cannot happen. *)
Definition step (show : Z -> control -> control) (c : control) (e : event)
  : option control :=
  match e with
  | Activate now => Some (show now c)
  | Callback now =>
      match pending c with
      | t :: ts =>
          if due t <=? now then Some (Control (restore t (shown c)) ts) else None
      | [] => None
      end
  end.

(** A history of events, from the first. *)
Fixpoint run (show : Z -> control -> control) (events : list event) (c : control)
  : option control :=
  match events with
  | [] => Some c
  | e :: events' =>
      match step show c e with
      | Some c' => run show events' c'
      | None => None
      end
  end.

(** What the control shows once every pending callback has run. *)
Definition settle (c : control) : face :=
  fold_left (fun f t => restore t f) (pending c) (shown c).

Definition idle (original : jsstring) : control := Control (Face original false) [].

End Feedback.

(** ** The upload filter and the routes of [server.js] *)

Module Server.

(** The outcome of [fileFilter]: [cb(null, true)] or [cb(new Error(...))]. *)
Inductive verdict : Type :=
| Accept
| Refuse (message : jsstring).

Definition allowedTypes : list string := ["image/png"; "image/jpeg"; "image/jpg"]%string.

Definition allowedDoc : list string :=
  ["text/csv"; "application/json"; "text/plain"; "application/pdf";
   "application/vnd.ms-excel";
   "application/vnd.openxmlformats-officedocument.spreadsheetml.sheet"]%string.

(** [Array.prototype.includes] on an array of strings. *)
Definition array_includes (xs : list string) (m : jsstring) : bool :=
  existsb (fun x => eqs (str x) m) xs.

Definition fileFilter (fieldname mimetype : jsstring) : verdict :=
  if eqs fieldname (str "images") then
    if array_includes allowedTypes mimetype then Accept
    else Refuse (str "Only PNG, JPG and JPEG files are allowed for images")
  else if eqs fieldname (str "documents") then
    if array_includes allowedDoc mimetype then Accept
    else Refuse (str "Unsupported document type. Supported: CSV, JSON, TXT, PDF, XLS, XLSX")
  else Refuse (str "Invalid field name. Use " ++ q "images" ++ str " or " ++ q "documents").

(** The branch that the upload route takes for a document, by its type; with
    no branch, nothing is done for the document and nothing is added to the
    summary. *)
Inductive branch : Type := ExcelBranch | CsvBranch | TextBranch | NoBranch.

Definition document_branch (mimetype : jsstring) : branch :=
  if includes (str "spreadsheet") mimetype || includes (str "excel") mimetype
  then ExcelBranch
  else if eqs mimetype (str "text/csv") then CsvBranch
  else if startsWith (str "text/") mimetype || eqs mimetype (str "application/json")
  then TextBranch
  else NoBranch.

(** The last route, on [req.path]: a JSON 404 for the API, a text 404 for
    what looks like a file, the page otherwise. *)
Inductive reply : Type := ApiNotFound | FileNotFound | IndexPage.

Definition catch_all (path : jsstring) : reply :=
  if startsWith (str "/api/") path then ApiNotFound
  else if includes (str ".js") path || includes (str ".css") path
          || includes (str ".html") path || includes (str ".json") path
          || includes (str ".") path
  then FileNotFound
  else IndexPage.

(** *** The prompt for a CSV document *)

(** [s.split(sep)] for a separator of one character. *)
Fixpoint split (sep : Z) (s : jsstring) : list jsstring :=
  match s with
  | [] => [[]]
  | c :: s' =>
      if c =? sep then [] :: split sep s'
      else match split sep s' with
           | l :: ls => (c :: l) :: ls
           | [] => [[c]]
           end
  end.

(** [xs.join(sep)] on an array of strings. *)
Fixpoint join (sep : jsstring) (xs : list jsstring) : jsstring :=
  match xs with
  | [] => []
  | x :: xs' =>
      match xs' with
      | [] => x
      | _ :: _ => x ++ sep ++ join sep xs'
      end
  end.

(** A count in a template literal: its decimal digits. *)
Definition number (n : nat) : jsstring := str (NilZero.string_of_uint (Nat.to_uint n)).

(** A string in a condition: true when it is not empty. *)
Definition truthy (s : jsstring) : bool :=
  match s with [] => false | _ :: _ => true end.

(** [csvContent.split('\n').filter(line => line.trim())] *)
Definition csv_lines (csvContent : jsstring) : list jsstring :=
  filter (fun line => truthy (trim line)) (split nl csvContent).

(** [lines[0]?.split(',') || []] *)
Definition csv_headers (lines : list jsstring) : list jsstring :=
  match nth_error lines 0 with
  | Some line => split 44 line
  | None => []
  end.

(** The loop over the sample rows: [n] more turns from the index [i]. *)
Fixpoint sample_rows (lines : list jsstring) (i n : nat) (processedCsv : jsstring)
  : jsstring :=
  match n with
  | O => processedCsv
  | S n' =>
      sample_rows lines (S i) n'
        match nth_error lines i with
        | Some line =>
            if truthy (trim line)
            then processedCsv ++ str "Row " ++ number (i + 1) ++ str ": " ++ line ++ [nl]
            else processedCsv
        | None => processedCsv
        end
  end.

(** The text that the route builds for a CSV document and passes to the
    model, from the name of the file, its decoded content and the prompt of
    the user. *)
Definition csv_prompt (originalname csvContent userPrompt : jsstring) : jsstring :=
  let lines := csv_lines csvContent in
  let headers := csv_headers lines in
  let processedCsv :=
    str "FILE: " ++ originalname ++ [nl] ++ str "=== CSV FILE ANALYSIS ===" ++ [nl] in
  let processedCsv :=
    processedCsv ++ str "COLUMNS (" ++ number (length headers) ++ str "): "
    ++ join (str " | ") headers ++ [nl; nl] in
  let processedCsv := processedCsv ++ str "SAMPLE DATA:" ++ [nl] in
  let processedCsv := sample_rows lines 0 (Nat.min 10 (length lines)) processedCsv in
  processedCsv ++ [nl] ++ str "Total rows: " ++ number (length lines) ++ [nl; nl]
  ++ str "USER QUESTION: " ++ userPrompt.

End Server.

(** ** The click handler of the copy-button script *)

Module CopyScript.

Import Dom.

(** A container as [closest] finds it: whether a [pre] element lies above
    it, and the element itself. *)
Definition found : Type := (bool * node)%type.

Definition first_found (l : list (option (option found))) : option (option found) :=
  fold_right (fun o acc => match o with Some b => Some b | None => acc end) None l.

(** [button.closest('.code-block-container')]: the nearest element with the
    class among [x] and its ancestors.  [above] is the nearest one passed on
    the way down and [in_pre] tells whether a [pre] element has been passed;
    the result is [None] when [x] is not in the tree and [Some None] when
    the lookup gives [null]. *)
Fixpoint closest_container (above : option found) (in_pre : bool) (n : node) (x : nat)
  : option (option found) :=
  match n with
  | Text _ => None
  | Elem i tag classes _ kids =>
      let here := if has_class container_class classes then Some (in_pre, n) else above in
      if Nat.eqb i x then Some here
      else first_found
             (map (fun k => closest_container here (in_pre || String.eqb tag "pre") k x) kids)
  end.

(** [codeBlockContainer.querySelector('pre code')]: the first [code]
    element below the container that has a [pre] element above it; the
    selector is matched against the whole document, so the [pre] element may
    be the container or lie above it. *)
Definition querySelector_pre_code (c : found) : option nat :=
  match snd c with
  | Text _ => None
  | Elem _ tag _ _ kids =>
      hd_error (flat_map (select (fst c || String.eqb tag "pre")) kids)
  end.

(** [copyCodeBlock(button)] up to the read of [innerText]: the element whose
    text is copied, [None] where the function returns early. *)
Definition copyCodeBlock (t : node) (button : nat) : option nat :=
  match closest_container None false t button with
  | Some (Some c) => querySelector_pre_code c
  | _ => None
  end.

End CopyScript.

(** ** The code blocks of a document, read off the tree *)

Module Blocks.

Import Dom.

(** Whether the element [x] is a code block as the claims have it, a [code]
    element with a [pre] element above it; [in_pre] tells whether a [pre]
    element has been passed on the way down, and the result is [None] when
    [x] is not in the tree.  This looks [x] up by its place in the tree and
    does not go through the list that the selector gives. *)
Fixpoint pre_code (in_pre : bool) (n : node) (x : nat) : option bool :=
  match n with
  | Text _ => None
  | Elem i tag _ _ kids =>
      if Nat.eqb i x then Some (in_pre && String.eqb tag "code")
      else first_some (map (fun k => pre_code (in_pre || String.eqb tag "pre") k x) kids)
  end.

Definition first_node (l : list (option node)) : option node :=
  fold_right (fun o acc => match o with Some b => Some b | None => acc end) None l.

(** The element [x] with all that it holds. *)
Fixpoint subtree (n : node) (x : nat) : option node :=
  match n with
  | Text _ => None
  | Elem i _ _ _ kids =>
      if Nat.eqb i x then Some n else first_node (map (fun k => subtree k x) kids)
  end.

End Blocks.

(* ================================================================== *)
(** * Part II: theorems *)
(* ================================================================== *)

(** ** Renderings of the examples of the specification *)

Module Examples.

Import Template.

Definition fence : jsstring := [96; 96; 96].

(** The identifier every block receives in the examples. *)
Definition random (n : nat) : jsstring := str "k3j9x2a".

(** The fenced block of the escaping example: language [js], body
    [if (x < 1) { return <b> in double quotes; }]. *)
Definition js_body : jsstring :=
  str "if (x < 1) { return " ++ dq ++ str "<b>" ++ dq ++ str "; }".

Definition js_block : jsstring := fence ++ str "js" ++ [nl] ++ js_body ++ [nl] ++ fence.

Definition keyword_span (kw : string) : jsstring :=
  str "<span class=" ++ q "js-keyword" ++ str ">" ++ str kw ++ str "</span>".

(** What the string rule makes of the opening tag of a keyword span. *)
Definition broken_keyword_span (kw : string) : jsstring :=
  str "<span class=<span class=" ++ q "js-string" ++ str ">" ++ q "js-keyword"
  ++ str "</span>>" ++ str kw ++ str "</span>".

Definition rendered (markdown : jsstring) : jsstring :=
  match convertMarkdownToHTML random markdown with
  | Some html => html
  | None => []
  end.

(** A block without language whose second line starts with [#]. *)
Definition hash_block : jsstring :=
  fence ++ [nl] ++ str "a" ++ [nl] ++ str "# b" ++ [nl] ++ fence.

Definition citation_text : jsstring := str "foo [[1](https://example.com)]".

(** Two statements with three blank lines between them, the same with one
    blank line, and the first as a fenced block with language [py]. *)
Definition spaced_code : jsstring := str "x = 1" ++ [nl; nl; nl; nl] ++ str "y = 2".

Definition collapsed_code : jsstring := str "x = 1" ++ [nl; nl] ++ str "y = 2".

Definition spaced_block : jsstring :=
  fence ++ str "py" ++ [nl] ++ spaced_code ++ [nl] ++ fence.

End Examples.

Module ExampleFacts.

Import Template Examples.

(** C1, on the code: a fenced block whose code has three blank lines between
    two statements.  The first stage of [convertMarkdownToHTML] collapses the
    blank lines of the whole text before the fence callback sees the code, so
    the one value written into [data-original-code], which [copyCodeBlock]
    decodes and copies, is the encoding of the code with a single blank line:
    the copy is not the code as it stood in the fence.  The two codecs are
    not the cause: composed, they give the code of the fence back. *)
Theorem copied_code_loses_blank_lines :
  convertMarkdownToHTML random spaced_block <> None
  /\ includes (str "data-original-code=" ++ q "eCA9IDEKCnkgPSAy") (rendered spaced_block)
     = true
  /\ occurrences (str "data-original-code=") (rendered spaced_block) = 1%nat
  /\ Codec.copy_decode (str "eCA9IDEKCnkgPSAy") = Some collapsed_code
  /\ collapsed_code <> spaced_code
  /\ match Codec.store_encode spaced_code with
     | Some encoded => Codec.copy_decode encoded
     | None => None
     end = Some spaced_code.
Proof.
  repeat apply conj; try (vm_compute; reflexivity); vm_compute; discriminate.
Qed.

(** C2, on the code: the highlighter applied to the escaped body of the
    example.  The keyword rule wraps [if] and [return]; the string rule that
    runs later matches the quoted class name inside the two opening tags it
    has just inserted and wraps it in a span of its own, so neither keyword
    is left inside a well-formed keyword span.  The escaped text itself is
    not escaped again, and no [<b>] appears in the rendering. *)
Theorem highlight_breaks_keyword_spans :
  highlight (str "js") (escape_html js_body)
  = broken_keyword_span "if" ++ str " (x &lt; <span class=" ++ q "js-number"
    ++ str ">1</span>) { " ++ broken_keyword_span "return"
    ++ str " &quot;&lt;b&gt;&quot;; }"
  /\ occurrences (keyword_span "if") (rendered js_block) = 0%nat
  /\ occurrences (keyword_span "return") (rendered js_block) = 0%nat
  /\ occurrences (broken_keyword_span "if") (rendered js_block) = 1%nat
  /\ occurrences (broken_keyword_span "return") (rendered js_block) = 1%nat
  /\ includes (str "<b>") (rendered js_block) = false.
Proof.
  repeat apply conj; vm_compute; reflexivity.
Qed.

(** C3, on the code: the header rule runs over the assembled HTML, and the
    line [# b] of the code block comes out as a first-level header that
    swallows the closing tags of the block. *)
Theorem hash_line_in_code_becomes_header :
  includes (str "<h1>b</code></pre></h1>") (rendered hash_block) = true
  /\ convertMarkdownToHTML random hash_block <> None.
Proof.
  split; [vm_compute; reflexivity | vm_compute; discriminate].
Qed.

(** C7, on the code: the hand-rolled renderer has no citation rule; its link
    rule takes the marker from its first bracket, so the anchor shows [[1]
    without the closing bracket, which is left after the anchor. *)
Theorem citation_marker_loses_bracket :
  convertMarkdownToHTML random citation_text
  = Some (str "<p>foo <a href=" ++ q "https://example.com" ++ str " target="
          ++ q "_blank" ++ str " rel=" ++ q "noopener noreferrer"
          ++ str ">[1</a>]</p>").
Proof.
  vm_compute. reflexivity.
Qed.

(** C4, on the code: a question that contains the answer placeholder takes
    the answer, and a replacement pattern in the question or in the answer is
    expanded instead of copied. *)
Theorem formatResponse_expands_patterns :
  Formatter.formatResponse (str "{answer}") (str "x")
  = str "# x?" ++ [nl; nl] ++ str "{answer}"
  /\ Formatter.formatResponse (str "$&") (str "x")
     = str "# {title}?" ++ [nl; nl] ++ str "x"
  /\ Formatter.formatResponse (str "q") (str "use $& here")
     = str "# q?" ++ [nl; nl] ++ str "use {answer} here".
Proof.
  repeat apply conj; vm_compute; reflexivity.
Qed.

(** C9, on the code: two activations 500 ms apart.  No callback can run
    before the second activation, which finds the acknowledgement showing and
    saves it as the text to restore; two callbacks are then pending, and
    whenever they run, the control ends on the acknowledgement, not on
    [Copy]. *)
Theorem second_activation_sticks :
  Feedback.run Feedback.showCopySuccess
    [Feedback.Activate 0; Feedback.Activate 500] (Feedback.idle (str "Copy"))
  = Some (Feedback.Control (Feedback.Face Feedback.acknowledgement true)
            [Feedback.Timer 1200 (str "Copy");
             Feedback.Timer 1700 Feedback.acknowledgement])
  /\ (forall t,
        Feedback.run Feedback.showCopySuccess
          [Feedback.Activate 0; Feedback.Callback t] (Feedback.idle (str "Copy"))
        = if 1200 <=? t then Some (Feedback.idle (str "Copy")) else None)
  /\ (forall t1 t2,
        Feedback.run Feedback.showCopySuccess
          [Feedback.Activate 0; Feedback.Activate 500;
           Feedback.Callback t1; Feedback.Callback t2] (Feedback.idle (str "Copy"))
        = if (1200 <=? t1) && (1700 <=? t2)
          then Some (Feedback.Control
                       (Feedback.Face Feedback.acknowledgement false) [])
          else None)
  /\ Feedback.acknowledgement <> str "Copy".
Proof.
  repeat apply conj.
  - reflexivity.
  - intro t. cbn. destruct (1200 <=? t); reflexivity.
  - intros t1 t2. cbn. destruct (1200 <=? t1); [|reflexivity].
    cbn. destruct (1700 <=? t2); reflexivity.
  - discriminate.
Qed.

End ExampleFacts.

(** ** The acknowledgement after a copy, in general *)

Module FeedbackFacts.

Import Feedback.

Section Script.

(** What the control reads after the acknowledgement has been assigned, and
    the delay of the callback: those of [showCopySuccess] or those of
    [copyCodeBlock]. *)
Variable text : jsstring.
Variable delay : Z.

Definition show : Z -> control -> control := acknowledge text delay.

(** One activation: once its callback has run, which it cannot before the
    delay is over, the control is what it was before. *)
Lemma single_activation_restores (now t : Z) (original : jsstring) :
  run show [Activate now; Callback t] (idle original)
  = if now + delay <=? t then Some (idle original) else None.
Proof.
  cbn. destruct (now + delay <=? t); reflexivity.
Qed.

(** No callback is ever cancelled: each activation adds one to those that
    have not run yet. *)
Lemma acknowledge_stacks (now : Z) (c : control) :
  length (pending (show now c)) = S (length (pending c)).
Proof.
  unfold show, acknowledge. cbn [pending]. rewrite length_app. cbn [length]. lia.
Qed.

(** A second activation before the first callback has run saves the
    acknowledgement as the text to restore: whatever the delay and the
    original text, the control ends on the acknowledgement.  Before the
    delay is over the first callback cannot have run. *)
Lemma activation_before_timeout_sticks (t1 t2 : Z) (original : jsstring) :
  settle (show t2 (show t1 (idle original))) = Face text false
  /\ forall t, t <= t2 -> t2 < t1 + delay ->
               run show [Activate t1; Callback t] (idle original) = None.
Proof.
  split; [reflexivity|].
  intros t L1 L2. cbn.
  destruct (t1 + delay <=? t) eqn:E; [apply Z.leb_le in E; lia | reflexivity].
Qed.

(** A second activation after the first callback has run behaves as a
    first one. *)
Lemma activation_after_callback_restores (t1 u t2 v : Z) (original : jsstring) :
  run show [Activate t1; Callback u; Activate t2; Callback v] (idle original)
  = if (t1 + delay <=? u) && (t2 + delay <=? v) then Some (idle original) else None.
Proof.
  cbn. destruct (t1 + delay <=? u); [|reflexivity].
  cbn. destruct (t2 + delay <=? v); reflexivity.
Qed.

Lemma run_app : forall a b c,
  run show (a ++ b) c
  = match run show a c with
    | Some c' => run show b c'
    | None => None
    end.
Proof.
  induction a as [|e a IH]; intros b c; [reflexivity|].
  cbn [app run]. destruct (step show c e) as [c'|]; [apply IH | reflexivity].
Qed.

(** What the control settles on does not depend on when the callbacks
    run. *)
Lemma callbacks_settle : forall times c c',
  run show (map Callback times) c = Some c' -> settle c' = settle c.
Proof.
  induction times as [|t times IH]; intros c c' R.
  - cbn in R. injection R as <-. reflexivity.
  - cbn [map run step] in R. destruct c as [f [|d ds]]; cbn [pending] in R; [discriminate|].
    destruct (due d <=? t); [|discriminate].
    rewrite (IH _ _ R). reflexivity.
Qed.

Lemma settle_after_activation (now : Z) (c : control) :
  settle (show now c) = Face (innerHTML (shown c)) false.
Proof.
  unfold settle, show, acknowledge. cbn [pending shown].
  rewrite fold_left_app. reflexivity.
Qed.

(** However activations and callbacks have followed one another, once every
    callback has run the control shows what it showed when it was last
    activated, without the styling: it ends on its original content when,
    and only when, the last activation found the original content
    showing. *)
Theorem last_activation_decides
        (earlier : list event) (now : Z) (times : list Z) (c c1 c2 : control) :
  run show earlier c = Some c1 ->
  run show (earlier ++ Activate now :: map Callback times) c = Some c2 ->
  settle c2 = Face (innerHTML (shown c1)) false.
Proof.
  intros R1 R2. rewrite run_app, R1 in R2. cbn [run step] in R2.
  rewrite (callbacks_settle _ _ R2). apply settle_after_activation.
Qed.

End Script.

(** Three activations of a control showing [Copy]: the second comes while
    the acknowledgement is showing, the third after the first callback has
    put [Copy] back and while the second callback is pending; the control
    ends on [Copy]. *)
Lemma last_activation_decides_witness :
  run showCopySuccess
    [Activate 0; Activate 500; Callback 1300; Activate 1400;
     Callback 1700; Callback 2600] (idle (str "Copy"))
  = Some (idle (str "Copy"))
  /\ settle (idle (str "Copy")) = Face (str "Copy") false.
Proof.
  split; [reflexivity|].
  apply (@last_activation_decides acknowledgement 1200
           [Activate 0; Activate 500; Callback 1300] 1400 [1700; 2600]
           (idle (str "Copy"))
           (Control (Face (str "Copy") false) [Timer 1700 acknowledgement])
           (idle (str "Copy"))).
  - reflexivity.
  - reflexivity.
Defined.

End FeedbackFacts.

(** ** [formatResponse] on texts without replacement patterns *)

Module FormatterFacts.

Import Formatter.

(** No dollar sign. *)
Definition plain (t : jsstring) : bool := forallb (fun c => negb (c =? dollar)) t.

Lemma expand_str_plain (matched pre post : jsstring) : forall t,
  plain t = true -> expand_str t matched pre post = t.
Proof.
  induction t as [|c t IH]; intro P; [reflexivity|].
  cbn [plain forallb] in P. apply andb_true_iff in P. destruct P as [P1 P2].
  cbn [expand_str]. apply negb_true_iff in P1. rewrite P1.
  f_equal. apply IH. exact P2.
Qed.

Lemma replace_str_from_eq (pat t pre_rev s : jsstring) :
  replace_str_from pat t pre_rev s
  = match strip_prefix pat s with
    | Some post => rev pre_rev ++ expand_str t pat (rev pre_rev) post ++ post
    | None =>
        match s with
        | [] => rev pre_rev
        | c :: s' => replace_str_from pat t (c :: pre_rev) s'
        end
    end.
Proof. destruct s; reflexivity. Qed.

(** The search passes a stretch in which the pattern does not start. *)
Lemma replace_str_from_skip (pat t s : jsstring) : forall u pre_rev,
  (forall u1 u2, u = u1 ++ u2 -> u2 <> [] -> strip_prefix pat (u2 ++ s) = None) ->
  replace_str_from pat t pre_rev (u ++ s)
  = replace_str_from pat t (rev u ++ pre_rev) s.
Proof.
  induction u as [|c u IH]; intros pre_rev H; [reflexivity|].
  rewrite replace_str_from_eq.
  rewrite (H [] (c :: u) eq_refl ltac:(discriminate)).
  cbn [app]. rewrite IH.
  - cbn [rev]. rewrite <- app_assoc. reflexivity.
  - intros u1 u2 E N. apply (H (c :: u1) u2); [rewrite E; reflexivity | exact N].
Qed.

(** A pattern that starts in [t] and is followed by a character it does not
    hold ends in [t]. *)
Lemma strip_prefix_before (c : Z) (rest : jsstring) : forall pat t r,
  existsb (Z.eqb c) pat = false ->
  strip_prefix pat (t ++ c :: rest) = Some r -> startsWith pat t = true.
Proof.
  induction pat as [|x pat IH]; intros t r N S; [reflexivity|].
  cbn [existsb] in N. apply orb_false_iff in N. destruct N as [N1 N2].
  unfold startsWith. destruct t as [|y t]; cbn [app strip_prefix] in *.
  - rewrite Z.eqb_sym, N1 in S. discriminate.
  - destruct (x =? y); [|discriminate].
    exact (IH t r N2 S).
Qed.

Definition answer_mark : jsstring := str "{answer}".

Lemma includes_question_mark : forall question,
  includes answer_mark question = false ->
  includes answer_mark (question ++ str "?") = false.
Proof.
  induction question as [|y t IH]; intro I; [reflexivity|].
  cbn [includes] in I. apply orb_false_iff in I. destruct I as [I1 I2].
  cbn [app includes]. rewrite (IH I2), orb_false_r.
  unfold startsWith.
  destruct (strip_prefix answer_mark (y :: t ++ str "?")) eqn:S; [|reflexivity].
  rewrite <- I1. symmetry.
  exact (@strip_prefix_before 63 [] answer_mark (y :: t) j eq_refl S).
Qed.

(** In the text left by the first replacement the placeholder of the answer
    starts nowhere before its own place. *)
Lemma answer_mark_is_first : forall title,
  includes answer_mark title = false ->
  forall u1 u2, title ++ [nl; nl] = u1 ++ u2 -> u2 <> [] ->
  strip_prefix answer_mark (u2 ++ answer_mark) = None.
Proof.
  induction title as [|c t IH]; intros I u1 u2 E N.
  - destruct u1 as [|a [|b [|? ?]]]; cbn [app] in E.
    + subst u2. reflexivity.
    + injection E as _ E. subst u2. reflexivity.
    + injection E as _ _ E. congruence.
    + discriminate.
  - cbn [includes] in I. apply orb_false_iff in I. destruct I as [I1 I2].
    destruct u1 as [|a u1]; cbn [app] in E.
    + subst u2.
      assert (A : (c :: t ++ [nl; nl]) ++ answer_mark
                  = (c :: t) ++ nl :: nl :: answer_mark).
      { cbn [app]. rewrite <- app_assoc. reflexivity. }
      rewrite A.
      destruct (strip_prefix answer_mark ((c :: t) ++ nl :: nl :: answer_mark)) eqn:S;
        [|reflexivity].
      rewrite (@strip_prefix_before nl (nl :: answer_mark) answer_mark (c :: t) j eq_refl S)
        in I1.
      discriminate.
    + injection E as _ E. exact (IH I2 u1 u2 E N).
Qed.

(** The first replacement, for a title without dollar sign. *)
Lemma replace_title (title : jsstring) :
  plain title = true ->
  replace_str (str "{title}") title format
  = str "# " ++ title ++ [nl; nl] ++ answer_mark.
Proof.
  intro P. unfold replace_str, format.
  cbn. rewrite (@expand_str_plain _ _ _ _ P). reflexivity.
Qed.

(** On a question and an answer without dollar sign, the question not
    holding the placeholder of the answer, [formatResponse] gives the title
    line, an empty line, and the answer. *)
Lemma formatResponse_plain (question answer : jsstring) :
  plain question = true -> plain answer = true ->
  includes answer_mark question = false ->
  formatResponse question answer
  = str "# " ++ (if endsWith (str "?") question then question
                 else question ++ str "?") ++ [nl; nl] ++ answer.
Proof.
  intros Pq Pa I. unfold formatResponse.
  set (title := if endsWith (str "?") question then question else question ++ str "?").
  assert (Pt : plain title = true).
  { unfold title. destruct (endsWith _ _); [exact Pq|].
    unfold plain. rewrite forallb_app. fold (plain question). rewrite Pq. reflexivity. }
  assert (It : includes answer_mark title = false).
  { unfold title. destruct (endsWith _ _); [exact I|].
    apply includes_question_mark. exact I. }
  rewrite (@replace_title title Pt). unfold replace_str.
  replace (str "# " ++ title ++ [nl; nl] ++ answer_mark)
    with (([35; 32] ++ title ++ [nl; nl]) ++ answer_mark)
    by (cbn [app]; rewrite <- app_assoc; reflexivity).
  rewrite replace_str_from_skip.
  - rewrite replace_str_from_eq. change (str "{answer}") with answer_mark.
    replace (strip_prefix answer_mark answer_mark) with (Some (@nil Z)) by reflexivity.
    rewrite app_nil_r, (@expand_str_plain _ _ _ _ Pa), app_nil_r, rev_involutive.
    rewrite <- app_assoc. cbn [app]. rewrite <- app_assoc. reflexivity.
  - intros u1 u2 E N. change (str "{answer}") with answer_mark.
    destruct u1 as [|a [|b u1]]; cbn [app] in E.
    + subst u2. reflexivity.
    + injection E as _ E. subst u2. reflexivity.
    + injection E as _ _ E. exact (@answer_mark_is_first title It u1 u2 E N).
Qed.

End FormatterFacts.

(** ** The round trip of the stored code *)

Module CodecFacts.

Import Codec.

Definition octet (b : Z) : Prop := 0 <= b < 256.

Lemma list_ind3 (P : list Z -> Prop) :
  P [] -> (forall a, P [a]) -> (forall a b, P [a; b]) ->
  (forall a b c t, P t -> P (a :: b :: c :: t)) ->
  forall l, P l.
Proof.
  intros H0 H1 H2 H3.
  assert (H : forall l, P l /\ (forall a, P (a :: l)) /\ (forall a b, P (a :: b :: l))).
  { induction l as [|x l [IH0 [IH1 IH2]]].
    - repeat apply conj; auto.
    - repeat apply conj; auto. }
  intro l. apply H.
Qed.

(** *** Hexadecimal digits *)

Lemma hex_val_digit d : 0 <= d < 16 -> hex_val (hex_digit d) = Some d.
Proof.
  intro H. unfold hex_val, hex_digit, is_digit.
  destruct (d <? 10) eqn:E.
  - apply Z.ltb_lt in E.
    replace ((48 <=? 48 + d) && (48 + d <=? 57)) with true
      by (symmetry; apply andb_true_iff; split; apply Z.leb_le; lia).
    f_equal. lia.
  - apply Z.ltb_ge in E.
    replace ((48 <=? 55 + d) && (55 + d <=? 57)) with false
      by (symmetry; apply andb_false_iff; right; apply Z.leb_gt; lia).
    replace ((65 <=? 55 + d) && (55 + d <=? 70)) with true
      by (symmetry; apply andb_true_iff; split; apply Z.leb_le; lia).
    f_equal. lia.
Qed.

Lemma hex_digit_not_u d : 0 <= d < 16 -> (hex_digit d =? 117) = false.
Proof.
  intro H. unfold hex_digit. apply Z.eqb_neq. destruct (d <? 10); lia.
Qed.

Lemma hex_octet_pct b r :
  octet b -> hex_octet (hex_digit (b / 16) :: hex_digit (b mod 16) :: r) = Some b.
Proof.
  intro H. unfold octet in H. unfold hex_octet.
  assert (H1 : 0 <= b / 16 < 16) by (split; [apply Z.div_pos | apply Z.div_lt_upper_bound]; lia).
  assert (H2 : 0 <= b mod 16 < 16) by (apply Z.mod_pos_bound; lia).
  rewrite (hex_val_digit H1), (hex_val_digit H2). f_equal.
  pose proof (Z.div_mod b 16). lia.
Qed.

(** *** [unescape] after [encodeURIComponent] gives the UTF-8 octets *)

(** The UTF-8 octets of a string, pair by pair. *)
Fixpoint utf8_of (s : jsstring) : list Z :=
  match s with
  | [] => []
  | c :: t =>
      if is_high c then
        match t with
        | d :: t' => utf8 (pair_point c d) ++ utf8_of t'
        | [] => []
        end
      else utf8 c ++ utf8_of t
  end.

Ltac bool_hyps :=
  repeat match goal with
  | H : _ && _ = true |- _ => apply andb_true_iff in H; destruct H
  | H : _ || _ = false |- _ => apply orb_false_iff in H; destruct H
  | H : negb _ = true |- _ => apply negb_true_iff in H
  | H : negb _ = false |- _ => apply negb_false_iff in H
  | H : (_ <=? _) = true |- _ => apply Z.leb_le in H
  | H : (_ <=? _) = false |- _ => apply Z.leb_gt in H
  | H : (_ <? _) = true |- _ => apply Z.ltb_lt in H
  | H : (_ <? _) = false |- _ => apply Z.ltb_ge in H
  | H : (_ =? _) = true |- _ => apply Z.eqb_eq in H
  | H : (_ =? _) = false |- _ => apply Z.eqb_neq in H
  end.

Lemma utf8_octets cp : 0 <= cp < 1114112 -> Forall octet (utf8 cp).
Proof.
  intro H. unfold utf8, octet.
  destruct (cp <? 128) eqn:E1; [|destruct (cp <? 2048) eqn:E2;
    [|destruct (cp <? 65536) eqn:E3]]; bool_hyps;
  repeat constructor;
  try (assert (0 <= cp mod 64 < 64) by (apply Z.mod_pos_bound; lia));
  try (assert (0 <= (cp / 64) mod 64 < 64) by (apply Z.mod_pos_bound; lia));
  try (assert (0 <= (cp / 4096) mod 64 < 64) by (apply Z.mod_pos_bound; lia));
  try (assert (0 <= cp / 64 < 32) by (split; [apply Z.div_pos | apply Z.div_lt_upper_bound]; lia));
  try (assert (0 <= cp / 4096 < 16) by (split; [apply Z.div_pos | apply Z.div_lt_upper_bound]; lia));
  try (assert (0 <= cp / 262144 < 8) by (split; [apply Z.div_pos | apply Z.div_lt_upper_bound]; lia));
  lia.
Qed.

Lemma pair_point_range hi lo :
  is_high hi = true -> is_low lo = true -> 65536 <= pair_point hi lo < 1114112.
Proof.
  unfold is_high, is_low, pair_point. intros; bool_hyps. lia.
Qed.

Lemma unescape_pct b r skip_rest :
  octet b -> skip_rest = unescape_loop 0 r ->
  unescape_loop 0 (pct b ++ r) = b :: skip_rest.
Proof.
  intros H ->. unfold pct. cbn [app unescape_loop Z.eqb Pos.eqb].
  unfold unescape_at.
  assert (H1 : 0 <= b / 16 < 16)
    by (unfold octet in H; split; [apply Z.div_pos | apply Z.div_lt_upper_bound]; lia).
  rewrite (hex_digit_not_u H1), (hex_octet_pct _ H). reflexivity.
Qed.

Lemma unescape_octets bs r :
  Forall octet bs -> unescape_loop 0 (flat_map pct bs ++ r) = bs ++ unescape_loop 0 r.
Proof.
  induction 1 as [|b bs Hb _ IH]; [reflexivity|].
  cbn [flat_map]. rewrite <- app_assoc.
  rewrite (unescape_pct _ Hb eq_refl), IH. reflexivity.
Qed.

Lemma unreserved_ascii c : uri_unreserved c = true -> 0 <= c < 128 /\ c <> 37.
Proof.
  unfold uri_unreserved, is_alpha, is_upper, is_lower, is_digit, one_of.
  cbn [str list_ascii_of_string map existsb].
  intro H. repeat (apply orb_true_iff in H; destruct H as [H|H]); bool_hyps;
    try discriminate; subst; cbn; lia.
Qed.

Lemma utf8_ascii c : 0 <= c < 128 -> utf8 c = [c].
Proof.
  intro H. unfold utf8. replace (c <? 128) with true; [reflexivity|].
  symmetry. apply Z.ltb_lt. lia.
Qed.

Lemma utf8_of_octets s : well_formed s = true -> Forall octet (utf8_of s).
Proof.
  revert s. fix IH 1. intros [|c t]; [constructor|].
  cbn [well_formed utf8_of].
  destruct ((0 <=? c) && (c <=? 65535)) eqn:R; [|discriminate].
  destruct (is_high c) eqn:Hh.
  - destruct t as [|d t']; [discriminate|]. intro H.
    apply andb_true_iff in H. destruct H as [Ld W].
    apply Forall_app. split.
    + apply utf8_octets. pose proof (pair_point_range _ _ Hh Ld). lia.
    + apply IH. assumption.
  - intro H. apply andb_true_iff in H. destruct H as [_ W].
    apply Forall_app. split.
    + apply utf8_octets. bool_hyps. lia.
    + apply IH. assumption.
Qed.

(** Encoding succeeds on well-formed text, and [unescape] turns its result
    into the UTF-8 octets of the text. *)
Lemma unescape_encodeURIComponent s :
  well_formed s = true ->
  exists e, encodeURIComponent s = Some e /\ unescape e = utf8_of s.
Proof.
  unfold unescape. revert s. fix IH 1. intros [|c t]; [exists []; split; reflexivity|].
  cbn [well_formed utf8_of encodeURIComponent].
  destruct ((0 <=? c) && (c <=? 65535)) eqn:R; [|discriminate].
  destruct (uri_unreserved c) eqn:U.
  - destruct (unreserved_ascii _ U) as [A N].
    replace (is_high c) with false
      by (symmetry; unfold is_high; apply andb_false_iff; left; apply Z.leb_gt; lia).
    replace (is_low c) with false
      by (symmetry; unfold is_low; apply andb_false_iff; left; apply Z.leb_gt; lia).
    cbn [negb andb]. intro W. destruct (IH t W) as [e [E1 E2]].
    exists (c :: e). rewrite E1. split; [reflexivity|].
    rewrite (utf8_ascii A). cbn [app unescape_loop].
    replace (c =? 37) with false by (symmetry; apply Z.eqb_neq; assumption).
    rewrite E2. reflexivity.
  - destruct (is_high c) eqn:Hh.
    + assert (Hl : is_low c = false).
      { unfold is_high, is_low in *. bool_hyps. apply andb_false_iff. left.
        apply Z.leb_gt. lia. }
      rewrite Hl. destruct t as [|d t']; [discriminate|].
      intro W. apply andb_true_iff in W. destruct W as [Ld W]. rewrite Ld.
      destruct (IH t' W) as [e [E1 E2]].
      exists (flat_map pct (utf8 (pair_point c d)) ++ e). rewrite E1.
      split; [reflexivity|].
      rewrite unescape_octets, E2; [reflexivity|].
      apply utf8_octets. pose proof (pair_point_range _ _ Hh Ld). lia.
    + intro W. apply andb_true_iff in W. destruct W as [Ld W].
      apply negb_true_iff in Ld. rewrite Ld.
      destruct (IH t W) as [e [E1 E2]].
      exists (flat_map pct (utf8 c) ++ e). rewrite E1. split; [reflexivity|].
      rewrite unescape_octets, E2; [reflexivity|].
      apply utf8_octets. bool_hyps. lia.
Qed.

(** *** [atob] after [btoa] *)

Definition sextet (v : Z) : Prop := 0 <= v < 64.

Lemma b64_val_char v : sextet v -> b64_val (b64_char v) = Some v.
Proof.
  unfold sextet, b64_val, b64_char, is_upper, is_lower, is_digit. intro H.
  destruct (v <? 26) eqn:E1; [|destruct (v <? 52) eqn:E2;
    [|destruct (v <? 62) eqn:E3; [|destruct (v =? 62) eqn:E4]]]; bool_hyps.
  - replace ((65 <=? 65 + v) && (65 + v <=? 90)) with true
      by (symmetry; apply andb_true_iff; split; apply Z.leb_le; lia).
    f_equal; lia.
  - replace ((65 <=? 71 + v) && (71 + v <=? 90)) with false
      by (symmetry; apply andb_false_iff; right; apply Z.leb_gt; lia).
    replace ((97 <=? 71 + v) && (71 + v <=? 122)) with true
      by (symmetry; apply andb_true_iff; split; apply Z.leb_le; lia).
    f_equal; lia.
  - replace ((65 <=? v - 4) && (v - 4 <=? 90)) with false
      by (symmetry; apply andb_false_iff; left; apply Z.leb_gt; lia).
    replace ((97 <=? v - 4) && (v - 4 <=? 122)) with false
      by (symmetry; apply andb_false_iff; left; apply Z.leb_gt; lia).
    replace ((48 <=? v - 4) && (v - 4 <=? 57)) with true
      by (symmetry; apply andb_true_iff; split; apply Z.leb_le; lia).
    f_equal; lia.
  - subst v. reflexivity.
  - assert (v = 63) by lia. subst v. reflexivity.
Qed.

(** A base64 character is neither the padding sign nor white space. *)
Lemma b64_char_plain v :
  sextet v -> (b64_char v =? 61) = false /\ is_ascii_ws (b64_char v) = false.
Proof.
  unfold sextet, b64_char, is_ascii_ws. intro H.
  destruct (v <? 26) eqn:E1; [|destruct (v <? 52) eqn:E2;
    [|destruct (v <? 62) eqn:E3; [|destruct (v =? 62) eqn:E4]]]; bool_hyps;
  (split; [apply Z.eqb_neq; lia | repeat (apply orb_false_iff; split); apply Z.eqb_neq; lia]).
Qed.

(** The four sextets of three octets, and back. *)
Lemma sextets_of_octets a b c :
  octet a -> octet b -> octet c ->
  sextet (a / 4) /\ sextet ((a mod 4) * 16 + b / 16)
  /\ sextet ((b mod 16) * 4 + c / 64) /\ sextet (c mod 64)
  /\ (a / 4) * 4 + ((a mod 4) * 16 + b / 16) / 16 = a
  /\ (((a mod 4) * 16 + b / 16) mod 16) * 16 + ((b mod 16) * 4 + c / 64) / 4 = b
  /\ (((b mod 16) * 4 + c / 64) mod 4) * 64 + c mod 64 = c.
Proof.
  unfold octet, sextet. intros Ha Hb Hc.
  repeat apply conj; Z.to_euclidean_division_equations; lia.
Qed.

Lemma sextets_of_one a :
  octet a -> sextet (a / 4) /\ sextet ((a mod 4) * 16)
  /\ (a / 4) * 4 + ((a mod 4) * 16) / 16 = a.
Proof.
  unfold octet, sextet. intros Ha.
  repeat apply conj; Z.to_euclidean_division_equations; lia.
Qed.

Lemma sextets_of_two a b :
  octet a -> octet b ->
  sextet (a / 4) /\ sextet ((a mod 4) * 16 + b / 16) /\ sextet ((b mod 16) * 4)
  /\ (a / 4) * 4 + ((a mod 4) * 16 + b / 16) / 16 = a
  /\ (((a mod 4) * 16 + b / 16) mod 16) * 16 + ((b mod 16) * 4) / 4 = b.
Proof.
  unfold octet, sextet. intros Ha Hb.
  repeat apply conj; Z.to_euclidean_division_equations; lia.
Qed.

(** The encoding without its padding. *)
Fixpoint b64_body (bs : list Z) : jsstring :=
  match bs with
  | [] => []
  | [a] => [b64_char (a / 4); b64_char ((a mod 4) * 16)]
  | [a; b] =>
      [b64_char (a / 4); b64_char ((a mod 4) * 16 + b / 16);
       b64_char ((b mod 16) * 4)]
  | a :: b :: c :: t =>
      b64_char (a / 4) :: b64_char ((a mod 4) * 16 + b / 16)
      :: b64_char ((b mod 16) * 4 + c / 64) :: b64_char (c mod 64)
      :: b64_body t
  end.

Definition strip_padding (d : jsstring) : jsstring := rev (strip_padding_rev (rev d)).

Lemma strip_padding_app x y :
  (2 <= length y)%nat -> strip_padding (x ++ y) = x ++ strip_padding y.
Proof.
  intro L. unfold strip_padding. rewrite rev_app_distr.
  assert (L' : (2 <= length (rev y))%nat) by (rewrite length_rev; exact L).
  destruct (rev y) as [|a [|b r]]; cbn [length] in L'; try lia.
  cbn [app strip_padding_rev].
  destruct (a =? 61); [destruct (b =? 61)|];
    cbn [rev]; rewrite ?rev_app_distr, ?rev_involutive, <- ?app_assoc; reflexivity.
Qed.

Lemma b64_encode_length bs :
  ((length (b64_encode bs) mod 4 =? 0) = true
   /\ (bs <> [] -> 4 <= length (b64_encode bs)))%nat.
Proof.
  induction bs as [|a|a b|a b c t [IH1 IH2]] using list_ind3;
    try (split; [reflexivity | cbn; intros; (lia || congruence)]).
  cbn [b64_encode length]. split; [|intros; lia].
  change (S (S (S (S (length (b64_encode t)))))) with (4 + length (b64_encode t))%nat.
  rewrite Nat.add_comm. rewrite (Nat.Div0.mod_add _ 1 4). exact IH1.
Qed.

Lemma b64_body_length bs : ((length (b64_body bs) mod 4 =? 1) = false)%nat.
Proof.
  induction bs as [|a|a b|a b c t IH] using list_ind3; try reflexivity.
  cbn [b64_body length].
  change (S (S (S (S (length (b64_body t)))))) with (4 + length (b64_body t))%nat.
  rewrite Nat.add_comm. rewrite (Nat.Div0.mod_add _ 1 4). exact IH.
Qed.

Lemma octets1 a t : Forall octet (a :: t) -> octet a.
Proof. apply Forall_inv. Qed.

Lemma octets2 a b t : Forall octet (a :: b :: t) -> octet a /\ octet b.
Proof.
  intro F. split; [exact (Forall_inv F) | exact (Forall_inv (Forall_inv_tail F))].
Qed.

Lemma octets3 a b c t :
  Forall octet (a :: b :: c :: t) -> octet a /\ octet b /\ octet c /\ Forall octet t.
Proof.
  intro F. pose proof (Forall_inv_tail (Forall_inv_tail F)) as G.
  split; [exact (Forall_inv F)|].
  split; [exact (Forall_inv (Forall_inv_tail F))|].
  split; [exact (Forall_inv G) | exact (Forall_inv_tail G)].
Qed.

Lemma b64_encode_no_space bs :
  Forall octet bs ->
  filter (fun c => negb (is_ascii_ws c)) (b64_encode bs) = b64_encode bs.
Proof.
  induction bs as [|a|a b|a b c t IH] using list_ind3; intro F.
  - reflexivity.
  - pose proof (octets1 F) as H1.
    destruct (sextets_of_one H1) as [S1 [S2 _]].
    cbn [b64_encode filter].
    rewrite (proj2 (b64_char_plain S1)), (proj2 (b64_char_plain S2)). reflexivity.
  - destruct (octets2 F) as [H1 H2].
    destruct (sextets_of_two H1 H2) as [S1 [S2 [S3 _]]].
    cbn [b64_encode filter].
    rewrite (proj2 (b64_char_plain S1)), (proj2 (b64_char_plain S2)),
      (proj2 (b64_char_plain S3)). reflexivity.
  - destruct (octets3 F) as [H1 [H2 [H3 H4]]].
    destruct (sextets_of_octets H1 H2 H3) as [S1 [S2 [S3 [S4 _]]]].
    cbn [b64_encode filter].
    rewrite (proj2 (b64_char_plain S1)), (proj2 (b64_char_plain S2)),
      (proj2 (b64_char_plain S3)), (proj2 (b64_char_plain S4)).
    cbn [negb]. rewrite (IH H4). reflexivity.
Qed.

Lemma strip_b64_encode bs :
  Forall octet bs -> strip_padding (b64_encode bs) = b64_body bs.
Proof.
  induction bs as [|a|a b|a b c t IH] using list_ind3; intro F.
  - reflexivity.
  - reflexivity.
  - destruct (octets2 F) as [H1 H2].
    destruct (sextets_of_two H1 H2) as [_ [_ [S3 _]]].
    unfold strip_padding. cbn [b64_encode rev app strip_padding_rev].
    change (61 =? 61) with true. cbn iota.
    rewrite (proj1 (b64_char_plain S3)). reflexivity.
  - destruct (octets3 F) as [H1 [H2 [H3 H4]]].
    destruct (sextets_of_octets H1 H2 H3) as [_ [_ [_ [S4 _]]]].
    cbn [b64_encode b64_body].
    destruct t as [|x t'].
    + unfold strip_padding. cbn [b64_encode rev app strip_padding_rev].
      rewrite (proj1 (b64_char_plain S4)). reflexivity.
    + set (y := b64_encode (x :: t')) in *.
      change (b64_char (a / 4) :: b64_char (a mod 4 * 16 + b / 16)
              :: b64_char (b mod 16 * 4 + c / 64) :: b64_char (c mod 64) :: y)
        with ([b64_char (a / 4); b64_char (a mod 4 * 16 + b / 16);
               b64_char (b mod 16 * 4 + c / 64); b64_char (c mod 64)] ++ y).
      rewrite strip_padding_app.
      * rewrite (IH H4). reflexivity.
      * assert (x :: t' <> []) by discriminate.
        pose proof (proj2 (b64_encode_length (x :: t')) H). subst y. lia.
Qed.

Lemma sextets_b64_body bs :
  Forall octet bs -> option_map b64_decode (sextets (b64_body bs)) = Some bs.
Proof.
  induction bs as [|a|a b|a b c t IH] using list_ind3; intro F.
  - reflexivity.
  - pose proof (octets1 F) as H1.
    destruct (sextets_of_one H1) as [S1 [S2 E]].
    cbn [b64_body sextets]. rewrite (b64_val_char S1), (b64_val_char S2).
    cbn [option_map b64_decode]. rewrite E. reflexivity.
  - destruct (octets2 F) as [H1 H2].
    destruct (sextets_of_two H1 H2) as [S1 [S2 [S3 [E1 E2]]]].
    cbn [b64_body sextets].
    rewrite (b64_val_char S1), (b64_val_char S2), (b64_val_char S3).
    cbn [option_map b64_decode].
    rewrite E1, E2. reflexivity.
  - destruct (octets3 F) as [H1 [H2 [H3 H4]]].
    destruct (sextets_of_octets H1 H2 H3) as [S1 [S2 [S3 [S4 [E1 [E2 E3]]]]]].
    specialize (IH H4).
    cbn [b64_body sextets].
    rewrite (b64_val_char S1), (b64_val_char S2), (b64_val_char S3), (b64_val_char S4).
    destruct (sextets (b64_body t)) as [vs|]; [|discriminate].
    cbn [option_map] in *. cbn [b64_decode].
    rewrite E1, E2, E3. injection IH as ->. reflexivity.
Qed.

(** [btoa] accepts octets, and [atob] reads its result back. *)
Lemma atob_btoa bs :
  Forall octet bs -> exists e, btoa bs = Some e /\ atob e = Some bs.
Proof.
  intro F. exists (b64_encode bs). split.
  - unfold btoa. replace (forallb _ bs) with true; [reflexivity|].
    symmetry. apply forallb_forall. intros x Hx.
    rewrite Forall_forall in F. specialize (F x Hx). unfold octet in F.
    apply andb_true_iff. split; apply Z.leb_le; lia.
  - unfold atob. rewrite (b64_encode_no_space F).
    rewrite (proj1 (b64_encode_length bs)).
    fold (strip_padding (b64_encode bs)). rewrite (strip_b64_encode F).
    rewrite b64_body_length. apply sextets_b64_body. exact F.
Qed.

(** *** [decodeURIComponent] after [escape] reads UTF-8 octets back *)

Ltac ltb_true := rewrite (proj2 (Z.ltb_lt _ _)) by lia.
Ltac ltb_false := rewrite (proj2 (Z.ltb_ge _ _)) by lia.
Ltac leb_true := rewrite (proj2 (Z.leb_le _ _)) by lia.
Ltac leb_false := rewrite (proj2 (Z.leb_gt _ _)) by lia.

Lemma escape_char_high b : 128 <= b < 256 -> escape_char b = pct b.
Proof.
  intro H. unfold escape_char.
  replace (escape_unreserved b) with false.
  - ltb_true. reflexivity.
  - symmetry. unfold escape_unreserved, is_alpha, is_upper, is_lower, is_digit, one_of.
    cbn [str list_ascii_of_string map existsb].
    repeat (apply orb_false_iff; split);
      try (apply andb_false_iff; right; apply Z.leb_gt; lia);
      try (apply Z.eqb_neq; cbn; lia); reflexivity.
Qed.

Lemma escape_char_low b :
  0 <= b < 128 -> (escape_char b = [b] /\ b <> 37) \/ escape_char b = pct b.
Proof.
  intro H. unfold escape_char. destruct (escape_unreserved b) eqn:U.
  - left. split; [reflexivity|]. intros ->. vm_compute in U. discriminate.
  - right. ltb_true. reflexivity.
Qed.

Lemma cont_octet_pct b r :
  128 <= b < 192 -> cont_octet (pct b ++ r) = Some (b - 128).
Proof.
  intro H. unfold pct, cont_octet. cbn [app Z.eqb Pos.eqb].
  rewrite hex_octet_pct by (unfold octet; lia).
  leb_true. ltb_true. reflexivity.
Qed.

Lemma decode_at_pct b r :
  octet b ->
  decode_at (hex_digit (b / 16) :: hex_digit (b mod 16) :: r)
  = if b <? 128 then Some ([b], 2%nat)
    else if b <? 192 then None
    else if b <? 224 then
      match cont_octet r with
      | Some c1 =>
          let cp := (b - 192) * 64 + c1 in
          if 128 <=? cp then Some (utf16 cp, 5%nat) else None
      | None => None
      end
    else if b <? 240 then
      match cont_octet r, cont_octet (skipn 3 r) with
      | Some c1, Some c2 =>
          let cp := ((b - 224) * 64 + c1) * 64 + c2 in
          if (2048 <=? cp) && negb ((55296 <=? cp) && (cp <=? 57343))
          then Some (utf16 cp, 8%nat) else None
      | _, _ => None
      end
    else if b <? 248 then
      match cont_octet r, cont_octet (skipn 3 r), cont_octet (skipn 6 r) with
      | Some c1, Some c2, Some c3 =>
          let cp := (((b - 240) * 64 + c1) * 64 + c2) * 64 + c3 in
          if (65536 <=? cp) && (cp <=? 1114111)
          then Some (utf16 cp, 11%nat) else None
      | _, _, _ => None
      end
    else None.
Proof.
  intro H. unfold decode_at. rewrite (hex_octet_pct _ H). reflexivity.
Qed.

Lemma decode_loop_pct b r :
  decode_loop 0 (pct b ++ r)
  = match decode_at (hex_digit (b / 16) :: hex_digit (b mod 16) :: r) with
    | Some (u, n) =>
        option_map (app u)
          (decode_loop n (hex_digit (b / 16) :: hex_digit (b mod 16) :: r))
    | None => None
    end.
Proof. reflexivity. Qed.

Lemma decode_skip2 n a b r : decode_loop (S (S n)) (a :: b :: r) = decode_loop n r.
Proof. reflexivity. Qed.

Lemma decode_skip3 n b r : decode_loop (S (S (S n))) (pct b ++ r) = decode_loop n r.
Proof. reflexivity. Qed.

Lemma skipn3_pct b r : skipn 3 (pct b ++ r) = r.
Proof. reflexivity. Qed.

(** One code point: the escaped octets of its UTF-8 form decode to its
    UTF-16 form. *)
Lemma decode_point cp r :
  0 <= cp < 1114112 -> ~ (55296 <= cp <= 57343) ->
  decode_loop 0 (escape (utf8 cp) ++ r)
  = option_map (app (utf16 cp)) (decode_loop 0 r).
Proof.
  intros R NS. unfold utf8, escape.
  destruct (cp <? 128) eqn:E1; [|destruct (cp <? 2048) eqn:E2;
    [|destruct (cp <? 65536) eqn:E3]]; bool_hyps.
  - (* one octet *)
    assert (U : utf16 cp = [cp]) by (unfold utf16; ltb_true; reflexivity).
    rewrite U. cbn [flat_map]. rewrite app_nil_r.
    destruct (escape_char_low (b:=cp)) as [[E N]|E]; [lia| |]; rewrite E.
    + cbn [app decode_loop].
      replace (cp =? 37) with false by (symmetry; apply Z.eqb_neq; exact N).
      destruct (decode_loop 0 r); reflexivity.
    + rewrite decode_loop_pct, decode_at_pct by (unfold octet; lia).
      ltb_true. rewrite decode_skip2. reflexivity.
  - (* two octets *)
    assert (0 <= cp mod 64 < 64) by (apply Z.mod_pos_bound; lia).
    assert (2 <= cp / 64 < 32) by (Z.to_euclidean_division_equations; lia).
    cbn [flat_map]. rewrite app_nil_r.
    rewrite !escape_char_high by lia. rewrite <- app_assoc.
    rewrite decode_loop_pct, decode_at_pct by (unfold octet; lia).
    do 2 ltb_false. ltb_true. cbv iota.
    rewrite cont_octet_pct by lia. cbv zeta.
    replace ((192 + cp / 64 - 192) * 64 + (128 + cp mod 64 - 128)) with cp
      by (Z.to_euclidean_division_equations; lia).
    leb_true. rewrite decode_skip2, decode_skip3. reflexivity.
  - (* three octets *)
    assert (0 <= cp mod 64 < 64) by (apply Z.mod_pos_bound; lia).
    assert (0 <= (cp / 64) mod 64 < 64) by (apply Z.mod_pos_bound; lia).
    assert (0 <= cp / 4096 < 16) by (Z.to_euclidean_division_equations; lia).
    cbn [flat_map]. rewrite app_nil_r.
    rewrite !escape_char_high by lia. rewrite <- !app_assoc.
    rewrite decode_loop_pct, decode_at_pct by (unfold octet; lia).
    do 3 ltb_false. ltb_true. cbv iota.
    rewrite skipn3_pct. rewrite !cont_octet_pct by lia. cbv zeta.
    replace (((224 + cp / 4096 - 224) * 64 + (128 + (cp / 64) mod 64 - 128)) * 64
             + (128 + cp mod 64 - 128)) with cp
      by (Z.to_euclidean_division_equations; lia).
    leb_true.
    replace ((55296 <=? cp) && (cp <=? 57343)) with false.
    + cbn [negb andb]. rewrite decode_skip2, !decode_skip3. reflexivity.
    + symmetry. apply andb_false_iff.
      destruct (Z_le_gt_dec 55296 cp); [right; apply Z.leb_gt | left; apply Z.leb_gt]; lia.
  - (* four octets *)
    assert (0 <= cp mod 64 < 64) by (apply Z.mod_pos_bound; lia).
    assert (0 <= (cp / 64) mod 64 < 64) by (apply Z.mod_pos_bound; lia).
    assert (0 <= (cp / 4096) mod 64 < 64) by (apply Z.mod_pos_bound; lia).
    assert (0 <= cp / 262144 < 8) by (Z.to_euclidean_division_equations; lia).
    cbn [flat_map]. rewrite app_nil_r.
    rewrite !escape_char_high by lia. rewrite <- !app_assoc.
    rewrite decode_loop_pct, decode_at_pct by (unfold octet; lia).
    do 4 ltb_false. ltb_true. cbv iota.
    change (skipn 6 (pct (128 + (cp / 4096) mod 64)
                     ++ pct (128 + (cp / 64) mod 64) ++ pct (128 + cp mod 64) ++ r))
      with (pct (128 + cp mod 64) ++ r).
    rewrite skipn3_pct. rewrite !cont_octet_pct by lia. cbv zeta.
    replace ((((240 + cp / 262144 - 240) * 64 + (128 + (cp / 4096) mod 64 - 128)) * 64
              + (128 + (cp / 64) mod 64 - 128)) * 64 + (128 + cp mod 64 - 128)) with cp
      by (Z.to_euclidean_division_equations; lia).
    do 2 leb_true. cbn [andb]. rewrite decode_skip2, !decode_skip3. reflexivity.
Qed.

Lemma utf16_pair hi lo :
  is_high hi = true -> is_low lo = true -> utf16 (pair_point hi lo) = [hi; lo].
Proof.
  intros Hh Hl. pose proof (pair_point_range _ _ Hh Hl) as R.
  unfold utf16. ltb_false.
  unfold is_high, is_low, pair_point in *. bool_hyps.
  f_equal; [|f_equal]; Z.to_euclidean_division_equations; lia.
Qed.

Lemma decode_escape_utf8 s :
  well_formed s = true -> decodeURIComponent (escape (utf8_of s)) = Some s.
Proof.
  unfold decodeURIComponent. revert s. fix IH 1. intros [|c t]; [reflexivity|].
  cbn [well_formed utf8_of].
  destruct ((0 <=? c) && (c <=? 65535)) eqn:R; [|discriminate].
  apply andb_true_iff in R. destruct R as [R1 R2].
  apply Z.leb_le in R1. apply Z.leb_le in R2.
  destruct (is_high c) eqn:Hh.
  - destruct t as [|d t']; [discriminate|]. intro W.
    apply andb_true_iff in W. destruct W as [Ld W].
    pose proof (pair_point_range _ _ Hh Ld) as P.
    unfold escape. rewrite flat_map_app. fold (escape (utf8 (pair_point c d))).
    fold (escape (utf8_of t')).
    rewrite decode_point by lia. rewrite (IH t' W), (utf16_pair _ _ Hh Ld). reflexivity.
  - intro W. apply andb_true_iff in W. destruct W as [Ld W].
    apply negb_true_iff in Ld.
    unfold escape. rewrite flat_map_app. fold (escape (utf8 c)).
    fold (escape (utf8_of t)).
    rewrite decode_point.
    + rewrite (IH t W). unfold utf16. ltb_true. reflexivity.
    + lia.
    + unfold is_high, is_low in Hh, Ld. intro N.
      apply andb_false_iff in Hh. apply andb_false_iff in Ld.
      destruct Hh as [Hh|Hh]; destruct Ld as [Ld|Ld];
        try apply Z.leb_gt in Hh; try apply Z.leb_gt in Ld; lia.
Qed.

(** *** The claim *)

(** Code text with the characters the claim lists (angle bracket, ampersand,
    both quotes, backtick, line feed) and with characters outside ASCII, one
    of them a surrogate pair. *)
Definition sample_code : jsstring :=
  str "if (a < b && c) { s = 'x'; t = " ++ dq ++ str "y" ++ dq ++ str "; }"
  ++ [nl; 96] ++ str "tpl" ++ [96; nl; 233; 8364; 55357; 56832].

(** The two codecs are inverse to each other: for every well-formed code
    text (no unpaired surrogate), the encoding that the fence callback
    writes exists, and decoding it as [copyCodeBlock] does yields exactly the
    text that was encoded. *)
Lemma store_then_copy_round_trip (c : jsstring) :
  well_formed c = true ->
  exists e, store_encode c = Some e /\ copy_decode e = Some c.
Proof.
  intro W.
  destruct (unescape_encodeURIComponent c W) as [u [E1 E2]].
  destruct (atob_btoa (utf8_of_octets c W)) as [e [B1 B2]].
  exists e. unfold store_encode, copy_decode.
  rewrite E1, E2, B1, B2. split; [reflexivity|].
  apply decode_escape_utf8. exact W.
Qed.

Lemma store_then_copy_round_trip_witness :
  exists e, store_encode sample_code = Some e /\ copy_decode e = Some sample_code.
Proof.
  apply store_then_copy_round_trip. reflexivity.
Defined.

(** On an unpaired surrogate [encodeURIComponent] throws, so nothing is
    stored and nothing can be copied. *)
Lemma unpaired_surrogate_not_stored :
  ~ (exists e, store_encode [55357] = Some e /\ copy_decode e = Some [55357]).
Proof.
  intros [e [E _]]. vm_compute in E. discriminate.
Qed.

End CodecFacts.

(** ** Trimming *)

Module TrimFacts.

(** Neither the first nor the last character is white space. *)
Definition clean_edges (r : jsstring) : Prop :=
  r = [] \/ (is_ws (hd 0 r) = false /\ is_ws (last r 0) = false).

Lemma trimStart_split : forall s,
  exists w, s = w ++ trimStart s /\ forallb is_ws w = true.
Proof.
  induction s as [|c t [w [E F]]]; [exists []; split; reflexivity|].
  cbn [trimStart]. destruct (is_ws c) eqn:W.
  - exists (c :: w). cbn [app forallb]. rewrite W, F, <- E. split; reflexivity.
  - exists []. split; reflexivity.
Qed.

Lemma trimStart_head : forall s,
  trimStart s = [] \/ is_ws (hd 0 (trimStart s)) = false.
Proof.
  induction s as [|c t IH]; [left; reflexivity|].
  cbn [trimStart]. destruct (is_ws c) eqn:W; [exact IH|].
  right. exact W.
Qed.

Lemma trimStart_id s : s = [] \/ is_ws (hd 0 s) = false -> trimStart s = s.
Proof.
  intros [->|H]; [reflexivity|].
  destruct s as [|c t]; [reflexivity|]. cbn [hd] in H. cbn [trimStart].
  rewrite H. reflexivity.
Qed.

Lemma trimStart_app : forall u y,
  trimStart u <> [] -> trimStart (u ++ y) = trimStart u ++ y.
Proof.
  induction u as [|c t IH]; intros y H; [contradiction H; reflexivity|].
  cbn [trimStart app] in *. destruct (is_ws c); [apply IH; exact H|reflexivity].
Qed.

Lemma last_of_white : forall l,
  forallb is_ws l = true -> l <> [] -> is_ws (last l 0) = true.
Proof.
  induction l as [|c t IH]; intros F N; [contradiction N; reflexivity|].
  cbn [forallb] in F. apply andb_true_iff in F. destruct F as [F1 F2].
  destruct t as [|d t']; [exact F1|].
  change (last (c :: d :: t') 0) with (last (d :: t') 0).
  apply IH; [exact F2 | discriminate].
Qed.

Lemma rev_last (a : jsstring) :
  a <> [] -> rev a = last a 0 :: rev (removelast a).
Proof.
  intro N. rewrite (app_removelast_last 0 N) at 1.
  rewrite rev_app_distr. reflexivity.
Qed.

Lemma trimEnd_id a : a = [] \/ is_ws (last a 0) = false -> trimEnd a = a.
Proof.
  intros [->|H]; [reflexivity|].
  destruct a as [|c t] eqn:A; [reflexivity|]. rewrite <- A in *.
  assert (N : a <> []) by (rewrite A; discriminate).
  unfold trimEnd. rewrite (rev_last N). cbn [trimStart]. rewrite H.
  rewrite <- (rev_last N). apply rev_involutive.
Qed.

Lemma trimEnd_app z v : trimEnd v <> [] -> trimEnd (z ++ v) = z ++ trimEnd v.
Proof.
  unfold trimEnd. intro H. rewrite rev_app_distr.
  rewrite trimStart_app.
  - rewrite rev_app_distr, rev_involutive. reflexivity.
  - intro E. apply H. rewrite E. reflexivity.
Qed.

Lemma trim_clean s : clean_edges (trim s).
Proof.
  unfold clean_edges, trim, trimEnd.
  pose proof (trimStart_head s) as H.
  destruct (trimStart s) as [|c t]; [left; reflexivity|].
  destruct H as [H|H]; [discriminate|]. cbn [hd] in H.
  destruct (trimStart_split (rev (c :: t))) as [w [E F]].
  pose proof (trimStart_head (rev (c :: t))) as B.
  destruct (trimStart (rev (c :: t))) as [|x b'].
  - (* the reverse would be white space only *)
    exfalso. rewrite app_nil_r in E.
    assert (N : rev (c :: t) <> []) by (cbn [rev]; destruct (rev t); discriminate).
    rewrite <- E in F. pose proof (last_of_white F N) as L.
    cbn [rev] in L. rewrite last_last in L. congruence.
  - destruct B as [B|B]; [discriminate|]. cbn [hd] in B.
    right. cbn [rev]. split.
    + (* the first character is still [c] *)
      assert (Ea : c :: t = (rev b' ++ [x]) ++ rev w).
      { rewrite <- (rev_involutive (c :: t)), E, rev_app_distr. reflexivity. }
      destruct (rev b' ++ [x]) as [|y r] eqn:R.
      * destruct (rev b'); discriminate.
      * cbn [app] in Ea. injection Ea as -> _. exact H.
    + rewrite last_last. exact B.
Qed.

Lemma trim_fixed r : clean_edges r -> trim r = r.
Proof.
  intros [->|[H L]]; [reflexivity|].
  unfold trim. rewrite (trimStart_id (or_intror H)).
  apply trimEnd_id. right. exact L.
Qed.

End TrimFacts.

(** ** How the matcher runs the patterns the claims depend on *)

Module RegexFacts.

(** The run of a greedy [c*] over a class: the longest run of class
    characters first, then shorter ones, until the continuation accepts. *)
Fixpoint greedy_run (p : Z -> bool) (prev : option Z) (s : jsstring)
         (cs : captures) (k : cont) : option mstate :=
  match s with
  | c :: t =>
      if p c
      then orElse (greedy_run p (Some c) t cs k) (fun _ => k (MState prev s cs))
      else k (MState prev s cs)
  | [] => k (MState prev [] cs)
  end.

Lemma star_loop_class p k : forall fuel prev s cs,
  (length s < fuel)%nat ->
  star_loop (rmatch (Class p)) true fuel (MState prev s cs) k
  = greedy_run p prev s cs k.
Proof.
  induction fuel as [|f IH]; intros prev s cs L; [lia|].
  cbn [star_loop rmatch]. unfold step_char. cbn [rest caps before].
  destruct s as [|c t]; [reflexivity|].
  cbn [greedy_run]. destruct (p c); [|reflexivity].
  cbn [rest length].
  replace (length t <? S (length t))%nat with true
    by (symmetry; apply Nat.ltb_lt; lia).
  rewrite IH by (cbn [length] in L; lia). reflexivity.
Qed.

Lemma rmatch_star_class p prev s cs k :
  rmatch (Star (Class p)) (MState prev s cs) k = greedy_run p prev s cs k.
Proof.
  cbn [rmatch rest]. apply star_loop_class. lia.
Qed.

(** When the continuation refuses every position that starts with a class
    character, only the longest run can be accepted. *)
Fixpoint after_run (p : Z -> bool) (prev : option Z) (s : jsstring) : option Z * jsstring :=
  match s with
  | c :: t => if p c then after_run p (Some c) t else (prev, s)
  | [] => (prev, [])
  end.

Lemma greedy_run_longest p k :
  (forall prev c t cs, p c = true -> k (MState prev (c :: t) cs) = None) ->
  forall s prev cs,
    greedy_run p prev s cs k
    = k (MState (fst (after_run p prev s)) (snd (after_run p prev s)) cs).
Proof.
  intros K. induction s as [|c t IH]; intros prev cs; [reflexivity|].
  cbn [greedy_run after_run]. destruct (p c) eqn:E; [|reflexivity].
  rewrite IH. destruct (k (MState _ _ cs)) eqn:R; [reflexivity|].
  cbn [orElse]. apply K. exact E.
Qed.

(** With a continuation that accepts everything, the run is the longest. *)
Lemma greedy_run_accept p : forall s prev cs,
  greedy_run p prev s cs (fun st => Some st)
  = Some (MState (fst (after_run p prev s)) (snd (after_run p prev s)) cs).
Proof.
  induction s as [|c t IH]; intros prev cs; [reflexivity|].
  cbn [greedy_run after_run]. destruct (p c); [|reflexivity].
  rewrite IH. reflexivity.
Qed.

Lemma after_run_split p : forall s prev,
  exists w, s = w ++ snd (after_run p prev s) /\ forallb p w = true
            /\ match snd (after_run p prev s) with
               | c :: _ => p c = false
               | [] => True
               end.
Proof.
  induction s as [|c t IH]; intro prev.
  - exists []. repeat split.
  - cbn [after_run]. destruct (p c) eqn:E.
    + destruct (IH (Some c)) as [w [E1 [E2 E3]]].
      exists (c :: w). cbn [app forallb]. rewrite E, E2. rewrite <- E1.
      repeat split. exact E3.
    + exists []. cbn [snd]. rewrite E. repeat split.
Qed.

(** The search is the same for every amount of fuel above the length. *)
Lemma scan_fuel r : forall f1 f2 prev s,
  (length s < f1)%nat -> (length s < f2)%nat ->
  scan r f1 prev s = scan r f2 prev s.
Proof.
  induction f1 as [|f1 IH]; intros f2 prev s L1 L2; [lia|].
  destruct f2 as [|f2]; [lia|].
  cbn [scan]. unfold exec.
  destruct (rmatch r (MState prev s []) (fun st => Some st)) as [st|].
  - destruct (firstn (length s - length (rest st)) s) as [|x m] eqn:M.
    + destruct s as [|c t]; [reflexivity|].
      cbn [length] in *. rewrite (IH f2) by lia. reflexivity.
    + assert (length (rest st) < length s)%nat.
      { destruct (Nat.lt_ge_cases (length (rest st)) (length s)) as [L|L]; [exact L|].
        replace (length s - length (rest st))%nat with 0%nat in M by lia.
        discriminate. }
      rewrite (IH f2) by lia. reflexivity.
  - destruct s as [|c t]; [reflexivity|].
    cbn [length] in *. rewrite (IH f2) by lia. reflexivity.
Qed.

(** A pattern without [^] or [\b] does not look at the character before. *)
Lemma scan_prev r :
  (forall p1 p2 s, exec r p1 s = exec r p2 s) ->
  forall f p1 p2 s, scan r f p1 s = scan r f p2 s.
Proof.
  intros H. induction f as [|f IH]; intros p1 p2 s; [reflexivity|].
  cbn [scan]. rewrite (H p1 p2 s).
  destruct (exec r p2 s) as [[[m cs] s']|]; [reflexivity|].
  destruct s as [|c t]; reflexivity.
Qed.

(** Characters at which no match starts are copied. *)
Lemma scan_skip r pre :
  forall f prev s,
    (forall p c t, In c pre -> exec r p (c :: t) = None) ->
    exists prev',
      scan r (length pre + f) prev (pre ++ s) = map Keep pre ++ scan r f prev' s.
Proof.
  induction pre as [|c pre IH]; intros f prev s H.
  - exists prev. reflexivity.
  - cbn [length Nat.add app scan]. rewrite H by (left; reflexivity).
    destruct (IH f (Some c) s) as [prev' E].
    { intros p x t Hx. apply H. right. exact Hx. }
    exists prev'. rewrite E. reflexivity.
Qed.

Lemma includes_cons2 p c t : includes p (c :: t) = startsWith p (c :: t) || includes p t.
Proof. reflexivity. Qed.

Lemma startsWith_cons a p c x :
  startsWith (a :: p) (c :: x) = (a =? c) && startsWith p x.
Proof.
  unfold startsWith. cbn [strip_prefix]. destruct (a =? c); reflexivity.
Qed.

Lemma render_keep (f : replacer) s : flat_map (render f) (map Keep s) = s.
Proof.
  induction s as [|c t IH]; [reflexivity|].
  cbn [map flat_map render app]. rewrite IH. reflexivity.
Qed.

End RegexFacts.

(** ** Stage 1: trimming and the collapse of blank lines *)

Module NormalizeFacts.

Import RegexFacts Template.

(** Line feeds in the white space that [s] starts with. *)
Fixpoint nl_count (s : jsstring) : nat :=
  match s with
  | c :: t => if is_ws c then ((if (c =? nl)%Z then 1 else 0) + nl_count t)%nat else 0%nat
  | [] => 0%nat
  end.

(** What follows the last of these line feeds. *)
Fixpoint after_last_nl (s : jsstring) : jsstring :=
  match s with
  | c :: t =>
      if is_ws c then
        if (1 <=? nl_count t)%nat then after_last_nl t
        else if c =? nl then t else s
      else s
  | [] => []
  end.

(** The end of the pattern: white space, then a line feed. *)
Definition k_last : cont := fun st => step_char (Z.eqb nl) st (fun st' => Some st').

(** The middle of the pattern: a line feed, white space, a line feed. *)
Definition k_middle : cont :=
  fun st => step_char (Z.eqb nl) st (fun st1 => rmatch (Star Ws) st1 k_last).

Lemma nl_eqb c : (nl =? c) = (c =? nl).
Proof. apply Z.eqb_sym. Qed.

Lemma run_to_last : forall s prev cs,
  greedy_run is_ws prev s cs k_last
  = if (1 <=? nl_count s)%nat
    then Some (MState (Some nl) (after_last_nl s) cs) else None.
Proof.
  induction s as [|c t IH]; intros prev cs; [reflexivity|].
  cbn [greedy_run nl_count after_last_nl].
  destruct (is_ws c) eqn:W.
  - rewrite IH. destruct (1 <=? nl_count t)%nat eqn:N.
    + apply Nat.leb_le in N.
      replace (1 <=? (if (c =? nl)%Z then 1 else 0) + nl_count t)%nat with true
        by (symmetry; apply Nat.leb_le; lia).
      reflexivity.
    + apply Nat.leb_gt in N. cbn [orElse]. unfold k_last, step_char. cbn [rest caps].
      rewrite nl_eqb. destruct (c =? nl) eqn:E.
      * apply Z.eqb_eq in E. subst c. reflexivity.
      * replace (nl_count t) with 0%nat by lia. reflexivity.
  - unfold k_last, step_char. cbn [rest].
    rewrite nl_eqb. destruct (c =? nl) eqn:E; [|reflexivity].
    apply Z.eqb_eq in E. subst c. discriminate.
Qed.

Lemma run_to_middle : forall s prev cs,
  greedy_run is_ws prev s cs k_middle
  = if (2 <=? nl_count s)%nat
    then Some (MState (Some nl) (after_last_nl s) cs) else None.
Proof.
  induction s as [|c t IH]; intros prev cs; [reflexivity|].
  cbn [greedy_run nl_count after_last_nl].
  destruct (is_ws c) eqn:W.
  - rewrite IH. destruct (2 <=? nl_count t)%nat eqn:N.
    + apply Nat.leb_le in N.
      replace (2 <=? (if (c =? nl)%Z then 1 else 0) + nl_count t)%nat with true
        by (symmetry; apply Nat.leb_le; lia).
      replace (1 <=? nl_count t)%nat with true by (symmetry; apply Nat.leb_le; lia).
      reflexivity.
    + apply Nat.leb_gt in N. cbn [orElse]. unfold k_middle, step_char. cbn [rest caps].
      rewrite nl_eqb. destruct (c =? nl) eqn:E.
      * change (rmatch (Star Ws)) with (rmatch (Star (Class is_ws))).
        rewrite rmatch_star_class, run_to_last.
        destruct (1 <=? nl_count t)%nat eqn:N1.
        -- apply Nat.leb_le in N1.
           replace (2 <=? 1 + nl_count t)%nat with true
             by (symmetry; apply Nat.leb_le; lia).
           reflexivity.
        -- apply Nat.leb_gt in N1.
           replace (2 <=? 1 + nl_count t)%nat with false
             by (symmetry; apply Nat.leb_gt; lia).
           reflexivity.
      * replace (2 <=? 0 + nl_count t)%nat with false
          by (symmetry; apply Nat.leb_gt; lia).
        reflexivity.
  - unfold k_middle, step_char. cbn [rest].
    rewrite nl_eqb. destruct (c =? nl) eqn:E; [|reflexivity].
    apply Z.eqb_eq in E. subst c. discriminate.
Qed.

(** One attempt of the pattern: it succeeds at a line feed whose following
    white space holds two more line feeds, and ends after the last of them. *)
Lemma exec_blank_lines prev s :
  exec re_blank_lines prev s
  = match s with
    | c :: t =>
        if (c =? nl) && (2 <=? nl_count t)%nat
        then Some (firstn (length s - length (after_last_nl t)) s, [], after_last_nl t)
        else None
    | [] => None
    end.
Proof.
  unfold exec, re_blank_lines.
  change (rmatch _ (MState prev s []) (fun st => Some st))
    with (step_char (Z.eqb nl) (MState prev s [])
            (fun st1 => rmatch (Star (Class is_ws)) st1 k_middle)).
  unfold step_char at 1. cbn [rest caps].
  destruct s as [|c t]; [reflexivity|].
  rewrite nl_eqb. destruct (c =? nl) eqn:E; [|reflexivity].
  rewrite rmatch_star_class, run_to_middle. cbn [andb].
  destruct (2 <=? nl_count t)%nat; reflexivity.
Qed.

(** The replacement as a function of the text alone. *)
Fixpoint squeeze (fuel : nat) (s : jsstring) : jsstring :=
  match fuel with
  | O => s
  | S f =>
      match s with
      | [] => []
      | c :: t =>
          if (c =? nl) && (2 <=? nl_count t)%nat
          then nl :: nl :: squeeze f (after_last_nl t)
          else c :: squeeze f t
      end
  end.

Lemma after_last_nl_split : forall t,
  exists w, t = w ++ after_last_nl t /\ forallb is_ws w = true.
Proof.
  induction t as [|c t IH]; [exists []; split; reflexivity|].
  cbn [after_last_nl]. destruct (is_ws c) eqn:W.
  - destruct (1 <=? nl_count t)%nat.
    + destruct IH as [w [E F]]. exists (c :: w). cbn [app forallb].
      rewrite W, F, <- E. split; reflexivity.
    + destruct (c =? nl).
      * exists [c]. cbn [app forallb]. rewrite W. split; reflexivity.
      * exists []. split; reflexivity.
  - exists []. split; reflexivity.
Qed.

Lemma after_last_nl_length t : (length (after_last_nl t) <= length t)%nat.
Proof.
  destruct (after_last_nl_split t) as [w [E _]].
  rewrite E at 2. rewrite length_app. lia.
Qed.

Lemma after_last_nl_count : forall t, nl_count (after_last_nl t) = 0%nat.
Proof.
  induction t as [|c t IH]; [reflexivity|].
  cbn [after_last_nl]. destruct (is_ws c) eqn:W.
  - destruct (1 <=? nl_count t)%nat eqn:N; [exact IH|].
    apply Nat.leb_gt in N.
    destruct (c =? nl) eqn:E; [lia|].
    cbn [nl_count]. rewrite W, E. lia.
  - cbn [nl_count]. rewrite W. reflexivity.
Qed.

Lemma replace_blank_lines : forall f prev s,
  flat_map (render (template 0 [nl; nl])) (scan re_blank_lines f prev s) = squeeze f s.
Proof.
  induction f as [|f IH]; intros prev s.
  - cbn [scan squeeze]. induction s as [|c t IHs]; [reflexivity|].
    cbn [map flat_map render app]. rewrite IHs. reflexivity.
  - cbn [scan squeeze]. rewrite exec_blank_lines.
    destruct s as [|c t]; [reflexivity|].
    destruct ((c =? nl) && (2 <=? nl_count t)%nat).
    + pose proof (after_last_nl_length t) as L.
      replace (length (c :: t) - length (after_last_nl t))%nat
        with (S (length t - length (after_last_nl t))) by (cbn [length]; lia).
      cbn [firstn flat_map render]. rewrite IH. reflexivity.
    + cbn [flat_map render app]. rewrite IH. reflexivity.
Qed.

Lemma normalize_squeeze markdown :
  normalize markdown = squeeze (S (length (trim markdown))) (trim markdown).
Proof.
  unfold normalize, replace_all. apply replace_blank_lines.
Qed.

(** *** No three line feeds in a row *)

Fixpoint lead_nl (l : jsstring) : nat :=
  match l with
  | c :: t => if c =? nl then S (lead_nl t) else 0%nat
  | [] => 0%nat
  end.

Lemma starts_triple l : startsWith [nl; nl; nl] l = (3 <=? lead_nl l)%nat.
Proof.
  unfold startsWith.
  destruct l as [|a [|b [|c l]]]; cbn [strip_prefix lead_nl];
    rewrite ?nl_eqb;
    repeat match goal with |- context [?x =? nl] => destruct (x =? nl) end;
    reflexivity.
Qed.

Lemma includes_cons p c t : includes p (c :: t) = startsWith p (c :: t) || includes p t.
Proof. reflexivity. Qed.

Lemma squeeze_no_triple : forall f s,
  (length s <= f)%nat ->
  includes [nl; nl; nl] (squeeze f s) = false
  /\ (lead_nl (squeeze f s) <= nl_count s)%nat
  /\ (lead_nl (squeeze f s) <= 2)%nat.
Proof.
  induction f as [|f IH]; intros s L.
  - destruct s; [|cbn [length] in L; lia]. split; [reflexivity | split; cbn; lia].
  - cbn [squeeze]. destruct s as [|c t]; [split; [reflexivity | split; cbn; lia]|].
    cbn [length] in L.
    destruct ((c =? nl) && (2 <=? nl_count t)%nat) eqn:C.
    + apply andb_true_iff in C. destruct C as [C1 C2].
      apply Nat.leb_le in C2.
      pose proof (after_last_nl_length t) as La.
      destruct (IH (after_last_nl t)) as [I1 [I2 _]]; [lia|].
      rewrite after_last_nl_count in I2.
      set (X := squeeze f (after_last_nl t)) in *.
      assert (Z0 : lead_nl X = 0%nat) by lia.
      rewrite !includes_cons, !starts_triple. cbn [lead_nl nl_count].
      change (nl =? nl) with true. cbv iota. rewrite Z0, I1.
      replace (is_ws c) with true
        by (apply Z.eqb_eq in C1; subst c; reflexivity).
      rewrite C1. split; [reflexivity | split; lia].
    + destruct (IH t) as [I1 [I2 I3]]; [lia|].
      set (X := squeeze f t) in *.
      rewrite includes_cons, starts_triple. cbn [lead_nl nl_count].
      destruct (c =? nl) eqn:E.
      * cbn [andb] in C. apply Nat.leb_gt in C.
        replace (is_ws c) with true
          by (apply Z.eqb_eq in E; subst c; reflexivity).
        replace (3 <=? S (lead_nl X))%nat with false
          by (symmetry; apply Nat.leb_gt; lia).
        rewrite I1. split; [reflexivity | split; lia].
      * rewrite I1. split; [reflexivity | split; lia].
Qed.

(** *** The result is trimmed *)

Import TrimFacts.

Lemma squeeze_nil f : squeeze f [] = [].
Proof. destruct f; reflexivity. Qed.

Lemma squeeze_fuel : forall f1 f2 s,
  (length s <= f1)%nat -> (length s <= f2)%nat -> squeeze f1 s = squeeze f2 s.
Proof.
  induction f1 as [|f1 IH]; intros f2 s L1 L2.
  - destruct s; [|cbn [length] in L1; lia]. rewrite !squeeze_nil. reflexivity.
  - destruct f2 as [|f2].
    + destruct s; [|cbn [length] in L2; lia]. reflexivity.
    + cbn [squeeze]. destruct s as [|c t]; [reflexivity|]. cbn [length] in *.
      pose proof (after_last_nl_length t).
      destruct ((c =? nl) && (2 <=? nl_count t)%nat);
        rewrite (IH f2) by lia; reflexivity.
Qed.

Lemma last_cons (c : Z) t : t <> [] -> last (c :: t) 0 = last t 0.
Proof. destruct t; [intro N; contradiction N; reflexivity | reflexivity]. Qed.

Lemma last_app_nonempty (w a : jsstring) : a <> [] -> last (w ++ a) 0 = last a 0.
Proof.
  intro N. induction w as [|c w IH]; [reflexivity|].
  cbn [app]. rewrite last_cons; [exact IH|].
  destruct w; [exact N | discriminate].
Qed.

Lemma squeeze_last : forall f s,
  (length s <= f)%nat -> s <> [] -> is_ws (last s 0) = false ->
  squeeze f s <> [] /\ last (squeeze f s) 0 = last s 0.
Proof.
  induction f as [|f IH]; intros s L N W.
  - destruct s; [contradiction N; reflexivity | cbn [length] in L; lia].
  - destruct s as [|c t]; [contradiction N; reflexivity|].
    cbn [squeeze]. cbn [length] in L.
    destruct ((c =? nl) && (2 <=? nl_count t)%nat) eqn:C.
    + apply andb_true_iff in C. destruct C as [C1 _]. apply Z.eqb_eq in C1. subst c.
      destruct (after_last_nl_split t) as [w [E F]].
      pose proof (after_last_nl_length t) as La.
      assert (A : after_last_nl t <> []).
      { intro A. rewrite A, app_nil_r in E. subst w.
        assert (F' : forallb is_ws (nl :: t) = true) by (cbn [forallb]; rewrite F; reflexivity).
        assert (N' : nl :: t <> []) by discriminate.
        pose proof (last_of_white F' N'). congruence. }
      assert (Ls : last (nl :: t) 0 = last (after_last_nl t) 0).
      { rewrite E at 1. change (nl :: w ++ after_last_nl t) with ((nl :: w) ++ after_last_nl t).
        apply last_app_nonempty. exact A. }
      rewrite Ls in *.
      destruct (IH (after_last_nl t)) as [I1 I2]; [lia | exact A | exact W|].
      split; [discriminate|].
      rewrite !last_cons; [exact I2 | exact I1 | discriminate].
    + split; [discriminate|].
      destruct t as [|d t'].
      * rewrite squeeze_nil. reflexivity.
      * assert (Nt : d :: t' <> []) by discriminate.
        rewrite (last_cons c Nt) in *.
        destruct (IH (d :: t')) as [I1 I2]; [lia | exact Nt | exact W|].
        rewrite last_cons; [exact I2 | exact I1].
Qed.

Lemma squeeze_clean f s :
  (length s <= f)%nat -> clean_edges s -> clean_edges (squeeze f s).
Proof.
  intros L [->|[H W]]; [left; apply squeeze_nil|].
  destruct s as [|c t]; [left; apply squeeze_nil|].
  destruct f as [|f]; [cbn [length] in L; lia|].
  cbn [hd] in H. cbn [squeeze].
  replace (c =? nl) with false
    by (symmetry; apply Z.eqb_neq; intros ->; discriminate).
  cbn [andb]. right. split; [exact H|].
  destruct t as [|d t']; [rewrite squeeze_nil; exact H|].
  assert (Nt : d :: t' <> []) by discriminate.
  rewrite (last_cons c Nt) in W.
  destruct (@squeeze_last f (d :: t')) as [I1 I2];
    [cbn [length] in *; lia | exact Nt | exact W|].
  rewrite last_cons; [rewrite I2; exact W | exact I1].
Qed.

(** *** A run of line feeds between two other characters *)

Lemma nl_count_app : forall u a y,
  is_ws a = false -> nl_count (u ++ a :: y) = nl_count (u ++ [a]).
Proof.
  induction u as [|c u IH]; intros a y W; cbn [app nl_count].
  - rewrite W. reflexivity.
  - destruct (is_ws c); [rewrite (IH a y W); reflexivity | reflexivity].
Qed.

Lemma after_last_nl_app : forall u a,
  is_ws a = false ->
  exists r, (length r <= length u)%nat
            /\ forall y, after_last_nl (u ++ a :: y) = r ++ a :: y.
Proof.
  induction u as [|c u IH]; intros a W.
  - exists []. split; [lia|]. intro y. cbn [app after_last_nl]. rewrite W. reflexivity.
  - destruct (IH a W) as [r [Lr Er]].
    destruct (is_ws c) eqn:Wc.
    + destruct (1 <=? nl_count (u ++ [a]))%nat eqn:N.
      * exists r. split; [cbn [length]; lia|]. intro y.
        cbn [app after_last_nl]. rewrite Wc, (nl_count_app u a y W), N. apply Er.
      * destruct (c =? nl) eqn:E.
        -- exists u. split; [cbn [length]; lia|]. intro y.
           cbn [app after_last_nl]. rewrite Wc, (nl_count_app u a y W), N, E. reflexivity.
        -- exists (c :: u). split; [lia|]. intro y.
           cbn [app after_last_nl]. rewrite Wc, (nl_count_app u a y W), N, E. reflexivity.
    + exists (c :: u). split; [lia|]. intro y.
      cbn [app after_last_nl]. rewrite Wc. reflexivity.
Qed.

Lemma squeeze_cons f c t :
  squeeze (S f) (c :: t)
  = if (c =? nl) && (2 <=? nl_count t)%nat
    then nl :: nl :: squeeze f (after_last_nl t)
    else c :: squeeze f t.
Proof. reflexivity. Qed.

(** The replacement works on the two sides of a character that is not white
    space independently. *)
Lemma squeeze_app : forall f u a y,
  is_ws a = false -> (length (u ++ a :: y) <= f)%nat ->
  squeeze f (u ++ a :: y) = squeeze f (u ++ [a]) ++ squeeze f y.
Proof.
  induction f as [|f IH]; intros u a y W L.
  - destruct u; cbn [app length] in L; lia.
  - assert (Lu : length (u ++ a :: y) = (length u + S (length y))%nat)
      by (rewrite length_app; reflexivity).
    destruct u as [|c u].
    + cbn [app]. rewrite (squeeze_cons f a y), (squeeze_cons f a []).
      replace (a =? nl) with false
        by (symmetry; apply Z.eqb_neq; intros ->; discriminate).
      cbn [andb]. rewrite squeeze_nil. cbn [app]. f_equal.
      apply squeeze_fuel; cbn [app length] in L; lia.
    + cbn [app length] in *.
      rewrite (squeeze_cons f c (u ++ a :: y)), (squeeze_cons f c (u ++ [a])).
      rewrite (nl_count_app u a y W).
      destruct ((c =? nl) && (2 <=? nl_count (u ++ [a]))%nat).
      * destruct (after_last_nl_app u a W) as [r [Lr Er]].
        rewrite (Er y), (Er []). cbn [app]. f_equal. f_equal.
        rewrite (IH r a y W).
        -- f_equal. apply squeeze_fuel; lia.
        -- rewrite length_app. cbn [length]. lia.
      * cbn [app]. f_equal.
        rewrite (IH u a y W) by lia.
        f_equal. apply squeeze_fuel; lia.
Qed.

Lemma nl_count_run : forall k b v,
  is_ws b = false -> nl_count (repeat nl k ++ b :: v) = k.
Proof.
  induction k as [|k IH]; intros b v W; cbn [repeat app nl_count].
  - rewrite W. reflexivity.
  - change (is_ws nl) with true. change (nl =? nl) with true. cbv iota.
    rewrite (IH b v W). reflexivity.
Qed.

Lemma after_last_nl_run : forall k b v,
  is_ws b = false -> after_last_nl (repeat nl k ++ b :: v) = b :: v.
Proof.
  induction k as [|k IH]; intros b v W; cbn [repeat app after_last_nl].
  - rewrite W. reflexivity.
  - change (is_ws nl) with true. change (nl =? nl) with true. cbv iota.
    rewrite (nl_count_run k b v W).
    destruct k as [|k']; [reflexivity|].
    change (1 <=? S k')%nat with true. cbv iota. apply IH. exact W.
Qed.

Lemma squeeze_run f n b v :
  (3 <= n)%nat -> is_ws b = false -> (length (repeat nl n ++ b :: v) <= f)%nat ->
  squeeze f (repeat nl n ++ b :: v) = nl :: nl :: squeeze f (b :: v).
Proof.
  intros N W L. destruct n as [|k]; [lia|].
  destruct f as [|f]; [cbn [repeat app length] in L; lia|].
  cbn [repeat app]. rewrite (squeeze_cons f nl (repeat nl k ++ b :: v)).
  change (nl =? nl) with true.
  rewrite (nl_count_run k b v W), (after_last_nl_run k b v W).
  replace (2 <=? k)%nat with true by (symmetry; apply Nat.leb_le; lia).
  cbn [andb]. f_equal. f_equal.
  apply squeeze_fuel.
  - cbn [repeat app length] in L. rewrite length_app in L. cbn [length] in *. lia.
  - cbn [repeat app length] in L. rewrite length_app in L. cbn [length] in *. lia.
Qed.

(** Trimming a text whose last (first) character is not white space. *)
Lemma trimStart_keeps_last : forall u a,
  is_ws a = false -> exists u', trimStart (u ++ [a]) = u' ++ [a].
Proof.
  induction u as [|c u IH]; intros a W.
  - exists []. cbn [app trimStart]. rewrite W. reflexivity.
  - cbn [app trimStart]. destruct (is_ws c); [apply IH; exact W|].
    exists (c :: u). reflexivity.
Qed.

Lemma trimEnd_keeps_first b v :
  is_ws b = false -> exists v', trimEnd (b :: v) = b :: v'.
Proof.
  intro W. unfold trimEnd. cbn [rev].
  destruct (trimStart_keeps_last (rev v) b W) as [u' E].
  rewrite E, rev_app_distr. exists (rev u'). reflexivity.
Qed.

Lemma trim_around u a x b v :
  is_ws a = false -> is_ws b = false ->
  exists u' v',
    trim (u ++ [a]) = u' ++ [a] /\ trim (b :: v) = b :: v'
    /\ trim ((u ++ [a]) ++ x ++ b :: v) = (u' ++ [a]) ++ x ++ b :: v'.
Proof.
  intros Wa Wb.
  destruct (trimStart_keeps_last u a Wa) as [u' Eu].
  destruct (trimEnd_keeps_first b v Wb) as [v' Ev].
  exists u', v'. unfold trim.
  assert (Nu : trimStart (u ++ [a]) <> [])
    by (rewrite Eu; destruct u'; discriminate).
  assert (Nv : trimEnd (b :: v) <> []) by (rewrite Ev; discriminate).
  repeat apply conj.
  - rewrite Eu. apply trimEnd_id. right. rewrite last_last. exact Wa.
  - cbn [trimStart]. rewrite Wb. exact Ev.
  - rewrite (trimStart_app _ _ Nu), Eu.
    rewrite app_assoc, (trimEnd_app _ _ Nv), Ev, <- app_assoc. reflexivity.
Qed.

(** *** A stretch of white space with three line feeds or more *)

(** The characters before the first line feed. *)
Fixpoint before_first_nl (w : jsstring) : jsstring :=
  match w with
  | c :: t => if c =? nl then [] else c :: before_first_nl t
  | [] => []
  end.

Lemma nl_count_white : forall w b v,
  forallb is_ws w = true -> is_ws b = false ->
  nl_count (w ++ b :: v) = nl_count w.
Proof.
  induction w as [|c w IH]; intros b v F W; cbn [app nl_count].
  - rewrite W. reflexivity.
  - cbn [forallb] in F. apply andb_true_iff in F. destruct F as [F1 F2].
    rewrite F1, (IH b v F2 W). reflexivity.
Qed.

Lemma after_last_nl_white : forall w b v,
  forallb is_ws w = true -> is_ws b = false ->
  after_last_nl (w ++ b :: v) = after_last_nl w ++ b :: v.
Proof.
  induction w as [|c w IH]; intros b v F W; cbn [app after_last_nl].
  - rewrite W. reflexivity.
  - cbn [forallb] in F. apply andb_true_iff in F. destruct F as [F1 F2].
    rewrite F1, (nl_count_white w b v F2 W).
    destruct (1 <=? nl_count w)%nat; [apply IH; assumption|].
    destruct (c =? nl); reflexivity.
Qed.

Lemma after_last_nl_is_white : forall w,
  forallb is_ws w = true -> forallb is_ws (after_last_nl w) = true.
Proof.
  induction w as [|c w IH]; intro F; [reflexivity|].
  cbn [forallb] in F. apply andb_true_iff in F. destruct F as [F1 F2].
  cbn [after_last_nl]. rewrite F1.
  destruct (1 <=? nl_count w)%nat; [apply IH; exact F2|].
  destruct (c =? nl); [exact F2|]. cbn [forallb]. rewrite F1, F2. reflexivity.
Qed.

(** White space without a line feed is copied. *)
Lemma squeeze_white : forall f w b v,
  forallb is_ws w = true -> nl_count w = 0%nat -> is_ws b = false ->
  (length (w ++ b :: v) <= f)%nat ->
  squeeze f (w ++ b :: v) = w ++ squeeze f (b :: v).
Proof.
  induction f as [|f IH]; intros w b v F N W L.
  - destruct w; cbn [app length] in L; lia.
  - destruct w as [|c w]; [reflexivity|].
    cbn [forallb] in F. apply andb_true_iff in F. destruct F as [F1 F2].
    cbn [nl_count] in N. rewrite F1 in N.
    cbn [app length] in *. rewrite (squeeze_cons f c (w ++ b :: v)).
    destruct (c =? nl) eqn:E; [lia|]. cbn [andb]. f_equal.
    rewrite (IH w b v F2) by (assumption || lia).
    f_equal. apply squeeze_fuel; rewrite length_app in L; cbn [length] in *; lia.
Qed.

Lemma squeeze_stretch : forall f w b v,
  forallb is_ws w = true -> (3 <= nl_count w)%nat -> is_ws b = false ->
  (length (w ++ b :: v) <= f)%nat ->
  squeeze f (w ++ b :: v)
  = before_first_nl w ++ nl :: nl :: after_last_nl w ++ squeeze f (b :: v).
Proof.
  induction f as [|f IH]; intros w b v F N W L.
  - destruct w; cbn [app length] in L; lia.
  - destruct w as [|c w]; [cbn [nl_count] in N; lia|].
    cbn [forallb] in F. apply andb_true_iff in F. destruct F as [F1 F2].
    cbn [nl_count] in N. rewrite F1 in N.
    assert (Lw : length (w ++ b :: v) = (length w + S (length v))%nat)
      by (rewrite length_app; reflexivity).
    cbn [app length] in L.
    cbn [app before_first_nl after_last_nl]. rewrite F1.
    rewrite (squeeze_cons f c (w ++ b :: v)), (nl_count_white w b v F2 W).
    destruct (c =? nl) eqn:E.
    + replace (2 <=? nl_count w)%nat with true by (symmetry; apply Nat.leb_le; lia).
      replace (1 <=? nl_count w)%nat with true by (symmetry; apply Nat.leb_le; lia).
      cbn [andb app]. f_equal. f_equal.
      rewrite (after_last_nl_white w b v F2 W).
      pose proof (after_last_nl_length w) as La.
      rewrite squeeze_white;
        [|apply after_last_nl_is_white; exact F2 | apply after_last_nl_count
         | exact W | rewrite length_app; cbn [length]; lia].
      f_equal. apply squeeze_fuel; cbn [length]; lia.
    + replace (1 <=? nl_count w)%nat with true by (symmetry; apply Nat.leb_le; lia).
      cbn [andb app]. f_equal.
      rewrite (IH w b v F2) by (assumption || lia).
      f_equal. f_equal. f_equal. f_equal. apply squeeze_fuel; cbn [length]; lia.
Qed.

(** *** The claim *)

(** The claim's words: every maximal run of three or more consecutive line
    feeds becomes exactly two, and nothing else changes; [seen] counts the
    line feeds of the run so far. *)
Fixpoint collapse_runs (seen : nat) (s : jsstring) : jsstring :=
  match s with
  | [] => []
  | c :: t =>
      if c =? nl
      then if (seen <? 2)%nat then nl :: collapse_runs (S seen) t
           else collapse_runs (S seen) t
      else c :: collapse_runs 0 t
  end.

Definition two_runs : jsstring :=
  str "a" ++ [nl; nl; nl; 32; nl; nl; nl] ++ str "b".

Definition separated : jsstring := str "a" ++ [nl; 32; nl; 32; nl] ++ str "b".

(** C5 as stated fails: the pattern of the first stage lets white space
    stand between the line feeds.  Two runs of three line feeds with a space
    between them become two line feeds in all, not two each; and three line
    feeds that are not consecutive, of which the claim says nothing, become
    two as well, the spaces between them being lost. *)
Lemma normalize_merges_separated_line_feeds :
  normalize two_runs = str "a" ++ [nl; nl] ++ str "b"
  /\ collapse_runs 0 (trim two_runs) = str "a" ++ [nl; nl; 32; nl; nl] ++ str "b"
  /\ normalize two_runs <> collapse_runs 0 (trim two_runs)
  /\ normalize separated = str "a" ++ [nl; nl] ++ str "b"
  /\ collapse_runs 0 (trim separated) = separated
  /\ normalize separated <> collapse_runs 0 (trim separated).
Proof.
  repeat apply conj; try (vm_compute; reflexivity); vm_compute; discriminate.
Qed.

(** C5, as the code has it: the first stage of [convertMarkdownToHTML] leaves
    a text that is empty or starts and ends with a character that is not
    white space, and that holds no three line feeds in a row.  What is
    collapsed is a stretch of white space with three line feeds or more,
    consecutive or not: between two other characters it is replaced by what
    it has before its first line feed, exactly two line feeds, and what it
    has after its last line feed, the texts on its two sides being
    normalised on their own; in particular a run of three or more line feeds
    between two other characters becomes exactly two. *)
Theorem normalize_collapses_line_breaks (markdown : jsstring) :
  clean_edges (normalize markdown)
  /\ includes [nl; nl; nl] (normalize markdown) = false
  /\ (forall u a w b v,
        is_ws a = false -> is_ws b = false ->
        forallb is_ws w = true -> (3 <= nl_count w)%nat ->
        normalize ((u ++ [a]) ++ w ++ b :: v)
        = normalize (u ++ [a]) ++ before_first_nl w ++ [nl; nl]
          ++ after_last_nl w ++ normalize (b :: v))
  /\ (forall u a n b v,
        is_ws a = false -> is_ws b = false -> (3 <= n)%nat ->
        normalize ((u ++ [a]) ++ repeat nl n ++ b :: v)
        = normalize (u ++ [a]) ++ [nl; nl] ++ normalize (b :: v)).
Proof.
  repeat apply conj.
  - rewrite normalize_squeeze.
    apply squeeze_clean; [lia | apply trim_clean].
  - rewrite normalize_squeeze. apply squeeze_no_triple. lia.
  - intros u a w b v Wa Wb F N.
    destruct (trim_around u a w b v Wa Wb) as [u' [v' [E1 [E2 E3]]]].
    rewrite !normalize_squeeze, E1, E2, E3.
    rewrite <- app_assoc. cbn [app].
    rewrite squeeze_app by (exact Wa || lia).
    rewrite (@squeeze_stretch _ w b v'); [|exact F | exact N | exact Wb|].
    + cbn [app]. f_equal; [|f_equal; f_equal; f_equal; f_equal]; apply squeeze_fuel;
        rewrite ?length_app; cbn [length]; rewrite ?length_app; cbn [length]; lia.
    + rewrite !length_app. cbn [length]. rewrite length_app. cbn [length]. lia.
  - intros u a n b v Wa Wb N.
    destruct (trim_around u a (repeat nl n) b v Wa Wb) as [u' [v' [E1 [E2 E3]]]].
    rewrite !normalize_squeeze, E1, E2, E3.
    rewrite <- app_assoc. cbn [app].
    rewrite squeeze_app by (exact Wa || lia).
    rewrite squeeze_run; [|exact N | exact Wb|].
    + cbn [app]. f_equal; [|f_equal; f_equal]; apply squeeze_fuel;
        rewrite ?length_app; cbn [length]; rewrite ?length_app; cbn [length]; lia.
    + rewrite !length_app. cbn [length]. rewrite length_app. cbn [length]. lia.
Qed.

(** Five line feeds and a trailing blank between two words. *)
Lemma normalize_collapses_line_breaks_witness :
  normalize ((str " one" ++ [ch "."]) ++ (32 :: repeat nl 5 ++ [32]) ++ ch "t" :: str "wo ")
  = normalize (str " one" ++ [ch "."]) ++ before_first_nl (32 :: repeat nl 5 ++ [32])
    ++ [nl; nl] ++ after_last_nl (32 :: repeat nl 5 ++ [32])
    ++ normalize (ch "t" :: str "wo ").
Proof.
  apply (proj1 (proj2 (proj2 (normalize_collapses_line_breaks [])))).
  - reflexivity.
  - reflexivity.
  - reflexivity.
  - vm_compute. lia.
Defined.

Example normalize_five_line_feeds :
  normalize (str " one. " ++ repeat nl 5 ++ str " two ")
  = str "one. " ++ [nl; nl] ++ str " two".
Proof. vm_compute. reflexivity. Qed.

End NormalizeFacts.

(** ** The final cleanup of [processResponse] *)

Module CleanupFacts.

Import RegexFacts TrimFacts Template.

Lemma after_run_trimStart : forall s prev, snd (after_run is_ws prev s) = trimStart s.
Proof.
  induction s as [|c t IH]; intro prev; [reflexivity|].
  cbn [after_run trimStart]. destruct (is_ws c); [apply IH | reflexivity].
Qed.

Lemma trimStart_length s : (length (trimStart s) <= length s)%nat.
Proof.
  destruct (trimStart_split s) as [w [E _]]. rewrite E at 2.
  rewrite length_app. lia.
Qed.

(** *** The first replacement: a run of white space becomes one space *)

Lemma exec_white_run prev s :
  exec (Plus Ws) prev s
  = match s with
    | c :: t =>
        if is_ws c
        then Some (firstn (length s - length (trimStart t)) s, [], trimStart t)
        else None
    | [] => None
    end.
Proof.
  unfold exec.
  change (rmatch (Plus Ws) (MState prev s []) (fun st => Some st))
    with (step_char is_ws (MState prev s [])
            (fun st1 => rmatch (Star (Class is_ws)) st1 (fun st => Some st))).
  unfold step_char. cbn [rest caps].
  destruct s as [|c t]; [reflexivity|].
  destruct (is_ws c); [|reflexivity].
  rewrite rmatch_star_class, greedy_run_accept. cbn [rest caps].
  rewrite after_run_trimStart. reflexivity.
Qed.

Fixpoint spaces (fuel : nat) (s : jsstring) : jsstring :=
  match fuel with
  | O => s
  | S f =>
      match s with
      | [] => []
      | c :: t => if is_ws c then 32 :: spaces f (trimStart t) else c :: spaces f t
      end
  end.

Lemma replace_white_runs : forall f prev s,
  flat_map (render (template 0 [32])) (scan (Plus Ws) f prev s) = spaces f s.
Proof.
  induction f as [|f IH]; intros prev s; [apply render_keep|].
  cbn [scan spaces]. rewrite exec_white_run.
  destruct s as [|c t]; [reflexivity|].
  destruct (is_ws c).
  - pose proof (trimStart_length t) as L.
    replace (length (c :: t) - length (trimStart t))%nat
      with (S (length t - length (trimStart t))) by (cbn [length]; lia).
    cbn [firstn flat_map render]. rewrite IH. reflexivity.
  - cbn [flat_map render app]. rewrite IH. reflexivity.
Qed.

(** *** The second replacement: white space between [>] and [<] goes *)

(** What follows a [>]: white space and then [<]; the text after the [<]. *)
Definition gap (t : jsstring) : option jsstring :=
  match t with
  | d :: t' =>
      if is_ws d then
        match trimStart t' with
        | x :: r => if x =? 60 then Some r else None
        | [] => None
        end
      else None
  | [] => None
  end.

Definition k_open : cont := fun st => step_char (Z.eqb 60) st (fun st' => Some st').

Lemma exec_between_tags prev s :
  exec re_between_tags prev s
  = match s with
    | c :: t =>
        if c =? 62 then
          match gap t with
          | Some r => Some (firstn (length s - length r) s, [], r)
          | None => None
          end
        else None
    | [] => None
    end.
Proof.
  unfold exec.
  change (rmatch re_between_tags (MState prev s []) (fun st => Some st))
    with (step_char (Z.eqb 62) (MState prev s [])
            (fun st1 => step_char is_ws st1
               (fun st2 => rmatch (Star (Class is_ws)) st2 k_open))).
  unfold step_char at 1. cbn [rest caps].
  destruct s as [|c t]; [reflexivity|].
  rewrite (Z.eqb_sym 62 c). destruct (c =? 62); [|reflexivity].
  unfold step_char at 1. cbn [rest caps]. unfold gap.
  destruct t as [|d t']; [reflexivity|].
  destruct (is_ws d); [|reflexivity].
  rewrite rmatch_star_class, greedy_run_longest.
  - rewrite after_run_trimStart. unfold k_open, step_char. cbn [rest caps].
    destruct (trimStart t') as [|x r]; [reflexivity|].
    rewrite (Z.eqb_sym 60 x). destruct (x =? 60); reflexivity.
  - intros p x r cs W. unfold k_open, step_char. cbn [rest].
    replace (60 =? x) with false; [reflexivity|].
    symmetry. apply Z.eqb_neq. intros <-. discriminate.
Qed.

Fixpoint tighten (fuel : nat) (s : jsstring) : jsstring :=
  match fuel with
  | O => s
  | S f =>
      match s with
      | [] => []
      | c :: t =>
          match (if c =? 62 then gap t else None) with
          | Some r => 62 :: 60 :: tighten f r
          | None => c :: tighten f t
          end
      end
  end.

Lemma gap_length t r : gap t = Some r -> (length r < length t)%nat.
Proof.
  unfold gap. destruct t as [|d t']; [discriminate|].
  destruct (is_ws d); [|discriminate].
  pose proof (trimStart_length t') as L.
  destruct (trimStart t') as [|x r']; [discriminate|].
  destruct (x =? 60); [|discriminate].
  intro E. injection E as <-. cbn [length] in *. lia.
Qed.

Lemma replace_between_tags : forall f prev s,
  flat_map (render (template 0 (str "><"))) (scan re_between_tags f prev s)
  = tighten f s.
Proof.
  induction f as [|f IH]; intros prev s; [apply render_keep|].
  cbn [scan tighten]. rewrite exec_between_tags.
  destruct s as [|c t]; [reflexivity|].
  destruct (c =? 62).
  - destruct (gap t) as [r|] eqn:G.
    + pose proof (gap_length t G) as L.
      replace (length (c :: t) - length r)%nat with (S (length t - length r))
        by (cbn [length]; lia).
      cbn [firstn flat_map render]. rewrite IH. reflexivity.
    + cbn [flat_map render app]. rewrite IH. reflexivity.
  - cbn [flat_map render app]. rewrite IH. reflexivity.
Qed.

Lemma final_cleanup_steps html :
  final_cleanup html
  = tighten (S (length (spaces (S (length (trim html))) (trim html))))
      (spaces (S (length (trim html))) (trim html)).
Proof.
  unfold final_cleanup, replace_all.
  rewrite replace_white_runs, replace_between_tags. reflexivity.
Qed.

(** *** Only white space is touched *)

(** The characters that are not white space, in order. *)
Definition visible (s : jsstring) : jsstring := filter (fun c => negb (is_ws c)) s.

Lemma visible_app a b : visible (a ++ b) = visible a ++ visible b.
Proof. apply filter_app. Qed.

Lemma visible_white w : forallb is_ws w = true -> visible w = [].
Proof.
  induction w as [|c w IH]; intro F; [reflexivity|].
  cbn [forallb] in F. apply andb_true_iff in F. destruct F as [F1 F2].
  unfold visible. cbn [filter]. rewrite F1. cbn [negb]. apply IH. exact F2.
Qed.

Lemma visible_trimStart s : visible (trimStart s) = visible s.
Proof.
  destruct (trimStart_split s) as [w [E F]].
  rewrite E at 2. rewrite visible_app, (visible_white w F). reflexivity.
Qed.

Lemma visible_rev s : visible (rev s) = rev (visible s).
Proof.
  induction s as [|c t IH]; [reflexivity|].
  cbn [rev]. rewrite visible_app, IH. unfold visible at 2 3. cbn [filter].
  destruct (negb (is_ws c)); cbn [rev app]; [reflexivity | apply app_nil_r].
Qed.

Lemma visible_trim s : visible (trim s) = visible s.
Proof.
  unfold trim, trimEnd.
  rewrite visible_rev, visible_trimStart, visible_rev, rev_involutive.
  apply visible_trimStart.
Qed.

Lemma visible_spaces : forall f s, visible (spaces f s) = visible s.
Proof.
  induction f as [|f IH]; intro s; [reflexivity|].
  cbn [spaces]. destruct s as [|c t]; [reflexivity|].
  destruct (is_ws c) eqn:W.
  - unfold visible at 1 2. cbn [filter]. rewrite W. change (is_ws 32) with true.
    cbn [negb]. fold (visible (spaces f (trimStart t))). fold (visible t).
    rewrite IH. apply visible_trimStart.
  - unfold visible at 1 2. cbn [filter]. rewrite W. cbn [negb].
    fold (visible (spaces f t)). fold (visible t). rewrite IH. reflexivity.
Qed.

Lemma visible_gap t r : gap t = Some r -> visible t = 60 :: visible r.
Proof.
  unfold gap. destruct t as [|d t']; [discriminate|].
  destruct (is_ws d) eqn:W; [|discriminate].
  pose proof (visible_trimStart t') as V.
  destruct (trimStart t') as [|x r']; [discriminate|].
  destruct (x =? 60) eqn:E; [|discriminate].
  apply Z.eqb_eq in E. subst x. intro G. injection G as <-.
  unfold visible at 1. cbn [filter]. rewrite W. cbn [negb]. fold (visible t').
  rewrite <- V. reflexivity.
Qed.

Lemma visible_tighten : forall f s, visible (tighten f s) = visible s.
Proof.
  induction f as [|f IH]; intro s; [reflexivity|].
  cbn [tighten]. destruct s as [|c t]; [reflexivity|].
  destruct (c =? 62) eqn:E.
  - apply Z.eqb_eq in E. subst c. destruct (gap t) as [r|] eqn:G.
    + change (visible (62 :: 60 :: tighten f r)) with (62 :: 60 :: visible (tighten f r)).
      change (visible (62 :: t)) with (62 :: visible t).
      rewrite IH, (visible_gap t G). reflexivity.
    + change (visible (62 :: tighten f t)) with (62 :: visible (tighten f t)).
      rewrite IH. reflexivity.
  - unfold visible at 1 2. cbn [filter]. destruct (negb (is_ws c));
      fold (visible (tighten f t)); fold (visible t); rewrite IH; reflexivity.
Qed.

(** *** What is left of the white space *)

(** Every white-space character is a single space, and no two are adjacent;
    [sp] tells whether a space comes just before. *)
Fixpoint tidy (sp : bool) (l : jsstring) : bool :=
  match l with
  | [] => true
  | c :: t => if is_ws c then (c =? 32) && negb sp && tidy true t else tidy false t
  end.

Lemma tidy_spaces : forall f s,
  (length s <= f)%nat ->
  tidy false (spaces f s) = true
  /\ (s = [] \/ is_ws (hd 0 s) = false -> tidy true (spaces f s) = true).
Proof.
  induction f as [|f IH]; intros s L.
  - destruct s; [|cbn [length] in L; lia]. split; reflexivity.
  - cbn [spaces]. destruct s as [|c t]; [split; reflexivity|].
    cbn [length] in L. destruct (is_ws c) eqn:W.
    + pose proof (trimStart_length t) as Lt.
      destruct (IH (trimStart t)) as [_ I2]; [lia|].
      split.
      * cbn [tidy]. change (is_ws 32) with true. cbv iota.
        change (32 =? 32) with true. cbn [negb andb].
        apply I2. destruct (trimStart_head t) as [E|E]; [left | right]; exact E.
      * intros [E|E]; [discriminate|]. cbn [hd] in E. congruence.
    + destruct (IH t) as [I1 _]; [lia|].
      cbn [tidy]. rewrite W. split; [exact I1 | intros _; exact I1].
Qed.

Lemma tidy_across : forall w x r sp,
  forallb is_ws w = true -> is_ws x = false ->
  tidy sp (w ++ x :: r) = true -> tidy false r = true.
Proof.
  induction w as [|c w IH]; intros x r sp F X T.
  - cbn [app tidy] in T. rewrite X in T. exact T.
  - cbn [forallb] in F. apply andb_true_iff in F. destruct F as [F1 F2].
    cbn [app tidy] in T. rewrite F1 in T.
    apply andb_true_iff in T. destruct T as [_ T].
    exact (IH x r true F2 X T).
Qed.

Lemma gap_split t r :
  gap t = Some r -> exists w, t = w ++ 60 :: r /\ forallb is_ws w = true.
Proof.
  unfold gap. destruct t as [|d t']; [discriminate|].
  destruct (is_ws d) eqn:W; [|discriminate].
  destruct (trimStart_split t') as [w [E F]].
  destruct (trimStart t') as [|x r']; [discriminate|].
  destruct (x =? 60) eqn:X; [|discriminate].
  apply Z.eqb_eq in X. subst x. intro G. injection G as <-.
  exists (d :: w). cbn [app forallb]. rewrite W, F, <- E. split; reflexivity.
Qed.

Lemma tidy_tighten : forall f s sp,
  (length s <= f)%nat -> tidy sp s = true -> tidy sp (tighten f s) = true.
Proof.
  induction f as [|f IH]; intros s sp L T; [exact T|].
  cbn [tighten]. destruct s as [|c t]; [reflexivity|].
  cbn [length] in L.
  destruct (if c =? 62 then gap t else None) as [r|] eqn:G.
  - destruct (c =? 62) eqn:E; [|discriminate].
    apply Z.eqb_eq in E. subst c.
    pose proof (gap_length t G) as Lr.
    destruct (gap_split t G) as [w [Et F]].
    change (tidy sp (62 :: t)) with (tidy false t) in T.
    change (tidy sp (62 :: 60 :: tighten f r)) with (tidy false (tighten f r)).
    apply IH; [lia|]. rewrite Et in T.
    exact (tidy_across w 60 r false F eq_refl T).
  - cbn [tidy] in *. destruct (is_ws c).
    + apply andb_true_iff in T. destruct T as [T1 T2]. rewrite T1. cbn [andb].
      apply IH; [lia | exact T2].
    + apply IH; [lia | exact T].
Qed.

(** *** Nothing is left between [>] and [<] *)

Lemma tighten_head : forall f s, hd_error (tighten f s) = hd_error s.
Proof.
  destruct f as [|f]; intro s; [reflexivity|].
  cbn [tighten]. destruct s as [|c t]; [reflexivity|].
  destruct (c =? 62) eqn:E; [|reflexivity].
  apply Z.eqb_eq in E. subst c. destruct (gap t); reflexivity.
Qed.

Lemma tighten_keeps_gap f t :
  startsWith [32; 60] (tighten f t) = true -> gap t <> None.
Proof.
  destruct f as [|f].
  - cbn [tighten]. unfold startsWith. cbn [strip_prefix].
    destruct t as [|a [|b t']]; try discriminate;
      rewrite (Z.eqb_sym 32 a); destruct (a =? 32) eqn:A; try discriminate.
    rewrite (Z.eqb_sym 60 b); destruct (b =? 60) eqn:B; try discriminate.
    intros _. apply Z.eqb_eq in A. subst a. unfold gap.
    change (is_ws 32) with true. cbv iota. cbn [trimStart].
    replace (is_ws b) with false by (apply Z.eqb_eq in B; subst b; reflexivity).
    rewrite B. discriminate.
  - cbn [tighten]. destruct t as [|a t1]; [discriminate|].
    destruct (a =? 62) eqn:A.
    + apply Z.eqb_eq in A. subst a. destruct (gap t1); discriminate.
    + unfold startsWith. cbn [strip_prefix].
      rewrite (Z.eqb_sym 32 a). destruct (a =? 32) eqn:A32; [|discriminate].
      pose proof (tighten_head f t1) as H.
      destruct (tighten f t1) as [|b X]; [discriminate|].
      rewrite (Z.eqb_sym 60 b). destruct (b =? 60) eqn:B; [|discriminate].
      intros _. apply Z.eqb_eq in A32. apply Z.eqb_eq in B. subst a b.
      destruct t1 as [|b t2]; [discriminate|]. injection H as <-.
      unfold gap. change (is_ws 32) with true. cbv iota. cbn [trimStart].
      change (is_ws 60) with false. cbv iota. discriminate.
Qed.

Lemma tighten_no_gap : forall f s,
  (length s <= f)%nat -> includes [62; 32; 60] (tighten f s) = false.
Proof.
  induction f as [|f IH]; intros s L.
  - destruct s; [reflexivity | cbn [length] in L; lia].
  - cbn [tighten]. destruct s as [|c t]; [reflexivity|]. cbn [length] in L.
    destruct (if c =? 62 then gap t else None) as [r|] eqn:G.
    + destruct (c =? 62); [|discriminate].
      pose proof (gap_length t G) as Lr.
      rewrite !includes_cons2, (IH r) by lia.
      unfold startsWith. cbn [strip_prefix]. reflexivity.
    + rewrite includes_cons2, (IH t) by lia.
      rewrite orb_false_r, startsWith_cons.
      rewrite (Z.eqb_sym 62 c). destruct (c =? 62) eqn:E; [|reflexivity].
      destruct (startsWith [32; 60] (tighten f t)) eqn:P; [|reflexivity].
      exfalso. exact (tighten_keeps_gap f t P G).
Qed.

(** *** The claim *)

(** The text of a piece of HTML: what stands outside its tags. *)
Fixpoint text_content (in_tag : bool) (s : jsstring) : jsstring :=
  match s with
  | [] => []
  | c :: t =>
      if c =? 60 then text_content true t
      else if c =? 62 then text_content false t
      else if in_tag then text_content true t
      else c :: text_content false t
  end.

(** A code block whose second line is indented by four spaces. *)
Definition indented_code : jsstring :=
  str "<pre><code>if (x) {" ++ [nl] ++ str "    return 1;" ++ [nl]
  ++ str "}</code></pre>".

(** An answer that is one fenced block with the same code. *)
Definition indented_answer : jsstring :=
  Examples.fence ++ [nl] ++ str "if (x) {" ++ [nl] ++ str "    return 1;" ++ [nl]
  ++ str "}" ++ [nl] ++ Examples.fence.

Definition shown_code (html : option jsstring) (code : jsstring) : bool :=
  match html with
  | Some h => includes (str ">" ++ code ++ str "</code></pre>") h
  | None => false
  end.

(** C6, on the code: the cleanup changes the text of the code element; its
    line feeds and its indentation become single spaces.  In
    [processResponse] the line feeds of the code have become [<br>] before
    the cleanup: the rendering shows the second line of the block with its
    four spaces, and the cleanup takes them down to one. *)
Theorem cleanup_changes_code_text :
  text_content false (final_cleanup indented_code)
  = str "if (x) { return 1; }"
  /\ text_content false (final_cleanup indented_code)
     <> text_content false indented_code
  /\ shown_code (convertMarkdownToHTML Examples.random
                   (Formatter.formatResponse (str "q") indented_answer))
       (str "if (x) {<br>    return 1;<br>}") = true
  /\ shown_code (processResponse Examples.random (str "q") indented_answer)
       (str "if (x) {<br> return 1;<br>}") = true.
Proof.
  split; [vm_compute; reflexivity|].
  split; [vm_compute; discriminate|].
  split; vm_compute; reflexivity.
Qed.

(** What the cleanup does on every text: it touches white space only, and
    touches it everywhere, inside the text of elements as well as between
    tags.  The characters that are not white space are kept in order; in the
    result every white-space character is a single U+0020 with no other next
    to it; and none is left between a [>] and a following [<]. *)
Lemma final_cleanup_collapses_all_white_space (html : jsstring) :
  visible (final_cleanup html) = visible html
  /\ tidy false (final_cleanup html) = true
  /\ includes (str "> <") (final_cleanup html) = false.
Proof.
  rewrite final_cleanup_steps.
  set (s1 := spaces (S (length (trim html))) (trim html)).
  repeat apply conj.
  - rewrite visible_tighten. unfold s1. rewrite visible_spaces. apply visible_trim.
  - apply tidy_tighten; [lia|]. unfold s1. apply tidy_spaces. lia.
  - apply tighten_no_gap. lia.
Qed.

End CleanupFacts.

(** ** Stage 3: inline code *)

Module InlineFacts.

Import RegexFacts Template.

Definition tick : Z := 96.
Definition not_tick (c : Z) : bool := negb (c =? tick).

(** The characters up to the next backtick, and the text from there on. *)
Fixpoint until_tick (s : jsstring) : jsstring * jsstring :=
  match s with
  | c :: t => if not_tick c then (c :: fst (until_tick t), snd (until_tick t)) else ([], s)
  | [] => ([], [])
  end.

Lemma until_tick_split s : s = fst (until_tick s) ++ snd (until_tick s).
Proof.
  induction s as [|c t IH]; [reflexivity|].
  cbn [until_tick]. destruct (not_tick c); cbn [fst snd app]; [f_equal; exact IH | reflexivity].
Qed.

Lemma after_run_until_tick : forall s prev,
  snd (after_run not_tick prev s) = snd (until_tick s).
Proof.
  induction s as [|c t IH]; intro prev; [reflexivity|].
  cbn [after_run until_tick]. destruct (not_tick c); [apply IH | reflexivity].
Qed.

Definition k_close (start : jsstring) : cont := fun st' =>
  step_char (Z.eqb tick)
    (MState (before st') (rest st')
       ((1%nat, firstn (length start - length (rest st')) start) :: caps st'))
    (fun st => Some st).

(** One attempt of the pattern: a backtick, at least one other character up
    to the next backtick (group 1), and that backtick. *)
Lemma exec_inline_code prev s :
  exec re_inline_code prev s
  = match s with
    | c :: t =>
        if c =? tick then
          match fst (until_tick t), snd (until_tick t) with
          | _ :: _, e :: post =>
              Some (firstn (length s - length post) s,
                    [(1%nat, fst (until_tick t))], post)
          | _, _ => None
          end
        else None
    | [] => None
    end.
Proof.
  unfold exec.
  change (rmatch re_inline_code (MState prev s []) (fun st => Some st))
    with (step_char (Z.eqb tick) (MState prev s [])
            (fun st1 => step_char not_tick st1
               (fun st2 => rmatch (Star (Class not_tick)) st2 (k_close (rest st1))))).
  unfold step_char at 1. cbn [rest caps].
  destruct s as [|c t]; [reflexivity|].
  rewrite (Z.eqb_sym tick c). destruct (c =? tick); [|reflexivity].
  unfold step_char at 1. cbn [rest caps].
  destruct t as [|d t']; [reflexivity|].
  cbn [until_tick]. destruct (not_tick d) eqn:D; [|reflexivity].
  cbn [fst snd].
  rewrite rmatch_star_class, greedy_run_longest.
  - rewrite after_run_until_tick. unfold k_close, step_char. cbn [rest caps before].
    pose proof (until_tick_split t') as E.
    destruct (snd (until_tick t')) as [|e post] eqn:S2; [reflexivity|].
    unfold not_tick in *. rewrite (Z.eqb_sym tick e).
    destruct (e =? tick) eqn:T.
    + assert (Hc : firstn (length (d :: t') - length (e :: post)) (d :: t')
                   = d :: fst (until_tick t')).
      { rewrite E at 1 2. cbn [length]. rewrite length_app. cbn [length].
        replace (S (length (fst (until_tick t')) + S (length post)) - S (length post))%nat
          with (S (length (fst (until_tick t')))) by lia.
        cbn [firstn]. f_equal. rewrite firstn_app, firstn_all, Nat.sub_diag.
        cbn [firstn]. apply app_nil_r. }
      cbn [caps rest]. rewrite Hc. reflexivity.
    + (* the run stops at a backtick only *)
      exfalso. clear E.
      assert (H : forall u, match snd (until_tick u) with
                            | x :: _ => (x =? tick) = true
                            | [] => True
                            end).
      { induction u as [|x u IHu]; [exact I|].
        cbn [until_tick]. unfold not_tick. destruct (x =? tick) eqn:X; [exact X | exact IHu]. }
      specialize (H t'). rewrite S2 in H. congruence.
  - intros p x r cs W. unfold k_close, step_char. cbn [rest].
    unfold not_tick in W. apply negb_true_iff in W.
    rewrite (Z.eqb_sym tick x), W. reflexivity.
Qed.

Lemma exec_inline_code_prev p1 p2 s :
  exec re_inline_code p1 s = exec re_inline_code p2 s.
Proof. rewrite !exec_inline_code. reflexivity. Qed.

Lemma until_tick_plain : forall x rest,
  forallb not_tick x = true -> until_tick (x ++ tick :: rest) = (x, tick :: rest).
Proof.
  induction x as [|c x IH]; intros rest F; [reflexivity|].
  cbn [forallb] in F. apply andb_true_iff in F. destruct F as [F1 F2].
  cbn [app until_tick]. rewrite F1, (IH rest F2). reflexivity.
Qed.

Definition code_open : jsstring := str "<code class=" ++ q "inline-code" ++ str ">".
Definition code_close : jsstring := str "</code>".

Definition inline_template : replacer :=
  template 1 (str "<code class=" ++ q "inline-code" ++ str ">$1</code>").

Lemma inline_template_expand m cs :
  inline_template m cs = code_open ++ capture 1 cs ++ code_close.
Proof. reflexivity. Qed.

Lemma inline_code_scan html :
  inline_code html
  = flat_map (render inline_template) (scan re_inline_code (S (length html)) None html).
Proof. unfold inline_code, replace_all, inline_template. reflexivity. Qed.

(** The stage on a span: what stands between the two backticks is copied
    between the two tags as it is. *)
Lemma inline_code_span pre x post :
  forallb not_tick pre = true -> x <> [] -> forallb not_tick x = true ->
  inline_code (pre ++ tick :: x ++ tick :: post)
  = pre ++ code_open ++ x ++ code_close ++ inline_code post.
Proof.
  intros Fp Nx Fx. rewrite !inline_code_scan.
  replace (S (length (pre ++ tick :: x ++ tick :: post)))
    with (length pre + S (length (tick :: x ++ tick :: post)))%nat
    by (rewrite length_app; lia).
  destruct (scan_skip re_inline_code pre (S (length (tick :: x ++ tick :: post))) None
              (tick :: x ++ tick :: post)) as [prev' E].
  { intros p c t Hc. rewrite exec_inline_code.
    rewrite forallb_forall in Fp. specialize (Fp c Hc). unfold not_tick in Fp.
    apply negb_true_iff in Fp. rewrite Fp. reflexivity. }
  rewrite E, flat_map_app, render_keep.
  f_equal. cbn [scan]. rewrite exec_inline_code.
  change (tick =? tick) with true. cbv iota.
  rewrite (until_tick_plain x post Fx). cbn [fst snd].
  destruct x as [|c x']; [contradiction Nx; reflexivity|].
  set (x := c :: x') in *.
  assert (Lm : (length (tick :: x ++ tick :: post) - length post
                = S (length x + length post - length post + 1))%nat).
  { cbn [length]. rewrite length_app. cbn [length]. lia. }
  rewrite Lm. cbn [firstn flat_map render].
  rewrite inline_template_expand. cbn [capture Nat.eqb].
  rewrite <- !app_assoc. f_equal. f_equal. f_equal.
  rewrite (scan_prev re_inline_code exec_inline_code_prev _ _ None).
  rewrite (@scan_fuel re_inline_code (length (tick :: x ++ tick :: post))
             (S (length post))); [reflexivity | | lia].
  cbn [length]. rewrite length_app. cbn [length]. lia.
Qed.

(** *** A span with the five characters *)

(** Inline code content with the five characters that the fence callback
    escapes. *)
Definition five : jsstring :=
  str "a<b> & " ++ dq ++ str "c" ++ dq ++ str " 'd'".

End InlineFacts.

(** ** [addCopyButtons] *)

Module DomFacts.

Import Dom.

Section NodeInduction.

Variable P : node -> Prop.
Hypothesis on_text : forall s, P (Text s).
Hypothesis on_elem : forall i tag classes attrs kids,
  Forall P kids -> P (Elem i tag classes attrs kids).

Fixpoint node_induction (n : node) : P n :=
  match n with
  | Text s => on_text s
  | Elem i tag classes attrs kids =>
      on_elem i tag classes attrs
        ((fix all (l : list node) : Forall P l :=
            match l with
            | [] => Forall_nil P
            | k :: l' => Forall_cons k (node_induction k) (all l')
            end) kids)
  end.

End NodeInduction.

(** The element [y] is in the tree. *)
Fixpoint mem (y : nat) (n : node) : bool :=
  match n with
  | Text _ => false
  | Elem i _ _ _ kids => Nat.eqb i y || existsb (mem y) kids
  end.

Lemma first_some_cons o l :
  first_some (o :: l) = match o with Some b => Some b | None => first_some l end.
Proof. reflexivity. Qed.

Lemma closest_elem above i tag classes attrs kids x :
  closest above (Elem i tag classes attrs kids) x
  = if Nat.eqb i x then Some (above || has_class container_class classes)
    else first_some (map (fun k => closest (above || has_class container_class classes) k x) kids).
Proof. reflexivity. Qed.

Lemma wrap_elem fresh x i tag classes attrs kids :
  wrap fresh x (Elem i tag classes attrs kids)
  = if Nat.eqb i x
    then Elem fresh "div" [container_class] []
           [copy_button fresh; Elem i tag classes attrs kids]
    else Elem i tag classes attrs (map (wrap fresh x) kids).
Proof. reflexivity. Qed.

(** Whether an element is found does not depend on what is above. *)
Lemma closest_mem : forall n above y,
  closest above n y = None <-> mem y n = false.
Proof.
  induction n as [s|i tag classes attrs kids IH] using node_induction;
    intros above y; [split; reflexivity|].
  rewrite closest_elem. cbn [mem].
  destruct (Nat.eqb i y); [split; discriminate|]. cbn [orb].
  set (here := above || has_class container_class classes). clearbody here.
  induction kids as [|k kids IHk]; [split; reflexivity|].
  cbn [map existsb]. rewrite first_some_cons.
  pose proof (Forall_inv IH here y) as Hk.
  specialize (IHk (Forall_inv_tail IH)).
  destruct (closest here k y) as [b|] eqn:C.
  - split; [discriminate|]. intro M. apply orb_false_iff in M.
    destruct M as [M _]. apply Hk in M. discriminate.
  - rewrite (proj1 Hk eq_refl). cbn [orb]. exact IHk.
Qed.

(** Below an element with the class, every element has a container. *)
Lemma closest_below_container : forall n y b,
  closest true n y = Some b -> b = true.
Proof.
  induction n as [s|i tag classes attrs kids IH] using node_induction;
    intros y b; [discriminate|].
  rewrite closest_elem. cbn [orb].
  destruct (Nat.eqb i y); [intro E; injection E as <-; reflexivity|].
  induction kids as [|k kids IHk]; [discriminate|].
  cbn [map]. rewrite first_some_cons.
  destruct (closest true k y) as [b'|] eqn:C.
  - intro E. injection E as <-. exact (Forall_inv IH y b' C).
  - apply IHk. exact (Forall_inv_tail IH).
Qed.

(** *** What wrapping a block changes *)

Lemma below_not_fresh fresh y : (y < fresh)%nat ->
  Nat.eqb fresh y = false /\ Nat.eqb (S fresh) y = false
  /\ Nat.eqb (S (S fresh)) y = false.
Proof.
  intro L. repeat split; apply Nat.eqb_neq; lia.
Qed.

Lemma closest_button above fresh y :
  (y < fresh)%nat -> closest above (copy_button fresh) y = None.
Proof.
  intro L. destruct (below_not_fresh L) as [_ [E1 E2]].
  unfold copy_button. rewrite closest_elem, E1. cbn [map].
  rewrite first_some_cons, closest_elem, E2. reflexivity.
Qed.

Lemma mem_wrap : forall n fresh x y,
  (y < fresh)%nat -> mem y (wrap fresh x n) = mem y n.
Proof.
  induction n as [s|i tag classes attrs kids IH] using node_induction;
    intros fresh x y L; [reflexivity|].
  rewrite wrap_elem. destruct (Nat.eqb i x).
  - destruct (below_not_fresh L) as [E0 [E1 E2]].
    cbn [mem copy_button existsb]. rewrite E0, E1, E2. cbn [orb].
    rewrite orb_false_r. reflexivity.
  - cbn [mem]. f_equal.
    induction kids as [|k kids IHk]; [reflexivity|].
    cbn [map existsb]. rewrite (Forall_inv IH fresh x y L).
    rewrite (IHk (Forall_inv_tail IH)). reflexivity.
Qed.

Lemma closest_found_cases above n y :
  closest above n y = None \/ exists b, closest above n y = Some b.
Proof.
  destruct (closest above n y) as [b|]; [right; exists b; reflexivity | left; reflexivity].
Qed.

(** An element that has a container keeps one. *)
Lemma closest_wrap_keeps : forall n above fresh x y,
  (y < fresh)%nat ->
  closest above n y = Some true -> closest above (wrap fresh x n) y = Some true.
Proof.
  induction n as [s|i tag classes attrs kids IH] using node_induction;
    intros above fresh x y L; [discriminate|].
  rewrite wrap_elem. destruct (Nat.eqb i x).
  - intro C.
    assert (M : mem y (Elem i tag classes attrs kids) = true).
    { destruct (mem y (Elem i tag classes attrs kids)) eqn:M; [reflexivity|].
      apply closest_mem with (above := above) in M. congruence. }
    destruct (below_not_fresh L) as [E0 _].
    rewrite closest_elem, E0. cbn [map].
    rewrite first_some_cons, (closest_button _ L), first_some_cons.
    destruct (closest (above || has_class container_class [container_class])
                (Elem i tag classes attrs kids) y) as [b|] eqn:D.
    + rewrite orb_true_r in D. rewrite (closest_below_container _ _ D). reflexivity.
    + apply closest_mem in D. congruence.
  - rewrite !closest_elem. destruct (Nat.eqb i y); [trivial|].
    set (here := above || has_class container_class classes). clearbody here.
    induction kids as [|k kids IHk]; [discriminate|].
    cbn [map]. rewrite !first_some_cons.
    destruct (closest here k y) as [b|] eqn:C.
    + intro E. injection E as ->.
      rewrite (Forall_inv IH here fresh x y L C). reflexivity.
    + apply closest_mem in C. rewrite <- (mem_wrap k x L) in C.
      apply closest_mem with (above := here) in C. rewrite C.
      apply IHk. exact (Forall_inv_tail IH).
Qed.

(** The wrapped block has a container. *)
Lemma closest_wrap_self : forall n above fresh x b,
  (x < fresh)%nat ->
  closest above n x = Some b -> closest above (wrap fresh x n) x = Some true.
Proof.
  induction n as [s|i tag classes attrs kids IH] using node_induction;
    intros above fresh x b L; [discriminate|].
  rewrite wrap_elem. destruct (Nat.eqb i x) eqn:E.
  - intros _. destruct (below_not_fresh L) as [E0 _].
    rewrite closest_elem, E0. cbn [map].
    rewrite first_some_cons, (closest_button _ L), first_some_cons.
    rewrite closest_elem, E. rewrite orb_true_r. reflexivity.
  - rewrite !closest_elem, E.
    set (here := above || has_class container_class classes). clearbody here.
    induction kids as [|k kids IHk]; [discriminate|].
    cbn [map]. rewrite !first_some_cons.
    destruct (closest here k x) as [b'|] eqn:C.
    + intros _. rewrite (Forall_inv IH here fresh x b' L C). reflexivity.
    + apply closest_mem in C. rewrite <- (mem_wrap k x L) in C.
      apply closest_mem with (above := here) in C. rewrite C.
      apply IHk. exact (Forall_inv_tail IH).
Qed.

(** The blocks of the page are the same after a wrap. *)
Lemma select_wrap : forall n in_pre fresh x,
  select in_pre (wrap fresh x n) = select in_pre n.
Proof.
  induction n as [s|i tag classes attrs kids IH] using node_induction;
    intros in_pre fresh x; [reflexivity|].
  rewrite wrap_elem. destruct (Nat.eqb i x).
  - cbn [select copy_button flat_map String.eqb Ascii.eqb Bool.eqb andb orb app].
    rewrite !andb_false_r, !orb_false_r. cbn [app]. apply app_nil_r.
  - cbn [select]. f_equal.
    induction kids as [|k kids IHk]; [reflexivity|].
    cbn [map flat_map]. rewrite (Forall_inv IH). rewrite (IHk (Forall_inv_tail IH)).
    reflexivity.
Qed.

Lemma ids_below_mono : forall n f g,
  (f <= g)%nat -> ids_below f n = true -> ids_below g n = true.
Proof.
  induction n as [s|i tag classes attrs kids IH] using node_induction;
    intros f g L; [trivial|].
  cbn [ids_below]. intro H. apply andb_true_iff in H. destruct H as [H1 H2].
  apply andb_true_iff. split.
  - apply Nat.ltb_lt in H1. apply Nat.ltb_lt. lia.
  - induction kids as [|k kids IHk]; [reflexivity|].
    cbn [forallb] in *. apply andb_true_iff in H2. destruct H2 as [K1 K2].
    rewrite (Forall_inv IH f g L K1). apply (IHk (Forall_inv_tail IH) K2).
Qed.

Lemma ids_below_wrap : forall n fresh x,
  ids_below fresh n = true -> ids_below (fresh + 3) (wrap fresh x n) = true.
Proof.
  induction n as [s|i tag classes attrs kids IH] using node_induction;
    intros fresh x H; [reflexivity|].
  rewrite wrap_elem. destruct (Nat.eqb i x).
  - assert (M : ids_below (fresh + 3) (Elem i tag classes attrs kids) = true).
    { apply ids_below_mono with (f := fresh); [lia | exact H]. }
    set (N := Elem i tag classes attrs kids) in *.
    change (((fresh <? fresh + 3)%nat
             && (((S fresh <? fresh + 3)%nat
                  && (((S (S fresh) <? fresh + 3)%nat && true) && true))
                 && (ids_below (fresh + 3) N && true))) = true).
    rewrite M.
    replace (fresh <? fresh + 3)%nat with true by (symmetry; apply Nat.ltb_lt; lia).
    replace (S fresh <? fresh + 3)%nat with true by (symmetry; apply Nat.ltb_lt; lia).
    replace (S (S fresh) <? fresh + 3)%nat with true by (symmetry; apply Nat.ltb_lt; lia).
    reflexivity.
  - cbn [ids_below] in *. apply andb_true_iff in H. destruct H as [H1 H2].
    apply andb_true_iff. split.
    + apply Nat.ltb_lt in H1. apply Nat.ltb_lt. lia.
    + induction kids as [|k kids IHk]; [reflexivity|].
      cbn [map forallb] in *. apply andb_true_iff in H2. destruct H2 as [K1 K2].
      rewrite (Forall_inv IH fresh x K1). apply (IHk (Forall_inv_tail IH) K2).
Qed.

(** A selected block is an element of the tree, so its identity is old. *)
Lemma select_mem : forall n in_pre x, In x (select in_pre n) -> mem x n = true.
Proof.
  induction n as [s|i tag classes attrs kids IH] using node_induction;
    intros in_pre x; [intros []|].
  cbn [select mem]. intro H. apply in_app_or in H. destruct H as [H|H].
  - destruct (in_pre && String.eqb tag "code"); [|destruct H].
    destruct H as [<-|[]]. rewrite Nat.eqb_refl. reflexivity.
  - apply orb_true_iff. right.
    set (p := in_pre || String.eqb tag "pre") in *. clearbody p.
    induction kids as [|k kids IHk]; [destruct H|].
    cbn [flat_map existsb] in *. apply in_app_or in H. destruct H as [H|H].
    + rewrite (Forall_inv IH p x H). reflexivity.
    + rewrite (IHk (Forall_inv_tail IH) H). apply orb_true_r.
Qed.

Lemma mem_below : forall n f x, ids_below f n = true -> mem x n = true -> (x < f)%nat.
Proof.
  induction n as [s|i tag classes attrs kids IH] using node_induction;
    intros f x; [discriminate|].
  cbn [ids_below mem]. intros H M.
  apply andb_true_iff in H. destruct H as [H1 H2].
  apply orb_true_iff in M. destruct M as [M|M].
  - apply Nat.eqb_eq in M. subst x. apply Nat.ltb_lt. exact H1.
  - induction kids as [|k kids IHk]; [discriminate|].
    cbn [forallb existsb] in *. apply andb_true_iff in H2. destruct H2 as [K1 K2].
    apply orb_true_iff in M. destruct M as [M|M].
    + exact (Forall_inv IH f x K1 M).
    + exact (IHk (Forall_inv_tail IH) K2 M).
Qed.

(** *** One pass over the blocks *)

Lemma visit_cases p x :
  (closest false (fst p) x = Some false
   /\ visit p x = (wrap (snd p) x (fst p), (snd p + 3)%nat))
  \/ (closest false (fst p) x <> Some false /\ visit p x = p).
Proof.
  unfold visit. destruct (closest false (fst p) x) as [[|]|];
    [right | left | right]; split; (reflexivity || discriminate).
Qed.

(** After the blocks of [l] have been visited, each of them has a container;
    the blocks of the page are still the same, and an element that had a
    container has kept it. *)
Lemma visits_equip : forall l t f,
  ids_below f t = true -> (forall x, In x l -> mem x t = true) ->
  ids_below (snd (fold_left visit l (t, f))) (fst (fold_left visit l (t, f))) = true
  /\ select false (fst (fold_left visit l (t, f))) = select false t
  /\ (forall y, (y < f)%nat -> closest false t y = Some true ->
                closest false (fst (fold_left visit l (t, f))) y = Some true)
  /\ (forall x, In x l -> closest false (fst (fold_left visit l (t, f))) x = Some true).
Proof.
  induction l as [|x l IH]; intros t f B M.
  - cbn [fold_left fst snd]. repeat apply conj; auto. intros x [].
  - cbn [fold_left].
    assert (Mx : mem x t = true) by (apply M; left; reflexivity).
    assert (Lx : (x < f)%nat) by exact (mem_below t f x B Mx).
    destruct (visit_cases (t, f) x) as [[C V]|[C V]]; cbn [fst snd] in *; rewrite V.
    + (* the block is wrapped *)
      assert (B' : ids_below (f + 3) (wrap f x t) = true) by (apply ids_below_wrap; exact B).
      assert (M' : forall z, In z l -> mem z (wrap f x t) = true).
      { intros z Hz. assert (Mz : mem z t = true) by (apply M; right; exact Hz).
        rewrite mem_wrap; [exact Mz | exact (mem_below t f z B Mz)]. }
      destruct (IH (wrap f x t) (f + 3)%nat B' M') as [I1 [I2 [I3 I4]]].
      repeat apply conj.
      * exact I1.
      * rewrite I2. apply select_wrap.
      * intros y Ly Cy. apply I3; [lia|]. apply closest_wrap_keeps; assumption.
      * intros z [<-|Hz]; [|apply I4; exact Hz].
        apply I3; [lia|]. apply closest_wrap_self with (b := false); assumption.
    + (* the block has a container already *)
      destruct (IH t f B (fun z Hz => M z (or_intror Hz))) as [I1 [I2 [I3 I4]]].
      repeat apply conj; try assumption.
      intros z [<-|Hz]; [|apply I4; exact Hz].
      apply I3; [exact Lx|].
      destruct (closest false t x) as [[|]|] eqn:D; [reflexivity | congruence|].
      apply closest_mem in D. congruence.
Qed.

Lemma visits_nothing_to_do : forall l p,
  (forall x, In x l -> closest false (fst p) x = Some true) -> fold_left visit l p = p.
Proof.
  induction l as [|x l IH]; intros p H; [reflexivity|].
  cbn [fold_left]. unfold visit at 2. rewrite (H x (or_introl eq_refl)).
  apply IH. intros z Hz. apply H. right. exact Hz.
Qed.

Lemma addCopyButtons_equips t f :
  ids_below f t = true ->
  ids_below (snd (addCopyButtons (t, f))) (fst (addCopyButtons (t, f))) = true
  /\ forall x, In x (select false (fst (addCopyButtons (t, f)))) ->
               closest false (fst (addCopyButtons (t, f))) x = Some true.
Proof.
  intro B. unfold addCopyButtons. cbn [fst snd].
  destruct (visits_equip (select false t) t f B) as [I1 [I2 [_ I4]]].
  - intros x Hx. exact (select_mem t false x Hx).
  - split; [exact I1|]. intros x Hx. apply I4. rewrite I2 in Hx. exact Hx.
Qed.

Lemma addCopyButtons_again t f :
  ids_below f t = true ->
  addCopyButtons (addCopyButtons (t, f)) = addCopyButtons (t, f).
Proof.
  intro B. destruct (addCopyButtons_equips t f B) as [_ E].
  unfold addCopyButtons at 1. apply visits_nothing_to_do. exact E.
Qed.

(** *** Identities *)

(** The identities of the elements, in document order. *)
Fixpoint ids (n : node) : list nat :=
  match n with
  | Text _ => []
  | Elem i _ _ _ kids => i :: flat_map ids kids
  end.

Fixpoint distinct (l : list nat) : bool :=
  match l with
  | [] => true
  | x :: t => negb (existsb (Nat.eqb x) t) && distinct t
  end.

Lemma distinct_NoDup : forall l, distinct l = true -> NoDup l.
Proof.
  induction l as [|x t IH]; intro D; [constructor|].
  cbn [distinct] in D. apply andb_true_iff in D. destruct D as [D1 D2].
  constructor; [|exact (IH D2)].
  intro H. apply negb_true_iff in D1.
  assert (E : existsb (Nat.eqb x) t = true).
  { apply existsb_exists. exists x. split; [exact H | apply Nat.eqb_refl]. }
  congruence.
Qed.

Lemma mem_ids : forall n y, mem y n = true <-> In y (ids n).
Proof.
  induction n as [s|i tag classes attrs kids IH] using node_induction;
    intro y; [split; [discriminate | intros []]|].
  cbn [mem ids]. rewrite orb_true_iff, Nat.eqb_eq.
  assert (K : existsb (mem y) kids = true <-> In y (flat_map ids kids)).
  { induction kids as [|k kids IHk]; [split; [discriminate | intros []]|].
    cbn [existsb flat_map]. rewrite orb_true_iff, in_app_iff.
    rewrite (Forall_inv IH y), (IHk (Forall_inv_tail IH)). reflexivity. }
  rewrite K. cbn [In]. reflexivity.
Qed.

Lemma wrap_absent : forall n fresh z, mem z n = false -> wrap fresh z n = n.
Proof.
  induction n as [s|i tag classes attrs kids IH] using node_induction;
    intros fresh z M; [reflexivity|].
  cbn [mem] in M. apply orb_false_iff in M. destruct M as [M1 M2].
  rewrite wrap_elem, M1. f_equal.
  induction kids as [|k kids IHk]; [reflexivity|].
  cbn [existsb] in M2. apply orb_false_iff in M2. destruct M2 as [K1 K2].
  cbn [map]. rewrite (Forall_inv IH fresh z K1), (IHk (Forall_inv_tail IH) K2).
  reflexivity.
Qed.

(** The identity [z] does not occur at or below an element with the class. *)
Fixpoint free (z : nat) (n : node) : bool :=
  match n with
  | Text _ => true
  | Elem i _ classes _ kids =>
      if has_class container_class classes then negb (mem z n)
      else forallb (free z) kids
  end.

Lemma free_absent : forall n z, mem z n = false -> free z n = true.
Proof.
  induction n as [s|i tag classes attrs kids IH] using node_induction;
    intros z M; [reflexivity|].
  cbn [free]. destruct (has_class container_class classes); [rewrite M; reflexivity|].
  cbn [mem] in M. apply orb_false_iff in M. destruct M as [_ M2].
  induction kids as [|k kids IHk]; [reflexivity|].
  cbn [existsb forallb] in *. apply orb_false_iff in M2. destruct M2 as [K1 K2].
  rewrite (Forall_inv IH z K1). exact (IHk (Forall_inv_tail IH) K2).
Qed.

Lemma NoDup_app_parts (a b : list nat) :
  NoDup (a ++ b) -> NoDup a /\ NoDup b /\ forall y, In y a -> ~ In y b.
Proof.
  induction a as [|x a IH]; intro N.
  - repeat split; [constructor | exact N | intros y []].
  - cbn [app] in N. inversion N as [|x' l H1 H2]; subst.
    destruct (IH H2) as [Na [Nb D]]. repeat split.
    + constructor; [|exact Na]. intro H. apply H1. apply in_or_app. left. exact H.
    + exact Nb.
    + intros y [<-|Hy]; [|exact (D y Hy)].
      intro H. apply H1. apply in_or_app. right. exact H.
Qed.

Lemma not_in_kids z (kids : list node) :
  ~ In z (flat_map ids kids) -> forall k, In k kids -> mem z k = false.
Proof.
  intros H k Hk. destruct (mem z k) eqn:M; [|reflexivity].
  exfalso. apply H. apply in_flat_map. exists k. split; [exact Hk|].
  apply mem_ids. exact M.
Qed.

Lemma forallb_absent (P : nat -> node -> bool) z (kids : list node) :
  (forall k, mem z k = false -> P z k = true) ->
  ~ In z (flat_map ids kids) -> forallb (P z) kids = true.
Proof.
  intros HP H. apply forallb_forall. intros k Hk.
  apply HP. exact (not_in_kids z kids H k Hk).
Qed.

(** With distinct identities, a block without a container is free. *)
Lemma free_bare : forall n z,
  NoDup (ids n) -> closest false n z = Some false -> free z n = true.
Proof.
  induction n as [s|i tag classes attrs kids IH] using node_induction;
    intros z N; [discriminate|].
  cbn [ids] in N. inversion N as [|i' l Ni Nk]; subst.
  rewrite closest_elem. cbn [free orb].
  destruct (has_class container_class classes) eqn:C.
  - destruct (Nat.eqb i z); [discriminate|]. intro E. exfalso.
    clear IH Nk Ni N. induction kids as [|k kids IHk]; [discriminate|].
    cbn [map] in E. rewrite first_some_cons in E.
    destruct (closest true k z) as [b|] eqn:D; [|exact (IHk E)].
    rewrite (closest_below_container k z D) in E. discriminate.
  - destruct (Nat.eqb i z) eqn:E.
    + intros _. apply Nat.eqb_eq in E. subst i.
      apply forallb_absent; [intros k M; exact (free_absent k z M) | exact Ni].
    + clear Ni N E. induction kids as [|k kids IHk]; [discriminate|].
      cbn [flat_map] in Nk. destruct (NoDup_app_parts _ _ Nk) as [N1 [N2 D]].
      cbn [map forallb]. rewrite first_some_cons.
      destruct (closest false k z) as [b|] eqn:F.
      * intro B. injection B as ->.
        rewrite (Forall_inv IH z N1 F). cbn [andb].
        apply forallb_absent; [intros k0 M0; exact (free_absent k0 z M0)|].
        apply D. apply mem_ids.
        destruct (mem z k) eqn:M; [reflexivity|].
        apply closest_mem with (above := false) in M. congruence.
      * intro B. apply closest_mem in F. rewrite (free_absent k z F). cbn [andb].
        exact (IHk (Forall_inv_tail IH) N2 B).
Qed.

(** *** Identities stay distinct *)

(** The three new identities, put before [z]. *)
Definition with_new (fresh z : nat) (l : list nat) : list nat :=
  flat_map (fun y => if Nat.eqb y z then [fresh; S fresh; S (S fresh); y] else [y]) l.

Lemma with_new_absent fresh z : forall l, ~ In z l -> with_new fresh z l = l.
Proof.
  induction l as [|y l IH]; intro H; [reflexivity|].
  unfold with_new in *. cbn [flat_map].
  replace (Nat.eqb y z) with false
    by (symmetry; apply Nat.eqb_neq; intros ->; apply H; left; reflexivity).
  cbn [app]. f_equal. apply IH. intro Hz. apply H. right. exact Hz.
Qed.

Lemma with_new_app fresh z a b :
  with_new fresh z (a ++ b) = with_new fresh z a ++ with_new fresh z b.
Proof. apply flat_map_app. Qed.

Lemma ids_wrap : forall n fresh z,
  NoDup (ids n) -> ids (wrap fresh z n) = with_new fresh z (ids n).
Proof.
  induction n as [s|i tag classes attrs kids IH] using node_induction;
    intros fresh z N; [reflexivity|].
  cbn [ids] in N. inversion N as [|i' l Ni Nk]; subst.
  rewrite wrap_elem. destruct (Nat.eqb i z) eqn:E.
  - apply Nat.eqb_eq in E. subst i.
    cbn [ids copy_button flat_map app]. rewrite app_nil_r.
    unfold with_new. cbn [flat_map]. rewrite Nat.eqb_refl. cbn [app].
    do 4 f_equal. symmetry. apply (with_new_absent fresh z _ Ni).
  - cbn [ids]. unfold with_new. cbn [flat_map]. rewrite E. cbn [app]. f_equal.
    fold (with_new fresh z (flat_map ids kids)).
    clear Ni N E. induction kids as [|k kids IHk]; [reflexivity|].
    cbn [flat_map] in Nk. destruct (NoDup_app_parts _ _ Nk) as [N1 [N2 _]].
    cbn [map flat_map]. rewrite with_new_app.
    rewrite (Forall_inv IH fresh z N1), (IHk (Forall_inv_tail IH) N2). reflexivity.
Qed.

Lemma with_new_in fresh z : forall l y,
  In y (with_new fresh z l) ->
  In y l \/ y = fresh \/ y = S fresh \/ y = S (S fresh).
Proof.
  induction l as [|x l IH]; intros y H; [destruct H|].
  unfold with_new in H. cbn [flat_map] in H. apply in_app_or in H.
  destruct H as [H|H].
  - destruct (Nat.eqb x z).
    + cbn [In] in H. destruct H as [H|[H|[H|[H|[]]]]]; subst; auto.
      left. left. reflexivity.
    + destruct H as [H|[]]. left. left. exact H.
  - destruct (IH y H) as [H'|H']; [left; right; exact H' | right; exact H'].
Qed.

Lemma with_new_NoDup fresh z : forall l,
  NoDup l -> (forall y, In y l -> (y < fresh)%nat) -> NoDup (with_new fresh z l).
Proof.
  induction l as [|x l IH]; intros N B; [constructor|].
  inversion N as [|x' l' Nx Nl]; subst.
  assert (Bl : forall y, In y l -> (y < fresh)%nat) by (intros y Hy; apply B; right; exact Hy).
  assert (Bx : (x < fresh)%nat) by (apply B; left; reflexivity).
  unfold with_new. cbn [flat_map]. fold (with_new fresh z l).
  destruct (Nat.eqb x z) eqn:E.
  - apply Nat.eqb_eq in E. subst x.
    rewrite (with_new_absent fresh z l Nx). cbn [app].
    repeat constructor; cbn [In].
    + intros [H|[H|[H|H]]]; [lia | lia | lia | apply Bl in H; lia].
    + intros [H|[H|H]]; [lia | lia | apply Bl in H; lia].
    + intros [H|H]; [lia | apply Bl in H; lia].
    + exact Nx.
    + exact Nl.
  - cbn [app]. constructor; [|exact (IH Nl Bl)].
    intro H. apply with_new_in in H.
    destruct H as [H|[H|[H|H]]]; [exact (Nx H) | lia | lia | lia].
Qed.

Lemma ids_bound : forall n f y, ids_below f n = true -> In y (ids n) -> (y < f)%nat.
Proof.
  intros n f y B H. apply (mem_below n f y B). apply mem_ids. exact H.
Qed.

Lemma NoDup_wrap n fresh z :
  ids_below fresh n = true -> NoDup (ids n) -> NoDup (ids (wrap fresh z n)).
Proof.
  intros B N. rewrite (ids_wrap n fresh z N).
  apply with_new_NoDup; [exact N|]. intros y Hy. exact (ids_bound n fresh y B Hy).
Qed.

(** *** A sample page *)

(** A page with a block that holds a nested [code] element, a block that
    the renderer has put in a container with its control, and a plain
    block. *)
Definition sample_page : node :=
  Elem 0 "body" [] []
    [Elem 1 "pre" [] []
       [Elem 2 "code" ["language-js"%string] []
          [Text (str "x"); Elem 3 "code" [] [] []]];
     Elem 4 "div" [container_class] []
       [Elem 5 "div" ["code-block-header"%string] []
          [Elem 6 "button" ["copy-code-button"%string] [] []];
        Elem 7 "pre" [] [] [Elem 8 "code" [] [] [Text (str "y")]]];
     Elem 9 "p" [] [] [Text (str "z")];
     Elem 10 "pre" [] [] [Elem 11 "code" [] [] [Text (str "w")]]].

End DomFacts.

(** ** What the matcher does on any pattern *)

Module EngineFacts.

Import RegexFacts.

(** No character of [s] is in the class [P]. *)
Definition lacks (P : Z -> bool) (s : jsstring) : bool :=
  forallb (fun c => negb (P c)) s.

Lemma lacks_app P a b : lacks P (a ++ b) = lacks P a && lacks P b.
Proof. apply forallb_app. Qed.

Lemma lacks_cons P c s : lacks P (c :: s) = negb (P c) && lacks P s.
Proof. reflexivity. Qed.

Lemma lacks_middle P u1 c u2 : lacks P (u1 ++ c :: u2) = true -> P c = false.
Proof.
  rewrite lacks_app, lacks_cons. intro L.
  apply andb_true_iff in L. destruct L as [_ L].
  apply andb_true_iff in L. destruct L as [L _].
  apply negb_true_iff. exact L.
Qed.

Lemma lacks_weaken (P Q : Z -> bool) s :
  (forall c, Q c = true -> P c = true) -> lacks P s = true -> lacks Q s = true.
Proof.
  intros W. induction s as [|c s IH]; intro L; [reflexivity|].
  rewrite lacks_cons in *. apply andb_true_iff in L. destruct L as [L1 L2].
  rewrite (IH L2), andb_true_r. apply negb_true_iff in L1. apply negb_true_iff.
  destruct (Q c) eqn:E; [|reflexivity]. rewrite (W c E) in L1. discriminate.
Qed.

Lemma follow_backref_lacks P : forall v st st1,
  follow_backref v st = Some st1 ->
  lacks P (rest st) = true -> lacks P (rest st1) = true.
Proof.
  induction v as [|x v IH]; intros st st1 F L; cbn [follow_backref] in F.
  - injection F as <-. exact L.
  - destruct (rest st) as [|c t] eqn:R; [discriminate|].
    destruct (c =? x); [|discriminate].
    apply (IH _ _ F). cbn [rest]. rewrite lacks_cons in L.
    apply andb_true_iff in L. apply L.
Qed.

Section Starved.

Variable P : Z -> bool.

(** A continuation that refuses every position from which no character of
    [P] is left. *)
Definition refuses (k : cont) : Prop :=
  forall st, lacks P (rest st) = true -> k st = None.

Lemma star_loop_refused (body : mstate -> cont -> option mstate) (greedy : bool) :
  (forall k, refuses k -> refuses (fun st => body st k)) ->
  forall fuel k, refuses k -> refuses (fun st => star_loop body greedy fuel st k).
Proof.
  intros B. induction fuel as [|fuel IH]; intros k K st L; cbn [star_loop].
  - apply K. exact L.
  - assert (A : body st (fun st' =>
                 if (length (rest st') <? length (rest st))%nat
                 then star_loop body greedy fuel st' k else None) = None).
    { apply (B _); [|exact L]. intros st' L'.
      destruct (length (rest st') <? length (rest st))%nat; [|reflexivity].
      apply (IH k K). exact L'. }
    destruct greedy; rewrite A, (K st L); reflexivity.
Qed.

(** The matcher only moves forward: whatever the pattern, the continuation
    is run on what is left of the input, so a continuation that refuses is
    refused with. *)
Lemma rmatch_refused : forall r k, refuses k -> refuses (fun st => rmatch r st k).
Proof.
  induction r as [|c|p|r1 IH1 r2 IH2|r1 IH1 r2 IH2|r1 IH1|r1 IH1|i r1 IH1|i
                  |r1 IH1|r1 IH1|m|m|];
    intros k K st L; cbn [rmatch].
  - apply K. exact L.
  - unfold step_char. destruct (rest st) as [|x t] eqn:R; [reflexivity|].
    destruct (c =? x); [|reflexivity]. apply K. cbn [rest].
    rewrite lacks_cons in L. apply andb_true_iff in L. apply L.
  - unfold step_char. destruct (rest st) as [|x t] eqn:R; [reflexivity|].
    destruct (p x); [|reflexivity]. apply K. cbn [rest].
    rewrite lacks_cons in L. apply andb_true_iff in L. apply L.
  - apply (IH1 _ (IH2 k K)). exact L.
  - rewrite (IH1 k K st L). cbn [orElse]. apply (IH2 k K st L).
  - apply (@star_loop_refused (rmatch r1) true IH1 _ k K). exact L.
  - apply (@star_loop_refused (rmatch r1) false IH1 _ k K). exact L.
  - apply (IH1 (fun st1 => k (MState (before st1) (rest st1)
             ((i, firstn (length (rest st) - length (rest st1)) (rest st)) :: caps st1)))).
    + intros st1 L1. apply K. exact L1.
    + exact L.
  - destruct (follow_backref (capture i (caps st)) st) as [st1|] eqn:F; [|reflexivity].
    apply K. exact (follow_backref_lacks P _ _ F L).
  - destruct (rmatch r1 st (fun st1 => Some st1)); [|reflexivity].
    apply K. exact L.
  - destruct (rmatch r1 st (fun st1 => Some st1)); [reflexivity|].
    apply K. exact L.
  - destruct (before st) as [c|]; [destruct (m && is_lt c)|]; try reflexivity;
      apply K; exact L.
  - destruct (rest st) as [|c t] eqn:R.
    + apply K. rewrite R. exact L.
    + destruct (m && is_lt c); [|reflexivity]. apply K. rewrite R. exact L.
  - destruct (xorb (word_before st) (word_after st)); [|reflexivity].
    apply K. exact L.
Qed.

(** Every match of the pattern takes a character of [P]. *)
Fixpoint feeds (r : regex) : Prop :=
  match r with
  | Char c => P c = true
  | Class p => forall x, p x = true -> P x = true
  | Seq r1 r2 => feeds r1 \/ feeds r2
  | Alt r1 r2 => feeds r1 /\ feeds r2
  | Group _ r1 => feeds r1
  | _ => False
  end.

Lemma rmatch_starved : forall r, feeds r ->
  forall k st, lacks P (rest st) = true -> rmatch r st k = None.
Proof.
  induction r as [|c|p|r1 IH1 r2 IH2|r1 IH1 r2 IH2|r1 IH1|r1 IH1|i r1 IH1|i
                  |r1 IH1|r1 IH1|m|m|];
    intros F k st L; cbn [feeds] in F; try contradiction; cbn [rmatch].
  - unfold step_char. destruct (rest st) as [|x t] eqn:R; [reflexivity|].
    destruct (c =? x) eqn:E; [|reflexivity].
    apply Z.eqb_eq in E. subst x. rewrite lacks_cons, F in L. discriminate.
  - unfold step_char. destruct (rest st) as [|x t] eqn:R; [reflexivity|].
    destruct (p x) eqn:E; [|reflexivity].
    rewrite lacks_cons, (F x E) in L. discriminate.
  - destruct F as [F|F].
    + apply (IH1 F). exact L.
    + apply (@rmatch_refused r1 (fun st1 => rmatch r2 st1 k)); [|exact L].
      intros st1 L1. apply (IH2 F). exact L1.
  - destruct F as [F1 F2]. rewrite (IH1 F1 k st L). cbn [orElse].
    apply (IH2 F2 k st L).
  - apply (IH1 F). exact L.
Qed.

Lemma exec_starved r prev s :
  feeds r -> lacks P s = true -> exec r prev s = None.
Proof.
  intros F L. unfold exec. rewrite (rmatch_starved r F); [reflexivity | exact L].
Qed.

Lemma scan_starved r : feeds r ->
  forall fuel prev s, lacks P s = true -> scan r fuel prev s = map Keep s.
Proof.
  intros F. induction fuel as [|fuel IH]; intros prev s L; [reflexivity|].
  cbn [scan]. rewrite (exec_starved r prev s F L).
  destruct s as [|c t]; [reflexivity|].
  cbn [map]. rewrite IH; [reflexivity|].
  rewrite lacks_cons in L. apply andb_true_iff in L. apply L.
Qed.

(** A text without any character the pattern needs is left as it is. *)
Lemma replace_all_starved r (f : replacer) s :
  feeds r -> lacks P s = true -> replace_all r f s = s.
Proof.
  intros F L. unfold replace_all. rewrite (scan_starved r F _ _ s L).
  apply render_keep.
Qed.

Lemma scan_first_starved r : feeds r ->
  forall s prev, lacks P s = true -> scan_first r prev s = map Keep s.
Proof.
  intros F. induction s as [|c t IH]; intros prev L.
  - cbn [scan_first]. rewrite (exec_starved r prev [] F L). reflexivity.
  - cbn [scan_first]. rewrite (exec_starved r prev (c :: t) F L).
    cbn [map]. rewrite IH; [reflexivity|].
    rewrite lacks_cons in L. apply andb_true_iff in L. apply L.
Qed.

Lemma replace_first_starved r (f : replacer) s :
  feeds r -> lacks P s = true -> replace_first r f s = s.
Proof.
  intros F L. unfold replace_first. rewrite (scan_first_starved r F s None L).
  apply render_keep.
Qed.

End Starved.

(** *** A pattern of one character *)

Lemma exec_class p prev c t :
  exec (Class p) prev (c :: t) = if p c then Some ([c], [], t) else None.
Proof.
  unfold exec. cbn [rmatch]. unfold step_char. cbn [rest caps].
  destruct (p c); [|reflexivity].
  cbn [length rest caps]. replace (S (length t) - length t)%nat with 1%nat by lia.
  reflexivity.
Qed.

Lemma scan_class p : forall fuel prev s,
  (length s < fuel)%nat ->
  scan (Class p) fuel prev s = map (fun c => if p c then Hit [c] [] else Keep c) s.
Proof.
  induction fuel as [|fuel IH]; intros prev s L; [lia|].
  destruct s as [|c t]; [reflexivity|].
  cbn [scan]. rewrite exec_class. cbn [length] in L. cbn [map].
  destruct (p c); cbn [last]; rewrite IH by lia; reflexivity.
Qed.

(** The replacement of every character of a class is made character by
    character. *)
Lemma replace_all_class p (f : replacer) s :
  replace_all (Class p) f s = flat_map (fun c => if p c then f [c] [] else [c]) s.
Proof.
  unfold replace_all. rewrite scan_class by lia.
  induction s as [|c t IH]; [reflexivity|].
  cbn [map flat_map]. rewrite IH. destruct (p c); reflexivity.
Qed.

(** Two patterns that match alike are searched alike. *)
Lemma scan_ext r1 r2 :
  (forall prev s, exec r1 prev s = exec r2 prev s) ->
  forall fuel prev s, scan r1 fuel prev s = scan r2 fuel prev s.
Proof.
  intros E. induction fuel as [|fuel IH]; intros prev s; [reflexivity|].
  cbn [scan]. rewrite E.
  destruct (exec r2 prev s) as [[[m cs] s']|].
  - destruct m; [destruct s|]; rewrite ?IH; reflexivity.
  - destruct s; rewrite ?IH; reflexivity.
Qed.

Lemma replace_all_char c (f : replacer) s :
  replace_all (Char c) f s = flat_map (fun x => if c =? x then f [x] [] else [x]) s.
Proof.
  rewrite <- (replace_all_class (Z.eqb c) f s). unfold replace_all.
  rewrite (@scan_ext (Char c) (Class (Z.eqb c))); reflexivity.
Qed.

(** *** Searching a text in pieces *)

(** The character before the position reached after [pre]. *)
Fixpoint prev_after (prev : option Z) (pre : jsstring) : option Z :=
  match pre with
  | [] => prev
  | c :: t => prev_after (Some c) t
  end.

Lemma prev_after_cons prev c pre :
  prev_after prev (c :: pre) = prev_after (Some c) pre.
Proof. reflexivity. Qed.

Lemma prev_after_app prev a b :
  prev_after prev (a ++ b) = prev_after (prev_after prev a) b.
Proof.
  revert prev. induction a as [|c a IH]; intro prev; [reflexivity|].
  cbn [app prev_after]. apply IH.
Qed.

(** A stretch in which no match starts is copied. *)
Lemma scan_pass r s : forall pre fuel prev,
  (forall u1 c u2, pre = u1 ++ c :: u2 ->
                   exec r (prev_after prev u1) (c :: u2 ++ s) = None) ->
  scan r (length pre + fuel) prev (pre ++ s)
  = map Keep pre ++ scan r fuel (prev_after prev pre) s.
Proof.
  induction pre as [|c pre IH]; intros fuel prev H; [reflexivity|].
  cbn [length Nat.add app scan].
  pose proof (H [] c pre eq_refl) as E0. cbn [prev_after] in E0. rewrite E0.
  cbn [map app prev_after]. f_equal. apply IH.
  intros u1 x u2 E. apply (H (c :: u1) x u2).
  rewrite E. reflexivity.
Qed.

(** A match that is not empty is replaced, and the search goes on after
    it. *)
Lemma scan_hit r fuel prev s m cs s' :
  exec r prev s = Some (m, cs, s') -> m <> [] ->
  scan r (S fuel) prev s = Hit m cs :: scan r fuel (Some (last m 0)) s'.
Proof.
  intros E N. cbn [scan]. rewrite E. destruct m; [congruence | reflexivity].
Qed.

Lemma scan_end r fuel prev : exec r prev [] = None -> scan r fuel prev [] = [].
Proof. intro E. destruct fuel; [reflexivity|]. cbn [scan]. rewrite E. reflexivity. Qed.

Lemma replace_all_fuel r (f : replacer) s fuel :
  (length s < fuel)%nat ->
  replace_all r f s = flat_map (render f) (scan r fuel None s).
Proof.
  intro L. unfold replace_all. rewrite (@scan_fuel r (S (length s)) fuel None s); [reflexivity|lia|exact L].
Qed.

(** *** The equations of the matcher *)

Lemma rmatch_seq r1 r2 st k :
  rmatch (Seq r1 r2) st k = rmatch r1 st (fun st1 => rmatch r2 st1 k).
Proof. reflexivity. Qed.

Lemma rmatch_group i r1 st k :
  rmatch (Group i r1) st k
  = rmatch r1 st (fun st1 =>
      k (MState (before st1) (rest st1)
           ((i, firstn (length (rest st) - length (rest st1)) (rest st)) :: caps st1))).
Proof. reflexivity. Qed.

Lemma rmatch_class p prev c t cs k :
  rmatch (Class p) (MState prev (c :: t) cs) k
  = if p c then k (MState (Some c) t cs) else None.
Proof. reflexivity. Qed.

Lemma rmatch_char a prev c t cs k :
  rmatch (Char a) (MState prev (c :: t) cs) k
  = if a =? c then k (MState (Some c) t cs) else None.
Proof. reflexivity. Qed.

Lemma rmatch_line_start m s cs k :
  rmatch (LineStart m) (MState None s cs) k = k (MState None s cs).
Proof. reflexivity. Qed.

Lemma rmatch_line_end m prev cs k :
  rmatch (LineEnd m) (MState prev [] cs) k = k (MState prev [] cs).
Proof. reflexivity. Qed.

Lemma rmatch_line_end_at m prev c t cs k :
  rmatch (LineEnd m) (MState prev (c :: t) cs) k
  = if m && is_lt c then k (MState prev (c :: t) cs) else None.
Proof. reflexivity. Qed.

Lemma rmatch_plus r1 st k :
  rmatch (Plus r1) st k = rmatch r1 st (fun st1 => rmatch (Star r1) st1 k).
Proof. reflexivity. Qed.

(** *** Literal text *)

Lemma rmatch_lit : forall w st k,
  rmatch (Lit w) st k
  = match strip_prefix w (rest st) with
    | Some s' => k (MState (prev_after (before st) w) s' (caps st))
    | None => None
    end.
Proof.
  induction w as [|c w IH]; intros st k.
  - destruct st; reflexivity.
  - destruct w as [|d w].
    + cbn [Lit rmatch]. unfold step_char. cbn [strip_prefix prev_after].
      destruct (rest st) as [|x t]; [reflexivity|].
      destruct (c =? x) eqn:E; [|reflexivity].
      apply Z.eqb_eq in E. subst x. reflexivity.
    + change (Lit (c :: d :: w)) with (Seq (Char c) (Lit (d :: w))).
      cbn [rmatch]. unfold step_char at 1.
      change (strip_prefix (c :: d :: w) (rest st))
        with (match rest st with
              | y :: s' => if c =? y then strip_prefix (d :: w) s' else None
              | [] => None
              end).
      destruct (rest st) as [|x t]; [reflexivity|].
      destruct (c =? x) eqn:E; [|reflexivity].
      apply Z.eqb_eq in E. subst x. rewrite IH. reflexivity.
Qed.

Lemma strip_prefix_app w s : strip_prefix w (w ++ s) = Some s.
Proof.
  induction w as [|c w IH]; [reflexivity|].
  cbn [app strip_prefix]. rewrite Z.eqb_refl. exact IH.
Qed.

Lemma strip_prefix_some : forall w s s', strip_prefix w s = Some s' -> s = w ++ s'.
Proof.
  induction w as [|c w IH]; intros s s' E; cbn [strip_prefix] in E.
  - injection E as ->. reflexivity.
  - destruct s as [|y s]; [discriminate|].
    destruct (c =? y) eqn:C; [|discriminate].
    apply Z.eqb_eq in C. subst y. cbn [app]. f_equal. apply IH. exact E.
Qed.

(** *** A lazy run over a class *)

Fixpoint lazy_run (p : Z -> bool) (prev : option Z) (s : jsstring)
         (cs : captures) (k : cont) : option mstate :=
  orElse (k (MState prev s cs))
    (fun _ => match s with
              | c :: t => if p c then lazy_run p (Some c) t cs k else None
              | [] => None
              end).

Lemma lazy_run_eq p prev s cs k :
  lazy_run p prev s cs k
  = orElse (k (MState prev s cs))
      (fun _ => match s with
                | c :: t => if p c then lazy_run p (Some c) t cs k else None
                | [] => None
                end).
Proof. destruct s; reflexivity. Qed.

Lemma star_loop_class_lazy p k : forall fuel prev s cs,
  (length s < fuel)%nat ->
  star_loop (rmatch (Class p)) false fuel (MState prev s cs) k
  = lazy_run p prev s cs k.
Proof.
  induction fuel as [|f IH]; intros prev s cs L; [lia|].
  cbn [star_loop rmatch]. unfold step_char. cbn [rest caps before].
  rewrite lazy_run_eq.
  destruct (k (MState prev s cs)); [reflexivity|]. cbn [orElse].
  destruct s as [|c t]; [reflexivity|].
  destruct (p c); [|reflexivity].
  cbn [rest length].
  replace (length t <? S (length t))%nat with true
    by (symmetry; apply Nat.ltb_lt; lia).
  rewrite IH by (cbn [length] in L; lia). reflexivity.
Qed.

Lemma rmatch_lazy_class p prev s cs k :
  rmatch (LazyStar (Class p)) (MState prev s cs) k = lazy_run p prev s cs k.
Proof.
  cbn [rmatch rest]. apply star_loop_class_lazy. lia.
Qed.

(** The lazy run goes on as long as the continuation refuses, and stops at
    the first position it accepts. *)
Lemma lazy_run_until p k s cs : forall u prev,
  forallb p u = true ->
  (forall u1 c u2, u = u1 ++ c :: u2 ->
                   k (MState (prev_after prev u1) (c :: u2 ++ s) cs) = None) ->
  lazy_run p prev (u ++ s) cs k = lazy_run p (prev_after prev u) s cs k.
Proof.
  induction u as [|c u IH]; intros prev F K; [reflexivity|].
  cbn [forallb] in F. apply andb_true_iff in F. destruct F as [F1 F2].
  cbn [app]. rewrite lazy_run_eq.
  pose proof (K [] c u eq_refl) as K0. cbn [prev_after] in K0. rewrite K0.
  cbn [orElse]. rewrite F1. cbn [prev_after]. apply IH; [exact F2|].
  intros u1 x u2 E. apply (K (c :: u1) x u2). rewrite E. reflexivity.
Qed.

Lemma lazy_run_stop p prev s cs k r :
  k (MState prev s cs) = Some r -> lazy_run p prev s cs k = Some r.
Proof. intro E. rewrite lazy_run_eq, E. reflexivity. Qed.

(** A greedy run over a whole stretch of the class. *)
Lemma after_run_stretch p : forall u prev s,
  forallb p u = true ->
  match s with c :: _ => p c = false | [] => True end ->
  after_run p prev (u ++ s) = (prev_after prev u, s).
Proof.
  induction u as [|c u IH]; intros prev s F E.
  - cbn [app prev_after]. destruct s as [|x s]; [reflexivity|].
    cbn [after_run]. rewrite E. reflexivity.
  - cbn [forallb] in F. apply andb_true_iff in F. destruct F as [F1 F2].
    cbn [app after_run prev_after]. rewrite F1. apply IH; assumption.
Qed.

(** *** What a match has taken *)

Lemma firstn_taken (m s : jsstring) :
  firstn (length (m ++ s) - length s) (m ++ s) = m.
Proof.
  rewrite length_app. replace (length m + length s - length s)%nat with (length m) by lia.
  rewrite firstn_app, Nat.sub_diag, firstn_all. cbn [firstn]. apply app_nil_r.
Qed.

Lemma exec_found r prev m s' b cs :
  rmatch r (MState prev (m ++ s') []) (fun st => Some st) = Some (MState b s' cs) ->
  exec r prev (m ++ s') = Some (m, cs, s').
Proof.
  intro E. unfold exec. rewrite E. cbn [rest caps]. rewrite firstn_taken. reflexivity.
Qed.

Lemma exec_refused r prev s :
  rmatch r (MState prev s []) (fun st => Some st) = None -> exec r prev s = None.
Proof. intro E. unfold exec. rewrite E. reflexivity. Qed.

Ltac taken m :=
  match goal with
  | |- context [firstn (length ?A - length ?B) ?A] =>
      replace (firstn (length A - length B) A) with m
        by (symmetry; exact (firstn_taken m B))
  end.

(** *** A text in which no match starts *)

Lemma scan_keep r : forall fuel s prev,
  (forall u1 u2, s = u1 ++ u2 -> exec r (prev_after prev u1) u2 = None) ->
  scan r fuel prev s = map Keep s.
Proof.
  induction fuel as [|fuel IH]; intros s prev H; [reflexivity|].
  cbn [scan]. pose proof (H [] s eq_refl) as H0. cbn [prev_after] in H0. rewrite H0.
  destruct s as [|c t]; [reflexivity|].
  cbn [map]. f_equal. apply IH.
  intros u1 u2 E. apply (H (c :: u1) u2). rewrite E. reflexivity.
Qed.

End EngineFacts.

(** ** The two escape functions *)

Module EscapeFacts.

Import EngineFacts.

(** What becomes of one character. *)
Definition entity (c : Z) : jsstring :=
  if c =? 38 then str "&amp;"
  else if c =? 60 then str "&lt;"
  else if c =? 62 then str "&gt;"
  else if c =? 34 then str "&quot;"
  else if c =? 39 then str "&#039;"
  else [c].

Ltac by_character c :=
  destruct (Z.eq_dec c 38) as [->|?]; [reflexivity|];
  destruct (Z.eq_dec c 60) as [->|?]; [reflexivity|];
  destruct (Z.eq_dec c 62) as [->|?]; [reflexivity|];
  destruct (Z.eq_dec c 34) as [->|?]; [reflexivity|];
  destruct (Z.eq_dec c 39) as [->|?]; [reflexivity|].

Lemma entity_other c :
  c <> 38 -> c <> 60 -> c <> 62 -> c <> 34 -> c <> 39 -> entity c = [c].
Proof.
  intros N1 N2 N3 N4 N5. unfold entity.
  apply Z.eqb_neq in N1, N2, N3, N4, N5. rewrite N1, N2, N3, N4, N5. reflexivity.
Qed.

(** The five replacements of the fence callback, made one after the other,
    amount to one replacement per character: no replacement text holds a
    character that a later replacement takes. *)
Lemma escape_html_entities s : Template.escape_html s = flat_map entity s.
Proof.
  unfold Template.escape_html. rewrite !replace_all_char.
  induction s as [|c s IH]; [reflexivity|].
  cbn [flat_map]. rewrite !flat_map_app, IH. f_equal.
  by_character c.
  rewrite entity_other by assumption.
  change (ch "&") with 38. change (ch "<") with 60. change (ch ">") with 62.
  change (ch "'") with 39.
  replace (38 =? c) with false by (symmetry; apply Z.eqb_neq; congruence).
  cbn [flat_map app].
  replace (60 =? c) with false by (symmetry; apply Z.eqb_neq; congruence).
  cbn [flat_map app].
  replace (62 =? c) with false by (symmetry; apply Z.eqb_neq; congruence).
  cbn [flat_map app].
  replace (34 =? c) with false by (symmetry; apply Z.eqb_neq; congruence).
  cbn [flat_map app].
  replace (39 =? c) with false by (symmetry; apply Z.eqb_neq; congruence).
  reflexivity.
Qed.

Lemma escapeHtml_entities s : Library.escapeHtml s = flat_map entity s.
Proof.
  unfold Library.escapeHtml. rewrite replace_all_class.
  induction s as [|c s IH]; [reflexivity|].
  cbn [flat_map]. rewrite IH. f_equal.
  by_character c.
  rewrite entity_other by assumption.
  unfold Library.is_html_special.
  replace (c =? 38) with false by (symmetry; apply Z.eqb_neq; congruence).
  replace (c =? 60) with false by (symmetry; apply Z.eqb_neq; congruence).
  replace (c =? 62) with false by (symmetry; apply Z.eqb_neq; congruence).
  replace (c =? 34) with false by (symmetry; apply Z.eqb_neq; congruence).
  replace (c =? 39) with false by (symmetry; apply Z.eqb_neq; congruence).
  reflexivity.
Qed.

(** The escape of the library-based formatter and the escape of the
    hand-rolled renderer give the same text on every input. *)
Theorem escapeHtml_agrees_with_escape_html (text : jsstring) :
  Library.escapeHtml text = Template.escape_html text.
Proof.
  rewrite escapeHtml_entities, escape_html_entities. reflexivity.
Qed.

(** The characters that open or close a tag or an attribute value. *)
Definition is_markup (c : Z) : bool :=
  (c =? 60) || (c =? 62) || (c =? 34) || (c =? 39).

Definition entity_tails : list jsstring :=
  [str "amp;"; str "lt;"; str "gt;"; str "quot;"; str "#039;"].

(** Every ampersand starts one of the five entities. *)
Fixpoint entities_only (s : jsstring) : bool :=
  match s with
  | [] => true
  | c :: t =>
      (if c =? 38 then existsb (fun e => startsWith e t) entity_tails else true)
      && entities_only t
  end.

Lemma entities_only_entity c rest :
  entities_only rest = true -> entities_only (entity c ++ rest) = true.
Proof.
  intro R.
  destruct (Z.eq_dec c 38) as [->|?]; [cbn; exact R|].
  destruct (Z.eq_dec c 60) as [->|?]; [cbn; exact R|].
  destruct (Z.eq_dec c 62) as [->|?]; [cbn; exact R|].
  destruct (Z.eq_dec c 34) as [->|?]; [cbn; exact R|].
  destruct (Z.eq_dec c 39) as [->|?]; [cbn; exact R|].
  rewrite entity_other by assumption. cbn [app entities_only].
  replace (c =? 38) with false by (symmetry; apply Z.eqb_neq; congruence).
  exact R.
Qed.

Lemma lacks_entity c : lacks is_markup (entity c) = true.
Proof.
  by_character c. rewrite entity_other by assumption.
  unfold lacks, is_markup. cbn [forallb].
  replace (c =? 60) with false by (symmetry; apply Z.eqb_neq; congruence).
  replace (c =? 62) with false by (symmetry; apply Z.eqb_neq; congruence).
  replace (c =? 34) with false by (symmetry; apply Z.eqb_neq; congruence).
  replace (c =? 39) with false by (symmetry; apply Z.eqb_neq; congruence).
  reflexivity.
Qed.

(** Whatever the code, its escaped form holds no angle bracket and no quote,
    and no ampersand that is not the start of one of the five entities. *)
Theorem escape_html_leaves_no_markup (code : jsstring) :
  lacks is_markup (Template.escape_html code) = true
  /\ entities_only (Template.escape_html code) = true.
Proof.
  rewrite escape_html_entities. induction code as [|c s [IH1 IH2]].
  - split; reflexivity.
  - cbn [flat_map]. split.
    + rewrite lacks_app, lacks_entity, IH1. reflexivity.
    + apply entities_only_entity. exact IH2.
Qed.

(** The first character of an escaped character says which one it was. *)
Lemma entity_cancel a b x y :
  entity a ++ x = entity b ++ y -> a = b /\ x = y.
Proof.
  intro E.
  destruct (Z.eq_dec a 38) as [->|Na1].
  { destruct (Z.eq_dec b 38) as [->|?]; [cbn in E; split; congruence|].
    destruct (Z.eq_dec b 60) as [->|?]; [discriminate|].
    destruct (Z.eq_dec b 62) as [->|?]; [discriminate|].
    destruct (Z.eq_dec b 34) as [->|?]; [discriminate|].
    destruct (Z.eq_dec b 39) as [->|?]; [discriminate|].
    rewrite (entity_other (c := b)) in E by assumption. cbn in E. congruence. }
  destruct (Z.eq_dec a 60) as [->|Na2].
  { destruct (Z.eq_dec b 38) as [->|?]; [discriminate|].
    destruct (Z.eq_dec b 60) as [->|?]; [cbn in E; split; congruence|].
    destruct (Z.eq_dec b 62) as [->|?]; [discriminate|].
    destruct (Z.eq_dec b 34) as [->|?]; [discriminate|].
    destruct (Z.eq_dec b 39) as [->|?]; [discriminate|].
    rewrite (entity_other (c := b)) in E by assumption. cbn in E. congruence. }
  destruct (Z.eq_dec a 62) as [->|Na3].
  { destruct (Z.eq_dec b 38) as [->|?]; [discriminate|].
    destruct (Z.eq_dec b 60) as [->|?]; [discriminate|].
    destruct (Z.eq_dec b 62) as [->|?]; [cbn in E; split; congruence|].
    destruct (Z.eq_dec b 34) as [->|?]; [discriminate|].
    destruct (Z.eq_dec b 39) as [->|?]; [discriminate|].
    rewrite (entity_other (c := b)) in E by assumption. cbn in E. congruence. }
  destruct (Z.eq_dec a 34) as [->|Na4].
  { destruct (Z.eq_dec b 38) as [->|?]; [discriminate|].
    destruct (Z.eq_dec b 60) as [->|?]; [discriminate|].
    destruct (Z.eq_dec b 62) as [->|?]; [discriminate|].
    destruct (Z.eq_dec b 34) as [->|?]; [cbn in E; split; congruence|].
    destruct (Z.eq_dec b 39) as [->|?]; [discriminate|].
    rewrite (entity_other (c := b)) in E by assumption. cbn in E. congruence. }
  destruct (Z.eq_dec a 39) as [->|Na5].
  { destruct (Z.eq_dec b 38) as [->|?]; [discriminate|].
    destruct (Z.eq_dec b 60) as [->|?]; [discriminate|].
    destruct (Z.eq_dec b 62) as [->|?]; [discriminate|].
    destruct (Z.eq_dec b 34) as [->|?]; [discriminate|].
    destruct (Z.eq_dec b 39) as [->|?]; [cbn in E; split; congruence|].
    rewrite (entity_other (c := b)) in E by assumption. cbn in E. congruence. }
  rewrite (entity_other (c := a)) in E by assumption.
  destruct (Z.eq_dec b 38) as [->|?]; [cbn in E; congruence|].
  destruct (Z.eq_dec b 60) as [->|?]; [cbn in E; congruence|].
  destruct (Z.eq_dec b 62) as [->|?]; [cbn in E; congruence|].
  destruct (Z.eq_dec b 34) as [->|?]; [cbn in E; congruence|].
  destruct (Z.eq_dec b 39) as [->|?]; [cbn in E; congruence|].
  rewrite (entity_other (c := b)) in E by assumption. cbn in E.
  split; congruence.
Qed.

Lemma entity_not_empty c x : entity c ++ x <> [].
Proof.
  unfold entity. repeat destruct (_ =? _); discriminate.
Qed.

Lemma entities_cancel : forall a b,
  flat_map entity a = flat_map entity b -> a = b.
Proof.
  induction a as [|x a IH]; intros [|y b] E; cbn [flat_map] in E.
  - reflexivity.
  - symmetry in E. apply entity_not_empty in E. contradiction.
  - apply entity_not_empty in E. contradiction.
  - apply entity_cancel in E. destruct E as [-> E]. f_equal. apply IH. exact E.
Qed.

(** Escaping loses nothing: two different code texts have different escaped
    forms. *)
Theorem escape_html_keeps_texts_apart (a b : jsstring) :
  a <> b -> Template.escape_html a <> Template.escape_html b.
Proof.
  intros N E. apply N. apply entities_cancel.
  rewrite <- !escape_html_entities. exact E.
Qed.

Lemma escape_html_keeps_texts_apart_witness :
  Template.escape_html (str "<") <> Template.escape_html (str "&lt;").
Proof.
  apply escape_html_keeps_texts_apart. discriminate.
Defined.

End EscapeFacts.

(** ** What is stored for a code block *)

Module StoreFacts.

Import Codec CodecFacts.

(** The characters of base64: letters, digits, plus, slash and the padding
    sign. *)
Definition is_b64_sign (c : Z) : bool :=
  is_upper c || is_lower c || is_digit c || (c =? 43) || (c =? 47) || (c =? 61).

Lemma b64_char_sign v : sextet v -> is_b64_sign (b64_char v) = true.
Proof.
  unfold sextet, b64_char, is_b64_sign, is_upper, is_lower, is_digit. intro H.
  destruct (v <? 26) eqn:E1; [|destruct (v <? 52) eqn:E2;
    [|destruct (v <? 62) eqn:E3; [|destruct (v =? 62) eqn:E4]]]; bool_hyps.
  - replace ((65 <=? 65 + v) && (65 + v <=? 90)) with true; [reflexivity|].
    symmetry. apply andb_true_iff. split; apply Z.leb_le; lia.
  - replace ((97 <=? 71 + v) && (71 + v <=? 122)) with true;
      [rewrite orb_true_r; reflexivity|].
    symmetry. apply andb_true_iff. split; apply Z.leb_le; lia.
  - replace ((48 <=? v - 4) && (v - 4 <=? 57)) with true;
      [rewrite !orb_true_r; reflexivity|].
    symmetry. apply andb_true_iff. split; apply Z.leb_le; lia.
  - reflexivity.
  - reflexivity.
Qed.

Lemma b64_encode_signs bs :
  Forall octet bs -> forallb is_b64_sign (b64_encode bs) = true.
Proof.
  induction bs as [|a|a b|a b c t IH] using list_ind3; intro F.
  - reflexivity.
  - pose proof (octets1 F) as H1.
    destruct (sextets_of_one H1) as [S1 [S2 _]].
    cbn [b64_encode forallb].
    rewrite (b64_char_sign S1), (b64_char_sign S2). reflexivity.
  - destruct (octets2 F) as [H1 H2].
    destruct (sextets_of_two H1 H2) as [S1 [S2 [S3 _]]].
    cbn [b64_encode forallb].
    rewrite (b64_char_sign S1), (b64_char_sign S2), (b64_char_sign S3). reflexivity.
  - destruct (octets3 F) as [H1 [H2 [H3 H4]]].
    destruct (sextets_of_octets H1 H2 H3) as [S1 [S2 [S3 [S4 _]]]].
    cbn [b64_encode forallb].
    rewrite (b64_char_sign S1), (b64_char_sign S2), (b64_char_sign S3),
      (b64_char_sign S4), (IH H4). reflexivity.
Qed.

Lemma btoa_some s e :
  btoa s = Some e -> Forall octet s /\ e = b64_encode s.
Proof.
  unfold btoa. destruct (forallb _ s) eqn:F; [|discriminate].
  intro E. injection E as <-. split; [|reflexivity].
  apply Forall_forall. intros x Hx.
  rewrite forallb_forall in F. specialize (F x Hx).
  apply andb_true_iff in F. destruct F as [F1 F2].
  apply Z.leb_le in F1, F2. unfold octet. lia.
Qed.

(** Whatever the code, the value written into [data-original-code] is made
    of base64 characters only, in groups of four: it holds no quote, angle
    bracket, ampersand or white space. *)
Theorem stored_code_is_base64 (originalCode e : jsstring) :
  store_encode originalCode = Some e ->
  forallb is_b64_sign e = true /\ (length e mod 4 = 0)%nat.
Proof.
  unfold store_encode. destruct (encodeURIComponent originalCode) as [u|]; [|discriminate].
  intro B. apply btoa_some in B. destruct B as [F ->].
  split; [exact (b64_encode_signs F)|].
  apply Nat.eqb_eq. exact (proj1 (b64_encode_length (unescape u))).
Qed.

Lemma stored_code_is_base64_witness :
  forallb is_b64_sign (str "PGI+") = true /\ (length (str "PGI+") mod 4 = 0)%nat.
Proof.
  apply (@stored_code_is_base64 (str "<b>")). reflexivity.
Defined.

(** The code units of a string. *)
Definition code_units (s : jsstring) : bool :=
  forallb (fun c => (0 <=? c) && (c <=? 65535)) s.

Lemma ill_formed_throws : forall s,
  code_units s = true -> well_formed s = false -> encodeURIComponent s = None.
Proof.
  fix IH 1. intros [|c t]; [discriminate|].
  cbn [code_units forallb well_formed encodeURIComponent].
  intro U. apply andb_true_iff in U. destruct U as [R U]. rewrite R.
  destruct (uri_unreserved c) eqn:V.
  - destruct (unreserved_ascii _ V) as [A N].
    replace (is_high c) with false
      by (symmetry; unfold is_high; apply andb_false_iff; left; apply Z.leb_gt; lia).
    replace (is_low c) with false
      by (symmetry; unfold is_low; apply andb_false_iff; left; apply Z.leb_gt; lia).
    cbn [negb andb]. intro W. rewrite (IH t U W). reflexivity.
  - destruct (is_high c) eqn:Hh.
    + assert (Hl : is_low c = false).
      { unfold is_high, is_low in *. bool_hyps. apply andb_false_iff. left.
        apply Z.leb_gt. lia. }
      rewrite Hl. destruct t as [|d t']; [reflexivity|].
      cbn [forallb] in U. apply andb_true_iff in U. destruct U as [_ U].
      destruct (is_low d); [|reflexivity].
      cbn [andb]. intro W. rewrite (IH t' U W). reflexivity.
    + destruct (is_low c); [reflexivity|].
      cbn [negb andb]. intro W. rewrite (IH t U W). reflexivity.
Qed.

(** Storing the code fails, with the exception of [encodeURIComponent],
    exactly when the code holds a surrogate without its partner. *)
Theorem store_fails_on_unpaired_surrogates_only (originalCode : jsstring) :
  code_units originalCode = true ->
  (store_encode originalCode = None <-> well_formed originalCode = false).
Proof.
  intro U. split.
  - intro N. destruct (well_formed originalCode) eqn:W; [|reflexivity].
    destruct (unescape_encodeURIComponent originalCode W) as [u [E1 E2]].
    destruct (atob_btoa (utf8_of_octets originalCode W)) as [e [B1 _]].
    unfold store_encode in N. rewrite E1, E2, B1 in N. discriminate.
  - intro W. unfold store_encode.
    rewrite (ill_formed_throws originalCode U W). reflexivity.
Qed.

Lemma store_fails_on_unpaired_surrogates_only_witness :
  store_encode [97; 56832; 98] = None <-> well_formed [97; 56832; 98] = false.
Proof.
  apply store_fails_on_unpaired_surrogates_only. reflexivity.
Defined.

End StoreFacts.

(** ** What [addCopyButtons] leaves alone *)

Module DomContent.

Import Dom DomFacts.

(** [textContent]: the text of the descendants, in document order. *)
Fixpoint textContent (n : node) : jsstring :=
  match n with
  | Text s => s
  | Elem _ _ _ _ kids => flat_map textContent kids
  end.

(** The document without the elements created from the identity [bound] on:
    a created element with two children, a container, gives way to its
    second child. *)
Fixpoint unwrap (bound : nat) (n : node) : node :=
  match n with
  | Text s => Text s
  | Elem i tag classes attrs kids =>
      if Nat.leb bound i then
        match kids with
        | [_; k] => unwrap bound k
        | _ => Elem i tag classes attrs (map (unwrap bound) kids)
        end
      else Elem i tag classes attrs (map (unwrap bound) kids)
  end.

Lemma map_same (f g : node -> node) (kids : list node) :
  Forall (fun k => f k = g k) kids -> map f kids = map g kids.
Proof.
  induction 1 as [|k kids E _ IH]; [reflexivity|].
  cbn [map]. rewrite E, IH. reflexivity.
Qed.

Lemma unwrap_old : forall n bound, ids_below bound n = true -> unwrap bound n = n.
Proof.
  induction n as [s|i tag classes attrs kids IH] using node_induction;
    intros bound B; [reflexivity|].
  cbn [ids_below] in B. apply andb_true_iff in B. destruct B as [B1 B2].
  apply Nat.ltb_lt in B1. cbn [unwrap].
  replace (bound <=? i)%nat with false by (symmetry; apply Nat.leb_gt; exact B1).
  f_equal. rewrite <- (map_id kids) at 2. apply map_same.
  rewrite forallb_forall in B2. rewrite Forall_forall in IH |- *.
  intros k Hk. apply (IH k Hk). apply B2. exact Hk.
Qed.

Lemma unwrap_wrap bound : forall n fresh x,
  (bound <= fresh)%nat -> unwrap bound (wrap fresh x n) = unwrap bound n.
Proof.
  induction n as [s|i tag classes attrs kids IH] using node_induction;
    intros fresh x L; [reflexivity|].
  rewrite wrap_elem. destruct (Nat.eqb i x).
  - set (N := Elem i tag classes attrs kids).
    change (unwrap bound (Elem fresh "div" [container_class] [] [copy_button fresh; N]))
      with (if (bound <=? fresh)%nat then unwrap bound N
            else Elem fresh "div" [container_class] []
                   (map (unwrap bound) [copy_button fresh; N])).
    replace (bound <=? fresh)%nat with true by (symmetry; apply Nat.leb_le; exact L).
    reflexivity.
  - assert (M : map (unwrap bound) (map (wrap fresh x) kids) = map (unwrap bound) kids).
    { rewrite map_map. apply map_same. rewrite Forall_forall in IH |- *.
      intros k Hk. apply (IH k Hk). exact L. }
    cbn [unwrap]. rewrite M.
    destruct (bound <=? i)%nat; [|reflexivity].
    destruct kids as [|a [|b [|c kids]]]; try reflexivity.
    cbn [map]. apply (Forall_inv (Forall_inv_tail IH)). exact L.
Qed.

Lemma textContent_wrap : forall n fresh x,
  textContent (wrap fresh x n) = textContent n.
Proof.
  induction n as [s|i tag classes attrs kids IH] using node_induction;
    intros fresh x; [reflexivity|].
  rewrite wrap_elem. destruct (Nat.eqb i x).
  - cbn [textContent copy_button flat_map app]. apply app_nil_r.
  - cbn [textContent]. induction kids as [|k kids IHk]; [reflexivity|].
    cbn [map flat_map]. rewrite (Forall_inv IH fresh x).
    rewrite (IHk (Forall_inv_tail IH)). reflexivity.
Qed.

Lemma visits_only_add bound : forall l t f,
  (bound <= f)%nat ->
  unwrap bound (fst (fold_left visit l (t, f))) = unwrap bound t
  /\ textContent (fst (fold_left visit l (t, f))) = textContent t.
Proof.
  induction l as [|x l IH]; intros t f L; [split; reflexivity|].
  cbn [fold_left].
  destruct (visit_cases (t, f) x) as [[_ V]|[_ V]]; cbn [fst snd] in V; rewrite V.
  - destruct (IH (wrap f x t) (f + 3)%nat ltac:(lia)) as [I1 I2].
    rewrite I1, I2. split; [apply unwrap_wrap; exact L | apply textContent_wrap].
  - apply IH. exact L.
Qed.

(** The pass only adds.  Taking the containers it has created away, each
    with its control, gives the document as it was, element for element;
    and the text of the document is what it was. *)
Theorem addCopyButtons_only_adds (t : node) (fresh : nat) :
  ids_below fresh t = true ->
  unwrap fresh (fst (addCopyButtons (t, fresh))) = t
  /\ textContent (fst (addCopyButtons (t, fresh))) = textContent t.
Proof.
  intro B. unfold addCopyButtons. cbn [fst].
  destruct (@visits_only_add fresh (select false t) t fresh (le_n fresh)) as [I1 I2].
  rewrite I1, I2, (unwrap_old t fresh B). split; reflexivity.
Qed.

Lemma addCopyButtons_only_adds_witness :
  unwrap 12 (fst (addCopyButtons (sample_page, 12%nat))) = sample_page
  /\ textContent (fst (addCopyButtons (sample_page, 12%nat))) = textContent sample_page.
Proof.
  apply addCopyButtons_only_adds. reflexivity.
Defined.

End DomContent.

(** ** The upload filter and the routes *)

Module ServerFacts.

Import Server EngineFacts.

Lemma eqs_eq : forall a b, eqs a b = true -> a = b.
Proof.
  induction a as [|x a IH]; intros [|y b] E; cbn [eqs] in E;
    try discriminate; [reflexivity|].
  apply andb_true_iff in E. destruct E as [E1 E2].
  apply Z.eqb_eq in E1. rewrite E1, (IH b E2). reflexivity.
Qed.

Definition pdf : jsstring := str "application/pdf".

(** Of the documents that the filter lets in, the PDF files, and only they,
    are taken by no branch of the upload route: they are accepted and then
    passed over. *)
Theorem accepted_pdf_is_passed_over (mimetype : jsstring) :
  fileFilter (str "documents") mimetype = Accept ->
  (document_branch mimetype = NoBranch <-> mimetype = pdf).
Proof.
  intro A. unfold fileFilter in A.
  change (eqs (str "documents") (str "images")) with false in A.
  change (eqs (str "documents") (str "documents")) with true in A.
  cbv iota in A.
  destruct (array_includes allowedDoc mimetype) eqn:I; [clear A | discriminate].
  unfold array_includes, allowedDoc in I. cbn [existsb] in I.
  repeat (apply orb_true_iff in I; destruct I as [I|I]);
    try discriminate; apply eqs_eq in I; subst mimetype;
    (split; [vm_compute; try discriminate; reflexivity | vm_compute; try discriminate; reflexivity]).
Qed.

Lemma accepted_pdf_is_passed_over_witness :
  document_branch pdf = NoBranch <-> pdf = pdf.
Proof.
  apply accepted_pdf_is_passed_over. reflexivity.
Defined.

Definition is_dot (c : Z) : bool := c =? 46.

Lemma no_dot_no_suffix w : forall path,
  lacks is_dot path = true -> includes (46 :: w) path = false.
Proof.
  induction path as [|c path IH]; intro L; [reflexivity|].
  rewrite lacks_cons in L. apply andb_true_iff in L. destruct L as [L1 L2].
  cbn [includes]. rewrite (IH L2), orb_false_r.
  unfold startsWith. cbn [strip_prefix]. unfold is_dot in L1.
  apply negb_true_iff in L1. rewrite Z.eqb_sym, L1. reflexivity.
Qed.

Lemma dot_found : forall path,
  includes [46] path = false -> lacks is_dot path = true.
Proof.
  induction path as [|c path IH]; intro I; [reflexivity|].
  cbn [includes] in I. apply orb_false_iff in I. destruct I as [I1 I2].
  rewrite lacks_cons, (IH I2), andb_true_r. unfold is_dot.
  unfold startsWith in I1. cbn [strip_prefix] in I1.
  rewrite Z.eqb_sym. destruct (46 =? c); [discriminate | reflexivity].
Qed.

(** The page is served for the paths outside [/api/] that hold no dot, and
    for no other path. *)
Theorem catch_all_serves_dotless_paths (path : jsstring) :
  catch_all path = IndexPage
  <-> startsWith (str "/api/") path = false /\ lacks is_dot path = true.
Proof.
  unfold catch_all. split.
  - destruct (startsWith (str "/api/") path); [discriminate|].
    destruct (includes (str ".") path) eqn:D.
    + rewrite !orb_true_r. discriminate.
    + intros _. split; [reflexivity | apply dot_found; exact D].
  - intros [A L]. rewrite A.
    change (str ".js") with (46 :: str "js"). change (str ".css") with (46 :: str "css").
    change (str ".html") with (46 :: str "html").
    change (str ".json") with (46 :: str "json"). change (str ".") with (46 :: []).
    rewrite !(no_dot_no_suffix _ path L). reflexivity.
Qed.

End ServerFacts.

(** ** Doing a clean-up twice *)

Module StableFacts.

Import Template TrimFacts RegexFacts NormalizeFacts CleanupFacts.

(** *** The first stage *)

(** No line feed is followed by white space with two line feeds or more:
    the pattern of the first stage matches nowhere. *)
Fixpoint calm (s : jsstring) : bool :=
  match s with
  | c :: t => negb ((c =? nl) && (2 <=? nl_count t)%nat) && calm t
  | [] => true
  end.

Lemma squeeze_calm : forall f s, calm s = true -> squeeze f s = s.
Proof.
  induction f as [|f IH]; intros s C; [reflexivity|].
  destruct s as [|c t]; [reflexivity|].
  cbn [calm] in C. apply andb_true_iff in C. destruct C as [C1 C2].
  apply negb_true_iff in C1. rewrite squeeze_cons, C1, (IH t C2). reflexivity.
Qed.

Lemma nl_count_squeeze : forall f s,
  (length s <= f)%nat -> nl_count (squeeze f s) = Nat.min (nl_count s) 2.
Proof.
  induction f as [|f IH]; intros s L.
  - destruct s; [reflexivity | cbn [length] in L; lia].
  - destruct s as [|c t]; [reflexivity|].
    cbn [length] in L. rewrite squeeze_cons.
    destruct (c =? nl) eqn:E.
    + apply Z.eqb_eq in E. subst c. cbn [andb].
      destruct (2 <=? nl_count t)%nat eqn:T.
      * apply Nat.leb_le in T.
        pose proof (after_last_nl_length t) as La.
        cbn [nl_count]. change (is_ws nl) with true. change (nl =? nl) with true.
        cbv iota. rewrite IH by lia. rewrite after_last_nl_count. cbn [Nat.min]. lia.
      * apply Nat.leb_gt in T.
        cbn [nl_count]. change (is_ws nl) with true. change (nl =? nl) with true.
        cbv iota. rewrite IH by lia. lia.
    + cbn [andb nl_count]. rewrite E.
      destruct (is_ws c); [|reflexivity].
      rewrite IH by lia. reflexivity.
Qed.

Lemma calm_squeeze : forall f s, (length s <= f)%nat -> calm (squeeze f s) = true.
Proof.
  induction f as [|f IH]; intros s L.
  - destruct s; [reflexivity | cbn [length] in L; lia].
  - destruct s as [|c t]; [reflexivity|].
    cbn [length] in L. rewrite squeeze_cons.
    destruct ((c =? nl) && (2 <=? nl_count t)%nat) eqn:M.
    + pose proof (after_last_nl_length t) as La.
      assert (Z0 : nl_count (squeeze f (after_last_nl t)) = 0%nat).
      { rewrite nl_count_squeeze by lia. rewrite after_last_nl_count. reflexivity. }
      cbn [calm nl_count]. change (is_ws nl) with true. change (nl =? nl) with true.
      cbv iota. rewrite Z0. cbn [Nat.add Nat.leb andb negb].
      apply IH. lia.
    + cbn [calm]. rewrite (IH t) by lia. rewrite andb_true_r.
      apply negb_true_iff. destruct (c =? nl); [|reflexivity].
      cbn [andb] in *. apply Nat.leb_gt in M. apply Nat.leb_gt.
      rewrite nl_count_squeeze by lia. lia.
Qed.

(** The first stage of the renderer changes nothing in a text it has
    produced. *)
Theorem normalize_twice (markdown : jsstring) :
  normalize (normalize markdown) = normalize markdown.
Proof.
  rewrite (normalize_squeeze (normalize markdown)).
  assert (T : trim (normalize markdown) = normalize markdown).
  { apply trim_fixed. rewrite normalize_squeeze.
    apply squeeze_clean; [lia | apply trim_clean]. }
  rewrite T. apply squeeze_calm. rewrite normalize_squeeze.
  apply calm_squeeze. lia.
Qed.

(** *** The final cleanup *)

Lemma tidy_trimStart t : tidy true t = true -> trimStart t = t.
Proof.
  destruct t as [|c t]; [reflexivity|]. cbn [tidy trimStart].
  destruct (is_ws c); [|reflexivity].
  rewrite andb_false_r. discriminate.
Qed.

Lemma spaces_tidy : forall f s sp, tidy sp s = true -> spaces f s = s.
Proof.
  induction f as [|f IH]; intros s sp T; [reflexivity|].
  destruct s as [|c t]; [reflexivity|].
  cbn [tidy spaces] in *. destruct (is_ws c).
  - apply andb_true_iff in T. destruct T as [T1 T2].
    apply andb_true_iff in T1. destruct T1 as [T1 _].
    apply Z.eqb_eq in T1. subst c.
    rewrite (@tidy_trimStart t T2), (IH t true T2). reflexivity.
  - rewrite (IH t false T). reflexivity.
Qed.

Lemma tidy_gap sp t r :
  tidy sp t = true -> gap t = Some r -> startsWith [32; 60] t = true.
Proof.
  unfold gap. destruct t as [|d t']; [discriminate|].
  cbn [tidy]. destruct (is_ws d); [|discriminate].
  intro T. apply andb_true_iff in T. destruct T as [T1 T2].
  apply andb_true_iff in T1. destruct T1 as [T1 _].
  apply Z.eqb_eq in T1. subst d.
  rewrite (@tidy_trimStart t' T2).
  destruct t' as [|x r']; [discriminate|].
  destruct (x =? 60) eqn:X; [|discriminate].
  intros _. apply Z.eqb_eq in X. subst x. reflexivity.
Qed.

Lemma tidy_tail sp c t : tidy sp (c :: t) = true -> exists sp', tidy sp' t = true.
Proof.
  cbn [tidy]. destruct (is_ws c).
  - intro T. apply andb_true_iff in T. exists true. apply T.
  - intro T. exists false. exact T.
Qed.

Lemma tighten_tidy : forall f s sp,
  tidy sp s = true -> includes [62; 32; 60] s = false -> tighten f s = s.
Proof.
  induction f as [|f IH]; intros s sp T I; [reflexivity|].
  destruct s as [|c t]; [reflexivity|].
  rewrite includes_cons2 in I. apply orb_false_iff in I. destruct I as [I1 I2].
  destruct (tidy_tail sp c t T) as [sp' T'].
  cbn [tighten].
  assert (G : (if c =? 62 then gap t else None) = None).
  { destruct (c =? 62) eqn:C; [|reflexivity].
    destruct (gap t) as [r|] eqn:G; [|reflexivity].
    apply Z.eqb_eq in C. subst c.
    rewrite startsWith_cons in I1. cbn [Z.eqb Pos.eqb andb] in I1.
    rewrite (tidy_gap sp' t T' G) in I1. discriminate. }
  rewrite G, (IH t sp' T' I2). reflexivity.
Qed.

Lemma spaces_nil f : spaces f [] = [].
Proof. destruct f; reflexivity. Qed.

Lemma tighten_nil f : tighten f [] = [].
Proof. destruct f; reflexivity. Qed.

Lemma spaces_last : forall f s,
  (length s <= f)%nat -> s <> [] -> is_ws (last s 0) = false ->
  spaces f s <> [] /\ last (spaces f s) 0 = last s 0.
Proof.
  induction f as [|f IH]; intros s L N W.
  - destruct s; [contradiction N; reflexivity | cbn [length] in L; lia].
  - destruct s as [|c t]; [contradiction N; reflexivity|].
    cbn [spaces]. cbn [length] in L.
    destruct (is_ws c) eqn:C.
    + destruct (trimStart_split t) as [w [E F]].
      pose proof (trimStart_length t) as Lt.
      assert (A : trimStart t <> []).
      { intro A. rewrite A, app_nil_r in E. subst w.
        assert (F' : forallb is_ws (c :: t) = true) by (cbn [forallb]; rewrite C, F; reflexivity).
        assert (N' : c :: t <> []) by discriminate.
        pose proof (last_of_white F' N'). congruence. }
      assert (Ls : last (c :: t) 0 = last (trimStart t) 0).
      { rewrite E at 1. change (c :: w ++ trimStart t) with ((c :: w) ++ trimStart t).
        apply last_app_nonempty. exact A. }
      rewrite Ls in *.
      destruct (IH (trimStart t)) as [I1 I2]; [lia | exact A | exact W|].
      split; [discriminate|].
      rewrite last_cons; [exact I2 | exact I1].
    + split; [discriminate|].
      destruct t as [|d t']; [rewrite spaces_nil; reflexivity|].
      assert (Nt : d :: t' <> []) by discriminate.
      rewrite (last_cons c Nt) in *.
      destruct (IH (d :: t')) as [I1 I2]; [lia | exact Nt | exact W|].
      rewrite last_cons; [exact I2 | exact I1].
Qed.

Lemma tighten_last : forall f s,
  (length s <= f)%nat -> s <> [] ->
  tighten f s <> [] /\ last (tighten f s) 0 = last s 0.
Proof.
  induction f as [|f IH]; intros s L N.
  - destruct s; [contradiction N; reflexivity | cbn [length] in L; lia].
  - destruct s as [|c t]; [contradiction N; reflexivity|].
    cbn [tighten]. cbn [length] in L.
    destruct (if c =? 62 then gap t else None) as [r|] eqn:G.
    + destruct (c =? 62); [|discriminate].
      pose proof (gap_length t G) as Lr.
      destruct (gap_split t G) as [w [E _]].
      split; [discriminate|].
      destruct r as [|x r'].
      * rewrite tighten_nil, E.
        change (c :: w ++ [60]) with ((c :: w) ++ [60]).
        rewrite last_last. reflexivity.
      * assert (Nr : x :: r' <> []) by discriminate.
        destruct (IH (x :: r')) as [I1 I2]; [lia | exact Nr|].
        transitivity (last (x :: r') 0).
        -- assert (N6 : 60 :: tighten f (x :: r') <> []) by discriminate.
           rewrite (@last_cons 62 _ N6), (@last_cons 60 _ I1). exact I2.
        -- rewrite E.
           replace (c :: w ++ 60 :: x :: r') with ((c :: w ++ [60]) ++ x :: r')
             by (cbn [app]; rewrite <- app_assoc; reflexivity).
           rewrite last_app_nonempty by exact Nr. reflexivity.
    + split; [discriminate|].
      destruct t as [|d t']; [rewrite tighten_nil; reflexivity|].
      assert (Nt : d :: t' <> []) by discriminate.
      destruct (IH (d :: t')) as [I1 I2]; [lia | exact Nt|].
      rewrite (@last_cons c _ I1), (@last_cons c _ Nt). exact I2.
Qed.

Lemma spaces_head f s :
  s = [] \/ is_ws (hd 0 s) = false -> hd_error (spaces f s) = hd_error s.
Proof.
  intros [->|H]; [destruct f; reflexivity|].
  destruct f; [reflexivity|]. destruct s as [|c t]; [reflexivity|].
  cbn [hd] in H. cbn [spaces]. rewrite H. reflexivity.
Qed.

Lemma hd_of_error (s r : jsstring) : hd_error s = hd_error r -> hd 0 s = hd 0 r.
Proof. destruct s, r; cbn; congruence. Qed.

Lemma final_cleanup_clean html : clean_edges (final_cleanup html).
Proof.
  rewrite final_cleanup_steps.
  pose proof (trim_clean html) as C.
  remember (trim html) as s0 eqn:E0. clear E0.
  set (s1 := spaces (S (length s0)) s0).
  destruct C as [E|[H W]].
  - left. unfold s1. rewrite E. reflexivity.
  - destruct (list_eq_dec Z.eq_dec s0 []) as [E|N0].
    { left. unfold s1. rewrite E. reflexivity. }
    destruct (@spaces_last (S (length s0)) s0) as [N1 L1]; [lia | exact N0 | exact W|].
    fold s1 in N1, L1.
    destruct (@tighten_last (S (length s1)) s1) as [N2 L2]; [lia | exact N1|].
    right. split.
    + rewrite (hd_of_error _ _ (tighten_head (S (length s1)) s1)).
      unfold s1. rewrite (hd_of_error _ _ (spaces_head (S (length s0)) (or_intror H))).
      exact H.
    + rewrite L2, L1. exact W.
Qed.

(** The final cleanup changes nothing in a text it has produced. *)
Theorem final_cleanup_twice (html : jsstring) :
  final_cleanup (final_cleanup html) = final_cleanup html.
Proof.
  pose proof (final_cleanup_clean html) as C.
  assert (T : tidy false (final_cleanup html) = true
              /\ includes [62; 32; 60] (final_cleanup html) = false).
  { rewrite final_cleanup_steps. split.
    - apply tidy_tighten; [lia|]. apply tidy_spaces. lia.
    - apply tighten_no_gap. lia. }
  destruct T as [T I].
  remember (final_cleanup html) as r eqn:R. clear R.
  rewrite (final_cleanup_steps r), (trim_fixed C).
  rewrite (spaces_tidy _ r false T). apply (tighten_tidy _ r false T I).
Qed.

End StableFacts.

(** ** A plain answer through the renderer *)

Module PlainFacts.

Import Template TrimFacts RegexFacts EngineFacts NormalizeFacts StableFacts.

(** *** Paragraph breaks and line breaks *)

Definition is_nl (c : Z) : bool := c =? nl.

Fixpoint drop_nl (s : jsstring) : jsstring :=
  match s with
  | c :: t => if c =? nl then drop_nl t else s
  | [] => []
  end.

Lemma after_run_drop_nl : forall s prev, snd (after_run (Z.eqb nl) prev s) = drop_nl s.
Proof.
  induction s as [|c t IH]; intro prev; [reflexivity|].
  cbn [after_run drop_nl]. rewrite nl_eqb. destruct (c =? nl); [apply IH | reflexivity].
Qed.

Lemma drop_nl_length s : (length (drop_nl s) <= length s)%nat.
Proof.
  induction s as [|c t IH]; [reflexivity|].
  cbn [drop_nl]. destruct (c =? nl); cbn [length]; lia.
Qed.

Lemma exec_paragraph_break prev s :
  exec re_paragraph_break prev s
  = match s with
    | c :: d :: t =>
        if (c =? nl) && (d =? nl)
        then Some (firstn (length s - length (drop_nl t)) s, [], drop_nl t)
        else None
    | _ => None
    end.
Proof.
  unfold exec.
  change (rmatch re_paragraph_break (MState prev s []) (fun st => Some st))
    with (step_char (Z.eqb nl) (MState prev s [])
            (fun st1 => step_char (Z.eqb nl) st1
               (fun st2 => rmatch (Star (Class (Z.eqb nl))) st2 (fun st => Some st)))).
  unfold step_char. cbn [rest caps].
  destruct s as [|c t]; [reflexivity|].
  rewrite nl_eqb. destruct (c =? nl); [|destruct t; reflexivity].
  destruct t as [|d t]; [reflexivity|].
  rewrite nl_eqb. destruct (d =? nl); [|reflexivity].
  cbn [andb]. rewrite rmatch_star_class, greedy_run_accept. cbn [rest caps].
  rewrite after_run_drop_nl. reflexivity.
Qed.

(** The paragraph stage: two line feeds or more become the end of a
    paragraph and the start of the next. *)
Fixpoint paragraphs (fuel : nat) (s : jsstring) : jsstring :=
  match fuel with
  | O => s
  | S f =>
      match s with
      | [] => []
      | c :: t =>
          match t with
          | d :: t' =>
              if (c =? nl) && (d =? nl)
              then str "</p><p>" ++ paragraphs f (drop_nl t')
              else c :: paragraphs f t
          | [] => c :: paragraphs f t
          end
      end
  end.

Lemma replace_paragraph_breaks : forall f prev s,
  flat_map (render (template 0 (str "</p><p>"))) (scan re_paragraph_break f prev s)
  = paragraphs f s.
Proof.
  induction f as [|f IH]; intros prev s; [apply render_keep|].
  cbn [scan paragraphs]. rewrite exec_paragraph_break.
  destruct s as [|c t]; [reflexivity|].
  destruct t as [|d t'].
  - cbn [flat_map render app]. rewrite IH. reflexivity.
  - destruct ((c =? nl) && (d =? nl)).
    + pose proof (drop_nl_length t') as L.
      replace (length (c :: d :: t') - length (drop_nl t'))%nat
        with (S (S (length t' - length (drop_nl t')))) by (cbn [length]; lia).
      cbn [firstn flat_map render]. rewrite IH. reflexivity.
    + cbn [flat_map render app]. rewrite IH. reflexivity.
Qed.

Definition br (c : Z) : jsstring := if nl =? c then str "<br>" else [c].

(** The two stages one after the other, as [markdown_elements] has them. *)
Definition line_breaks (s : jsstring) : jsstring :=
  replace_all (Char nl) (template 0 (str "<br>"))
    (replace_all re_paragraph_break (template 0 (str "</p><p>")) s).

Lemma line_breaks_steps s :
  line_breaks s = flat_map br (paragraphs (S (length s)) s).
Proof.
  unfold line_breaks. rewrite replace_all_char. unfold replace_all.
  rewrite replace_paragraph_breaks. reflexivity.
Qed.

(** *** What the two stages leave *)

(** The characters an answer must not hold for the lemmas below: an opening
    angle bracket, and the line terminators other than the line feed. *)
Definition hard (c : Z) : bool :=
  (c =? 60) || (c =? 13) || (c =? 8232) || (c =? 8233).

Definition breaks (f : nat) (s : jsstring) : jsstring := flat_map br (paragraphs f s).

Lemma breaks_cons f c t :
  breaks (S f) (c :: t)
  = match t with
    | d :: t' =>
        if (c =? nl) && (d =? nl)
        then str "</p><p>" ++ breaks f (drop_nl t')
        else br c ++ breaks f t
    | [] => br c ++ breaks f t
    end.
Proof.
  unfold breaks. cbn [paragraphs]. destruct t as [|d t']; [reflexivity|].
  destruct ((c =? nl) && (d =? nl)); [|reflexivity].
  rewrite flat_map_app. reflexivity.
Qed.

Lemma breaks_nil f : breaks f [] = [].
Proof. destruct f; reflexivity. Qed.

Lemma hard_not_lt c : hard c = false -> (c =? nl) = false -> is_lt c = false.
Proof.
  unfold hard, is_lt. intros H N.
  apply orb_false_iff in H. destruct H as [H H3].
  apply orb_false_iff in H. destruct H as [H H2].
  apply orb_false_iff in H. destruct H as [_ H1].
  change 10 with nl. rewrite N, H1, H2, H3. reflexivity.
Qed.

Lemma lacks_br c : hard c = false -> lacks is_lt (br c) = true.
Proof.
  intro H. unfold br. rewrite nl_eqb. destruct (c =? nl) eqn:N; [reflexivity|].
  unfold lacks. cbn [forallb]. rewrite (hard_not_lt c H N). reflexivity.
Qed.

Lemma lacks_drop_nl P : forall s, lacks P s = true -> lacks P (drop_nl s) = true.
Proof.
  induction s as [|c t IH]; intro L; [reflexivity|].
  cbn [drop_nl]. destruct (c =? nl); [|exact L].
  apply IH. rewrite lacks_cons in L. apply andb_true_iff in L. apply L.
Qed.

(** No line terminator is left. *)
Lemma breaks_one_line : forall f s,
  lacks hard s = true -> lacks is_lt (breaks f s) = true.
Proof.
  induction f as [|f IH]; intros s L.
  - unfold breaks. cbn [paragraphs].
    induction s as [|c t IHs]; [reflexivity|].
    rewrite lacks_cons in L. apply andb_true_iff in L. destruct L as [L1 L2].
    apply negb_true_iff in L1.
    cbn [flat_map]. rewrite lacks_app, (lacks_br c L1), (IHs L2). reflexivity.
  - destruct s as [|c t]; [reflexivity|].
    rewrite lacks_cons in L. apply andb_true_iff in L. destruct L as [L1 L2].
    apply negb_true_iff in L1.
    rewrite breaks_cons. destruct t as [|d t'].
    + rewrite breaks_nil, app_nil_r. apply lacks_br. exact L1.
    + destruct ((c =? nl) && (d =? nl)).
      * rewrite lacks_app. rewrite IH; [reflexivity|].
        apply lacks_drop_nl. rewrite lacks_cons in L2.
        apply andb_true_iff in L2. apply L2.
      * rewrite lacks_app, (lacks_br c L1), (IH _ L2). reflexivity.
Qed.

(** A text that does not start with a line feed keeps its first
    character. *)
Lemma breaks_head f x r :
  (x =? nl) = false -> exists tail, breaks f (x :: r) = x :: tail.
Proof.
  intro N. destruct f as [|f].
  - unfold breaks. cbn [paragraphs flat_map]. unfold br. rewrite nl_eqb, N.
    eexists. reflexivity.
  - rewrite breaks_cons. unfold br. rewrite nl_eqb, N. cbn [andb].
    destruct r; eexists; reflexivity.
Qed.

Definition p_open : jsstring := str "<p><".

Lemma miss_char x rest :
  (x =? 60) = false -> includes p_open (x :: rest) = includes p_open rest.
Proof.
  intro N. rewrite includes_cons2. unfold p_open at 1.
  change (str "<p><") with [60; 112; 62; 60].
  rewrite startsWith_cons, Z.eqb_sym, N. reflexivity.
Qed.

Lemma miss_tag y rest :
  (y =? 112) = false -> includes p_open (60 :: y :: rest) = includes p_open (y :: rest).
Proof.
  intro N. rewrite includes_cons2. unfold p_open at 1.
  change (str "<p><") with [60; 112; 62; 60].
  rewrite !startsWith_cons, (Z.eqb_sym 112 y), N. reflexivity.
Qed.

Lemma miss_paragraph x rest :
  (x =? 60) = false ->
  includes p_open (str "<p>" ++ x :: rest) = includes p_open rest.
Proof.
  intro N. change (str "<p>" ++ x :: rest) with (60 :: 112 :: 62 :: x :: rest).
  rewrite includes_cons2. unfold p_open at 1.
  change (str "<p><") with [60; 112; 62; 60].
  rewrite !startsWith_cons, (Z.eqb_sym 60 x), N.
  cbn [Z.eqb Pos.eqb andb orb].
  rewrite (@miss_char 112), (@miss_char 62), (@miss_char x); auto.
Qed.

Lemma drop_nl_last : forall t,
  (last t 0 =? nl) = false -> t <> [] ->
  drop_nl t <> [] /\ last (drop_nl t) 0 = last t 0
  /\ (hd 0 (drop_nl t) =? nl) = false.
Proof.
  induction t as [|c t IH]; intros L N; [contradiction N; reflexivity|].
  cbn [drop_nl]. destruct (c =? nl) eqn:C.
  - destruct t as [|d t'].
    + cbn [last] in L. congruence.
    + assert (Nt : d :: t' <> []) by discriminate.
      rewrite (@last_cons c _ Nt) in *. apply IH; assumption.
  - split; [discriminate|]. split; [reflexivity | exact C].
Qed.

(** No paragraph opens on a tag, up to the closing tag that follows. *)
Lemma breaks_quiet : forall f s,
  (length s <= f)%nat -> lacks hard s = true ->
  s = [] \/ (last s 0 =? nl) = false ->
  includes p_open (breaks f s ++ str "</p>") = false.
Proof.
  induction f as [|f IH]; intros s Lf L E.
  - destruct s; [reflexivity | cbn [length] in Lf; lia].
  - destruct s as [|c t]; [reflexivity|].
    destruct E as [E|E]; [discriminate|].
    cbn [length] in Lf.
    rewrite lacks_cons in L. apply andb_true_iff in L. destruct L as [L1 L2].
    apply negb_true_iff in L1.
    assert (C6 : (c =? 60) = false).
    { unfold hard in L1. apply orb_false_iff in L1. destruct L1 as [L1 _].
      apply orb_false_iff in L1. destruct L1 as [L1 _].
      apply orb_false_iff in L1. apply L1. }
    rewrite breaks_cons. destruct t as [|d t'].
    + rewrite breaks_nil, app_nil_r. unfold br. rewrite nl_eqb.
      cbn [last] in E. rewrite E. cbn [app]. rewrite miss_char by exact C6.
      reflexivity.
    + assert (Nt : d :: t' <> []) by discriminate.
      rewrite (@last_cons c _ Nt) in E.
      destruct ((c =? nl) && (d =? nl)) eqn:M.
      * apply andb_true_iff in M. destruct M as [_ M2].
        assert (Nt' : t' <> []).
        { intros ->. cbn [last] in E. congruence. }
        rewrite (@last_cons d _ Nt') in E.
        destruct (@drop_nl_last t' E Nt') as [D1 [D2 D3]].
        pose proof (drop_nl_length t') as Ld.
        assert (Lh : lacks hard (drop_nl t') = true).
        { apply lacks_drop_nl. rewrite lacks_cons in L2.
          apply andb_true_iff in L2. apply L2. }
        destruct (drop_nl t') as [|x r] eqn:Dx; [congruence|].
        cbn [hd] in D3.
        destruct (@breaks_head f x r D3) as [tail Bh].
        pose proof (IH (x :: r)) as I. rewrite Bh in I.
        rewrite Bh.
        change ((str "</p><p>" ++ x :: tail) ++ str "</p>")
          with (60 :: 47 :: 112 :: 62 :: str "<p>" ++ x :: (tail ++ str "</p>")).
        rewrite miss_tag by reflexivity.
        rewrite (@miss_char 47), (@miss_char 112), (@miss_char 62) by reflexivity.
        assert (X6 : (x =? 60) = false).
        { rewrite lacks_cons in Lh. apply andb_true_iff in Lh. destruct Lh as [Lh _].
          apply negb_true_iff in Lh. unfold hard in Lh.
          apply orb_false_iff in Lh. destruct Lh as [Lh _].
          apply orb_false_iff in Lh. destruct Lh as [Lh _].
          apply orb_false_iff in Lh. apply Lh. }
        rewrite miss_paragraph by exact X6.
        rewrite <- (@miss_char x _ X6).
        apply I; [cbn [length] in *; lia | exact Lh|].
        right. rewrite D2. exact E.
      * unfold br. rewrite nl_eqb. destruct (c =? nl).
        -- change ((str "<br>" ++ breaks f (d :: t')) ++ str "</p>")
             with (60 :: 98 :: 114 :: 62 :: (breaks f (d :: t') ++ str "</p>")).
           rewrite miss_tag by reflexivity.
           rewrite (@miss_char 98), (@miss_char 114), (@miss_char 62) by reflexivity.
           apply IH; [cbn [length] in *; lia | exact L2 | right; exact E].
        -- cbn [app]. rewrite miss_char by exact C6.
           apply IH; [cbn [length] in *; lia | exact L2 | right; exact E].
Qed.

(** *** The stages that leave a plain text alone *)

Definition is_tick (c : Z) : bool := c =? 96.
Definition is_hash (c : Z) : bool := c =? 35.
Definition is_star (c : Z) : bool := c =? 42.
Definition is_bracket (c : Z) : bool := c =? 91.

Lemma render_blocks_keep random n : forall s,
  render_blocks random n (map Keep s) = Some s.
Proof.
  induction s as [|c s IH]; [reflexivity|].
  cbn [map render_blocks]. rewrite IH. reflexivity.
Qed.

Lemma fences_plain random s : lacks is_tick s = true -> fences random s = Some s.
Proof.
  intro L. unfold fences. rewrite (@scan_starved is_tick re_fence).
  - apply render_blocks_keep.
  - cbn. auto.
  - exact L.
Qed.

Lemma inline_code_plain s : lacks is_tick s = true -> inline_code s = s.
Proof.
  intro L. unfold inline_code. apply (@replace_all_starved is_tick); [|exact L].
  cbn. auto.
Qed.

Lemma header_plain marks (f : replacer) s :
  marks <> ""%string -> lacks is_hash s = true ->
  forallb is_hash (str marks) = true ->
  replace_all (re_header marks) f s = s.
Proof.
  intros N L H. apply (@replace_all_starved is_hash); [|exact L].
  unfold re_header. cbn [SeqL feeds]. right. left.
  destruct marks as [|a marks]; [congruence|].
  destruct marks as [|b marks].
  - cbn in H |- *. rewrite andb_true_r in H. exact H.
  - change (str (String a (String b marks)))
      with (Z.of_N (N_of_ascii a) :: str (String b marks)) in *.
    cbn [forallb] in H. apply andb_true_iff in H. destruct H as [H _].
    change (Lit (Z.of_N (N_of_ascii a) :: str (String b marks)))
      with (Seq (Char (Z.of_N (N_of_ascii a))) (Lit (str (String b marks)))).
    cbn [feeds]. left. exact H.
Qed.

Lemma bold_plain (f : replacer) s : lacks is_star s = true -> replace_all re_bold f s = s.
Proof.
  intro L. apply (@replace_all_starved is_star); [|exact L].
  cbn. auto.
Qed.

Lemma italic_plain (f : replacer) s :
  lacks is_star s = true -> replace_all re_italic f s = s.
Proof.
  intro L. apply (@replace_all_starved is_star); [|exact L].
  cbn. auto.
Qed.

Lemma link_plain (f : replacer) s :
  lacks is_bracket s = true -> replace_all re_link f s = s.
Proof.
  intro L. apply (@replace_all_starved is_bracket); [|exact L].
  cbn. auto.
Qed.

(** *** The first stage on a title line and an answer *)

Lemma calm_pass : forall u s, lacks is_nl u = true -> calm (u ++ s) = calm s.
Proof.
  induction u as [|c u IH]; intros s L; [reflexivity|].
  rewrite lacks_cons in L. apply andb_true_iff in L. destruct L as [L1 L2].
  apply negb_true_iff in L1. unfold is_nl in L1.
  cbn [app calm]. rewrite L1. cbn [andb negb]. apply IH. exact L2.
Qed.

Lemma normalize_under_title (head a : jsstring) :
  lacks is_nl head = true -> head <> [] -> is_ws (hd 0 head) = false ->
  a <> [] -> is_ws (hd 0 a) = false -> is_ws (last a 0) = false ->
  normalize (head ++ [nl; nl] ++ a) = head ++ [nl; nl] ++ normalize a.
Proof.
  intros Lh Nh Hh Na Ha La.
  destruct a as [|x r]; [congruence|]. cbn [hd] in Ha.
  destruct head as [|h0 head]; [congruence|]. cbn [hd] in Hh.
  assert (T1 : trim ((h0 :: head) ++ [nl; nl] ++ x :: r) = (h0 :: head) ++ [nl; nl] ++ x :: r).
  { apply trim_fixed. right. split; [exact Hh|].
    rewrite app_assoc. rewrite last_app_nonempty by discriminate. exact La. }
  assert (T2 : trim (x :: r) = x :: r).
  { apply trim_fixed. right. split; [exact Ha | exact La]. }
  rewrite !normalize_squeeze, T1, T2.
  set (P := (h0 :: head) ++ [nl; nl]).
  replace ((h0 :: head) ++ [nl; nl] ++ x :: r) with (P ++ x :: r)
    by (unfold P; rewrite <- app_assoc; reflexivity).
  assert (G1 : (length (P ++ x :: r) <= S (length (P ++ x :: r)))%nat) by lia.
  assert (G2 : (length ([] ++ x :: r) <= S (length (x :: r)))%nat) by (cbn [app]; lia).
  assert (G3 : (length r <= S (length (P ++ x :: r)))%nat)
    by (rewrite length_app; cbn [length]; lia).
  assert (G4 : (length r <= S (length (x :: r)))%nat) by (cbn [length]; lia).
  remember (S (length (P ++ x :: r))) as F1 eqn:E1. clear E1.
  remember (S (length (x :: r))) as F2 eqn:E2. clear E2.
  rewrite (@squeeze_app F1 P x r Ha G1).
  change (squeeze F2 (x :: r)) with (squeeze F2 ([] ++ x :: r)).
  rewrite (@squeeze_app F2 [] x r Ha G2).
  rewrite (@squeeze_calm F1 (P ++ [x])).
  2:{ unfold P. rewrite <- app_assoc. rewrite calm_pass by exact Lh.
      cbn [app calm nl_count]. rewrite Ha. change (is_ws nl) with true.
      change (nl =? nl) with true. cbn [Nat.add Nat.leb andb negb].
      rewrite andb_false_r. reflexivity. }
  rewrite (@squeeze_calm F2 ([] ++ [x])).
  2:{ cbn [app calm nl_count]. rewrite andb_false_r. reflexivity. }
  rewrite (@squeeze_fuel F1 F2 r G3 G4).
  unfold P. rewrite <- !app_assoc. reflexivity.
Qed.

End PlainFacts.

(** ** A question and a plain answer through the renderer *)

Module AnswerFacts.

Import Template TrimFacts RegexFacts EngineFacts NormalizeFacts StableFacts PlainFacts.

Lemma template_h1 m x :
  template 1 (str "<h1>$1</h1>") m [(1%nat, x)] = str "<h1>" ++ x ++ str "</h1>".
Proof. reflexivity. Qed.

Lemma re_header_seq :
  re_header "#"
  = Seq (LineStart true)
      (Seq (Lit (str "#")) (Seq (Char 32) (Group 1 (Seq (Star Dot) (LineEnd true))))).
Proof. reflexivity. Qed.

Lemma exec_header title Y :
  lacks is_lt title = true ->
  exec (re_header "#") None ((str "# " ++ title) ++ nl :: Y)
  = Some (str "# " ++ title, [(1%nat, title)], nl :: Y).
Proof.
  intro L. eapply exec_found.
  rewrite re_header_seq, rmatch_seq, rmatch_line_start, rmatch_seq, rmatch_lit.
  cbn [rest before caps]. rewrite <- app_assoc.
  change (strip_prefix (str "#") (str "# " ++ title ++ nl :: Y))
    with (Some (32 :: title ++ nl :: Y)).
  cbv beta iota. rewrite rmatch_seq, rmatch_char. change (32 =? 32) with true. cbv iota.
  rewrite rmatch_group, rmatch_seq. unfold Dot. rewrite rmatch_star_class.
  match goal with
  | |- greedy_run ?p _ _ _ ?k = _ => rewrite (@greedy_run_longest p k)
  end.
  2:{ intros p c t cs Dc. rewrite rmatch_line_end_at.
      apply negb_true_iff in Dc. rewrite Dc. reflexivity. }
  rewrite after_run_stretch; [|exact L|reflexivity].
  cbn [fst snd rest before caps]. rewrite rmatch_line_end_at.
  change (true && is_lt nl) with true. cbv iota. cbn [rest before caps].
  taken title. reflexivity.
Qed.

Lemma header_stage title Y :
  lacks is_lt title = true -> lacks is_hash Y = true ->
  replace_all (re_header "#") (template 1 (str "<h1>$1</h1>"))
    (str "# " ++ title ++ nl :: Y)
  = str "<h1>" ++ title ++ str "</h1>" ++ nl :: Y.
Proof.
  intros L H. rewrite app_assoc. unfold replace_all.
  rewrite (@scan_hit _ _ _ _ _ _ _ (@exec_header title Y L)) by discriminate.
  rewrite (@scan_starved is_hash (re_header "#")).
  - cbn [flat_map render]. rewrite template_h1, render_keep, <- !app_assoc. reflexivity.
  - cbn. auto.
  - rewrite lacks_cons, H. reflexivity.
Qed.

Lemma paragraphs_fuel : forall f1 f2 s,
  (length s <= f1)%nat -> (length s <= f2)%nat -> paragraphs f1 s = paragraphs f2 s.
Proof.
  induction f1 as [|f1 IH]; intros f2 s L1 L2.
  - destruct s; [destruct f2; reflexivity | cbn [length] in L1; lia].
  - destruct s as [|c t]; [destruct f2; reflexivity|].
    destruct f2 as [|f2]; [cbn [length] in L2; lia|].
    cbn [length] in *. cbn [paragraphs].
    destruct t as [|d t'].
    + rewrite (IH f2 []); [reflexivity | cbn; lia | cbn; lia].
    + pose proof (drop_nl_length t') as Ld. cbn [length] in *.
      destruct ((c =? nl) && (d =? nl)).
      * rewrite (IH f2 (drop_nl t')); [reflexivity | lia | lia].
      * rewrite (IH f2 (d :: t')); [reflexivity | cbn [length]; lia | cbn [length]; lia].
Qed.

Lemma breaks_pass : forall u f s,
  lacks is_nl u = true -> breaks (length u + f) (u ++ s) = u ++ breaks f s.
Proof.
  induction u as [|c u IH]; intros f s L; [reflexivity|].
  rewrite lacks_cons in L. apply andb_true_iff in L. destruct L as [L1 L2].
  apply negb_true_iff in L1. unfold is_nl in L1.
  cbn [length Nat.add app]. rewrite breaks_cons. unfold br. rewrite nl_eqb, L1.
  cbn [andb]. rewrite (IH f s L2).
  destruct (u ++ s); reflexivity.
Qed.

Lemma line_breaks_after (head : jsstring) x r :
  lacks is_nl head = true -> (x =? nl) = false ->
  line_breaks (head ++ nl :: nl :: x :: r)
  = head ++ str "</p><p>" ++ line_breaks (x :: r).
Proof.
  intros L N. rewrite !line_breaks_steps. fold (breaks (S (length (head ++ nl :: nl :: x :: r))) (head ++ nl :: nl :: x :: r)).
  fold (breaks (S (length (x :: r))) (x :: r)).
  unfold breaks at 1.
  rewrite (@paragraphs_fuel _ (length head + S (S (length (x :: r)))) (head ++ nl :: nl :: x :: r)).
  2:{ lia. }
  2:{ rewrite length_app. cbn [length]. lia. }
  fold (breaks (length head + S (S (length (x :: r)))) (head ++ nl :: nl :: x :: r)).
  rewrite (@breaks_pass head _ _ L). rewrite breaks_cons.
  change (nl =? nl) with true. cbn [andb drop_nl]. rewrite N. reflexivity.
Qed.

Lemma re_whole_seq :
  re_whole = Seq (LineStart false) (Seq (Group 1 (Star Dot)) (LineEnd false)).
Proof. reflexivity. Qed.

Lemma exec_whole W :
  lacks is_lt W = true -> exec re_whole None (W ++ []) = Some (W, [(1%nat, W)], []).
Proof.
  intro L. eapply exec_found.
  rewrite re_whole_seq, rmatch_seq, rmatch_line_start, rmatch_seq, rmatch_group.
  unfold Dot. rewrite rmatch_star_class.
  match goal with
  | |- greedy_run ?p _ _ _ ?k = _ => rewrite (@greedy_run_longest p k)
  end.
  2:{ intros p c t cs Dc. cbn [rest before caps]. rewrite rmatch_line_end_at. reflexivity. }
  rewrite after_run_stretch; [|exact L|exact I].
  cbn [fst snd rest before caps]. rewrite rmatch_line_end.
  taken W. reflexivity.
Qed.

Lemma scan_first_eq r prev s :
  scan_first r prev s
  = match exec r prev s with
    | Some (m, cs, s') => Hit m cs :: map Keep s'
    | None =>
        match s with
        | [] => []
        | c :: t => Keep c :: scan_first r (Some c) t
        end
    end.
Proof. destruct s; reflexivity. Qed.

Lemma whole_stage W :
  lacks is_lt W = true ->
  replace_first re_whole (template 1 (str "<p>$1</p>")) W = str "<p>" ++ W ++ str "</p>".
Proof.
  intro L. unfold replace_first. rewrite scan_first_eq.
  rewrite <- (app_nil_r W) at 1. rewrite (@exec_whole W L).
  cbn [map flat_map render]. rewrite app_nil_r. reflexivity.
Qed.

(** *** The three stages that look for a paragraph opening on a tag *)

Lemma includes_eq p s :
  includes p s = startsWith p s || match s with [] => false | _ :: s' => includes p s' end.
Proof. destruct s; reflexivity. Qed.

Lemma includes_suffix w : forall u1 u2,
  includes w (u1 ++ u2) = false -> startsWith w u2 = false.
Proof.
  induction u1 as [|c u1 IH]; intros u2 I.
  - cbn [app] in I. rewrite includes_eq in I. apply orb_false_iff in I. apply I.
  - cbn [app] in I. rewrite includes_cons2 in I. apply orb_false_iff in I.
    apply IH. apply I.
Qed.

Lemma scan_quiet r :
  (forall prev s, startsWith p_open s = false -> exec r prev s = None) ->
  forall f prev s, includes p_open s = false -> scan r f prev s = map Keep s.
Proof.
  intros H f prev s I. apply scan_keep.
  intros u1 u2 E. apply H. apply (@includes_suffix p_open u1 u2). rewrite <- E. exact I.
Qed.

Lemma strip_prefix_longer w2 : forall w1 s,
  startsWith w1 s = false -> strip_prefix (w1 ++ w2) s = None.
Proof.
  induction w1 as [|c w1 IH]; intros s S; [discriminate|].
  destruct s as [|y s]; [reflexivity|].
  rewrite startsWith_cons in S. cbn [app strip_prefix].
  destruct (c =? y); [|reflexivity]. apply IH. exact S.
Qed.

Lemma exec_empty_paragraph_miss prev s :
  startsWith p_open s = false -> exec re_empty_paragraph prev s = None.
Proof.
  intro S. apply exec_refused. unfold re_empty_paragraph. rewrite rmatch_lit.
  cbn [rest]. change (str "<p></p>") with (p_open ++ str "/p>").
  rewrite (strip_prefix_longer _ _ _ S). reflexivity.
Qed.

Lemma after_paragraph_tag s s' :
  strip_prefix (str "<p>") s = Some s' -> startsWith p_open s = false ->
  startsWith [60] s' = false.
Proof.
  intros E S. apply strip_prefix_some in E. subst s.
  change (str "<p>" ++ s') with (60 :: 112 :: 62 :: s') in S.
  unfold p_open in S. change (str "<p><") with [60; 112; 62; 60] in S.
  rewrite !startsWith_cons in S. exact S.
Qed.

Lemma re_header_in_paragraph_seq :
  re_header_in_paragraph
  = Seq (Lit (str "<p>"))
      (Seq (Group 1
              (Seq (Lit (str "<h"))
                 (Seq (Class is_1_6)
                    (Seq (Char 62)
                       (Seq (LazyStar Dot)
                          (Seq (Lit (str "</h")) (Seq (Class is_1_6) (Char 62))))))))
           (Lit (str "</p>"))).
Proof. reflexivity. Qed.

Lemma re_div_in_paragraph_seq :
  re_div_in_paragraph
  = Seq (Lit (str "<p>"))
      (Seq (Group 1 (Seq (Lit (str "<div")) (Seq (LazyStar Dot) (Lit (str "</div>")))))
           (Lit (str "</p>"))).
Proof. reflexivity. Qed.

Lemma exec_header_in_paragraph_miss prev s :
  startsWith p_open s = false -> exec re_header_in_paragraph prev s = None.
Proof.
  intro S. apply exec_refused.
  rewrite re_header_in_paragraph_seq, rmatch_seq, rmatch_lit. cbn [rest before caps].
  destruct (strip_prefix (str "<p>") s) as [s'|] eqn:E; [|reflexivity].
  rewrite rmatch_seq, rmatch_group, rmatch_seq, rmatch_lit. cbn [rest].
  change (str "<h") with ([60] ++ [104]).
  rewrite (strip_prefix_longer _ _ _ (after_paragraph_tag _ E S)). reflexivity.
Qed.

Lemma exec_div_in_paragraph_miss prev s :
  startsWith p_open s = false -> exec re_div_in_paragraph prev s = None.
Proof.
  intro S. apply exec_refused.
  rewrite re_div_in_paragraph_seq, rmatch_seq, rmatch_lit. cbn [rest before caps].
  destruct (strip_prefix (str "<p>") s) as [s'|] eqn:E; [|reflexivity].
  rewrite rmatch_seq, rmatch_group, rmatch_seq, rmatch_lit. cbn [rest].
  change (str "<div") with ([60] ++ str "div").
  rewrite (strip_prefix_longer _ _ _ (after_paragraph_tag _ E S)). reflexivity.
Qed.

Definition is_open (c : Z) : bool := c =? 60.

Lemma miss_text : forall u s,
  lacks is_open u = true -> includes p_open (u ++ s) = includes p_open s.
Proof.
  induction u as [|c u IH]; intros s L; [reflexivity|].
  rewrite lacks_cons in L. apply andb_true_iff in L. destruct L as [L1 L2].
  apply negb_true_iff in L1. cbn [app]. rewrite miss_char by exact L1.
  apply IH. exact L2.
Qed.

(** The heading, the paragraph of the answer, and the text before the last
    stages. *)
Definition heading (title : jsstring) : jsstring := str "<h1>" ++ title ++ str "</h1>".
Definition paragraph (body : jsstring) : jsstring := str "<p>" ++ body ++ str "</p>".

Lemma quiet_paragraph x tail :
  (x =? 60) = false -> includes p_open ((x :: tail) ++ str "</p>") = false ->
  includes p_open (paragraph (x :: tail)) = false.
Proof.
  intros N I. unfold paragraph. cbn [app] in *.
  rewrite miss_char in I by exact N.
  change (str "<p>" ++ x :: tail ++ str "</p>") with (str "<p>" ++ x :: (tail ++ str "</p>")).
  rewrite miss_paragraph by exact N. exact I.
Qed.

Lemma quiet_heading title rest :
  lacks is_open title = true -> includes p_open rest = false ->
  includes p_open (heading title ++ rest) = false.
Proof.
  intros L I. unfold heading. rewrite <- !app_assoc.
  change (str "<h1>" ++ title ++ str "</h1>" ++ rest)
    with (60 :: 104 :: 49 :: 62 :: (title ++ 60 :: 47 :: 104 :: 49 :: 62 :: rest)).
  rewrite miss_tag by reflexivity.
  rewrite (@miss_char 104), (@miss_char 49), (@miss_char 62) by reflexivity.
  rewrite miss_text by exact L.
  rewrite miss_tag by reflexivity.
  rewrite (@miss_char 47), (@miss_char 104), (@miss_char 49), (@miss_char 62) by reflexivity.
  exact I.
Qed.

Lemma quiet_wrapped title rest :
  lacks is_open title = true -> includes p_open rest = false ->
  includes p_open (str "p>" ++ heading title ++ str "</p>" ++ rest) = false.
Proof.
  intros L I.
  change (str "p>" ++ heading title ++ str "</p>" ++ rest)
    with (112 :: 62 :: (heading title ++ 60 :: 47 :: 112 :: 62 :: rest)).
  rewrite (@miss_char 112), (@miss_char 62) by reflexivity.
  apply quiet_heading; [exact L|].
  rewrite miss_tag by reflexivity.
  rewrite (@miss_char 47), (@miss_char 112), (@miss_char 62) by reflexivity.
  exact I.
Qed.

Lemma empty_paragraph_stage (f : replacer) title rest :
  lacks is_open title = true -> includes p_open rest = false ->
  replace_all re_empty_paragraph f (paragraph (heading title) ++ rest)
  = paragraph (heading title) ++ rest.
Proof.
  intros L I. unfold replace_all.
  set (T := paragraph (heading title) ++ rest).
  assert (E : T = 60 :: (str "p>" ++ heading title ++ str "</p>" ++ rest)).
  { unfold T, paragraph. rewrite <- !app_assoc. reflexivity. }
  rewrite E. cbn [scan].
  assert (X : forall prev, exec re_empty_paragraph prev
                 (60 :: str "p>" ++ heading title ++ str "</p>" ++ rest) = None).
  { intro prev. apply exec_refused. unfold re_empty_paragraph. rewrite rmatch_lit.
    reflexivity. }
  rewrite X. rewrite (@scan_quiet _ exec_empty_paragraph_miss).
  - cbn [flat_map render app]. rewrite render_keep. reflexivity.
  - apply quiet_wrapped; assumption.
Qed.

Ltac taken_up m :=
  match goal with
  | |- context [firstn (length ?A - length ?B) ?A] =>
      replace (firstn (length A - length B) A) with m
        by (replace A with (m ++ B)
              by (repeat (cbn [app]; rewrite <- app_assoc); reflexivity);
            symmetry; apply firstn_taken)
  end.

Lemma exec_header_in_paragraph prev title after :
  lacks is_lt title = true -> lacks is_open title = true ->
  exec re_header_in_paragraph prev (paragraph (heading title) ++ after)
  = Some (paragraph (heading title), [(1%nat, heading title)], after).
Proof.
  intros L O. eapply exec_found.
  rewrite re_header_in_paragraph_seq, rmatch_seq, rmatch_lit. cbn [rest before caps].
  unfold paragraph. rewrite <- !app_assoc. rewrite strip_prefix_app.
  rewrite rmatch_seq, rmatch_group, rmatch_seq, rmatch_lit. cbn [rest before caps].
  unfold heading. rewrite <- !app_assoc.
  change (str "<h1>" ++ title ++ str "</h1>" ++ str "</p>" ++ after)
    with (str "<h" ++ 49 :: 62 :: title ++ str "</h1>" ++ str "</p>" ++ after).
  rewrite strip_prefix_app.
  rewrite rmatch_seq, rmatch_class. change (is_1_6 49) with true. cbv iota.
  rewrite rmatch_seq, rmatch_char. change (62 =? 62) with true. cbv iota.
  rewrite rmatch_seq. unfold Dot. rewrite rmatch_lazy_class.
  rewrite lazy_run_until.
  - apply lazy_run_stop. rewrite rmatch_seq, rmatch_lit. cbn [rest before caps].
    change (str "</h1>" ++ str "</p>" ++ after)
      with (str "</h" ++ 49 :: 62 :: str "</p>" ++ after).
    rewrite strip_prefix_app.
    rewrite rmatch_seq, rmatch_class. change (is_1_6 49) with true. cbv iota.
    rewrite rmatch_char. change (62 =? 62) with true. cbv iota.
    cbn [rest before caps].
    taken_up (str "<h" ++ 49 :: 62 :: title ++ str "</h" ++ [49; 62]).
    rewrite rmatch_lit. cbn [rest before caps]. rewrite strip_prefix_app.
    reflexivity.
  - exact L.
  - intros u1 c u2 E. subst title. apply lacks_middle in O. unfold is_open in O.
    rewrite rmatch_seq, rmatch_lit. cbn [rest]. change (str "</h") with [60; 47; 104].
    cbn [strip_prefix]. rewrite Z.eqb_sym, O. reflexivity.
Qed.

Lemma template_group m x : template 1 (str "$1") m [(1%nat, x)] = x.
Proof. cbn. apply app_nil_r. Qed.

Lemma header_in_paragraph_stage title after :
  lacks is_lt title = true -> lacks is_open title = true ->
  includes p_open after = false ->
  replace_all re_header_in_paragraph (template 1 (str "$1"))
    (paragraph (heading title) ++ after)
  = heading title ++ after.
Proof.
  intros L O I. unfold replace_all.
  rewrite (@scan_hit _ _ _ _ _ _ _ (@exec_header_in_paragraph None title after L O))
    by discriminate.
  rewrite (@scan_quiet _ exec_header_in_paragraph_miss) by exact I.
  cbn [flat_map render]. rewrite template_group, render_keep. reflexivity.
Qed.

Lemma div_in_paragraph_stage (f : replacer) s :
  includes p_open s = false -> replace_all re_div_in_paragraph f s = s.
Proof.
  intro I. unfold replace_all.
  rewrite (@scan_quiet _ exec_div_in_paragraph_miss) by exact I.
  apply render_keep.
Qed.

Lemma trim_tagged body :
  trim (str "<" ++ body ++ str ">") = str "<" ++ body ++ str ">".
Proof.
  apply trim_fixed. right. split; [reflexivity|].
  change (str ">") with [62]. rewrite app_assoc. rewrite last_last. reflexivity.
Qed.

(** *** From the title line and the answer to the heading and the
    paragraphs *)

Lemma lacks_heading P title :
  lacks P (str "<h1>" ++ str "</h1>") = true -> lacks P title = true ->
  lacks P (heading title) = true.
Proof.
  intros C L. unfold heading. rewrite lacks_app in C.
  apply andb_true_iff in C. destruct C as [C1 C2].
  rewrite !lacks_app, C1, C2, L. reflexivity.
Qed.

Lemma elements_of_plain_answer title x r :
  lacks is_lt title = true -> lacks is_open title = true ->
  lacks is_hash title = true -> lacks is_star title = true ->
  lacks is_bracket title = true ->
  lacks hard (x :: r) = true -> lacks is_hash (x :: r) = true ->
  lacks is_star (x :: r) = true -> lacks is_bracket (x :: r) = true ->
  (x =? nl) = false -> (last (x :: r) 0 =? nl) = false ->
  markdown_elements (str "# " ++ title ++ [nl; nl] ++ x :: r)
  = heading title ++ paragraph (line_breaks (x :: r)).
Proof.
  intros Tl To Th Ts Tb Ah Ahash As Ab Nx Nl.
  set (a := x :: r) in *.
  assert (Tn : lacks is_nl title = true).
  { apply (@lacks_weaken is_lt is_nl title); [|exact Tl].
    unfold is_nl, is_lt. intros c E. apply Z.eqb_eq in E. subst c. reflexivity. }
  assert (An : lacks is_open a = true).
  { apply (@lacks_weaken hard is_open a); [|exact Ah].
    unfold is_open, hard. intros c E. rewrite E. reflexivity. }
  unfold markdown_elements. cbv zeta.
  change (str "# " ++ title ++ [nl; nl] ++ a) with (str "# " ++ title ++ nl :: (nl :: a)).
  rewrite header_stage; [|exact Tl | rewrite lacks_cons, Ahash; reflexivity].
  replace (str "<h1>" ++ title ++ str "</h1>" ++ nl :: nl :: a)
    with (heading title ++ nl :: nl :: a)
    by (unfold heading; rewrite <- !app_assoc; reflexivity).
  assert (Hh : lacks is_hash (heading title ++ nl :: nl :: a) = true).
  { rewrite lacks_app, (@lacks_heading is_hash title eq_refl Th), !lacks_cons, Ahash. reflexivity. }
  assert (Hs : lacks is_star (heading title ++ nl :: nl :: a) = true).
  { rewrite lacks_app, (@lacks_heading is_star title eq_refl Ts), !lacks_cons, As. reflexivity. }
  assert (Hb : lacks is_bracket (heading title ++ nl :: nl :: a) = true).
  { rewrite lacks_app, (@lacks_heading is_bracket title eq_refl Tb), !lacks_cons, Ab. reflexivity. }
  rewrite (@header_plain "##"); [|discriminate | exact Hh | reflexivity].
  rewrite (@header_plain "###"); [|discriminate | exact Hh | reflexivity].
  rewrite bold_plain by exact Hs. rewrite italic_plain by exact Hs.
  rewrite link_plain by exact Hb.
  fold (line_breaks (heading title ++ nl :: nl :: a)).
  unfold a at 1.
  rewrite line_breaks_after; [|exact (@lacks_heading is_nl title eq_refl Tn) | exact Nx].
  fold a.
  assert (B1 : lacks is_lt (line_breaks a) = true).
  { rewrite line_breaks_steps. apply breaks_one_line. exact Ah. }
  rewrite whole_stage.
  2:{ rewrite !lacks_app, (@lacks_heading is_lt title eq_refl Tl), B1. reflexivity. }
  replace (str "<p>" ++ (heading title ++ str "</p><p>" ++ line_breaks a) ++ str "</p>")
    with (paragraph (heading title) ++ paragraph (line_breaks a))
    by (unfold paragraph; rewrite <- !app_assoc; reflexivity).
  assert (Q : includes p_open (paragraph (line_breaks a)) = false).
  { pose proof (@breaks_quiet (S (length a)) a) as Q.
    fold (breaks (S (length a)) a) in Q.
    rewrite line_breaks_steps. fold (breaks (S (length a)) a).
    destruct (@breaks_head (S (length a)) x r Nx) as [tail Bh].
    fold a in Bh. rewrite Bh in *.
    apply quiet_paragraph.
    - unfold is_open in An. unfold a in An. rewrite lacks_cons in An.
      apply andb_true_iff in An. destruct An as [An _].
      apply negb_true_iff in An. exact An.
    - apply Q; [lia | exact Ah | right; exact Nl]. }
  rewrite empty_paragraph_stage by assumption.
  rewrite header_in_paragraph_stage by assumption.
  rewrite div_in_paragraph_stage by (apply quiet_heading; assumption).
  replace (heading title ++ paragraph (line_breaks a))
    with (str "<" ++ (str "h1>" ++ title ++ str "</h1>" ++ str "<p>"
                      ++ line_breaks a ++ str "</p") ++ str ">")
    by (unfold heading, paragraph; rewrite <- !app_assoc; reflexivity).
  apply trim_tagged.
Qed.

Lemma lacks_squeeze P : P nl = false ->
  forall f s, lacks P s = true -> lacks P (squeeze f s) = true.
Proof.
  intros N. induction f as [|f IH]; intros s L; [exact L|].
  destruct s as [|c t]; [reflexivity|].
  rewrite lacks_cons in L. apply andb_true_iff in L. destruct L as [L1 L2].
  rewrite squeeze_cons. destruct ((c =? nl) && (2 <=? nl_count t)%nat).
  - rewrite !lacks_cons, N. cbn [negb andb]. apply IH.
    destruct (after_last_nl_split t) as [w [E _]].
    rewrite E, lacks_app in L2. apply andb_true_iff in L2. apply L2.
  - rewrite lacks_cons, L1. cbn [andb]. apply IH. exact L2.
Qed.

(** The characters that mean something to the renderer or to the formatter:
    backtick, hash, star, opening bracket, opening angle bracket, dollar; and
    the line terminators other than the line feed. *)
Definition sign (c : Z) : bool :=
  (c =? 96) || (c =? 35) || (c =? 42) || (c =? 91) || (c =? 60) || (c =? 36)
  || (c =? 13) || (c =? 8232) || (c =? 8233).

Definition sign_or_nl (c : Z) : bool := sign c || (c =? nl).

Definition title (question : jsstring) : jsstring :=
  if endsWith (str "?") question then question else question ++ str "?".

Lemma lacks_title P question :
  P 63 = false -> lacks P question = true -> lacks P (title question) = true.
Proof.
  intros N L. unfold title. destruct (endsWith _ _); [exact L|].
  rewrite lacks_app, L. change (str "?") with [63]. rewrite lacks_cons, N. reflexivity.
Qed.

Ltac from_sign :=
  let c := fresh "c" in
  let E := fresh "E" in
  intros c E; unfold sign_or_nl, sign;
  repeat match goal with
         | H : (_ =? _) = true |- _ => rewrite H
         | H : _ || _ = true |- _ => apply orb_true_iff in H; destruct H
         end;
  rewrite ?orb_true_r; reflexivity.

Lemma sign_classes s :
  lacks sign s = true ->
  lacks is_tick s = true /\ lacks is_hash s = true /\ lacks is_star s = true
  /\ lacks is_bracket s = true /\ lacks hard s = true
  /\ lacks (fun c => c =? dollar) s = true.
Proof.
  intro L.
  repeat apply conj; apply (@lacks_weaken sign _ s); try exact L;
    unfold is_tick, is_hash, is_star, is_bracket, hard, dollar; from_sign.
Qed.

Lemma line_classes s :
  lacks sign_or_nl s = true ->
  lacks sign s = true /\ lacks is_lt s = true /\ lacks is_open s = true.
Proof.
  intro L.
  repeat apply conj; apply (@lacks_weaken sign_or_nl _ s); try exact L.
  - intros c E. unfold sign_or_nl. rewrite E. reflexivity.
  - unfold is_lt. change 10 with nl. from_sign.
  - unfold is_open. from_sign.
Qed.

(** A question on one line and an answer of plain text: the page is the
    question as a first-level heading, then the answer as paragraphs, the
    blank lines between them having become paragraph breaks and the other
    line feeds line breaks.  The question and the answer hold no character
    with a meaning for the renderer, the answer starts and ends on a
    character that is not white space. *)
Theorem plain_answer_is_heading_and_paragraphs
        (random : nat -> jsstring) (question answer : jsstring) :
  lacks sign_or_nl question = true ->
  includes (str "{answer}") question = false ->
  lacks sign answer = true ->
  answer <> [] -> is_ws (hd 0 answer) = false -> is_ws (last answer 0) = false ->
  convertMarkdownToHTML random (Formatter.formatResponse question answer)
  = Some (heading (title question) ++ paragraph (line_breaks (normalize answer)))
  /\ processResponse random question answer
     = Some (final_cleanup
               (heading (title question) ++ paragraph (line_breaks (normalize answer)))).
Proof.
  intros Q I A Na Ha La.
  assert (C : convertMarkdownToHTML random (Formatter.formatResponse question answer)
              = Some (heading (title question)
                      ++ paragraph (line_breaks (normalize answer)))).
  2:{ split; [exact C|]. unfold processResponse. rewrite C. reflexivity. }
  destruct (line_classes question Q) as [Qs [Ql Qo]].
  destruct (sign_classes question Qs) as [Qt [Qh [Qst [Qb [_ Qd]]]]].
  destruct (sign_classes answer A) as [At [Ah [Ast [Ab [Ahard Ad]]]]].
  assert (F : Formatter.formatResponse question answer
              = str "# " ++ title question ++ [nl; nl] ++ answer)
    by exact (@FormatterFacts.formatResponse_plain question answer Qd Ad I).
  rewrite F. clear F. set (T := title question).
  assert (Tl : lacks is_lt T = true) by (apply lacks_title; [reflexivity | exact Ql]).
  assert (To : lacks is_open T = true) by (apply lacks_title; [reflexivity | exact Qo]).
  assert (Tt : lacks is_tick T = true) by (apply lacks_title; [reflexivity | exact Qt]).
  assert (Th : lacks is_hash T = true) by (apply lacks_title; [reflexivity | exact Qh]).
  assert (Ts : lacks is_star T = true) by (apply lacks_title; [reflexivity | exact Qst]).
  assert (Tb : lacks is_bracket T = true) by (apply lacks_title; [reflexivity | exact Qb]).
  assert (Tn : lacks is_nl T = true).
  { apply (@lacks_weaken is_lt is_nl T); [|exact Tl].
    unfold is_nl, is_lt. intros c E. apply Z.eqb_eq in E. subst c. reflexivity. }
  unfold convertMarkdownToHTML.
  replace (str "# " ++ T ++ [nl; nl] ++ answer) with ((str "# " ++ T) ++ [nl; nl] ++ answer)
    by (rewrite <- app_assoc; reflexivity).
  rewrite normalize_under_title;
    [|rewrite lacks_app, Tn; reflexivity | discriminate | reflexivity
     | exact Na | exact Ha | exact La].
  (* the answer after the first stage *)
  assert (Tr : trim answer = answer).
  { apply trim_fixed. right. split; assumption. }
  assert (E : normalize answer = squeeze (S (length answer)) answer).
  { rewrite normalize_squeeze, Tr. reflexivity. }
  destruct (@squeeze_last (S (length answer)) answer) as [N1 L1]; [lia | exact Na | exact La|].
  assert (Cl : clean_edges (squeeze (S (length answer)) answer)).
  { apply squeeze_clean; [lia|]. right. split; assumption. }
  rewrite <- E in N1, L1, Cl.
  assert (At' : lacks is_tick (normalize answer) = true)
    by (rewrite E; apply lacks_squeeze; [reflexivity | exact At]).
  assert (Ah' : lacks is_hash (normalize answer) = true)
    by (rewrite E; apply lacks_squeeze; [reflexivity | exact Ah]).
  assert (As' : lacks is_star (normalize answer) = true)
    by (rewrite E; apply lacks_squeeze; [reflexivity | exact Ast]).
  assert (Ab' : lacks is_bracket (normalize answer) = true)
    by (rewrite E; apply lacks_squeeze; [reflexivity | exact Ab]).
  assert (Ahard' : lacks hard (normalize answer) = true)
    by (rewrite E; apply lacks_squeeze; [reflexivity | exact Ahard]).
  unfold clean_edges in Cl. clear E.
  destruct (normalize answer) as [|x r] eqn:En; [congruence|].
  destruct Cl as [Cl|[Hx Lx]]; [discriminate|]. cbn [hd] in Hx.
  assert (Nx : (x =? nl) = false).
  { apply Z.eqb_neq. intros ->. discriminate. }
  assert (Nl : (last (x :: r) 0 =? nl) = false).
  { apply Z.eqb_neq. intros El. rewrite El in Lx. discriminate. }
  rewrite fences_plain.
  2:{ rewrite !lacks_app, Tt, At'. reflexivity. }
  rewrite inline_code_plain.
  2:{ rewrite !lacks_app, Tt, At'. reflexivity. }
  rewrite <- app_assoc.
  rewrite elements_of_plain_answer by assumption.
  reflexivity.
Qed.

Definition sample_question : jsstring := str "What is a proof assistant".

Definition sample_answer : jsstring :=
  str "A program that checks proofs." ++ [nl] ++ str "It does not guess."
  ++ [nl; nl; nl; nl] ++ str "Rocq is one.".

Lemma plain_answer_is_heading_and_paragraphs_witness :
  convertMarkdownToHTML Examples.random
    (Formatter.formatResponse sample_question sample_answer)
  = Some (heading (title sample_question)
          ++ paragraph (line_breaks (normalize sample_answer)))
  /\ processResponse Examples.random sample_question sample_answer
     = Some (final_cleanup
               (heading (title sample_question)
                ++ paragraph (line_breaks (normalize sample_answer)))).
Proof.
  apply plain_answer_is_heading_and_paragraphs; try reflexivity. discriminate.
Defined.

(** The page of the sample, written out. *)
Example sample_page_text :
  heading (title sample_question) ++ paragraph (line_breaks (normalize sample_answer))
  = str "<h1>What is a proof assistant?</h1><p>A program that checks proofs.<br>"
    ++ str "It does not guess.</p><p>Rocq is one.</p>".
Proof. vm_compute. reflexivity. Qed.

End AnswerFacts.

(** ** The fence callback *)

Module FenceFacts.

Import Template TrimFacts RegexFacts EngineFacts NormalizeFacts StableFacts PlainFacts.

(** *** The two replacements that strip the line feeds *)

Lemma exec_after_start r c s :
  exec (Seq (LineStart false) r) (Some c) s = None.
Proof. reflexivity. Qed.

Lemma scan_first_after_start r : forall s c,
  scan_first (Seq (LineStart false) r) (Some c) s = map Keep s.
Proof.
  induction s as [|x s IH]; intro c; [reflexivity|].
  rewrite AnswerFacts.scan_first_eq, exec_after_start. cbn [map]. rewrite IH. reflexivity.
Qed.

Lemma exec_leading prev s :
  exec (Plus (Char nl)) prev s
  = match s with
    | c :: t =>
        if c =? nl
        then Some (firstn (length s - length (drop_nl t)) s, [], drop_nl t)
        else None
    | [] => None
    end.
Proof.
  unfold exec.
  change (rmatch (Plus (Char nl)) (MState prev s []) (fun st => Some st))
    with (step_char (Z.eqb nl) (MState prev s [])
            (fun st1 => rmatch (Star (Class (Z.eqb nl))) st1 (fun st => Some st))).
  unfold step_char. cbn [rest caps].
  destruct s as [|c t]; [reflexivity|].
  rewrite nl_eqb. destruct (c =? nl); [|reflexivity].
  rewrite rmatch_star_class, greedy_run_accept. cbn [rest caps].
  rewrite after_run_drop_nl. reflexivity.
Qed.

Lemma leading_stage s :
  replace_first re_leading_newlines empty_template s = drop_nl s.
Proof.
  unfold replace_first, re_leading_newlines. cbn [SeqL].
  rewrite AnswerFacts.scan_first_eq.
  assert (E : exec (Seq (LineStart false) (Plus (Char nl))) None s
              = exec (Plus (Char nl)) None s) by reflexivity.
  rewrite E, exec_leading.
  destruct s as [|c t]; [reflexivity|].
  cbn [drop_nl]. destruct (c =? nl).
  - cbn [flat_map render]. rewrite render_keep. reflexivity.
  - rewrite scan_first_after_start. cbn [flat_map render app].
    rewrite render_keep. reflexivity.
Qed.

Definition only_nl (s : jsstring) : bool :=
  match drop_nl s with [] => true | _ :: _ => false end.

(** Without the line feeds at its end. *)
Fixpoint chomp (s : jsstring) : jsstring :=
  match s with
  | [] => []
  | c :: t => if (c =? nl) && only_nl t then [] else c :: chomp t
  end.

Lemma exec_trailing prev s :
  exec re_trailing_newlines prev s
  = match s with
    | c :: t => if (c =? nl) && only_nl t then Some (s, [], []) else None
    | [] => None
    end.
Proof.
  unfold exec.
  change (rmatch re_trailing_newlines (MState prev s []) (fun st => Some st))
    with (step_char (Z.eqb nl) (MState prev s [])
            (fun st1 => rmatch (Star (Class (Z.eqb nl))) st1
               (fun st2 => rmatch (LineEnd false) st2 (fun st => Some st)))).
  unfold step_char. cbn [rest caps].
  destruct s as [|c t]; [reflexivity|].
  rewrite nl_eqb. destruct (c =? nl); [|reflexivity].
  rewrite rmatch_star_class.
  match goal with
  | |- context [greedy_run ?p ?a ?b ?c0 ?k] => rewrite (@greedy_run_longest p k)
  end.
  2:{ intros p x r cs _. reflexivity. }
  rewrite after_run_drop_nl. cbn [andb]. unfold only_nl.
  destruct (drop_nl t) as [|x r].
  - rewrite rmatch_line_end. cbn [rest caps].
    change (length (@nil Z)) with 0%nat. rewrite Nat.sub_0_r, firstn_all.
    reflexivity.
  - reflexivity.
Qed.

Lemma trailing_stage : forall s,
  replace_first re_trailing_newlines empty_template s = chomp s.
Proof.
  unfold replace_first.
  assert (G : forall s prev,
             flat_map (render empty_template) (scan_first re_trailing_newlines prev s)
             = chomp s).
  { induction s as [|c t IH]; intro prev.
    - rewrite AnswerFacts.scan_first_eq, exec_trailing. reflexivity.
    - rewrite AnswerFacts.scan_first_eq, exec_trailing. cbn [chomp].
      destruct ((c =? nl) && only_nl t); [reflexivity|].
      cbn [flat_map render app]. rewrite IH. reflexivity. }
  intro s. apply G.
Qed.

(** *** The language and the content of a fence *)

Lemma split_fence_steps code :
  split_fence code
  = match indexOf nl code with
    | Some (S n) => (trim (firstn (S n) code), chomp (drop_nl (skipn (S (S n)) code)))
    | _ => ([], chomp (drop_nl code))
    end.
Proof.
  unfold split_fence. cbv zeta.
  destruct (indexOf nl code) as [[|n]|]; cbn [fst snd];
    rewrite leading_stage, trailing_stage; reflexivity.
Qed.

Lemma indexOf_first : forall first after,
  lacks is_nl first = true -> indexOf nl (first ++ nl :: after) = Some (length first).
Proof.
  induction first as [|c first IH]; intros after L.
  - cbn [app indexOf]. change (nl =? nl) with true. reflexivity.
  - rewrite lacks_cons in L. apply andb_true_iff in L. destruct L as [L1 L2].
    apply negb_true_iff in L1. unfold is_nl in L1.
    cbn [app indexOf length]. rewrite L1, (IH after L2). reflexivity.
Qed.

Lemma indexOf_none : forall s, lacks is_nl s = true -> indexOf nl s = None.
Proof.
  induction s as [|c s IH]; intro L; [reflexivity|].
  rewrite lacks_cons in L. apply andb_true_iff in L. destruct L as [L1 L2].
  apply negb_true_iff in L1. unfold is_nl in L1.
  cbn [indexOf]. rewrite L1, (IH L2). reflexivity.
Qed.

Lemma drop_nl_head s : drop_nl s = [] \/ (hd 0 (drop_nl s) =? nl) = false.
Proof.
  induction s as [|c t IH]; [left; reflexivity|].
  cbn [drop_nl]. destruct (c =? nl) eqn:E; [exact IH|]. right. exact E.
Qed.

Lemma chomp_empty : forall s, chomp s = [] -> only_nl s = true.
Proof.
  intros [|c t]; [reflexivity|]. cbn [chomp]. unfold only_nl at 2. cbn [drop_nl].
  destruct (c =? nl); [|discriminate].
  cbn [andb]. fold (only_nl t). destruct (only_nl t); [reflexivity | discriminate].
Qed.

Lemma chomp_last : forall s, chomp s = [] \/ (last (chomp s) 0 =? nl) = false.
Proof.
  induction s as [|c t IH]; [left; reflexivity|].
  cbn [chomp]. destruct ((c =? nl) && only_nl t) eqn:E; [left; reflexivity|].
  right. destruct (chomp t) as [|d r] eqn:C.
  - rewrite (@chomp_empty t C), andb_true_r in E. exact E.
  - destruct IH as [IH|IH]; [discriminate|].
    rewrite (@last_cons c (d :: r)) by discriminate. exact IH.
Qed.

Lemma chomp_head s :
  (hd 0 s =? nl) = false -> s <> [] -> chomp s <> [] /\ hd 0 (chomp s) = hd 0 s.
Proof.
  destruct s as [|c t]; [congruence|]. cbn [hd chomp]. intros E _. rewrite E.
  cbn [andb hd]. split; [discriminate | reflexivity].
Qed.

Lemma chomp_plain : forall s, lacks is_nl s = true -> chomp s = s.
Proof.
  induction s as [|c t IH]; intro L; [reflexivity|].
  rewrite lacks_cons in L. apply andb_true_iff in L. destruct L as [L1 L2].
  apply negb_true_iff in L1. unfold is_nl in L1.
  cbn [chomp]. rewrite L1, (IH L2). reflexivity.
Qed.

Lemma drop_nl_plain s : s = [] \/ (hd 0 s =? nl) = false -> drop_nl s = s.
Proof.
  intros [->|H]; [reflexivity|]. destruct s as [|c t]; [reflexivity|].
  cbn [hd] in H. cbn [drop_nl]. rewrite H. reflexivity.
Qed.

Lemma not_only_nl : forall u,
  u <> [] -> (last u 0 =? nl) = false -> only_nl (u ++ [nl]) = false.
Proof.
  unfold only_nl. induction u as [|x u IHu]; intros N L; [congruence|].
  cbn [app drop_nl]. destruct (x =? nl) eqn:X; [|reflexivity].
  destruct u as [|y u']; [cbn [last] in L; congruence|].
  rewrite (@last_cons x (y :: u')) in L by discriminate.
  apply IHu; [discriminate | exact L].
Qed.

Lemma chomp_line : forall body,
  body <> [] -> (last body 0 =? nl) = false -> chomp (body ++ [nl]) = body.
Proof.
  induction body as [|c t IH]; intros N L; [congruence|].
  cbn [app chomp]. destruct t as [|d t'].
  - cbn [last] in L. rewrite L. reflexivity.
  - rewrite (@last_cons c (d :: t')) in L by discriminate.
    rewrite (@not_only_nl (d :: t')), andb_false_r; [|discriminate | exact L].
    f_equal. apply IH; [discriminate | exact L].
Qed.

Lemma split_fence_lines first after :
  first <> [] -> lacks is_nl first = true ->
  split_fence (first ++ nl :: after) = (trim first, chomp (drop_nl after)).
Proof.
  intros N L. rewrite split_fence_steps, (@indexOf_first first after L).
  destruct first as [|c first]; [congruence|]. cbn [length].
  replace (firstn (S (length first)) ((c :: first) ++ nl :: after)) with (c :: first).
  2:{ change (S (length first)) with (length (c :: first)).
      rewrite firstn_app, Nat.sub_diag, firstn_all. cbn [firstn]. symmetry. apply app_nil_r. }
  replace (skipn (S (S (length first))) ((c :: first) ++ nl :: after)) with after.
  2:{ change (S (S (length first))) with (S (length (c :: first))).
      change ((c :: first) ++ nl :: after) with ((c :: first) ++ [nl] ++ after).
      rewrite app_assoc.
      replace (S (length (c :: first))) with (length ((c :: first) ++ [nl]))
        by (rewrite length_app; cbn [length]; lia).
      rewrite skipn_app, Nat.sub_diag, skipn_all. reflexivity. }
  reflexivity.
Qed.

(** Whatever stands between two fences: the language is trimmed; the
    content neither starts nor ends with a line feed; a text of one line is
    all content, without language; and when the first line is not empty, it
    gives the language, and what follows it gives the content, less the line
    feeds at its two ends. *)
Theorem split_fence_strips_line_feeds (code : jsstring) :
  trim (fst (split_fence code)) = fst (split_fence code)
  /\ (snd (split_fence code) = []
      \/ ((hd 0 (snd (split_fence code)) =? nl) = false
          /\ (last (snd (split_fence code)) 0 =? nl) = false))
  /\ (lacks is_nl code = true -> split_fence code = ([], code))
  /\ (forall first after,
        code = first ++ nl :: after -> first <> [] -> lacks is_nl first = true ->
        split_fence code = (trim first, chomp (drop_nl after))).
Proof.
  rewrite split_fence_steps. repeat apply conj.
  - destruct (indexOf nl code) as [[|n]|]; cbn [fst]; try reflexivity.
    apply trim_fixed. apply trim_clean.
  - assert (G : forall s, chomp (drop_nl s) = []
                          \/ ((hd 0 (chomp (drop_nl s)) =? nl) = false
                              /\ (last (chomp (drop_nl s)) 0 =? nl) = false)).
    { intro s.
      destruct (list_eq_dec Z.eq_dec (drop_nl s) []) as [D0|D0];
        [left; rewrite D0; reflexivity|].
      destruct (drop_nl_head s) as [D|D]; [congruence|].
      destruct (chomp_last (drop_nl s)) as [E|E]; [left; exact E|].
      right. split; [|exact E].
      destruct (@chomp_head (drop_nl s) D D0) as [_ H]. rewrite H. exact D. }
    destruct (indexOf nl code) as [[|n]|]; cbn [snd]; apply G.
  - intro L. rewrite (@indexOf_none code L).
    rewrite drop_nl_plain, (@chomp_plain code L); [reflexivity|].
    destruct code as [|c t]; [left; reflexivity|]. right.
    rewrite lacks_cons in L. apply andb_true_iff in L. destruct L as [L _].
    apply negb_true_iff in L. exact L.
  - intros first after -> N L. rewrite <- split_fence_steps.
    apply split_fence_lines; assumption.
Qed.

Lemma split_fence_strips_line_feeds_witness :
  split_fence (str " js " ++ [nl; nl] ++ str "let x;" ++ [nl; nl])
  = (trim (str " js "), chomp (drop_nl ([nl] ++ str "let x;" ++ [nl; nl]))).
Proof.
  apply (proj2 (proj2 (proj2
           (split_fence_strips_line_feeds
              (str " js " ++ [nl; nl] ++ str "let x;" ++ [nl; nl]))))).
  - reflexivity.
  - discriminate.
  - reflexivity.
Defined.

(** *** A fenced block through the first replacement *)

Definition ticks : jsstring := [96; 96; 96].

Lemma re_fence_seq :
  re_fence = Seq (Lit ticks) (Seq (Group 1 (LazyStar Any)) (Lit ticks)).
Proof. reflexivity. Qed.

Lemma exec_fence prev code :
  lacks is_tick code = true ->
  exec re_fence prev ((ticks ++ code ++ ticks) ++ [])
  = Some (ticks ++ code ++ ticks, [(1%nat, code)], []).
Proof.
  intro L. eapply exec_found.
  rewrite re_fence_seq, rmatch_seq, rmatch_lit. cbn [rest before caps].
  rewrite <- !app_assoc. rewrite strip_prefix_app.
  rewrite rmatch_seq, rmatch_group. unfold Any. cbn [rest before caps].
  rewrite rmatch_lazy_class.
  rewrite lazy_run_until.
  - apply lazy_run_stop. cbn [rest before caps]. taken code.
    rewrite rmatch_lit. cbn [rest before caps]. rewrite strip_prefix_app. reflexivity.
  - apply forallb_forall. reflexivity.
  - intros u1 c u2 E. subst code. apply lacks_middle in L. unfold is_tick in L.
    rewrite rmatch_lit. cbn [rest]. unfold ticks. cbn [strip_prefix].
    rewrite Z.eqb_sym, L. reflexivity.
Qed.

Lemma exec_fence_end prev : exec re_fence prev [] = None.
Proof. reflexivity. Qed.

Lemma lacks_last P : forall s, lacks P s = true -> s <> [] -> P (last s 0) = false.
Proof.
  induction s as [|c t IH]; intros L N; [congruence|].
  rewrite lacks_cons in L. apply andb_true_iff in L. destruct L as [L1 L2].
  destruct t as [|d t']; [cbn [last]; apply negb_true_iff; exact L1|].
  rewrite (@last_cons c (d :: t')) by discriminate. apply IH; [exact L2 | discriminate].
Qed.

Lemma trim_word s : lacks is_ws s = true -> trim s = s.
Proof.
  intro L. apply trim_fixed.
  destruct s as [|c t]; [left; reflexivity|]. right. split.
  - rewrite lacks_cons in L. apply andb_true_iff in L. destruct L as [L _].
    apply negb_true_iff in L. exact L.
  - apply lacks_last; [exact L | discriminate].
Qed.

Definition tag_sign (c : Z) : bool := is_ws c || (c =? 96).

(** The fence stage on a block written as a fence line with a language, the
    lines of the code and a fence line. *)
Lemma fence_stage_block (random : nat -> jsstring) (language code : jsstring) :
  language <> [] -> lacks tag_sign language = true ->
  code <> [] -> lacks is_tick code = true ->
  (hd 0 code =? nl) = false -> (last code 0 =? nl) = false ->
  fences random (ticks ++ (language ++ nl :: code ++ [nl]) ++ ticks)
  = option_map
      (fun encoded =>
         code_block_html language (str "code-block-" ++ random 0%nat) encoded
           (highlight language (escape_html code)))
      (Codec.store_encode code).
Proof.
  intros Nl Ll Nc Lc Hc Ec.
  assert (Lw : lacks is_ws language = true).
  { apply (@lacks_weaken tag_sign is_ws language); [|exact Ll].
    intros c E. unfold tag_sign. rewrite E. reflexivity. }
  assert (Lt : lacks is_tick language = true).
  { apply (@lacks_weaken tag_sign is_tick language); [|exact Ll].
    intros c E. unfold tag_sign, is_tick in *. rewrite E. apply orb_true_r. }
  assert (Ln : lacks is_nl language = true).
  { apply (@lacks_weaken is_ws is_nl language); [|exact Lw].
    intros c E. unfold is_nl in E. apply Z.eqb_eq in E. subst c. reflexivity. }
  set (inner := language ++ nl :: code ++ [nl]).
  assert (Li : lacks is_tick inner = true).
  { unfold inner. rewrite lacks_app, lacks_cons, lacks_app, Lt, Lc. reflexivity. }
  unfold fences.
  rewrite <- (app_nil_r (ticks ++ inner ++ ticks)) at 2.
  rewrite (@scan_hit _ _ _ _ _ _ _ (@exec_fence None inner Li)) by discriminate.
  rewrite (@scan_end _ _ _ (exec_fence_end _)).
  cbn [render_blocks capture Nat.eqb]. unfold code_block, inner.
  rewrite (@split_fence_lines language (code ++ [nl]) Nl Ln).
  rewrite (@trim_word language Lw).
  rewrite drop_nl_plain.
  2:{ right. destruct code; [congruence | exact Hc]. }
  rewrite (@chomp_line code Nc Ec).
  destruct (Codec.store_encode code) as [e|]; [|reflexivity].
  cbn [option_map]. rewrite app_nil_r. reflexivity.
Qed.

(** *** The block through the first stage *)

Lemma nl_count_before : forall t a y,
  is_ws a = false -> nl_count (t ++ a :: y) = nl_count t.
Proof.
  induction t as [|c t IH]; intros a y W; cbn [app nl_count].
  - rewrite W. reflexivity.
  - destruct (is_ws c); [rewrite (IH a y W); reflexivity | reflexivity].
Qed.

Lemma calm_before : forall s a y,
  is_ws a = false -> calm s = true -> calm (a :: y) = true ->
  calm (s ++ a :: y) = true.
Proof.
  induction s as [|c s IH]; intros a y W C1 C2; [exact C2|].
  cbn [calm] in C1. apply andb_true_iff in C1. destruct C1 as [C0 C1].
  cbn [app calm]. rewrite (@nl_count_before s a y W), C0. cbn [andb].
  apply IH; assumption.
Qed.

(** A block whose code has no stretch of blank lines for the first stage
    to collapse goes through that stage as it is. *)
Lemma normalize_block (language code : jsstring) :
  lacks tag_sign language = true -> calm (nl :: code ++ [nl]) = true ->
  normalize (ticks ++ (language ++ nl :: code ++ [nl]) ++ ticks)
  = ticks ++ (language ++ nl :: code ++ [nl]) ++ ticks.
Proof.
  intros Ll C.
  assert (Ln : lacks is_nl language = true).
  { apply (@lacks_weaken tag_sign is_nl language); [|exact Ll].
    intros c E. unfold is_nl in E. apply Z.eqb_eq in E. subst c. reflexivity. }
  rewrite normalize_squeeze.
  assert (T : trim (ticks ++ (language ++ nl :: code ++ [nl]) ++ ticks)
              = ticks ++ (language ++ nl :: code ++ [nl]) ++ ticks).
  { apply trim_fixed. right. split; [reflexivity|].
    rewrite app_assoc. unfold ticks at 2.
    change [96; 96; 96] with ([96; 96] ++ [96]). rewrite app_assoc.
    rewrite last_last. reflexivity. }
  rewrite T. apply squeeze_calm.
  replace (ticks ++ (language ++ nl :: code ++ [nl]) ++ ticks)
    with ((ticks ++ language) ++ (nl :: code ++ [nl]) ++ 96 :: [96; 96])
    by (unfold ticks; rewrite <- !app_assoc; reflexivity).
  rewrite calm_pass.
  - apply calm_before; [reflexivity | exact C | reflexivity].
  - rewrite lacks_app, Ln. reflexivity.
Qed.

(** A block written as a fence line with a language, the lines of the code
    and a fence line, the code holding no stretch of blank lines that the
    first stage collapses: [convertMarkdownToHTML] makes of it one container,
    over which the later stages then run, with the escaped and highlighted
    code to show and, stored for copying, the encoding of the code as
    written, from its first character to its last.  The language holds no
    white space and no backtick, the code no backtick, and the code does not
    start or end with a line feed. *)
Theorem fenced_block_is_stored_as_written
        (random : nat -> jsstring) (language code : jsstring) :
  language <> [] -> lacks tag_sign language = true ->
  code <> [] -> lacks is_tick code = true ->
  (hd 0 code =? nl) = false -> (last code 0 =? nl) = false ->
  calm (nl :: code ++ [nl]) = true ->
  convertMarkdownToHTML random (ticks ++ (language ++ nl :: code ++ [nl]) ++ ticks)
  = option_map
      (fun encoded =>
         markdown_elements
           (inline_code
              (code_block_html language (str "code-block-" ++ random 0%nat) encoded
                 (highlight language (escape_html code)))))
      (Codec.store_encode code).
Proof.
  intros Nl Ll Nc Lc Hc Ec C.
  unfold convertMarkdownToHTML.
  rewrite (normalize_block language code Ll C).
  rewrite (fence_stage_block random Nl Ll Nc Lc Hc Ec).
  destruct (Codec.store_encode code); reflexivity.
Qed.

Definition two_lines : jsstring := str "let x = 1;" ++ [nl; nl] ++ str "x < 2".

Lemma fenced_block_is_stored_as_written_witness :
  convertMarkdownToHTML Examples.random
    (ticks ++ (str "js" ++ nl :: two_lines ++ [nl]) ++ ticks)
  = option_map
      (fun encoded =>
         markdown_elements
           (inline_code
              (code_block_html (str "js") (str "code-block-" ++ Examples.random 0%nat)
                 encoded (highlight (str "js") (escape_html two_lines)))))
      (Codec.store_encode two_lines).
Proof.
  apply fenced_block_is_stored_as_written; try reflexivity; discriminate.
Defined.

(** In the page made of this block the stored value is there once, and
    decoding it gives the code back. *)
Example two_lines_stored :
  Codec.store_encode two_lines = Some (str "bGV0IHggPSAxOwoKeCA8IDI=")
  /\ occurrences (str "data-original-code=" ++ q "bGV0IHggPSAxOwoKeCA8IDI=")
       (Examples.rendered (ticks ++ (str "js" ++ nl :: two_lines ++ [nl]) ++ ticks))
     = 1%nat
  /\ Codec.copy_decode (str "bGV0IHggPSAxOwoKeCA8IDI=") = Some two_lines.
Proof.
  repeat apply conj; vm_compute; reflexivity.
Qed.

End FenceFacts.

(** ** The target of a copy control *)

Module TargetFacts.

Import Dom DomFacts CopyScript.

Lemma first_found_cons o l :
  first_found (o :: l) = match o with Some b => Some b | None => first_found l end.
Proof. reflexivity. Qed.

(** The nearest container at an element, given the one above. *)
Definition here_of (above : option found) (in_pre : bool) (n : node)
           (classes : list string) : option found :=
  if has_class container_class classes then Some (in_pre, n) else above.

Lemma container_elem above in_pre i tag classes attrs kids x :
  closest_container above in_pre (Elem i tag classes attrs kids) x
  = if Nat.eqb i x
    then Some (here_of above in_pre (Elem i tag classes attrs kids) classes)
    else first_found
           (map (fun k => closest_container
                            (here_of above in_pre (Elem i tag classes attrs kids) classes)
                            (in_pre || String.eqb tag "pre") k x) kids).
Proof. reflexivity. Qed.

Lemma container_mem : forall n above in_pre y,
  closest_container above in_pre n y = None <-> mem y n = false.
Proof.
  induction n as [s|i tag classes attrs kids IH] using node_induction;
    intros above in_pre y; [split; reflexivity|].
  rewrite container_elem. cbn [mem].
  destruct (Nat.eqb i y); [split; discriminate|]. cbn [orb].
  generalize (here_of above in_pre (Elem i tag classes attrs kids) classes) as here.
  generalize (in_pre || String.eqb tag "pre") as p. intros p here.
  induction kids as [|k kids IHk]; [split; reflexivity|].
  cbn [map existsb]. rewrite first_found_cons.
  pose proof (Forall_inv IH here p y) as Hk.
  specialize (IHk (Forall_inv_tail IH)).
  destruct (closest_container here p k y) as [b|] eqn:C.
  - split; [discriminate|]. intro M. apply orb_false_iff in M.
    destruct M as [M _]. apply Hk in M. discriminate.
  - rewrite (proj1 Hk eq_refl). cbn [orb]. exact IHk.
Qed.

Definition is_some (o : option found) : bool :=
  match o with Some _ => true | None => false end.

(** The lookup of the pass and that of the handler agree on whether there
    is a container. *)
Lemma container_closest : forall n a above in_pre y,
  a = is_some above ->
  closest a n y = option_map is_some (closest_container above in_pre n y).
Proof.
  induction n as [s|i tag classes attrs kids IH] using node_induction;
    intros a above in_pre y A; [reflexivity|].
  rewrite closest_elem, container_elem.
  assert (H : a || has_class container_class classes
              = is_some (here_of above in_pre (Elem i tag classes attrs kids) classes)).
  { unfold here_of. destruct (has_class container_class classes);
      [apply orb_true_r | rewrite orb_false_r; exact A]. }
  revert H.
  generalize (here_of above in_pre (Elem i tag classes attrs kids) classes) as here.
  generalize (a || has_class container_class classes) as b.
  generalize (in_pre || String.eqb tag "pre") as p. intros p b here H.
  destruct (Nat.eqb i y); [cbn [option_map]; rewrite H; reflexivity|].
  induction kids as [|k kids IHk]; [reflexivity|].
  cbn [map]. rewrite first_some_cons, first_found_cons.
  rewrite (Forall_inv IH b here p y H).
  destruct (closest_container here p k y) as [c|]; [reflexivity|].
  cbn [option_map]. exact (IHk (Forall_inv_tail IH)).
Qed.

(** An element with a container in the tree does not look above the tree. *)
Lemma container_inside : forall n above above' in_pre x,
  closest false n x = Some true ->
  closest_container above in_pre n x = closest_container above' in_pre n x.
Proof.
  induction n as [s|i tag classes attrs kids IH] using node_induction;
    intros above above' in_pre x; [discriminate|].
  rewrite closest_elem, !container_elem. unfold here_of. cbn [orb].
  destruct (has_class container_class classes) eqn:C; [reflexivity|].
  destruct (Nat.eqb i x); [discriminate|].
  generalize (in_pre || String.eqb tag "pre") as p. intro p.
  induction kids as [|k kids IHk]; [discriminate|].
  cbn [map]. rewrite first_some_cons, !first_found_cons.
  destruct (closest false k x) as [b|] eqn:D.
  - intro E. injection E as ->.
    rewrite (Forall_inv IH above above' p x D).
    destruct (closest_container above' p k x) as [c|] eqn:F; [reflexivity|].
    apply container_mem in F. apply closest_mem with (above := false) in F. congruence.
  - pose proof D as D'. apply closest_mem in D'.
    rewrite (proj2 (container_mem k above p x) D'), (proj2 (container_mem k above' p x) D').
    apply IHk. exact (Forall_inv_tail IH).
Qed.

Lemma container_button above in_pre fresh y :
  (y < fresh)%nat -> closest_container above in_pre (copy_button fresh) y = None.
Proof.
  intro L. apply container_mem. destruct (below_not_fresh L) as [_ [E1 E2]].
  cbn [copy_button mem existsb]. rewrite E1, E2. reflexivity.
Qed.

(** The wrap of a free block leaves the container of an element that has
    one as it was. *)
Lemma container_wrap_old : forall n above in_pre fresh z x,
  (x < fresh)%nat -> free z n = true -> closest false n x = Some true ->
  closest_container above in_pre (wrap fresh z n) x = closest_container above in_pre n x.
Proof.
  induction n as [s|i tag classes attrs kids IH] using node_induction;
    intros above in_pre fresh z x L F; [discriminate|].
  cbn [free] in F.
  destruct (has_class container_class classes) eqn:C.
  - apply negb_true_iff in F. rewrite (wrap_absent _ fresh z F). reflexivity.
  - rewrite wrap_elem. destruct (Nat.eqb i z) eqn:E.
    + intro B. destruct (below_not_fresh L) as [E0 _].
      rewrite container_elem, E0. cbn [map].
      rewrite first_found_cons, (container_button _ _ L), first_found_cons.
      rewrite orb_false_r.
      rewrite (container_inside _ _ above in_pre x B).
      destruct (closest_container above in_pre (Elem i tag classes attrs kids) x) as [c|] eqn:D;
        [reflexivity|].
      apply container_mem in D. apply closest_mem with (above := false) in D. congruence.
    + rewrite closest_elem, !container_elem. cbn [orb]. unfold here_of. rewrite C.
      destruct (Nat.eqb i x); [discriminate|].
      generalize (in_pre || String.eqb tag "pre") as p. intro p.
      induction kids as [|k kids IHk]; [discriminate|].
      cbn [forallb] in F. apply andb_true_iff in F. destruct F as [Fk Fr].
      cbn [map]. rewrite first_some_cons, !first_found_cons.
      destruct (closest false k x) as [b|] eqn:D.
      * intro B. injection B as ->.
        rewrite (Forall_inv IH above p fresh z x L Fk D).
        destruct (closest_container above p k x) as [c|] eqn:G; [reflexivity|].
        apply container_mem in G. apply closest_mem with (above := false) in G. congruence.
      * pose proof D as M. apply closest_mem in M.
        rewrite (proj2 (container_mem k above p x) M).
        rewrite <- (mem_wrap k z L) in M.
        rewrite (proj2 (container_mem (wrap fresh z k) above p x) M).
        apply IHk; [exact (Forall_inv_tail IH) | exact Fr].
Qed.

(** The new container, seen from its button. *)
Lemma container_new above in_pre fresh n :
  closest_container above in_pre
    (Elem fresh "div" [container_class] [] [copy_button fresh; n]) (S fresh)
  = Some (Some (in_pre, Elem fresh "div" [container_class] [] [copy_button fresh; n])).
Proof.
  rewrite container_elem.
  replace (Nat.eqb fresh (S fresh)) with false by (symmetry; apply Nat.eqb_neq; lia).
  cbn [map]. rewrite first_found_cons. unfold copy_button at 2.
  rewrite container_elem, Nat.eqb_refl. reflexivity.
Qed.

(** The button made for a block finds the new container, and the block in
    it. *)
Lemma container_wrap_new : forall n above in_pre fresh x,
  ids_below fresh n = true -> NoDup (ids n) -> In x (select in_pre n) ->
  exists c, closest_container above in_pre (wrap fresh x n) (S fresh) = Some (Some c)
            /\ querySelector_pre_code c = Some x.
Proof.
  induction n as [s|i tag classes attrs kids IH] using node_induction;
    intros above in_pre fresh x B N; [intros []|].
  cbn [ids] in N. inversion N as [|i' l Ni Nk]; subst.
  cbn [ids_below] in B. apply andb_true_iff in B. destruct B as [Bi Bk].
  apply Nat.ltb_lt in Bi.
  cbn [select]. intro H. apply in_app_or in H.
  rewrite wrap_elem. destruct (Nat.eqb i x) eqn:E.
  - apply Nat.eqb_eq in E. subst i. destruct H as [H|H].
    + destruct (in_pre && String.eqb tag "code") eqn:T; [|destruct H].
      apply andb_true_iff in T. destruct T as [T1 T2]. subst in_pre.
      eexists. split; [apply container_new|].
      unfold querySelector_pre_code. cbn [fst snd flat_map].
      cbn [orb select copy_button flat_map andb]. rewrite T2. reflexivity.
    + exfalso. apply Ni. apply in_flat_map in H. destruct H as [k [Hk Hz]].
      apply in_flat_map. exists k. split; [exact Hk|].
      apply mem_ids. exact (select_mem k _ x Hz).
  - destruct H as [H|H].
    { destruct (in_pre && String.eqb tag "code"); [|destruct H].
      destruct H as [->|[]]. rewrite Nat.eqb_refl in E. discriminate. }
    rewrite container_elem.
    replace (Nat.eqb i (S fresh)) with false by (symmetry; apply Nat.eqb_neq; lia).
    generalize (here_of above in_pre
                  (Elem i tag classes attrs (map (wrap fresh x) kids)) classes) as here.
    intro here. revert H.
    generalize (in_pre || String.eqb tag "pre") as p. intros p H.
    clear Ni N E. induction kids as [|k kids IHk]; [destruct H|].
    cbn [flat_map] in *. destruct (NoDup_app_parts _ _ Nk) as [N1 [N2 D]].
    cbn [forallb] in Bk. apply andb_true_iff in Bk. destruct Bk as [B1 B2].
    apply in_app_or in H. cbn [map]. rewrite first_found_cons.
    destruct H as [H|H].
    + destruct (Forall_inv IH here p fresh x B1 N1 H) as [c [C Q]].
      rewrite C. exists c. split; [reflexivity | exact Q].
    + assert (M : mem x k = false).
      { destruct (mem x k) eqn:M; [|reflexivity].
        exfalso. apply mem_ids in M. apply (D x M).
        apply in_flat_map in H. destruct H as [k' [Hk' Hz]].
        apply in_flat_map. exists k'. split; [exact Hk'|].
        apply mem_ids. exact (select_mem k' p x Hz). }
      rewrite (wrap_absent k fresh x M).
      assert (M' : mem (S fresh) k = false).
      { destruct (mem (S fresh) k) eqn:M'; [|reflexivity].
        pose proof (mem_below k fresh (S fresh) B1 M'). lia. }
      rewrite (proj2 (container_mem k here p (S fresh)) M').
      exact (IHk (Forall_inv_tail IH) B2 N2 H).
Qed.

(** *** The buttons of one pass *)

(** The buttons that the visits of [l] make, each with the block it is made
    for. *)
Fixpoint made (l : list nat) (p : page) : list (nat * nat) :=
  match l with
  | [] => []
  | codeBlock :: l' =>
      match closest false (fst p) codeBlock with
      | Some false => [(S (snd p), codeBlock)]
      | _ => []
      end ++ made l' (visit p codeBlock)
  end.

Lemma visits_target : forall l t f,
  ids_below f t = true -> NoDup (ids t) ->
  (forall x, In x l -> In x (select false t)) ->
  (forall button block, In (button, block) (made l (t, f)) ->
     copyCodeBlock (fst (fold_left visit l (t, f))) button = Some block)
  /\ (forall button, (button < f)%nat -> closest false t button = Some true ->
        copyCodeBlock (fst (fold_left visit l (t, f))) button = copyCodeBlock t button).
Proof.
  induction l as [|x l IH]; intros t f B N Sel.
  - cbn [fold_left fst made]. split; [intros b c [] | reflexivity].
  - cbn [fold_left made].
    assert (Sx : In x (select false t)) by (apply Sel; left; reflexivity).
    destruct (visit_cases (t, f) x) as [[C V]|[C V]]; cbn [fst snd] in *; rewrite V.
    + assert (B' : ids_below (f + 3) (wrap f x t) = true) by (apply ids_below_wrap; exact B).
      assert (N' : NoDup (ids (wrap f x t))) by (apply NoDup_wrap; assumption).
      assert (S' : forall z, In z l -> In z (select false (wrap f x t))).
      { intros z Hz. rewrite select_wrap. apply Sel. right. exact Hz. }
      destruct (IH (wrap f x t) (f + 3)%nat B' N' S') as [G P].
      rewrite C. split.
      * intros b c [H|H]; [|exact (G b c H)].
        injection H as <- <-.
        destruct (@container_wrap_new t None false f x B N Sx) as [c [Cc Q]].
        rewrite P.
        -- unfold copyCodeBlock. rewrite Cc. exact Q.
        -- lia.
        -- rewrite (@container_closest (wrap f x t) false None false (S f) eq_refl), Cc.
           reflexivity.
      * intros b Lb Cb.
        rewrite P; [|lia | apply closest_wrap_keeps; assumption].
        unfold copyCodeBlock.
        rewrite (@container_wrap_old t None false f x b Lb (free_bare t x N C) Cb).
        reflexivity.
    + assert (E : match closest false t x with Some false => [(S f, x)] | _ => [] end = []).
      { destruct (closest false t x) as [[|]|]; try reflexivity. congruence. }
      rewrite E. cbn [app].
      apply IH; try assumption. intros z Hz. apply Sel. right. exact Hz.
Qed.

(** Each button that [addCopyButtons] makes copies from the block it was
    made for: its handler finds the new container and, in it, that block as
    the first [pre code] element.  A control that had a container before
    the pass copies from the element it copied from before.  The element
    identities are distinct and below the next identity to give. *)
Theorem made_button_copies_its_block (t : node) (fresh : nat) :
  ids_below fresh t = true -> distinct (ids t) = true ->
  (forall button block, In (button, block) (made (select false t) (t, fresh)) ->
     copyCodeBlock (fst (addCopyButtons (t, fresh))) button = Some block)
  /\ (forall button, (button < fresh)%nat -> closest false t button = Some true ->
        copyCodeBlock (fst (addCopyButtons (t, fresh))) button = copyCodeBlock t button).
Proof.
  intros B D. apply distinct_NoDup in D.
  exact (visits_target (select false t) t fresh B D (fun x H => H)).
Qed.

Lemma made_button_copies_its_block_witness :
  (forall button block,
     In (button, block) (made (select false sample_page) (sample_page, 12%nat)) ->
     copyCodeBlock (fst (addCopyButtons (sample_page, 12%nat))) button = Some block)
  /\ (forall button, (button < 12)%nat -> closest false sample_page button = Some true ->
        copyCodeBlock (fst (addCopyButtons (sample_page, 12%nat))) button
        = copyCodeBlock sample_page button).
Proof.
  apply made_button_copies_its_block; reflexivity.
Defined.

(** On the sample page the pass makes the buttons 13 and 16, for the blocks
    2 and 11; the button 6 of the rendered block copies from block 8, before
    the pass and after it. *)
Example sample_page_targets :
  made (select false sample_page) (sample_page, 12%nat) = [(13, 2); (16, 11)]%nat
  /\ map (copyCodeBlock (fst (addCopyButtons (sample_page, 12%nat)))) [13; 16; 6]%nat
     = [Some 2; Some 11; Some 8]%nat
  /\ copyCodeBlock sample_page 6%nat = Some 8%nat.
Proof.
  repeat apply conj; vm_compute; reflexivity.
Qed.

End TargetFacts.

(** ** The prompt for a CSV document *)

Module UploadFacts.

Import Server.

(** A sample row, from its number and the line. *)
Definition row (r : nat * jsstring) : jsstring :=
  str "Row " ++ number (fst r) ++ str ": " ++ snd r ++ [nl].

(** The loop adds the rows of the next [n] lines when none of them is
    blank. *)
Lemma sample_rows_all : forall n lines before acc,
  Forall (fun line => truthy (trim line) = true) lines ->
  sample_rows (before ++ lines) (length before) (Nat.min n (length lines)) acc
  = acc ++ flat_map row (combine (seq (S (length before)) n) lines).
Proof.
  induction n as [|n IH]; intros lines before acc F.
  - cbn. rewrite app_nil_r. reflexivity.
  - destruct lines as [|line lines].
    + cbn. rewrite app_nil_r. reflexivity.
    + cbn [length Nat.min sample_rows seq combine flat_map].
      rewrite nth_error_app2 by lia. rewrite Nat.sub_diag. cbn [nth_error].
      rewrite (Forall_inv F).
      replace (before ++ line :: lines) with ((before ++ [line]) ++ lines)
        by (rewrite <- app_assoc; reflexivity).
      replace (S (length before)) with (length (before ++ [line]))
        by (rewrite length_app; cbn [length]; lia).
      rewrite (IH lines (before ++ [line]) _ (Forall_inv_tail F)).
      unfold row at 2. cbn [fst snd].
      replace (length before + 1)%nat with (length (before ++ [line]))
        by (rewrite length_app; cbn [length]; lia).
      rewrite <- !app_assoc. reflexivity.
Qed.

Lemma csv_lines_not_blank csvContent :
  Forall (fun line => truthy (trim line) = true) (csv_lines csvContent).
Proof.
  apply Forall_forall. intros line H. apply filter_In in H. exact (proj2 H).
Qed.

(** The sample of the prompt for a CSV document holds the first ten lines
    of the file that are not blank, each as it is in the file, numbered from
    1 without a gap; ten of them, or all when there are fewer.  The number
    given as the total is that of the lines that are not blank, the first
    one, which gives the columns, included. *)
Theorem csv_sample_is_first_ten_lines (originalname csvContent userPrompt : jsstring) :
  csv_prompt originalname csvContent userPrompt
  = str "FILE: " ++ originalname ++ [nl] ++ str "=== CSV FILE ANALYSIS ===" ++ [nl]
    ++ str "COLUMNS (" ++ number (length (csv_headers (csv_lines csvContent)))
    ++ str "): " ++ join (str " | ") (csv_headers (csv_lines csvContent)) ++ [nl; nl]
    ++ str "SAMPLE DATA:" ++ [nl]
    ++ flat_map row (combine (seq 1 10) (csv_lines csvContent))
    ++ [nl] ++ str "Total rows: " ++ number (length (csv_lines csvContent)) ++ [nl; nl]
    ++ str "USER QUESTION: " ++ userPrompt
  /\ length (combine (seq 1 10) (csv_lines csvContent))
     = Nat.min 10 (length (csv_lines csvContent))
  /\ forall line, In line (csv_lines csvContent) <->
                  In line (split nl csvContent) /\ trim line <> [].
Proof.
  repeat apply conj.
  - unfold csv_prompt.
    rewrite (@sample_rows_all 10 (csv_lines csvContent) [] _ (csv_lines_not_blank csvContent)).
    cbn [length]. rewrite <- !app_assoc. reflexivity.
  - rewrite length_combine, length_seq. reflexivity.
  - intro line. unfold csv_lines. rewrite filter_In.
    destruct (trim line); cbn [truthy]; split; intros [H1 H2]; split;
      try assumption; try discriminate; try reflexivity. congruence.
Qed.

(** A file with a blank line and a line of spaces between its lines. *)
Example sample_csv :
  csv_prompt (str "a.csv") (str "id,name" ++ [nl; nl] ++ str "1,x" ++ [nl] ++ str "  " ++ [nl] ++ str "2,y" ++ [nl]) (str "sum?")
  = str "FILE: a.csv" ++ [nl] ++ str "=== CSV FILE ANALYSIS ===" ++ [nl]
    ++ str "COLUMNS (2): id | name" ++ [nl; nl] ++ str "SAMPLE DATA:" ++ [nl]
    ++ str "Row 1: id,name" ++ [nl] ++ str "Row 2: 1,x" ++ [nl] ++ str "Row 3: 2,y" ++ [nl]
    ++ [nl] ++ str "Total rows: 3" ++ [nl; nl] ++ str "USER QUESTION: sum?".
Proof. vm_compute. reflexivity. Qed.

End UploadFacts.

(** ** One control for each block *)

Module AttachFacts.

Import Dom DomFacts CopyScript Blocks TargetFacts.

(** *** The pass, described on the tree *)

Section Thread.

Variable g : node -> nat -> node * nat.

(** [g] on each node of a list in turn, the next identity being handed
    on. *)
Fixpoint thread (ks : list node) (fresh : nat) : list node * nat :=
  match ks with
  | [] => ([], fresh)
  | k :: ks' =>
      let (k', f') := g k fresh in
      let (ks'', f'') := thread ks' f' in
      (k' :: ks'', f'')
  end.

End Thread.

(** Every code block that has no container at or above it is put as it is
    into a new container, after a new button; what is inside such a block,
    and every element that has a container, is left alone. *)
Fixpoint equip (in_pre above : bool) (n : node) (fresh : nat) : node * nat :=
  match n with
  | Text _ => (n, fresh)
  | Elem i tag classes attrs kids =>
      if in_pre && String.eqb tag "code"
         && negb (above || has_class container_class classes)
      then (Elem fresh "div" [container_class] [] [copy_button fresh; n],
            (fresh + 3)%nat)
      else
        let (kids', fresh') :=
          thread (equip (in_pre || String.eqb tag "pre")
                    (above || has_class container_class classes)) kids fresh in
        (Elem i tag classes attrs kids', fresh')
  end.

Lemma equip_elem in_pre above i tag classes attrs kids fresh :
  equip in_pre above (Elem i tag classes attrs kids) fresh
  = if in_pre && String.eqb tag "code"
       && negb (above || has_class container_class classes)
    then (Elem fresh "div" [container_class] []
            [copy_button fresh; Elem i tag classes attrs kids], (fresh + 3)%nat)
    else (Elem i tag classes attrs
            (fst (thread (equip (in_pre || String.eqb tag "pre")
                            (above || has_class container_class classes)) kids fresh)),
          snd (thread (equip (in_pre || String.eqb tag "pre")
                         (above || has_class container_class classes)) kids fresh)).
Proof.
  cbn [equip].
  destruct (in_pre && String.eqb tag "code"
            && negb (above || has_class container_class classes)); [reflexivity|].
  destruct (thread _ kids fresh). reflexivity.
Qed.

Lemma thread_cons g k ks fresh :
  thread g (k :: ks) fresh
  = (fst (g k fresh) :: fst (thread g ks (snd (g k fresh))),
     snd (thread g ks (snd (g k fresh)))).
Proof.
  cbn [thread]. destruct (g k fresh) as [k' f']. cbn [fst snd].
  destruct (thread g ks f'). reflexivity.
Qed.

(** The body of the [forEach] below an element: [a] tells whether a
    container has been passed. *)
Definition visit_under (a : bool) (p : page) (x : nat) : page :=
  match closest a (fst p) x with
  | Some false => (wrap (snd p) x (fst p), (snd p + 3)%nat)
  | _ => p
  end.

(** The same on the children of an element. *)
Definition visit_kids (h : bool) (p : list node * nat) (x : nat) : list node * nat :=
  match first_some (map (fun k => closest h k x) (fst p)) with
  | Some false => (map (wrap (snd p) x) (fst p), (snd p + 3)%nat)
  | _ => p
  end.

Lemma visit_elem a i tag classes attrs ks f x :
  Nat.eqb i x = false ->
  visit_under a (Elem i tag classes attrs ks, f) x
  = (Elem i tag classes attrs
       (fst (visit_kids (a || has_class container_class classes) (ks, f) x)),
     snd (visit_kids (a || has_class container_class classes) (ks, f) x)).
Proof.
  intro E. unfold visit_under, visit_kids. cbn [fst snd].
  rewrite closest_elem, E.
  destruct (first_some
              (map (fun k => closest (a || has_class container_class classes) k x) ks))
    as [[|]|]; try reflexivity.
  rewrite wrap_elem, E. reflexivity.
Qed.

Lemma visits_elem a i tag classes attrs : forall l ks f,
  ~ In i l ->
  fold_left (visit_under a) l (Elem i tag classes attrs ks, f)
  = (Elem i tag classes attrs
       (fst (fold_left (visit_kids (a || has_class container_class classes)) l (ks, f))),
     snd (fold_left (visit_kids (a || has_class container_class classes)) l (ks, f))).
Proof.
  induction l as [|x l IH]; intros ks f N; [reflexivity|].
  assert (E : Nat.eqb i x = false).
  { apply Nat.eqb_neq. intro H. apply N. left. symmetry. exact H. }
  assert (N' : ~ In i l) by (intro H; apply N; right; exact H).
  cbn [fold_left]. rewrite (@visit_elem a i tag classes attrs ks f x E).
  destruct (visit_kids (a || has_class container_class classes) (ks, f) x) as [ks' f'].
  cbn [fst snd]. apply IH. exact N'.
Qed.

Lemma first_some_below x : forall ks,
  first_some (map (fun k => closest true k x) ks) <> Some false.
Proof.
  induction ks as [|k ks IH]; [discriminate|].
  cbn [map]. rewrite first_some_cons.
  destruct (closest true k x) as [b|] eqn:C; [|exact IH].
  rewrite (closest_below_container k x C). discriminate.
Qed.

(** Below a container no visit does anything. *)
Lemma visits_below_container : forall l n f,
  fold_left (visit_under true) l (n, f) = (n, f).
Proof.
  induction l as [|x l IH]; intros n f; [reflexivity|].
  cbn [fold_left].
  replace (visit_under true (n, f) x) with (n, f); [apply IH|].
  unfold visit_under. cbn [fst snd].
  destruct (closest true n x) as [b|] eqn:C; [|reflexivity].
  rewrite (closest_below_container n x C). reflexivity.
Qed.

Lemma visits_kids_below_container : forall l ks f,
  fold_left (visit_kids true) l (ks, f) = (ks, f).
Proof.
  induction l as [|x l IH]; intros ks f; [reflexivity|].
  cbn [fold_left].
  replace (visit_kids true (ks, f) x) with (ks, f); [apply IH|].
  unfold visit_kids. cbn [fst snd].
  pose proof (first_some_below x ks) as H.
  destruct (first_some (map (fun k => closest true k x) ks)) as [[|]|];
    try reflexivity. congruence.
Qed.

Lemma thread_contained p : forall ks f,
  Forall (fun k => forall p f, equip p true k f = (k, f)) ks ->
  thread (equip p true) ks f = (ks, f).
Proof.
  induction ks as [|k ks IH]; intros f F; [reflexivity|].
  rewrite thread_cons, (Forall_inv F p f). cbn [fst snd].
  rewrite (IH f (Forall_inv_tail F)). reflexivity.
Qed.

Lemma equip_contained : forall n p f, equip p true n f = (n, f).
Proof.
  induction n as [s|i tag classes attrs kids IH] using node_induction;
    intros p f; [reflexivity|].
  rewrite equip_elem. cbn [orb negb]. rewrite andb_false_r.
  rewrite (thread_contained _ f IH). reflexivity.
Qed.

Lemma visit_cases_under a p x :
  (closest a (fst p) x = Some false
   /\ visit_under a p x = (wrap (snd p) x (fst p), (snd p + 3)%nat))
  \/ (closest a (fst p) x <> Some false /\ visit_under a p x = p).
Proof.
  unfold visit_under. destruct (closest a (fst p) x) as [[|]|];
    [right | left | right]; split; (reflexivity || discriminate).
Qed.

(** What a run of visits keeps: the next identity does not go down, the
    identities stay below it, and the old elements stay. *)
Lemma visits_under_keep a : forall l k f,
  ids_below f k = true ->
  (f <= snd (fold_left (visit_under a) l (k, f)))%nat
  /\ ids_below (snd (fold_left (visit_under a) l (k, f)))
       (fst (fold_left (visit_under a) l (k, f))) = true
  /\ forall x, (x < f)%nat ->
               mem x (fst (fold_left (visit_under a) l (k, f))) = mem x k.
Proof.
  induction l as [|y l IH]; intros k f B.
  - cbn [fold_left fst snd]. repeat apply conj; [lia | exact B | reflexivity].
  - cbn [fold_left].
    destruct (visit_cases_under a (k, f) y) as [[C V]|[C V]]; cbn [fst snd] in V;
      rewrite V; [|apply IH; exact B].
    destruct (IH (wrap f y k) (f + 3)%nat (ids_below_wrap k f y B)) as [I1 [I2 I3]].
    repeat apply conj; [lia | exact I2|].
    intros x L. rewrite I3 by lia. apply mem_wrap. exact L.
Qed.

Lemma map_wrap_absent f x : forall ks,
  forallb (fun k => negb (mem x k)) ks = true -> map (wrap f x) ks = ks.
Proof.
  induction ks as [|k ks IH]; intro H; [reflexivity|].
  cbn [forallb] in H. apply andb_true_iff in H. destruct H as [H1 H2].
  apply negb_true_iff in H1.
  cbn [map]. rewrite (wrap_absent k f x H1), (IH H2). reflexivity.
Qed.

Lemma visit_first_kid h k ks f x :
  mem x k = true -> forallb (fun k' => negb (mem x k')) ks = true ->
  visit_kids h (k :: ks, f) x
  = (fst (visit_under h (k, f) x) :: ks, snd (visit_under h (k, f) x)).
Proof.
  intros M A. unfold visit_kids, visit_under. cbn [fst snd map].
  rewrite first_some_cons.
  destruct (closest h k x) as [[|]|] eqn:C; cbn [fst snd]; try reflexivity.
  - rewrite (map_wrap_absent f x ks A). reflexivity.
  - apply closest_mem in C. congruence.
Qed.

Lemma visits_first_kid h ks : forall l k f,
  ids_below f k = true ->
  (forall x, In x l ->
             mem x k = true /\ forallb (fun k' => negb (mem x k')) ks = true) ->
  fold_left (visit_kids h) l (k :: ks, f)
  = (fst (fold_left (visit_under h) l (k, f)) :: ks,
     snd (fold_left (visit_under h) l (k, f))).
Proof.
  induction l as [|x l IH]; intros k f B H; [reflexivity|].
  destruct (H x (or_introl eq_refl)) as [Mx Ax].
  cbn [fold_left]. rewrite (@visit_first_kid h k ks f x Mx Ax).
  destruct (visit_cases_under h (k, f) x) as [[C V]|[C V]]; cbn [fst snd] in V;
    rewrite V; cbn [fst snd].
  - apply IH; [apply ids_below_wrap; exact B|].
    intros y Hy. destruct (H y (or_intror Hy)) as [My Ay]. split; [|exact Ay].
    rewrite mem_wrap; [exact My | exact (mem_below k f y B My)].
  - apply IH; [exact B|]. intros y Hy. exact (H y (or_intror Hy)).
Qed.

Lemma visit_later_kid h k ks f x :
  mem x k = false ->
  visit_kids h (k :: ks, f) x
  = (k :: fst (visit_kids h (ks, f) x), snd (visit_kids h (ks, f) x)).
Proof.
  intro M. unfold visit_kids. cbn [fst snd map].
  rewrite first_some_cons, (proj2 (closest_mem k h x) M).
  destruct (first_some (map (fun k0 => closest h k0 x) ks)) as [[|]|];
    cbn [fst snd]; try reflexivity.
  rewrite (wrap_absent k f x M). reflexivity.
Qed.

Lemma visits_later_kids h k : forall l ks f,
  (forall x, In x l -> mem x k = false) ->
  fold_left (visit_kids h) l (k :: ks, f)
  = (k :: fst (fold_left (visit_kids h) l (ks, f)),
     snd (fold_left (visit_kids h) l (ks, f))).
Proof.
  induction l as [|x l IH]; intros ks f H; [reflexivity|].
  cbn [fold_left]. rewrite (@visit_later_kid h k ks f x (H x (or_introl eq_refl))).
  destruct (visit_kids h (ks, f) x) as [ks' f']. cbn [fst snd].
  apply IH. intros y Hy. exact (H y (or_intror Hy)).
Qed.

Lemma forallb_ids_below_mono f g : forall ks,
  (f <= g)%nat -> forallb (ids_below f) ks = true -> forallb (ids_below g) ks = true.
Proof.
  induction ks as [|k ks IH]; intros L H; [reflexivity|].
  cbn [forallb] in *. apply andb_true_iff in H. destruct H as [H1 H2].
  rewrite (@ids_below_mono k f g L H1), (IH L H2). reflexivity.
Qed.

Lemma kids_below f : forall ks x,
  forallb (ids_below f) ks = true -> In x (flat_map ids ks) -> (x < f)%nat.
Proof.
  induction ks as [|k ks IH]; intros x B H; [destruct H|].
  cbn [forallb flat_map] in *. apply andb_true_iff in B. destruct B as [B1 B2].
  apply in_app_or in H. destruct H as [H|H].
  - exact (ids_bound k f x B1 H).
  - exact (IH x B2 H).
Qed.

Lemma select_ids p : forall ks x,
  In x (flat_map (select p) ks) -> In x (flat_map ids ks).
Proof.
  intros ks x H. apply in_flat_map in H. destruct H as [k [Hk Hx]].
  apply in_flat_map. exists k. split; [exact Hk|].
  apply mem_ids. exact (select_mem k p x Hx).
Qed.

(** The visits of the blocks of a list of nodes, one node after the
    other. *)
Lemma visits_forest p h : forall ks f,
  Forall (fun k => forall p a f, NoDup (ids k) -> ids_below f k = true ->
                   fold_left (visit_under a) (select p k) (k, f) = equip p a k f) ks ->
  NoDup (flat_map ids ks) -> forallb (ids_below f) ks = true ->
  fold_left (visit_kids h) (flat_map (select p) ks) (ks, f) = thread (equip p h) ks f.
Proof.
  induction ks as [|k ks IHks]; intros f IH N B; [reflexivity|].
  cbn [flat_map] in *. destruct (NoDup_app_parts _ _ N) as [N1 [N2 D]].
  cbn [forallb] in B. apply andb_true_iff in B. destruct B as [B1 B2].
  rewrite fold_left_app.
  rewrite (@visits_first_kid h ks (select p k) k f B1).
  2:{ intros x Hx. pose proof (select_mem k p x Hx) as M. split; [exact M|].
      apply forallb_forall. intros k' Hk'. apply negb_true_iff.
      apply (not_in_kids x ks); [|exact Hk'].
      apply D. apply mem_ids. exact M. }
  destruct (visits_under_keep h (select p k) k f B1) as [K1 [K2 K3]].
  rewrite (Forall_inv IH p h f N1 B1) in *.
  rewrite visits_later_kids.
  2:{ intros x Hx. apply select_ids in Hx.
      rewrite K3 by exact (kids_below f ks x B2 Hx).
      destruct (mem x k) eqn:M; [|reflexivity].
      exfalso. apply mem_ids in M. exact (D x M Hx). }
  rewrite (IHks (snd (equip p h k f)) (Forall_inv_tail IH) N2
             (forallb_ids_below_mono ks K1 B2)).
  rewrite thread_cons. reflexivity.
Qed.

(** The loop over the list of the selector does what [equip] says. *)
Lemma visits_equip_tree : forall n p a f,
  NoDup (ids n) -> ids_below f n = true ->
  fold_left (visit_under a) (select p n) (n, f) = equip p a n f.
Proof.
  induction n as [s|i tag classes attrs kids IH] using node_induction;
    intros p a f N B; [reflexivity|].
  cbn [ids] in N. inversion N as [|i' l Ni Nk]; subst.
  pose proof B as B0.
  cbn [ids_below] in B. apply andb_true_iff in B. destruct B as [Bi Bk].
  rewrite equip_elem. cbn [select].
  assert (Out : ~ In i (flat_map (select (p || String.eqb tag "pre")) kids)).
  { intro H. apply Ni. exact (select_ids _ kids i H). }
  destruct (a || has_class container_class classes) eqn:Here.
  - (* the element has a container: nothing is done *)
    cbn [negb]. rewrite andb_false_r.
    rewrite (thread_contained _ f
               (Forall_impl _ (fun k _ => equip_contained k) IH)).
    cbn [fst snd].
    assert (G : forall l, fold_left (visit_under a) l (Elem i tag classes attrs kids, f)
                          = (Elem i tag classes attrs kids, f)).
    { induction l as [|x l IHl]; [reflexivity|].
      cbn [fold_left].
      replace (visit_under a (Elem i tag classes attrs kids, f) x)
        with (Elem i tag classes attrs kids, f); [exact IHl|].
      unfold visit_under. cbn [fst snd]. rewrite closest_elem, Here.
      destruct (Nat.eqb i x); [reflexivity|].
      pose proof (first_some_below x kids) as H.
      destruct (first_some (map (fun k => closest true k x) kids)) as [[|]|];
        try reflexivity. congruence. }
    apply G.
  - cbn [negb]. rewrite andb_true_r.
    destruct (p && String.eqb tag "code") eqn:Code.
    + (* the element is a block without container: it is wrapped first *)
      cbn [app fold_left].
      replace (visit_under a (Elem i tag classes attrs kids, f) i)
        with (Elem f "div" [container_class] []
                [copy_button f; Elem i tag classes attrs kids], (f + 3)%nat).
      2:{ unfold visit_under. cbn [fst snd].
          rewrite closest_elem, Nat.eqb_refl, Here, wrap_elem, Nat.eqb_refl.
          reflexivity. }
      generalize (flat_map (select (p || String.eqb tag "pre")) kids) as l.
      generalize (f + 3)%nat as g.
      intros g l. revert g. induction l as [|x l IHl]; intro g; [reflexivity|].
      cbn [fold_left].
      replace (visit_under a
                 (Elem f "div" [container_class] []
                    [copy_button f; Elem i tag classes attrs kids], g) x)
        with (Elem f "div" [container_class] []
                [copy_button f; Elem i tag classes attrs kids], g); [apply IHl|].
      unfold visit_under. cbn [fst snd]. rewrite closest_elem.
      replace (a || has_class container_class [container_class]) with true
        by (symmetry; apply orb_true_r).
      destruct (Nat.eqb f x); [reflexivity|].
      pose proof (first_some_below x
                    [copy_button f; Elem i tag classes attrs kids]) as H.
      destruct (first_some
                  (map (fun k => closest true k x)
                     [copy_button f; Elem i tag classes attrs kids])) as [[|]|];
        try reflexivity. congruence.
    + cbn [app].
      rewrite (@visits_elem a i tag classes attrs _ kids f Out), Here.
      rewrite (@visits_forest (p || String.eqb tag "pre") false kids f IH Nk Bk).
      reflexivity.
Qed.

(** *** The container of a block after the pass *)

Lemma first_node_cons o l :
  first_node (o :: l) = match o with Some b => Some b | None => first_node l end.
Proof. reflexivity. Qed.

Lemma subtree_mem : forall n z, subtree n z = None <-> mem z n = false.
Proof.
  induction n as [s|i tag classes attrs kids IH] using node_induction;
    intro z; [split; reflexivity|].
  cbn [subtree mem]. destruct (Nat.eqb i z); [split; discriminate|]. cbn [orb].
  induction kids as [|k kids IHk]; [split; reflexivity|].
  cbn [map existsb]. rewrite first_node_cons.
  pose proof (Forall_inv IH z) as Hk. specialize (IHk (Forall_inv_tail IH)).
  destruct (subtree k z) as [b|] eqn:C.
  - split; [discriminate|]. intro M. apply orb_false_iff in M.
    destruct M as [M _]. apply Hk in M. discriminate.
  - rewrite (proj1 Hk eq_refl). cbn [orb]. exact IHk.
Qed.

Lemma pre_code_mem : forall n p z, pre_code p n z = None <-> mem z n = false.
Proof.
  induction n as [s|i tag classes attrs kids IH] using node_induction;
    intros p z; [split; reflexivity|].
  cbn [pre_code mem]. destruct (Nat.eqb i z); [split; discriminate|]. cbn [orb].
  generalize (p || String.eqb tag "pre") as p'. intro p'.
  induction kids as [|k kids IHk]; [split; reflexivity|].
  cbn [map existsb]. rewrite first_some_cons.
  pose proof (Forall_inv IH p' z) as Hk. specialize (IHk (Forall_inv_tail IH)).
  destruct (pre_code p' k z) as [b|] eqn:C.
  - split; [discriminate|]. intro M. apply orb_false_iff in M.
    destruct M as [M _]. apply Hk in M. discriminate.
  - rewrite (proj1 Hk eq_refl). cbn [orb]. exact IHk.
Qed.

(** An element without a container takes the one from above. *)
Lemma container_bare : forall n a above q x,
  closest a n x = Some false -> closest_container above q n x = Some above.
Proof.
  induction n as [s|i tag classes attrs kids IH] using node_induction;
    intros a above q x; [discriminate|].
  rewrite closest_elem, container_elem. unfold here_of.
  destruct (has_class container_class classes) eqn:C.
  - rewrite orb_true_r. destruct (Nat.eqb i x); [discriminate|].
    intro E. exfalso. exact (first_some_below x kids E).
  - rewrite orb_false_r. destruct (Nat.eqb i x); [reflexivity|].
    generalize (q || String.eqb tag "pre") as q'. intro q'.
    induction kids as [|k kids IHk]; [discriminate|].
    cbn [map]. rewrite first_some_cons, first_found_cons.
    destruct (closest a k x) as [b|] eqn:D.
    + intro E. injection E as ->.
      rewrite (Forall_inv IH a above q' x D). reflexivity.
    + apply closest_mem in D.
      rewrite (proj2 (container_mem k above q' x) D).
      apply IHk. exact (Forall_inv_tail IH).
Qed.

(** What [equip] keeps. *)
Lemma equip_keep p a n f :
  NoDup (ids n) -> ids_below f n = true ->
  (f <= snd (equip p a n f))%nat
  /\ ids_below (snd (equip p a n f)) (fst (equip p a n f)) = true
  /\ forall x, (x < f)%nat -> mem x (fst (equip p a n f)) = mem x n.
Proof.
  intros N B. rewrite <- (visits_equip_tree n p a f N B).
  apply visits_under_keep. exact B.
Qed.

Lemma found_in_kids h x : forall ks b,
  first_some (map (fun k => closest h k x) ks) = Some b -> In x (flat_map ids ks).
Proof.
  induction ks as [|k ks IH]; intros b; [discriminate|].
  cbn [map flat_map]. rewrite first_some_cons. intro E. apply in_or_app.
  destruct (closest h k x) as [c|] eqn:C.
  - left. apply mem_ids. destruct (mem x k) eqn:M; [reflexivity|].
    apply closest_mem with (above := h) in M. congruence.
  - right. exact (IH b E).
Qed.

Lemma subtree_in_kids z : forall ks b,
  first_node (map (fun k => subtree k z) ks) = Some b -> In z (flat_map ids ks).
Proof.
  induction ks as [|k ks IH]; intros b; [discriminate|].
  cbn [map flat_map]. rewrite first_node_cons. intro E. apply in_or_app.
  destruct (subtree k z) as [c|] eqn:C.
  - left. apply mem_ids. destruct (mem z k) eqn:M; [reflexivity|].
    apply subtree_mem in M. congruence.
  - right. exact (IH b E).
Qed.

(** The new container of [x]: a new element with the class whose children
    are exactly the new button and a block of the document as it was, with
    [x] in it. *)
Definition new_container (f : nat) (block : option node) (r : option (option found))
  : Prop :=
  exists g b in_pre,
    (f <= g)%nat /\ block = Some b
    /\ r = Some (Some (in_pre,
                       Elem g "div" [container_class] [] [copy_button g; b])).

Definition gives_container (k : node) : Prop :=
  forall p a above q f x,
    NoDup (ids k) -> ids_below f k = true ->
    closest a k x = Some false -> pre_code p k x = Some true ->
    exists z,
      pre_code p k z = Some true
      /\ match subtree k z with Some b => mem x b | None => false end = true
      /\ new_container f (subtree k z)
           (closest_container above q (fst (equip p a k f)) x).

Lemma thread_gives_container p above q x : forall ks f,
  Forall gives_container ks ->
  NoDup (flat_map ids ks) -> forallb (ids_below f) ks = true ->
  first_some (map (fun k => closest false k x) ks) = Some false ->
  first_some (map (fun k => pre_code p k x) ks) = Some true ->
  exists z,
    first_some (map (fun k => pre_code p k z) ks) = Some true
    /\ match first_node (map (fun k => subtree k z) ks) with
       | Some b => mem x b
       | None => false
       end = true
    /\ new_container f (first_node (map (fun k => subtree k z) ks))
         (first_found (map (fun k => closest_container above q k x)
                         (fst (thread (equip p false) ks f)))).
Proof.
  induction ks as [|k ks IHks]; intros f IH N B C P; [discriminate|].
  cbn [flat_map] in N. destruct (NoDup_app_parts _ _ N) as [N1 [N2 D]].
  cbn [forallb] in B. apply andb_true_iff in B. destruct B as [B1 B2].
  destruct (@equip_keep p false k f N1 B1) as [K1 [K2 K3]].
  rewrite thread_cons. cbn [fst map] in *.
  rewrite first_some_cons in C, P. rewrite first_found_cons.
  destruct (closest false k x) as [b|] eqn:Ck.
  - injection C as ->.
    assert (M : mem x k = true).
    { destruct (mem x k) eqn:M; [reflexivity|].
      apply closest_mem with (above := false) in M. congruence. }
    destruct (pre_code p k x) as [b|] eqn:Pk.
    2:{ apply pre_code_mem in Pk. congruence. }
    injection P as ->.
    destruct (Forall_inv IH p false above q f x N1 B1 Ck Pk) as [z [Z1 [Z2 Z3]]].
    exists z. rewrite first_some_cons, first_node_cons, Z1.
    destruct (subtree k z) as [blk|] eqn:S; [|discriminate].
    split; [reflexivity|]. split; [exact Z2|].
    destruct Z3 as [g [b [in_pre [G1 [G2 G3]]]]].
    rewrite G3. exists g, b, in_pre. repeat split; assumption.
  - pose proof Ck as M. apply closest_mem in M.
    assert (Lx : (x < f)%nat).
    { apply (@kids_below f ks x B2). exact (found_in_kids false x ks C). }
    rewrite (proj2 (pre_code_mem k p x) M) in P.
    assert (M' : mem x (fst (equip p false k f)) = false)
      by (rewrite K3; [exact M | exact Lx]).
    rewrite (proj2 (container_mem _ above q x) M').
    destruct (IHks (snd (equip p false k f)) (Forall_inv_tail IH) N2
                (forallb_ids_below_mono ks K1 B2) C P) as [z [Z1 [Z2 Z3]]].
    exists z.
    destruct (first_node (map (fun k0 => subtree k0 z) ks)) as [blk|] eqn:S;
      [|discriminate].
    assert (Mz : mem z k = false).
    { destruct (mem z k) eqn:Mz; [|reflexivity].
      exfalso. apply mem_ids in Mz. apply (D z Mz).
      exact (subtree_in_kids z ks S). }
    rewrite first_some_cons, first_node_cons.
    rewrite (proj2 (pre_code_mem k p z) Mz), (proj2 (subtree_mem k z) Mz), S.
    split; [exact Z1|]. split; [exact Z2|].
    destruct Z3 as [g [b [in_pre [G1 [G2 G3]]]]].
    exists g, b, in_pre. repeat split; [lia | exact G2 | exact G3].
Qed.

Lemma equip_gives_container : forall n, gives_container n.
Proof.
  induction n as [s|i tag classes attrs kids IH] using node_induction;
    intros p a above q f x N B; [discriminate|].
  pose proof N as N0. pose proof B as B0.
  cbn [ids] in N. inversion N as [|i' l Ni Nk]; subst.
  cbn [ids_below] in B. apply andb_true_iff in B. destruct B as [Bi Bk].
  rewrite closest_elem, equip_elem.
  destruct (a || has_class container_class classes) eqn:Here.
  - destruct (Nat.eqb i x); [discriminate|].
    intro E. exfalso. exact (first_some_below x kids E).
  - apply orb_false_iff in Here. destruct Here as [-> Cl].
    cbn [negb]. rewrite andb_true_r.
    destruct (p && String.eqb tag "code") eqn:Code.
    + (* the element is wrapped, and [x] is in it *)
      intros C _.
      assert (C' : closest false (Elem i tag classes attrs kids) x = Some false).
      { rewrite closest_elem, Cl. exact C. }
      assert (M : mem x (Elem i tag classes attrs kids) = true).
      { destruct (mem x (Elem i tag classes attrs kids)) eqn:M; [reflexivity|].
        apply closest_mem with (above := false) in M. congruence. }
      pose proof (mem_below _ f x B0 M) as Lx.
      exists i. cbn [pre_code subtree]. rewrite Nat.eqb_refl, Code.
      split; [reflexivity|]. split; [exact M|].
      exists f, (Elem i tag classes attrs kids), q.
      split; [lia|]. split; [reflexivity|].
      cbn [fst]. rewrite container_elem.
      destruct (below_not_fresh Lx) as [E0 _]. rewrite E0.
      cbn [map]. rewrite first_found_cons, (container_button _ _ Lx), first_found_cons.
      rewrite (container_bare _ _ _ _ x C'). reflexivity.
    + destruct (Nat.eqb i x) eqn:E.
      { intros _ P. cbn [pre_code] in P. rewrite E, Code in P. discriminate. }
      intros C P. cbn [pre_code] in P. rewrite E in P. cbn [orb] in C.
      destruct (@thread_gives_container (p || String.eqb tag "pre") above
                  (q || String.eqb tag "pre") x kids f IH Nk Bk C P)
        as [z [Z1 [Z2 Z3]]].
      assert (Ez : Nat.eqb i z = false).
      { apply Nat.eqb_neq. intro H. subst z. apply Ni.
        destruct (first_node (map (fun k => subtree k i) kids)) eqn:S; [|discriminate].
        exact (subtree_in_kids i kids S). }
      exists z. cbn [pre_code subtree]. rewrite Ez. cbn [orb fst].
      split; [exact Z1|]. split; [exact Z2|].
      rewrite container_elem, E. unfold here_of. rewrite Cl. exact Z3.
Qed.

(** An element that has a container keeps it, as it is, through the
    visits. *)
Lemma visits_keep_container : forall l t f,
  ids_below f t = true -> NoDup (ids t) ->
  forall y, (y < f)%nat -> closest false t y = Some true ->
            closest_container None false (fst (fold_left visit l (t, f))) y
            = closest_container None false t y.
Proof.
  induction l as [|x l IH]; intros t f B N y Ly Cy; [reflexivity|].
  cbn [fold_left].
  destruct (visit_cases (t, f) x) as [[C V]|[C V]]; cbn [fst snd] in *; rewrite V.
  - rewrite (IH (wrap f x t) (f + 3)%nat (ids_below_wrap t f x B)).
    + exact (@container_wrap_old t None false f x y Ly (free_bare t x N C) Cy).
    + apply NoDup_wrap; assumption.
    + lia.
    + apply closest_wrap_keeps; assumption.
  - apply IH; assumption.
Qed.

Lemma visits_NoDup : forall l t f,
  ids_below f t = true -> NoDup (ids t) ->
  NoDup (ids (fst (fold_left visit l (t, f)))).
Proof.
  induction l as [|x l IH]; intros t f B N; [exact N|].
  cbn [fold_left].
  destruct (visit_cases (t, f) x) as [[C V]|[C V]]; cbn [fst snd] in *; rewrite V.
  - apply IH; [apply ids_below_wrap; exact B | apply NoDup_wrap; assumption].
  - apply IH; assumption.
Qed.

(** The list of the selector holds the code blocks and nothing else. *)
Lemma pre_code_select : forall n p x,
  NoDup (ids n) -> (In x (select p n) <-> pre_code p n x = Some true).
Proof.
  induction n as [s|i tag classes attrs kids IH] using node_induction;
    intros p x N; [split; [intros [] | discriminate]|].
  cbn [ids] in N. inversion N as [|i' l Ni Nk]; subst.
  cbn [select pre_code]. rewrite in_app_iff.
  assert (K : In x (flat_map (select (p || String.eqb tag "pre")) kids)
              <-> first_some (map (fun k => pre_code (p || String.eqb tag "pre") k x) kids)
                  = Some true).
  { generalize (p || String.eqb tag "pre") as p'. intro p'.
    clear Ni N. induction kids as [|k kids IHk]; [split; [intros [] | discriminate]|].
    cbn [flat_map map] in *. destruct (NoDup_app_parts _ _ Nk) as [N1 [N2 D]].
    rewrite first_some_cons, in_app_iff.
    rewrite (Forall_inv IH p' x N1), (IHk (Forall_inv_tail IH) N2).
    destruct (pre_code p' k x) as [b|] eqn:Pk.
    - split.
      + intros [H|H]; [exact H|]. exfalso.
        assert (M : mem x k = true).
        { destruct (mem x k) eqn:M; [reflexivity|].
          apply pre_code_mem with (p := p') in M. congruence. }
        apply mem_ids in M. apply (D x M).
        apply (IHk (Forall_inv_tail IH) N2) in H.
        exact (select_ids p' kids x H).
      + intro H. left. exact H.
    - split; [intros [H|H]; [discriminate | exact H] | intro H; right; exact H]. }
  destruct (Nat.eqb i x) eqn:E.
  - apply Nat.eqb_eq in E. subst x.
    destruct (p && String.eqb tag "code").
    + split; [reflexivity | intros _; left; left; reflexivity].
    + split; [|discriminate]. intros [[]|H]. exfalso. apply Ni.
      exact (select_ids _ kids i H).
  - rewrite <- K. split; [|intro H; right; exact H].
    intros [H|H]; [|exact H].
    destruct (p && String.eqb tag "code"); [|destruct H].
    destruct H as [->|[]]. rewrite Nat.eqb_refl in E. discriminate.
Qed.

(** A code block is not a copy control. *)
Lemma block_not_control : forall n p z b,
  subtree n z = Some b -> pre_code p n z = Some true -> is_control b = false.
Proof.
  induction n as [s|i tag classes attrs kids IH] using node_induction;
    intros p z b; [discriminate|].
  cbn [subtree pre_code]. destruct (Nat.eqb i z).
  - intros E P. injection E as <-. injection P as P.
    apply andb_true_iff in P. destruct P as [_ P]. apply String.eqb_eq in P. subst tag.
    reflexivity.
  - generalize (p || String.eqb tag "pre") as p'. intro p'.
    induction kids as [|k kids IHk]; [discriminate|].
    cbn [map]. rewrite first_node_cons, first_some_cons.
    destruct (subtree k z) as [c|] eqn:S.
    + intros E P. injection E as <-.
      destruct (pre_code p' k z) as [d|] eqn:Pk.
      * injection P as ->. exact (Forall_inv IH p' z c S Pk).
      * apply pre_code_mem in Pk. apply subtree_mem in Pk. congruence.
    + apply subtree_mem in S. rewrite (proj2 (pre_code_mem k p' z) S).
      apply IHk. exact (Forall_inv_tail IH).
Qed.

Lemma addCopyButtons_equip t fresh :
  ids_below fresh t = true -> NoDup (ids t) ->
  addCopyButtons (t, fresh) = equip false false t fresh.
Proof.
  intros B N. exact (visits_equip_tree t false false fresh N B).
Qed.

(** *** The claim *)

(** C8: [addCopyButtons] on a document whose element identities are distinct
    and below the next identity to give.  The list of the selector holds
    the code blocks of the document, the [code] elements below a [pre]
    element, and the pass makes no block and loses none.  A block that had
    a container keeps that container as it was, with everything in it.  A
    block that had none is, after the pass, inside a new container whose
    children are exactly one copy control, the new button, and a block of
    the document as it was before the pass.  A second invocation, and any
    further one, returns the same document and creates no element. *)
Theorem addCopyButtons_idempotent (t : node) (fresh : nat) :
  ids_below fresh t = true -> distinct (ids t) = true ->
  (forall x, In x (select false t) <-> pre_code false t x = Some true)
  /\ (forall x, pre_code false (fst (addCopyButtons (t, fresh))) x = Some true
                <-> pre_code false t x = Some true)
  /\ (forall x, pre_code false t x = Some true ->
        match closest_container None false t x with
        | Some (Some c) =>
            closest_container None false (fst (addCopyButtons (t, fresh))) x
            = Some (Some c)
        | Some None =>
            exists g z block in_pre,
              (fresh <= g)%nat
              /\ pre_code false t z = Some true
              /\ subtree t z = Some block /\ mem x block = true
              /\ closest_container None false (fst (addCopyButtons (t, fresh))) x
                 = Some (Some (in_pre,
                               Elem g "div" [container_class] []
                                 [copy_button g; block]))
              /\ filter is_control [copy_button g; block] = [copy_button g]
        | None => False
        end)
  /\ addCopyButtons (addCopyButtons (t, fresh)) = addCopyButtons (t, fresh)
  /\ forall n, Nat.iter (S n) addCopyButtons (t, fresh) = addCopyButtons (t, fresh).
Proof.
  intros B D. apply distinct_NoDup in D.
  pose proof (addCopyButtons_again t fresh B) as A.
  destruct (visits_equip (select false t) t fresh B
              (fun z Hz => select_mem t false z Hz)) as [_ [Sel _]].
  
  repeat apply conj.
  - intro x. apply pre_code_select. exact D.
  - intro x. rewrite <- (pre_code_select t false x D), <- Sel.
    symmetry. apply pre_code_select.
    exact (visits_NoDup (select false t) t fresh B D).
  - intros x P.
    assert (M : mem x t = true).
    { destruct (mem x t) eqn:M; [reflexivity|].
      apply pre_code_mem with (p := false) in M. congruence. }
    pose proof (mem_below t fresh x B M) as Lx.
    pose proof (@container_closest t false None false x eq_refl) as R.
    destruct (closest_container None false t x) as [[c|]|] eqn:C; cbn in R.
    + rewrite <- C. unfold addCopyButtons. cbn [fst].
      apply visits_keep_container; assumption.
    + destruct (equip_gives_container t false false None false fresh x D B R P)
        as [z [Z1 [Z2 [g [b [in_pre [G1 [G2 G3]]]]]]]].
      rewrite G2 in Z2.
      exists g, z, b, in_pre. rewrite (addCopyButtons_equip t fresh B D).
      repeat split; try assumption.
      cbn [filter is_control copy_button has_class existsb String.eqb Ascii.eqb
             Bool.eqb andb orb].
      rewrite (@block_not_control t false z b G2 Z1). reflexivity.
    + apply closest_mem in R. congruence.
  - exact A.
  - induction n as [|n IHn]; [reflexivity|].
    change (Nat.iter (S (S n)) addCopyButtons (t, fresh))
      with (addCopyButtons (Nat.iter (S n) addCopyButtons (t, fresh))).
    rewrite IHn. exact A.
Qed.

Definition sample_result : node :=
  Elem 0 "body" [] []
    [Elem 1 "pre" [] []
       [Elem 12 "div" [container_class] []
          [copy_button 12;
           Elem 2 "code" ["language-js"%string] []
             [Text (str "x"); Elem 3 "code" [] [] []]]];
     Elem 4 "div" [container_class] []
       [Elem 5 "div" ["code-block-header"%string] []
          [Elem 6 "button" ["copy-code-button"%string] [] []];
        Elem 7 "pre" [] [] [Elem 8 "code" [] [] [Text (str "y")]]];
     Elem 9 "p" [] [] [Text (str "z")];
     Elem 10 "pre" [] []
       [Elem 15 "div" [container_class] []
          [copy_button 15; Elem 11 "code" [] [] [Text (str "w")]]]].

(** On the sample page: the blocks are the elements 2, 3, 8 and 11; two
    containers are made, for the blocks 2 and 11; the nested block 3 is in
    that of block 2; block 8, which the renderer had put into a container
    with a control in its header, is left as it was. *)
Lemma addCopyButtons_idempotent_witness :
  select false sample_page = [2; 3; 8; 11]%nat
  /\ addCopyButtons (sample_page, 12%nat) = (sample_result, 18%nat)
  /\ closest_container None false sample_result 3
     = Some (Some (true,
                   Elem 12 "div" [container_class] []
                     [copy_button 12;
                      Elem 2 "code" ["language-js"%string] []
                        [Text (str "x"); Elem 3 "code" [] [] []]]))
  /\ closest_container None false sample_result 8
     = closest_container None false sample_page 8
  /\ addCopyButtons (addCopyButtons (sample_page, 12%nat))
     = addCopyButtons (sample_page, 12%nat).
Proof.
  destruct (@addCopyButtons_idempotent sample_page 12 eq_refl eq_refl)
    as [_ [_ [H [A _]]]].
  split; [reflexivity|]. split; [reflexivity|]. split; [reflexivity|].
  split; [exact (H 8%nat eq_refl) | exact A].
Defined.

End AttachFacts.

(** ** An inline code span through the renderer *)

Module SpanFacts.

Import Template TrimFacts RegexFacts EngineFacts NormalizeFacts StableFacts.
Import InlineFacts PlainFacts AnswerFacts FenceFacts.

(** *** Texts that the stages leave alone *)

(** The characters of a span's content that the inline stage itself or a
    later stage takes: backtick, star, opening bracket, line terminators. *)
Definition span_sign (c : Z) : bool :=
  (c =? 96) || (c =? 42) || (c =? 91) || is_lt c.

(** No [<] is directly followed by [p]. *)
Fixpoint tagless (s : jsstring) : bool :=
  match s with
  | c :: t => negb ((c =? 60) && (hd 0 t =? 112)) && tagless t
  | [] => true
  end.

Lemma tagless_app : forall a b,
  tagless a = true -> tagless b = true -> (hd 0 b =? 112) = false ->
  tagless (a ++ b) = true.
Proof.
  induction a as [|c a IH]; intros b Ta Tb Hb; [exact Tb|].
  cbn [tagless] in Ta. apply andb_true_iff in Ta. destruct Ta as [T1 T2].
  cbn [app tagless]. rewrite (IH b T2 Tb Hb), andb_true_r.
  destruct a as [|d a]; [|exact T1].
  cbn [app]. rewrite Hb, andb_false_r. reflexivity.
Qed.

Lemma tagless_plain : forall s, lacks is_open s = true -> tagless s = true.
Proof.
  induction s as [|c s IH]; intro L; [reflexivity|].
  rewrite lacks_cons in L. apply andb_true_iff in L. destruct L as [L1 L2].
  apply negb_true_iff in L1. unfold is_open in L1.
  cbn [tagless]. rewrite L1, (IH L2). reflexivity.
Qed.

Lemma tagless_quiet : forall s, tagless s = true -> includes p_open s = false.
Proof.
  induction s as [|c s IH]; intro T; [reflexivity|].
  cbn [tagless] in T. apply andb_true_iff in T. destruct T as [T1 T2].
  apply negb_true_iff in T1.
  destruct (c =? 60) eqn:E.
  - apply Z.eqb_eq in E. subst c. cbn [andb] in T1.
    destruct s as [|d s]; [reflexivity|]. cbn [hd] in T1.
    rewrite (miss_tag d s T1). exact (IH T2).
  - rewrite (miss_char c s E). exact (IH T2).
Qed.

Lemma prev_after_some P : forall u prev,
  lacks P u = true ->
  match prev with Some c => P c = false | None => True end ->
  match prev_after prev u with
  | Some c => P c = false
  | None => prev = None /\ u = []
  end.
Proof.
  induction u as [|c u IH]; intros prev L H.
  - cbn [prev_after]. destruct prev; [exact H | split; reflexivity].
  - rewrite lacks_cons in L. apply andb_true_iff in L. destruct L as [L1 L2].
    apply negb_true_iff in L1. rewrite prev_after_cons.
    specialize (IH (Some c) L2 L1).
    destruct (prev_after (Some c) u); [exact IH|].
    destruct IH as [IH _]. discriminate.
Qed.

Lemma rmatch_line_start_at m c s cs k :
  rmatch (LineStart m) (MState (Some c) s cs) k
  = if m && is_lt c then k (MState (Some c) s cs) else None.
Proof. reflexivity. Qed.

(** A text of one line that does not start with [#] has no header. *)
Lemma header_one_line (marks : string) (tail : jsstring) (f : replacer) s :
  str marks = 35 :: tail ->
  lacks is_lt s = true -> (hd 0 s =? 35) = false ->
  replace_all (re_header marks) f s = s.
Proof.
  intros Em L H. unfold replace_all.
  rewrite scan_keep; [apply render_keep|].
  intros u1 u2 E. apply exec_refused.
  change (re_header marks)
    with (Seq (LineStart true)
            (Seq (Lit (str marks))
               (Seq (Char 32) (Group 1 (Seq (Star Dot) (LineEnd true)))))).
  rewrite rmatch_seq.
  assert (L1 : lacks is_lt u1 = true).
  { rewrite E, lacks_app in L. apply andb_true_iff in L. apply L. }
  pose proof (@prev_after_some is_lt u1 None L1 I) as Pa.
  destruct (prev_after None u1) as [c|].
  - rewrite rmatch_line_start_at, Pa. reflexivity.
  - destruct Pa as [_ ->]. cbn [app] in E. subst u2.
    rewrite rmatch_line_start, rmatch_seq, rmatch_lit, Em. cbn [rest].
    destruct s as [|c s]; [reflexivity|]. cbn [hd] in H.
    cbn [strip_prefix]. rewrite Z.eqb_sym, H. reflexivity.
Qed.

Lemma starved_nl (r : regex) (f : replacer) s :
  feeds is_nl r -> lacks is_nl s = true -> replace_all r f s = s.
Proof. apply replace_all_starved. Qed.

(** A text with no three backticks in a row has no fenced block. *)
Lemma fences_quiet random s :
  includes ticks s = false -> fences random s = Some s.
Proof.
  intro H. unfold fences. rewrite scan_keep; [apply render_blocks_keep|].
  intros u1 u2 E. apply exec_refused.
  rewrite re_fence_seq, rmatch_seq, rmatch_lit. cbn [rest].
  rewrite E in H. apply includes_suffix in H. unfold startsWith in H.
  destruct (strip_prefix ticks u2); [discriminate | reflexivity].
Qed.

Lemma miss_ticks : forall u s,
  lacks is_tick u = true -> includes ticks (u ++ s) = includes ticks s.
Proof.
  induction u as [|c u IH]; intros s L; [reflexivity|].
  rewrite lacks_cons in L. apply andb_true_iff in L. destruct L as [L1 L2].
  apply negb_true_iff in L1. unfold is_tick in L1.
  cbn [app]. rewrite includes_eq. unfold startsWith, ticks. cbn [strip_prefix].
  rewrite Z.eqb_sym, L1. cbn [orb]. exact (IH s L2).
Qed.

Lemma no_fence_in_span before x after :
  lacks is_tick before = true -> x <> [] -> lacks is_tick x = true ->
  lacks is_tick after = true ->
  includes ticks (before ++ 96 :: x ++ 96 :: after) = false.
Proof.
  intros Lb Nx Lx La. rewrite (miss_ticks _ _ Lb).
  destruct x as [|c x]; [congruence|].
  rewrite lacks_cons in Lx. apply andb_true_iff in Lx. destruct Lx as [L1 L2].
  apply negb_true_iff in L1. unfold is_tick in L1.
  rewrite includes_eq. unfold startsWith at 1, ticks at 1. cbn [app strip_prefix].
  rewrite Z.eqb_refl, (Z.eqb_sym 96 c), L1. cbn [orb].
  rewrite includes_eq. unfold startsWith at 1, ticks at 1. cbn [strip_prefix].
  rewrite (Z.eqb_sym 96 c), L1. cbn [orb].
  rewrite (miss_ticks _ _ L2).
  rewrite includes_eq. unfold startsWith at 1, ticks at 1. cbn [strip_prefix].
  rewrite Z.eqb_refl.
  replace after with (after ++ []) by apply app_nil_r.
  rewrite (miss_ticks _ _ La).
  destruct after as [|a after]; [reflexivity|].
  rewrite lacks_cons in La. apply andb_true_iff in La. destruct La as [A1 _].
  apply negb_true_iff in A1. unfold is_tick in A1.
  cbn [app]. rewrite (Z.eqb_sym 96 a), A1. reflexivity.
Qed.

(** *** The three stages that look for a paragraph tag *)

Lemma exec_empty_paragraph_code prev s :
  exec re_empty_paragraph prev (str "<p><c" ++ s) = None.
Proof. reflexivity. Qed.

Lemma exec_header_in_paragraph_code prev s :
  exec re_header_in_paragraph prev (str "<p><c" ++ s) = None.
Proof. reflexivity. Qed.

Lemma exec_div_in_paragraph_code prev s :
  exec re_div_in_paragraph prev (str "<p><c" ++ s) = None.
Proof. reflexivity. Qed.

Lemma quiet_after_first r (f : replacer) c s :
  exec r None (c :: s) = None ->
  (forall prev u, startsWith p_open u = false -> exec r prev u = None) ->
  includes p_open s = false ->
  replace_all r f (c :: s) = c :: s.
Proof.
  intros E H I. unfold replace_all.
  change (scan r (S (length (c :: s))) None (c :: s))
    with (scan r (length [c] + S (length s)) None ([c] ++ s)).
  rewrite scan_pass.
  - rewrite (scan_quiet r H _ _ s I), <- map_app. apply render_keep.
  - intros u1 c' u2 Eu.
    destruct u1 as [|d u1]; [|destruct u1; discriminate].
    injection Eu as <- <-. exact E.
Qed.

(** *** The span through the stages *)

Lemma span_classes x :
  lacks span_sign x = true ->
  lacks is_tick x = true /\ lacks is_star x = true /\ lacks is_bracket x = true
  /\ lacks is_lt x = true.
Proof.
  intro L.
  repeat apply conj; apply (@lacks_weaken span_sign _ x); try exact L;
    intros c E; unfold span_sign;
    unfold is_tick, is_star, is_bracket in *; rewrite E, ?orb_true_r; reflexivity.
Qed.

Lemma lt_covers_nl s : lacks is_lt s = true -> lacks is_nl s = true.
Proof.
  apply lacks_weaken. unfold is_nl, is_lt. intros c E.
  apply Z.eqb_eq in E. subst c. reflexivity.
Qed.

Section Span.

Variables before x after : jsstring.

Hypothesis Plain_before : lacks sign_or_nl before = true.
Hypothesis Plain_after : lacks sign_or_nl after = true.
Hypothesis Signs : lacks span_sign x = true.
Hypothesis Tags : tagless x = true.

Definition span_html : jsstring := before ++ code_open ++ x ++ code_close ++ after.

Lemma span_lacks P :
  (forall c, P c = true -> sign_or_nl c = true) ->
  (forall c, P c = true -> span_sign c = true) ->
  lacks P (code_open ++ code_close) = true ->
  lacks P span_html = true.
Proof.
  intros Hs Hx Hc. unfold span_html.
  rewrite lacks_app in Hc. apply andb_true_iff in Hc. destruct Hc as [C1 C2].
  rewrite !lacks_app, C1, C2.
  rewrite (@lacks_weaken sign_or_nl P before Hs Plain_before).
  rewrite (@lacks_weaken sign_or_nl P after Hs Plain_after).
  rewrite (@lacks_weaken span_sign P x Hx Signs). reflexivity.
Qed.

Lemma span_one_line : lacks is_lt span_html = true.
Proof.
  apply span_lacks; [| |reflexivity]; intros c E.
  - unfold is_lt in E.
    repeat (apply orb_true_iff in E; destruct E as [E|E]);
      apply Z.eqb_eq in E; subst c; reflexivity.
  - unfold span_sign. rewrite E, ?orb_true_r. reflexivity.
Qed.

Lemma span_no_star : lacks is_star span_html = true.
Proof.
  apply span_lacks; [| |reflexivity]; intros c E; unfold is_star in E;
    unfold sign_or_nl, sign, span_sign; rewrite E, ?orb_true_r; reflexivity.
Qed.

Lemma span_no_bracket : lacks is_bracket span_html = true.
Proof.
  apply span_lacks; [| |reflexivity]; intros c E; unfold is_bracket in E;
    unfold sign_or_nl, sign, span_sign; rewrite E, ?orb_true_r; reflexivity.
Qed.

Lemma span_no_hash_first : (hd 0 span_html =? 35) = false.
Proof.
  unfold span_html. destruct before as [|b0 b'] eqn:Eb; [reflexivity|].
  pose proof Plain_before as L. rewrite lacks_cons in L.
  apply andb_true_iff in L. destruct L as [L _]. apply negb_true_iff in L.
  cbn [app hd]. destruct (b0 =? 35) eqn:E; [|reflexivity].
  unfold sign_or_nl, sign in L. rewrite E, ?orb_true_r in L.
  cbn in L. discriminate.
Qed.

Lemma span_quiet : includes p_open (str "p>" ++ span_html ++ str "</p>") = false.
Proof.
  apply tagless_quiet. unfold span_html.
  destruct (line_classes before Plain_before) as [_ [_ Ob]].
  destruct (line_classes after Plain_after) as [_ [_ Oa]].
  change (str "p>" ++ (before ++ code_open ++ x ++ code_close ++ after) ++ str "</p>")
    with ([112] ++ 62 :: (before ++ code_open ++ x ++ code_close ++ after)
                          ++ str "</p>").
  apply tagless_app; [reflexivity | | reflexivity].
  cbn [tagless hd]. cbn [Z.eqb andb negb].
  rewrite <- !app_assoc.
  apply tagless_app; [exact (tagless_plain before Ob) | | reflexivity].
  change (code_open ++ x ++ code_close ++ after ++ str "</p>")
    with (str "<code class=" ++ q "inline-code"
          ++ 62 :: (x ++ str "</code" ++ 62 :: (after ++ str "</p>"))).
  rewrite app_assoc.
  apply tagless_app; [reflexivity | | reflexivity].
  cbn [tagless hd]. cbn [Z.eqb andb negb].
  apply tagless_app; [exact Tags | | reflexivity].
  apply tagless_app; [reflexivity | | reflexivity].
  cbn [tagless hd]. cbn [Z.eqb andb negb].
  apply tagless_app; [exact (tagless_plain after Oa) | reflexivity | reflexivity].
Qed.

Lemma span_first (r : regex) :
  (forall prev u, startsWith p_open u = false -> exec r prev u = None) ->
  (forall prev u, exec r prev (str "<p><c" ++ u) = None) ->
  exec r None (60 :: str "p>" ++ span_html ++ str "</p>") = None.
Proof.
  intros Hm Hc. unfold span_html.
  destruct before as [|b0 b'] eqn:Eb.
  - cbn [app].
    replace ((code_open ++ x ++ code_close ++ after) ++ str "</p>")
      with (code_open ++ x ++ code_close ++ after ++ str "</p>")
      by (rewrite <- !app_assoc; reflexivity).
    exact (Hc None (str "ode class=" ++ q "inline-code" ++ str ">"
                    ++ x ++ code_close ++ after ++ str "</p>")).
  - apply Hm.
    pose proof Plain_before as L. rewrite lacks_cons in L.
    apply andb_true_iff in L. destruct L as [L _]. apply negb_true_iff in L.
    assert (E : (b0 =? 60) = false).
    { destruct (b0 =? 60) eqn:E; [|reflexivity].
      unfold sign_or_nl, sign in L. rewrite E, ?orb_true_r in L.
      cbn in L. discriminate. }
    change (startsWith [60; 112; 62; 60]
              (60 :: 112 :: 62 :: b0 :: (b' ++ code_open ++ x ++ code_close ++ after)
                                         ++ str "</p>") = false).
    rewrite !startsWith_cons, (Z.eqb_sym 60 b0), E. reflexivity.
Qed.

Lemma elements_of_span :
  markdown_elements span_html = str "<p>" ++ span_html ++ str "</p>".
Proof.
  pose proof span_one_line as Llt.
  pose proof (lt_covers_nl _ Llt) as Lnl.
  unfold markdown_elements. cbv zeta.
  rewrite (@header_one_line "#" [] _ span_html eq_refl Llt span_no_hash_first).
  rewrite (@header_one_line "##" [35] _ span_html eq_refl Llt span_no_hash_first).
  rewrite (@header_one_line "###" [35; 35] _ span_html eq_refl Llt span_no_hash_first).
  rewrite bold_plain by exact span_no_star.
  rewrite italic_plain by exact span_no_star.
  rewrite link_plain by exact span_no_bracket.
  rewrite (@starved_nl re_paragraph_break _ span_html) by (exact Lnl || (left; reflexivity)).
  rewrite (@starved_nl (Char nl) _ span_html) by (exact Lnl || reflexivity).
  rewrite whole_stage by exact Llt.
  change (str "<p>" ++ span_html ++ str "</p>")
    with (60 :: str "p>" ++ span_html ++ str "</p>").
  rewrite quiet_after_first;
    [|exact (@span_first re_empty_paragraph exec_empty_paragraph_miss exec_empty_paragraph_code)
     |exact exec_empty_paragraph_miss | exact span_quiet].
  rewrite quiet_after_first;
    [|exact (@span_first re_header_in_paragraph exec_header_in_paragraph_miss exec_header_in_paragraph_code)
     |exact exec_header_in_paragraph_miss | exact span_quiet].
  rewrite quiet_after_first;
    [|exact (@span_first re_div_in_paragraph exec_div_in_paragraph_miss exec_div_in_paragraph_code)
     |exact exec_div_in_paragraph_miss | exact span_quiet].
  replace (60 :: str "p>" ++ span_html ++ str "</p>")
    with (str "<" ++ (str "p>" ++ span_html ++ str "</p") ++ str ">")
    by (rewrite <- !app_assoc; reflexivity).
  apply trim_tagged.
Qed.

End Span.

Lemma normalize_span before x after :
  lacks sign_or_nl before = true -> lacks sign_or_nl after = true ->
  lacks span_sign x = true ->
  is_ws (hd 0 before) = false -> is_ws (last after 0) = false ->
  normalize (before ++ tick :: x ++ tick :: after)
  = before ++ tick :: x ++ tick :: after.
Proof.
  intros Pb Pa Sx Hb Ha.
  destruct (line_classes before Pb) as [_ [Lb _]].
  destruct (line_classes after Pa) as [_ [La _]].
  destruct (span_classes x Sx) as [_ [_ [_ Lx]]].
  rewrite normalize_squeeze.
  assert (T : trim (before ++ tick :: x ++ tick :: after)
              = before ++ tick :: x ++ tick :: after).
  { apply trim_fixed. right. split.
    - destruct before as [|b0 b']; [reflexivity | exact Hb].
    - destruct after as [|a0 a'].
      + replace (before ++ tick :: x ++ [tick]) with ((before ++ tick :: x) ++ [tick])
          by (rewrite <- app_assoc; reflexivity).
        rewrite last_last. reflexivity.
      + replace (before ++ tick :: x ++ tick :: a0 :: a')
          with ((before ++ tick :: x ++ [tick]) ++ a0 :: a')
          by (rewrite <- !app_assoc; cbn [app]; rewrite <- app_assoc; reflexivity).
        rewrite last_app_nonempty by discriminate. exact Ha. }
  rewrite T. apply squeeze_calm.
  rewrite <- (app_nil_r (before ++ tick :: x ++ tick :: after)).
  rewrite calm_pass; [reflexivity|].
  apply lt_covers_nl.
  rewrite lacks_app, lacks_cons, lacks_app, lacks_cons, Lb, Lx, La. reflexivity.
Qed.

(** *** The claim *)




End SpanFacts.
